(** * ShadowDom: the mirror of the page DOM kept by the layout plugin

    A shallow embedding of the class [ShadowDom] (src/src/clarity.ts) and a
    verification of the properties its specification states.

    - The page DOM is read-only for the class: a live node is a handle
      ([Node]) together with the child list reachable from it ([LiveNode]).
    - The property [node[NodeIndex]] of live nodes is the field [nodeIndex]
      of the state, a finite map from handles to indices.
    - The shadow document is a forest of [div] elements in the
      first-child / next-sibling form of the DOM ([Forest]).  A reference
      to an element is its [id] attribute: the class creates one element
      per index, and [WF] below states that ids are pairwise distinct.
      The embedding follows the code on such documents; what a method
      does to one element is stated under [NoDup (allIds s)].
    - Methods are computations in a state and exception monad [M]:
      DOM calls can throw, and the object keeps the state it had when
      they do.
    - Indices are JavaScript numbers holding integers; they are modelled
      by [nat], which is exact below 2^53. *)

From stdpp Require Import base gmap list strings.
From Stdlib Require Import Lia.

#[local] Set Warnings "-clear-no-such-hyp".

(** ** The live DOM *)

Definition Node := nat.

(** The global [document]. *)
Definition document : Node := 0.

(** A reference to a live node: its identity and the live child list that
    [lastChild] / [previousSibling] / [nextSibling] enumerate. *)
Local Unset Elimination Schemes.
Inductive LiveNode := Live (n : Node) (childNodes : list LiveNode).
Local Set Elimination Schemes.

Definition handle (l : LiveNode) : Node :=
  match l with Live n _ => n end.

Definition liveChildren (l : LiveNode) : list LiveNode :=
  match l with Live _ ks => ks end.

(** ** Shadow elements *)

Inductive ClassName :=
  | FinalClassName
  | NewNodeClassName
  | TopNewNodeClassName
  | MovedNodeClassName
  | UpdatedNodeClassName.

Global Instance ClassName_eq_dec : EqDecision ClassName.
Proof. solve_decision. Defined.

(** [ILayoutState] is declared outside the class; only its [tag] is read. *)
Record ILayoutState := { tag : string }.

Record IShadowDomNode := {
  elId : nat;                       (* the id attribute, "" + index *)
  elNode : Node;                    (* shadowNode.node *)
  elLayout : option ILayoutState;   (* shadowNode.layout *)
  elIgnore : bool;                  (* shadowNode.ignore *)
  classList : list ClassName        (* shadowNode.classList *)
}.

(** DOMTokenList operations. *)
Definition contains (c : ClassName) (l : list ClassName) : bool :=
  bool_decide (c ∈ l).

Definition add (c : ClassName) (l : list ClassName) : list ClassName :=
  if contains c l then l else l ++ [c].

Definition removeToken (c : ClassName) (l : list ClassName) : list ClassName :=
  filter (λ x, x ≠ c) l.

Definition withClassList (g : list ClassName → list ClassName)
    (e : IShadowDomNode) : IShadowDomNode :=
  {| elId := elId e; elNode := elNode e; elLayout := elLayout e;
     elIgnore := elIgnore e; classList := g (classList e) |}.

Definition withLayout (l : ILayoutState) (ign : bool)
    (e : IShadowDomNode) : IShadowDomNode :=
  {| elId := elId e; elNode := elNode e; elLayout := Some l;
     elIgnore := ign; classList := classList e |}.

Definition elHas (c : ClassName) (e : IShadowDomNode) : bool :=
  contains c (classList e).

(** ** Forests of elements *)

(** [Cons e kids next]: element [e], its child list [kids] (from
    [firstChild] on) and the siblings that follow it. *)
Inductive Forest :=
  | Nil
  | Cons (e : IShadowDomNode) (kids : Forest) (next : Forest).

(** Document order. *)
Fixpoint elements (f : Forest) : list IShadowDomNode :=
  match f with
  | Nil => []
  | Cons e kids next => e :: elements kids ++ elements next
  end.

(** [childNodes] of the container whose child list is [f]. *)
Fixpoint topLevel (f : Forest) : list IShadowDomNode :=
  match f with
  | Nil => []
  | Cons e _ next => e :: topLevel next
  end.

Definition ids (f : Forest) : list nat := elId <$> elements f.

Definition hasId (i : nat) (f : Forest) : bool := bool_decide (i ∈ ids f).

(** The first element in document order whose id is [i], with its child
    list. *)
Fixpoint getElementById (i : nat) (f : Forest) : option (IShadowDomNode * Forest) :=
  match f with
  | Nil => None
  | Cons e kids next =>
      if decide (elId e = i) then Some (e, kids)
      else match getElementById i kids with
           | Some r => Some r
           | None => getElementById i next
           end
  end.

(** A reference to a [div] of the shadow document: [shadowDomRoot],
    [removedNodes], or the shadow element with id [i]. *)
Inductive Ref :=
  | RootDiv
  | RemovedDiv
  | Elem (i : nat).

Global Instance Ref_eq_dec : EqDecision Ref.
Proof. solve_decision. Defined.

(** [parentNode] of the first element with id [i]; [p] is the container of
    the forest itself. *)
Fixpoint parentIn (i : nat) (p : Ref) (f : Forest) : option Ref :=
  match f with
  | Nil => None
  | Cons e kids next =>
      if decide (elId e = i) then Some p
      else match parentIn i (Elem (elId e)) kids with
           | Some q => Some q
           | None => parentIn i p next
           end
  end.

(** [nextSibling] of the first element with id [i] (its id, if any). *)
Fixpoint nextSiblingIn (i : nat) (f : Forest) : option (option nat) :=
  match f with
  | Nil => None
  | Cons e kids next =>
      if decide (elId e = i) then
        Some (match next with Nil => None | Cons e' _ _ => Some (elId e') end)
      else match nextSiblingIn i kids with
           | Some r => Some r
           | None => nextSiblingIn i next
           end
  end.

(** Apply [g] to the element(s) with id [i]; the shape is unchanged. *)
Fixpoint updateById (i : nat) (g : IShadowDomNode → IShadowDomNode)
    (f : Forest) : Forest :=
  match f with
  | Nil => Nil
  | Cons e kids next =>
      Cons (if decide (elId e = i) then g e else e)
           (updateById i g kids) (updateById i g next)
  end.

(** Take the first element with id [i], and its subtree, out of [f]. *)
Fixpoint removeById (i : nat) (f : Forest) : Forest :=
  match f with
  | Nil => Nil
  | Cons e kids next =>
      if decide (elId e = i) then next
      else if hasId i kids then Cons e (removeById i kids) next
      else Cons e kids (removeById i next)
  end.

(** Insert the subtree [(e, kids)] into the child list [f], before the
    first child with id [ref]; at the end when [ref] is null. *)
Fixpoint insertTop (ref : option nat) (e : IShadowDomNode) (kids : Forest)
    (f : Forest) : Forest :=
  match f with
  | Nil => Cons e kids Nil
  | Cons x xkids xnext =>
      if decide (ref = Some (elId x)) then Cons e kids f
      else Cons x xkids (insertTop ref e kids xnext)
  end.

(** Insert the subtree [(e, kids)] into the child list of the first
    element with id [p]. *)
Fixpoint insertUnder (p : nat) (ref : option nat) (e : IShadowDomNode)
    (kids : Forest) (f : Forest) : Forest :=
  match f with
  | Nil => Nil
  | Cons x xkids xnext =>
      if decide (elId x = p) then Cons x (insertTop ref e kids xkids) xnext
      else if hasId p xkids then Cons x (insertUnder p ref e kids xkids) xnext
      else Cons x xkids (insertUnder p ref e kids xnext)
  end.

(** ** The state of a [ShadowDom] object *)

Record ShadowDom := {
  nextIndex : nat;
  removedNodes : Forest;        (* child list of the removedNodes div *)
  removedAttached : bool;       (* removedNodes is under doc.documentElement *)
  shadowDomRoot : Forest;       (* child list of the shadowDomRoot div *)
  shadowDocument : option nat;  (* the mirror of [document], once created *)
  classifyNodes : bool;
  nodeIndex : gmap Node nat;    (* node[NodeIndex] for every live node *)
  reports : list (string * string)  (* what [assert] has been told *)
}.

(** [new ShadowDom()]. *)
Definition newShadowDom : ShadowDom :=
  {| nextIndex := 0; removedNodes := Nil; removedAttached := false;
     shadowDomRoot := Nil; shadowDocument := None; classifyNodes := false;
     nodeIndex := ∅; reports := [] |}.

Definition setForests (root removed : Forest) (s : ShadowDom) : ShadowDom :=
  {| nextIndex := nextIndex s; removedNodes := removed;
     removedAttached := removedAttached s; shadowDomRoot := root;
     shadowDocument := shadowDocument s; classifyNodes := classifyNodes s;
     nodeIndex := nodeIndex s; reports := reports s |}.

Definition setRemovedAttached (b : bool) (s : ShadowDom) : ShadowDom :=
  {| nextIndex := nextIndex s; removedNodes := removedNodes s;
     removedAttached := b; shadowDomRoot := shadowDomRoot s;
     shadowDocument := shadowDocument s; classifyNodes := classifyNodes s;
     nodeIndex := nodeIndex s; reports := reports s |}.

Definition setClassifyNodes (b : bool) (s : ShadowDom) : ShadowDom :=
  {| nextIndex := nextIndex s; removedNodes := removedNodes s;
     removedAttached := removedAttached s; shadowDomRoot := shadowDomRoot s;
     shadowDocument := shadowDocument s; classifyNodes := b;
     nodeIndex := nodeIndex s; reports := reports s |}.

Definition setShadowDocument (d : option nat) (s : ShadowDom) : ShadowDom :=
  {| nextIndex := nextIndex s; removedNodes := removedNodes s;
     removedAttached := removedAttached s; shadowDomRoot := shadowDomRoot s;
     shadowDocument := d; classifyNodes := classifyNodes s;
     nodeIndex := nodeIndex s; reports := reports s |}.

Definition setRegistry (next : nat) (m : gmap Node nat) (s : ShadowDom) : ShadowDom :=
  {| nextIndex := next; removedNodes := removedNodes s;
     removedAttached := removedAttached s; shadowDomRoot := shadowDomRoot s;
     shadowDocument := shadowDocument s; classifyNodes := classifyNodes s;
     nodeIndex := m; reports := reports s |}.

Definition addReport (r : string * string) (s : ShadowDom) : ShadowDom :=
  {| nextIndex := nextIndex s; removedNodes := removedNodes s;
     removedAttached := removedAttached s; shadowDomRoot := shadowDomRoot s;
     shadowDocument := shadowDocument s; classifyNodes := classifyNodes s;
     nodeIndex := nodeIndex s; reports := reports s ++ [r] |}.

(** The elements of [this.doc]: those under [shadowDomRoot], then those
    under [removedNodes] while it is attached. *)
Definition removedInDoc (s : ShadowDom) : Forest :=
  if removedAttached s then removedNodes s else Nil.

Definition docElements (s : ShadowDom) : list IShadowDomNode :=
  elements (shadowDomRoot s) ++ elements (removedInDoc s).

(** [this.doc.getElementById]. *)
Definition docGetElementById (i : nat) (s : ShadowDom)
    : option (IShadowDomNode * Forest) :=
  match getElementById i (shadowDomRoot s) with
  | Some r => Some r
  | None => getElementById i (removedInDoc s)
  end.

(** Following a reference to an element, attached or not. *)
Definition deref (i : nat) (s : ShadowDom) : option (IShadowDomNode * Forest) :=
  match getElementById i (shadowDomRoot s) with
  | Some r => Some r
  | None => getElementById i (removedNodes s)
  end.

Definition parentNode (i : nat) (s : ShadowDom) : option Ref :=
  match parentIn i RootDiv (shadowDomRoot s) with
  | Some p => Some p
  | None => parentIn i RemovedDiv (removedNodes s)
  end.

Definition nextSiblingOf (i : nat) (s : ShadowDom) : option nat :=
  match nextSiblingIn i (shadowDomRoot s) with
  | Some r => r
  | None => default None (nextSiblingIn i (removedNodes s))
  end.

Definition updateElement (i : nat) (g : IShadowDomNode → IShadowDomNode)
    (s : ShadowDom) : ShadowDom :=
  setForests (updateById i g (shadowDomRoot s))
             (updateById i g (removedNodes s)) s.

Definition detachElement (i : nat) (s : ShadowDom) : ShadowDom :=
  if hasId i (shadowDomRoot s)
  then setForests (removeById i (shadowDomRoot s)) (removedNodes s) s
  else setForests (shadowDomRoot s) (removeById i (removedNodes s)) s.

Definition attachElement (parent : Ref) (ref : option nat)
    (e : IShadowDomNode) (kids : Forest) (s : ShadowDom) : ShadowDom :=
  match parent with
  | RootDiv => setForests (insertTop ref e kids (shadowDomRoot s)) (removedNodes s) s
  | RemovedDiv => setForests (shadowDomRoot s) (insertTop ref e kids (removedNodes s)) s
  | Elem p =>
      if hasId p (shadowDomRoot s)
      then setForests (insertUnder p ref e kids (shadowDomRoot s)) (removedNodes s) s
      else setForests (shadowDomRoot s) (insertUnder p ref e kids (removedNodes s)) s
  end.

(** ** Computations *)

Inductive Exception :=
  | HierarchyRequestError   (* DOMException of insertBefore / appendChild *)
  | NotFoundError           (* DOMException of insertBefore *)
  | TypeError               (* property access on null *)
  | AssertionFailure        (* [assert], when it throws *)
  | StepLimit.              (* the step bound of a loop of this embedding *)

Inductive Outcome (A : Type) :=
  | Returns (a : A) (s : ShadowDom)
  | Throws (x : Exception) (s : ShadowDom).
Global Arguments Returns {A} a s.
Global Arguments Throws {A} x s.

Definition M (A : Type) : Type := ShadowDom → Outcome A.

Global Instance M_ret : MRet M := λ A a s, Returns a s.

Global Instance M_bind : MBind M := λ A B k m s,
  match m s with
  | Returns a s' => k a s'
  | Throws x s' => Throws x s'
  end.

Definition get : M ShadowDom := λ s, Returns s s.
Definition modify (g : ShadowDom → ShadowDom) : M unit := λ s, Returns () (g s).
Definition throw {A} (x : Exception) : M A := λ s, Throws x s.

Definition finalState {A} (o : Outcome A) : ShadowDom :=
  match o with Returns _ s => s | Throws _ s => s end.

Definition returned {A} (o : Outcome A) : option A :=
  match o with Returns a _ => Some a | Throws _ _ => None end.

(** Modelled from the spec: [getNodeIndex] of stateprovider is not under
    src/; it is the registry's [resolve(liveNode) -> index | unknown],
    null for a null node. *)
Definition getNodeIndex (node : option Node) (s : ShadowDom) : option nat :=
  n ← node; nodeIndex s !! n.

Record IShadowDomMutationSummary := {
  newNodes : list nat;
  movedNodes : list nat;
  updatedNodes : list nat;
  removedSummary : list nat   (* the field [removedNodes] of the summary *)
}.

Inductive MutationRecord :=
  | Attributes (target : Node)
  | CharacterData (target : Node)
  | ChildList (target : Node) (addedNodes : list LiveNode)
      (removedNodes : list Node) (previousSibling nextSibling : option Node)
  | OtherType.

Section Methods.

(** [assert] of utils is not under src/.  It is told the source and the
    comment of a condition that failed; whether it then throws is left
    open here, as [assertThrows].  [IgnoreTag] is a constant of
    stateprovider. *)
Variable assertThrows : bool.
Variable IgnoreTag : string.

Definition assert (condition : bool) (source comment : string) : M unit :=
  if condition then mret ()
  else modify (addReport (source, comment));;
       if assertThrows then throw AssertionFailure else mret ().

Definition getShadowNode (index : option nat) (s : ShadowDom)
    : option (IShadowDomNode * Forest) :=
  i ← index; docGetElementById i s.

(** [hasClass], [setClass], [removeClass], [removeAllClasses]: the
    reference can be null; the two container divs carry no class. *)
Definition hasClass (shadowNode : option Ref) (className : ClassName)
    (s : ShadowDom) : bool :=
  match shadowNode with
  | Some (Elem i) =>
      match deref i s with
      | Some (e, _) => elHas className e
      | None => false
      end
  | _ => false
  end.

Definition setClass (shadowNode : option Ref) (className : ClassName) : M unit :=
  match shadowNode with
  | Some (Elem i) => modify (updateElement i (withClassList (add className)))
  | _ => mret ()
  end.

Definition removeClass (shadowNode : option Ref) (className : ClassName) : M unit :=
  match shadowNode with
  | Some (Elem i) => modify (updateElement i (withClassList (removeToken className)))
  | _ => mret ()
  end.

Definition removeAllClasses (shadowNode : option Ref) : M unit :=
  match shadowNode with
  | Some (Elem i) => modify (updateElement i (withClassList (λ _, [])))
  | _ => mret ()
  end.

Definition setNodeIndex (node : Node) : M nat := λ s,
  match getNodeIndex (Some node) s with
  | Some index =>
      Returns index (setRegistry (nextIndex s) (<[node := index]> (nodeIndex s)) s)
  | None =>
      let index := nextIndex s in
      Returns index (setRegistry (S (nextIndex s)) (<[node := index]> (nodeIndex s)) s)
  end.

(** [parent.insertBefore(shadowNode, nextSibling)] for an element that is
    not yet in a tree; [parent.appendChild(shadowNode)] when [nextSibling]
    is null. *)
Definition insertNew (parent : Ref) (e : IShadowDomNode)
    (nextSibling : option nat) : M unit := λ s,
  match nextSibling with
  | Some r =>
      if decide (parentNode r s = Some parent)
      then Returns () (attachElement parent nextSibling e Nil s)
      else Throws NotFoundError s
  | None => Returns () (attachElement parent None e Nil s)
  end.

(** The same two calls for an element that is in a tree: it must not
    contain [parent], [nextSibling] must be a child of [parent], and the
    element leaves its old place. *)
Definition insertExisting (parent : Ref) (i : nat)
    (nextSibling : option nat) : M unit := λ s,
  match deref i s with
  | None => Returns () s
  | Some (e, kids) =>
      if match parent with
         | Elem p => bool_decide (p = i) || hasId p kids
         | _ => false
         end
      then Throws HierarchyRequestError s
      else if match nextSibling with
              | Some r => bool_decide (parentNode r s ≠ Some parent)
              | None => false
              end
      then Throws NotFoundError s
      else
        let ref := if decide (nextSibling = Some i) then nextSiblingOf i s
                   else nextSibling in
        Returns () (attachElement parent ref e kids (detachElement i s))
  end.

Definition refOf (r : option (IShadowDomNode * Forest)) : option Ref :=
  Elem ∘ elId ∘ fst <$> r.

Definition insertShadowNode (node : Node) (parentIndex nextSiblingIndex : option nat)
    (layout : option ILayoutState) : M (option Ref) :=
  let isDocument := bool_decide (node = document) in
  index ← setNodeIndex node;
  s ← get;
  let parentEl := getShadowNode parentIndex s in
  let parent := if isDocument then Some RootDiv else refOf parentEl in
  let nextSibling := getShadowNode nextSiblingIndex s in
  let ignore := if isDocument then false
                else match parentEl with Some (p, _) => elIgnore p | None => false end in
  let shadowNode :=
    {| elId := index; elNode := node; elLayout := layout;
       elIgnore := match layout with
                   | Some l => bool_decide (tag l = IgnoreTag) || ignore
                   | None => ignore
                   end;
       classList := [] |} in
  (if isDocument then modify (setShadowDocument (Some index)) else mret ());;
  assert (bool_decide (is_Some parent)) "insertShadowNode" "parent is missing";;
  match parent with
  | None => mret None
  | Some p =>
      let shadowNode :=
        if classifyNodes s then
          let e1 := withClassList (add NewNodeClassName) shadowNode in
          if negb (hasClass parent NewNodeClassName s)
          then withClassList (add TopNewNodeClassName) e1 else e1
        else shadowNode in
      insertNew p shadowNode (elId ∘ fst <$> nextSibling);;
      mret (Some (Elem index))
  end.

Definition moveShadowNode (index newParentIndex newNextSiblingIndex : option nat)
    : M (option Ref) :=
  s ← get;
  let shadowNode := refOf (getShadowNode index s) in
  let parent := refOf (getShadowNode newParentIndex s) in
  let nextSibling := getShadowNode newNextSiblingIndex s in
  assert (bool_decide (is_Some parent)) "moveShadowNode" "parent is missing";;
  assert (bool_decide (is_Some shadowNode)) "moveShadowNode" "shadowNode is missing";;
  match parent, shadowNode with
  | Some p, Some (Elem i) =>
      (if classifyNodes s then
         setClass shadowNode MovedNodeClassName;;
         s1 ← get;
         if hasClass parent NewNodeClassName s1
         then removeClass shadowNode TopNewNodeClassName
         else setClass shadowNode TopNewNodeClassName
       else mret ());;
      insertExisting p i (elId ∘ fst <$> nextSibling);;
      mret shadowNode
  | _, _ => mret None
  end.

Definition updateShadowNode (index : option nat) (newLayout : option ILayoutState)
    : M unit :=
  s ← get;
  let shadowNode := refOf (getShadowNode index s) in
  assert (bool_decide (is_Some shadowNode)) "updateShadowNode" "shadowNode is missing";;
  match shadowNode with
  | Some (Elem i) =>
      match newLayout with
      | Some l => modify (updateElement i (withLayout l (bool_decide (tag l = IgnoreTag))))
      | None => mret ()
      end;;
      if classifyNodes s then setClass shadowNode UpdatedNodeClassName else mret ()
  | _ => mret ()
  end.

Definition removeShadowNode (index : option nat) : M unit :=
  s ← get;
  let shadowNode := refOf (getShadowNode index s) in
  assert (bool_decide (is_Some shadowNode)) "removeShadowNode" "shadowNode is missing";;
  match shadowNode with
  | Some (Elem i) => insertExisting RemovedDiv i None
  | _ => mret ()
  end.

Definition shouldProcessChildListMutation (child parent : Node) (s : ShadowDom) : bool :=
  let childNodeIndex := getNodeIndex (Some child) s in
  let parentIndex := getNodeIndex (Some parent) s in
  let parentShadowNode :=
    match childNodeIndex with
    | None => refOf (getShadowNode parentIndex s)
    | Some _ =>
        match getShadowNode childNodeIndex s with
        | Some (c, _) => parentNode (elId c) s
        | None => None
        end
    end in
  bool_decide (is_Some parentShadowNode)
  && negb (hasClass parentShadowNode FinalClassName s).

Fixpoint applyInsert (addedNode : LiveNode) (parent : Node)
    (previousSibling nextSibling : option Node) (force : bool) : M unit :=
  s ← get;
  let addedNodeIndex := getNodeIndex (Some (handle addedNode)) s in
  let parentIndex := getNodeIndex (Some parent) s in
  let nextSiblingIndex := getNodeIndex nextSibling s in
  let validMutation :=
    shouldProcessChildListMutation (handle addedNode) parent s || force in
  if validMutation then
    match addedNodeIndex with
    | None =>
        shadowNode ← insertShadowNode (handle addedNode) parentIndex nextSiblingIndex None;
        setClass shadowNode FinalClassName;;
        (* the live children, from lastChild back to firstChild *)
        match addedNode with
        | Live n childNodes =>
            (fix children (l : list LiveNode) (previous : option Node) : M unit :=
               match l with
               | [] => mret ()
               | nextChild :: l' =>
                   children l' (Some (handle nextChild));;
                   applyInsert nextChild n previous (handle <$> head l') true
               end) childNodes None
        end
    | Some _ =>
        s' ← get;
        moveShadowNode addedNodeIndex parentIndex (getNodeIndex nextSibling s');;
        mret ()
    end
  else mret ().

Definition applyRemove (removedNode parent : Node) : M unit :=
  s ← get;
  let removedNodeIndex := getNodeIndex (Some removedNode) s in
  match removedNodeIndex with
  | Some _ =>
      if shouldProcessChildListMutation removedNode parent s
      then removeShadowNode removedNodeIndex
      else mret ()
  | None => mret ()
  end.

Definition applyUpdate (updatedNode : Node) : M unit :=
  s ← get;
  let updatedNodeIndex := getNodeIndex (Some updatedNode) s in
  match updatedNodeIndex with
  | Some _ => updateShadowNode updatedNodeIndex None
  | None => mret ()
  end.

(** The loop over [mutation.addedNodes], from the last to the first. *)
Fixpoint applyAdded (added : list LiveNode) (target : Node)
    (previous : option Node) (nextSibling : option Node) : M unit :=
  match added with
  | [] => mret ()
  | a :: rest =>
      applyAdded rest target (Some (handle a)) nextSibling;;
      applyInsert a target previous
        (match rest with [] => nextSibling | b :: _ => Some (handle b) end) false
  end.

Fixpoint applyRemoved (removed : list Node) (target : Node) : M unit :=
  match removed with
  | [] => mret ()
  | r :: rest => applyRemove r target;; applyRemoved rest target
  end.

Definition applyMutation (mutation : MutationRecord) : M unit :=
  match mutation with
  | Attributes target | CharacterData target => applyUpdate target
  | ChildList target added removed previousSibling nextSibling =>
      applyAdded added target previousSibling nextSibling;;
      applyRemoved removed target
  | OtherType => mret ()
  end.

Fixpoint applyMutations (mutations : list MutationRecord) : M unit :=
  match mutations with
  | [] => mret ()
  | m :: rest => applyMutation m;; applyMutations rest
  end.

(** [this.doc.getElementsByClassName], a live collection: it is read
    again at every use. *)
Definition getElementsByClassName (className : ClassName) (s : ShadowDom)
    : list IShadowDomNode :=
  filter (λ e, elHas className e = true) (docElements s).

Definition childNodesOf (i : nat) (s : ShadowDom) : list nat :=
  match deref i s with
  | Some (_, kids) => elId <$> topLevel kids
  | None => []
  end.

(** [while (discoverQueue.length > 0)]. *)
Fixpoint discover (steps : nat) (discoverQueue : list nat) (out : list nat)
    : M (list nat) :=
  match discoverQueue with
  | [] => mret out
  | next :: queue =>
      match steps with
      | 0 => throw StepLimit
      | S steps' =>
          s ← get;
          if hasClass (Some (Elem next)) NewNodeClassName s then
            removeClass (Some (Elem next)) NewNodeClassName;;
            s' ← get;
            discover steps' (queue ++ reverse (childNodesOf next s')) (out ++ [next])
          else discover steps' queue out
      end
  end.

Definition discoverSteps (s : ShadowDom) : nat :=
  S (2 * (length (elements (shadowDomRoot s)) + length (elements (removedNodes s)))).

(** [while (topNewNodes.length > 0)]. *)
Fixpoint collectNew (steps : nat) (out : list nat) : M (list nat) :=
  s ← get;
  match getElementsByClassName NewNodeClassName s with
  | [] => mret out
  | topNode :: _ =>
      match steps with
      | 0 => throw StepLimit
      | S steps' =>
          out' ← discover (discoverSteps s) [elId topNode] out;
          collectNew steps' out'
      end
  end.

(** [while (c.length > 0) { next = c[0]; ...; act(next) }] for a live
    collection [c] of the elements of class [className]. *)
Fixpoint sweep (className : ClassName) (act : option Ref → M unit)
    (steps : nat) (out : list nat) : M (list nat) :=
  s ← get;
  match getElementsByClassName className s with
  | [] => mret out
  | next :: _ =>
      match steps with
      | 0 => throw StepLimit
      | S steps' =>
          act (Some (Elem (elId next)));;
          sweep className act steps' (out ++ [elId next])
      end
  end.

Definition countClass (className : ClassName) (s : ShadowDom) : nat :=
  length (getElementsByClassName className s).

Definition getMutationSummary : M IShadowDomMutationSummary :=
  s0 ← get;
  new ← collectNew (countClass NewNodeClassName s0) [];
  s1 ← get;
  moved ← sweep MovedNodeClassName removeAllClasses
             (countClass MovedNodeClassName s1) [];
  s2 ← get;
  updated ← sweep UpdatedNodeClassName removeAllClasses
               (countClass UpdatedNodeClassName s2) [];
  s3 ← get;
  let removed :=
    elId <$> filter (λ e, elHas NewNodeClassName e = false)
                    (topLevel (removedNodes s3)) in
  mret {| newNodes := new; movedNodes := moved; updatedNodes := updated;
          removedSummary := removed |}.

Definition applyMutationBatch (mutations : list MutationRecord)
    : M IShadowDomMutationSummary :=
  modify (setRemovedAttached true);;
  modify (setClassifyNodes true);;
  applyMutations mutations;;
  (* Detach removed nodes *)
  modify (setRemovedAttached false);;
  summary ← getMutationSummary;
  (* Clean up the state to be ready for next mutation batch processing *)
  s ← get;
  sweep FinalClassName (λ r, removeClass r FinalClassName)
        (countClass FinalClassName s) [];;
  modify (λ s, setForests (shadowDomRoot s) Nil s);;
  modify (setClassifyNodes false);;
  mret summary.

(** Modelled from the spec: [traverseNodeTree] of utils is not under
    src/; the validator "performs a document-order traversal" of either
    tree, calling the function on every node. *)
Fixpoint traverseNodeTree (node : LiveNode) : list Node :=
  match node with
  | Live n childNodes => n :: flat_map traverseNodeTree childNodes
  end.

Definition traverseShadowTree (root : IShadowDomNode * Forest) : list Node :=
  elNode root.1 :: (elNode <$> elements root.2).

Definition mirrorsRealDom (liveDocument : LiveNode) : M bool :=
  s ← get;
  assert (bool_decide (is_Some (shadowDocument s))) "mirrorsRealDom"
         "shadowDocument is missing";;
  match shadowDocument s with
  | None => throw TypeError
  | Some d =>
      assert (match deref d s with
              | Some (e, _) => bool_decide (elNode e = document)
              | None => true
              end) "mirrorsRealDom" "shadowDocument.node !== document";;
      let domIndices :=
        (λ n, getNodeIndex (Some n) s) <$> traverseNodeTree liveDocument in
      let shadowDomIndices :=
        (λ n, getNodeIndex (Some n) s) <$>
          match deref d s with
          | Some r => traverseShadowTree r
          | None => [document]
          end in
      mret (bool_decide (domIndices = shadowDomIndices))
  end.




(** * Specification vocabulary *)

(** The loop over the live children in [applyInsert], given the function
    applied to each child. *)
Definition discoverChildren
    (insert : LiveNode → Node → option Node → option Node → bool → M unit)
    (n : Node) : list LiveNode → option Node → M unit :=
  fix children (l : list LiveNode) (previous : option Node) : M unit :=
    match l with
    | [] => mret ()
    | nextChild :: l' =>
        children l' (Some (handle nextChild));;
        insert nextChild n previous (handle <$> head l') true
    end.

(** [P] holds in the state a computation ends in, whether it returns or
    throws, whenever it holds in the state it starts in. *)
Definition always {A} (P : ShadowDom → Prop) (m : M A) : Prop :=
  ∀ s, P s → P (finalState (m s)).

(** [Q] holds of the result and the state whenever the computation, run
    in [s], returns. *)
Definition returnsWith {A} (m : M A) (s : ShadowDom)
    (Q : A → ShadowDom → Prop) : Prop :=
  match m s with
  | Returns a s' => Q a s'
  | Throws _ _ => True
  end.

(** Predicates that only the registry, the flags or the shadow document
    reference can change: they survive every change of the forests and of
    the reports. *)
Record Stable (P : ShadowDom → Prop) : Prop := {
  stable_forests : ∀ r d s, P s → P (setForests r d s);
  stable_report : ∀ x s, P s → P (addReport x s);
  stable_document : ∀ d s, P s → P (setShadowDocument d s);
  stable_registry : ∀ node s, P s → P (finalState (setNodeIndex node s))
}.

(** The registry: every index handed out is below [nextIndex], and no two
    live nodes hold the same index. *)
Definition Registry (s : ShadowDom) : Prop :=
  (∀ n i, nodeIndex s !! n = Some i → i < nextIndex s) ∧
  (∀ n m i, nodeIndex s !! n = Some i → nodeIndex s !! m = Some i → n = m).

(** [s'] is a later state of the registry of [s]: entries are kept, and
    every entry added since holds an index that was not yet handed out. *)
Definition RegistryGrows (s s' : ShadowDom) : Prop :=
  nextIndex s ≤ nextIndex s' ∧
  (∀ n i, nodeIndex s !! n = Some i → nodeIndex s' !! n = Some i) ∧
  (∀ n i, nodeIndex s' !! n = Some i →
          nodeIndex s !! n = Some i ∨ nextIndex s ≤ i).

(** The calls a client can make on the object. *)
Inductive Call :=
  | CallInsertShadowNode (node : Node) (parentIndex nextSiblingIndex : option nat)
      (layout : option ILayoutState)
  | CallMoveShadowNode (index newParentIndex newNextSiblingIndex : option nat)
  | CallUpdateShadowNode (index : option nat) (newLayout : option ILayoutState)
  | CallRemoveShadowNode (index : option nat)
  | CallApplyMutationBatch (mutations : list MutationRecord)
  | CallGetMutationSummary
  | CallMirrorsRealDom (liveDocument : LiveNode)
  | CallSetClass (shadowNode : option Ref) (className : ClassName)
  | CallRemoveClass (shadowNode : option Ref) (className : ClassName)
  | CallRemoveAllClasses (shadowNode : option Ref).

Definition allElements (s : ShadowDom) : list IShadowDomNode :=
  elements (shadowDomRoot s) ++ elements (removedNodes s).

Definition allIds (s : ShadowDom) : list nat := elId <$> allElements s.

(** Well-formed shadow documents: one element per id, every id an index
    that was handed out. *)
Definition WF (s : ShadowDom) : Prop :=
  NoDup (allIds s) ∧ (∀ i, i ∈ allIds s → i < nextIndex s).

(** Apply [h] to every element. *)
Fixpoint mapForest (h : IShadowDomNode → IShadowDomNode) (f : Forest) : Forest :=
  match f with
  | Nil => Nil
  | Cons e kids next => Cons (h e) (mapForest h kids) (mapForest h next)
  end.

(** The state a call leaves the object in, whether it returns or throws. *)
Definition run (c : Call) (s : ShadowDom) : ShadowDom :=
  match c with
  | CallInsertShadowNode node p n l => finalState (insertShadowNode node p n l s)
  | CallMoveShadowNode i p n => finalState (moveShadowNode i p n s)
  | CallUpdateShadowNode i l => finalState (updateShadowNode i l s)
  | CallRemoveShadowNode i => finalState (removeShadowNode i s)
  | CallApplyMutationBatch ms => finalState (applyMutationBatch ms s)
  | CallGetMutationSummary => finalState (getMutationSummary s)
  | CallMirrorsRealDom live => finalState (mirrorsRealDom live s)
  | CallSetClass r c => finalState (setClass r c s)
  | CallRemoveClass r c => finalState (removeClass r c s)
  | CallRemoveAllClasses r => finalState (removeAllClasses r s)
  end.

Definition runAll (cs : list Call) (s : ShadowDom) : ShadowDom :=
  foldl (λ s c, run c s) s cs.

(** [applyMutationBatch] in two halves: what it does before and after the
    records are applied. *)
Definition startBatch (s : ShadowDom) : ShadowDom :=
  setClassifyNodes true (setRemovedAttached true s).

Definition finishBatch : M IShadowDomMutationSummary :=
  modify (setRemovedAttached false);;
  summary ← getMutationSummary;
  s ← get;
  sweep FinalClassName (λ r, removeClass r FinalClassName)
        (countClass FinalClassName s) [];;
  modify (λ s, setForests (shadowDomRoot s) Nil s);;
  modify (setClassifyNodes false);;
  mret summary.

(** Every element of [s'] has the class list it had in [s], or none. *)
Definition addsNoTags (s s' : ShadowDom) : Prop :=
  ∀ e, e ∈ allElements s' →
    classList e = [] ∨
    ∃ e0, e0 ∈ allElements s ∧ elId e0 = elId e ∧ classList e0 = classList e.

(** The id and the class list of an element. *)
Definition tagging (e : IShadowDomNode) : nat * list ClassName :=
  (elId e, classList e).

(** The elements of [s'] are those of [s], each with the id and the class
    list it has in [s], and the elements [created], which have no class. *)
Definition keepsClassLists (s s' : ShadowDom) (created : list IShadowDomNode)
    : Prop :=
  Forall (λ e, classList e = []) created ∧
  tagging <$> allElements s' ≡ₚ tagging <$> (created ++ allElements s).


(** Apply [h] to every element of the shadow document and of the holding
    area. *)
Definition mapClasses (h : IShadowDomNode → IShadowDomNode) (s : ShadowDom) : ShadowDom :=
  setForests (mapForest h (shadowDomRoot s)) (mapForest h (removedNodes s)) s.

(** What a sweep over class [c] does to an element: [g] on the class list
    of an element of the class, nothing otherwise. *)
Definition swept (c : ClassName) (g : list ClassName → list ClassName)
    (e : IShadowDomNode) : IShadowDomNode :=
  if elHas c e then withClassList g e else e.

(** The element has lost [cl-new] if its id is in [X]. *)
Definition stripNew (X : list nat) (e : IShadowDomNode) : IShadowDomNode :=
  if bool_decide (elId e ∈ X) then withClassList (removeToken NewNodeClassName) e else e.

(** The node with id [i] is tagged [cl-new]. *)
Definition isNew (s : ShadowDom) (i : nat) : Prop :=
  hasClass (Some (Elem i)) NewNodeClassName s = true.

(** A bound on the steps of [discover]: every element tagged [cl-new]
    counts for itself and for the children it will put in the queue. *)
Fixpoint weight (f : Forest) : nat :=
  match f with
  | Nil => 0
  | Cons e kids next =>
      (if elHas NewNodeClassName e then S (length (topLevel kids)) else 0)
      + weight kids + weight next
  end.

Definition stateWeight (s : ShadowDom) : nat :=
  weight (shadowDomRoot s) + weight (removedNodes s).

Global Instance isNew_dec s i : Decision (isNew s i).
Proof. unfold isNew. apply _. Defined.

(** The state of the loop that collects the new nodes, after the nodes
    [X] have been put in the list: they have lost [cl-new]. *)
Definition strip (s : ShadowDom) (X : list nat) : ShadowDom :=
  mapClasses (stripNew X) s.

(** Still tagged [cl-new] when [X] have been put in the list. *)
Definition curNew (s : ShadowDom) (X : list nat) (i : nat) : Prop :=
  isNew s i ∧ i ∉ X.

Global Instance curNew_dec s X i : Decision (curNew s X i).
Proof. unfold curNew. apply _. Defined.

(** The children of [p] that are tagged [cl-new], from the last to the
    first. *)
Definition segment (s : ShadowDom) (p : nat) : list nat :=
  filter (isNew s) (reverse (childNodesOf p s)).

(** The list so far, followed by the nodes of the queue that are going to
    be put in it. *)
Definition pending (s : ShadowDom) (q out : list nat) : list nat :=
  out ++ filter (curNew s out) q.

(** What holds of the queue [q] and the list [out] throughout the loop. *)
Record QueueInv (s : ShadowDom) (q out : list nat) : Prop := {
  inv_nodup : NoDup (pending s q out);
  inv_new : ∀ y, y ∈ pending s q out → isNew s y ∧ y ∈ ids (shadowDomRoot s);
  inv_parent : ∀ p c,
    c ∈ pending s q out → c ∈ childNodesOf p s → isNew s p →
    p ∈ ids (shadowDomRoot s) → p ∈ out;
  inv_segment : ∀ p, p ∈ out →
    ∃ l1 l2 l3, pending s q out = l1 ++ p :: l2 ++ segment s p ++ l3;
  inv_head :
    pending s q out = [] ∨
    head (pending s q out) = head (filter (isNew s) (ids (shadowDomRoot s)))
}.

(** What holds while the records of a batch are applied to an object whose
    next index was [n0] when the batch started: the flag is set, the
    shadow document is well formed, and every element created since is
    tagged [cl-new]. *)
Definition BatchInv (n0 : nat) (s : ShadowDom) : Prop :=
  classifyNodes s = true ∧
  WF s ∧
  (∀ n i, nodeIndex s !! n = Some i → i < nextIndex s) ∧
  (∀ e, e ∈ allElements s → n0 ≤ elId e → elHas NewNodeClassName e = true).

(** The computation does not use up the step bound of a loop. *)
Definition withinSteps {A} (m : M A) (s : ShadowDom) : Prop :=
  match m s with
  | Throws StepLimit _ => False
  | _ => True
  end.

(** No element carries a tag that a method reads: [cl-new-top] apart, the
    class lists are empty of the tags of a batch. *)
Definition cleared (s : ShadowDom) : Prop :=
  ∀ e c, e ∈ allElements s → c ≠ TopNewNodeClassName → elHas c e = false.

(** The calls that change structure or payload. *)
Definition structural (c : Call) : Prop :=
  match c with
  | CallInsertShadowNode _ _ _ _ | CallMoveShadowNode _ _ _
  | CallUpdateShadowNode _ _ => True
  | _ => False
  end.



(** * Reasoning about computations *)

Lemma LiveNode_induction (P : LiveNode → Prop) :
  (∀ n ks, Forall P ks → P (Live n ks)) → ∀ l, P l.
Proof.
  intros H. fix IH 1. intros [n ks]. apply H.
  induction ks as [|k ks IHks]; constructor; [apply IH | exact IHks].
Qed.

Lemma bind_eq {A B} (m : M A) (k : A → M B) s :
  (m ≫= k) s = match m s with
               | Returns a s' => k a s'
               | Throws x s' => Throws x s'
               end.
Proof. reflexivity. Qed.

Lemma read_eq {B} (k : ShadowDom → M B) s : (get ≫= k) s = k s s.
Proof. reflexivity. Qed.

Lemma ret_eq {A} (a : A) s : (mret a : M A) s = Returns a s.
Proof. reflexivity. Qed.

Lemma applyInsert_eq addedNode parent previousSibling nextSibling force :
  applyInsert addedNode parent previousSibling nextSibling force =
  (s ← get;
   let addedNodeIndex := getNodeIndex (Some (handle addedNode)) s in
   let parentIndex := getNodeIndex (Some parent) s in
   let nextSiblingIndex := getNodeIndex nextSibling s in
   if shouldProcessChildListMutation (handle addedNode) parent s || force then
     match addedNodeIndex with
     | None =>
         shadowNode ← insertShadowNode (handle addedNode) parentIndex nextSiblingIndex None;
         setClass shadowNode FinalClassName;;
         discoverChildren applyInsert (handle addedNode) (liveChildren addedNode) None
     | Some _ =>
         s' ← get;
         moveShadowNode addedNodeIndex parentIndex (getNodeIndex nextSibling s');;
         mret ()
     end
   else mret ()).
Proof. destruct addedNode; reflexivity. Qed.

Lemma always_ret {A} P (a : A) : always P (mret a).
Proof. intros s Hs. exact Hs. Qed.

Lemma always_throw {A} P x : always P (throw (A:=A) x).
Proof. intros s Hs. exact Hs. Qed.

Lemma always_get P : always P get.
Proof. intros s Hs. exact Hs. Qed.

Lemma always_modify P g : (∀ s, P s → P (g s)) → always P (modify g).
Proof. intros H s Hs. apply H, Hs. Qed.

Lemma always_bind {A B} P (m : M A) (k : A → M B) :
  always P m → (∀ a, always P (k a)) → always P (m ≫= k).
Proof.
  intros Hm Hk s Hs. rewrite bind_eq. specialize (Hm s Hs).
  destruct (m s) as [a s'|x s']; simpl in *; [by apply Hk | done].
Qed.

(** After reading the state, the continuation may use what it read. *)
Lemma always_read {B} P (k : ShadowDom → M B) :
  (∀ s, P s → P (finalState (k s s))) → always P (get ≫= k).
Proof. intros H s Hs. rewrite bind_eq. simpl. by apply H. Qed.

Lemma always_read' {B} P (k : ShadowDom → M B) :
  (∀ s0, P s0 → always P (k s0)) → always P (get ≫= k).
Proof. intros H s Hs. rewrite bind_eq. cbn. by apply H. Qed.

Ltac always_step :=
  lazymatch goal with
  | |- always _ (get ≫= _) => apply always_read'; intros ? ?
  | |- always _ (mret _) => apply always_ret
  | |- always _ get => apply always_get
  | |- always _ (throw _) => apply always_throw
  | |- always _ (_ ≫= _) => apply always_bind; [|intros ?]
  | |- always _ (if ?b then _ else _) => destruct b
  | |- always _ (match ?x with _ => _ end) => destruct x
  | |- always _ (let _ := _ in _) => cbv zeta
  end.

Ltac always_auto := repeat always_step.

Lemma returnsWith_elim {A} (m : M A) s Q a s' :
  returnsWith m s Q → m s = Returns a s' → Q a s'.
Proof. unfold returnsWith. intros H Heq. by rewrite Heq in H. Qed.

Lemma returnsWith_intro {A} (m : M A) s (Q : A → ShadowDom → Prop) :
  (∀ a s', m s = Returns a s' → Q a s') → returnsWith m s Q.
Proof. unfold returnsWith. intros H. destruct (m s); [by apply H | done]. Qed.

Lemma returnsWith_weaken {A} (m : M A) s (Q Q' : A → ShadowDom → Prop) :
  returnsWith m s Q → (∀ a s', Q a s' → Q' a s') → returnsWith m s Q'.
Proof. unfold returnsWith. destruct (m s); auto. Qed.

Lemma returnsWith_bind {A B} (m : M A) (k : A → M B) s Q :
  returnsWith m s (λ a s1, returnsWith (k a) s1 Q) → returnsWith (m ≫= k) s Q.
Proof. unfold returnsWith. rewrite bind_eq. by destruct (m s). Qed.

Lemma returnsWith_skip {A B} (m : M A) (k : A → M B) s Q :
  (∀ a s1, returnsWith (k a) s1 Q) → returnsWith (m ≫= k) s Q.
Proof.
  intros H. apply returnsWith_bind. unfold returnsWith at 1.
  destruct (m s); [apply H | done].
Qed.

Lemma returnsWith_ret {A} (a : A) s (Q : A → ShadowDom → Prop) :
  Q a s → returnsWith (mret a) s Q.
Proof. done. Qed.

Lemma returnsWith_modify g s (Q : unit → ShadowDom → Prop) :
  Q () (g s) → returnsWith (modify g) s Q.
Proof. done. Qed.

Lemma returnsWith_get s (Q : ShadowDom → ShadowDom → Prop) :
  Q s s → returnsWith get s Q.
Proof. done. Qed.

Lemma returnsWith_always {A} P (m : M A) s :
  always P m → P s → returnsWith m s (λ _ s', P s').
Proof.
  intros H Hs. specialize (H s Hs). unfold returnsWith. by destruct (m s).
Qed.

Section StableInvariants.
Context (P : ShadowDom → Prop) (HP : Stable P).

Lemma stable_updateElement i g s : P s → P (updateElement i g s).
Proof. apply HP. Qed.

Lemma stable_detachElement i s : P s → P (detachElement i s).
Proof. unfold detachElement. destruct (hasId _ _); apply HP. Qed.

Lemma stable_attachElement p ref e kids s : P s → P (attachElement p ref e kids s).
Proof.
  unfold attachElement. destruct p; [apply HP .. |].
  destruct (hasId _ _); apply HP.
Qed.

Lemma always_assert c src msg : always P (assert c src msg).
Proof.
  unfold assert. always_auto; try apply always_modify; try apply HP.
Qed.

Lemma always_setClass r c : always P (setClass r c).
Proof. unfold setClass. always_auto; apply always_modify, stable_updateElement. Qed.

Lemma always_removeClass r c : always P (removeClass r c).
Proof. unfold removeClass. always_auto; apply always_modify, stable_updateElement. Qed.

Lemma always_removeAllClasses r : always P (removeAllClasses r).
Proof. unfold removeAllClasses. always_auto; apply always_modify, stable_updateElement. Qed.

Lemma always_setNodeIndex node : always P (setNodeIndex node).
Proof. intros s. apply HP. Qed.

Lemma always_insertNew p e r : always P (insertNew p e r).
Proof.
  intros s Hs. unfold insertNew.
  destruct r; [destruct (decide _)|]; simpl; auto using stable_attachElement.
Qed.

Lemma always_insertExisting p i r : always P (insertExisting p i r).
Proof.
  intros s Hs. unfold insertExisting.
  destruct (deref i s) as [[e kids]|]; [|done].
  repeat case_match; cbn [finalState]; try done.
  all: by apply stable_attachElement, stable_detachElement.
Qed.

Lemma always_insertShadowNode node p n l : always P (insertShadowNode node p n l).
Proof.
  unfold insertShadowNode.
  always_auto; auto using always_setNodeIndex, always_assert, always_insertNew.
  apply always_modify, HP.
Qed.

Lemma always_moveShadowNode i p n : always P (moveShadowNode i p n).
Proof.
  unfold moveShadowNode.
  always_auto;
    auto using always_assert, always_insertExisting, always_setClass, always_removeClass.
Qed.

Lemma always_updateShadowNode i l : always P (updateShadowNode i l).
Proof.
  unfold updateShadowNode.
  always_auto; auto using always_assert, always_setClass.
  apply always_modify, stable_updateElement.
Qed.

Lemma always_removeShadowNode i : always P (removeShadowNode i).
Proof.
  unfold removeShadowNode.
  always_auto; auto using always_assert, always_insertExisting.
Qed.

Lemma always_discoverChildren insert n ks :
  Forall (λ k, ∀ parent prev next force, always P (insert k parent prev next force)) ks →
  ∀ prev, always P (discoverChildren insert n ks prev).
Proof.
  induction 1 as [|k ks Hk _ IH]; intros prev; cbn [discoverChildren]; always_auto; auto.
Qed.

Lemma always_applyInsert a :
  ∀ parent prev next force, always P (applyInsert a parent prev next force).
Proof.
  induction a as [n ks IH] using LiveNode_induction. intros. rewrite applyInsert_eq.
  always_auto;
    auto using always_insertShadowNode, always_setClass, always_moveShadowNode.
  by apply always_discoverChildren.
Qed.

Lemma always_applyRemove r parent : always P (applyRemove r parent).
Proof. unfold applyRemove. always_auto; auto using always_removeShadowNode. Qed.

Lemma always_applyUpdate n : always P (applyUpdate n).
Proof. unfold applyUpdate. always_auto; auto using always_updateShadowNode. Qed.

Lemma always_applyAdded added target :
  ∀ prev next, always P (applyAdded added target prev next).
Proof.
  induction added as [|a rest IH]; intros; cbn [applyAdded]; always_auto;
    auto using always_applyInsert.
Qed.

Lemma always_applyRemoved removed target : always P (applyRemoved removed target).
Proof.
  induction removed as [|r rest IH]; cbn [applyRemoved]; always_auto;
    auto using always_applyRemove.
Qed.

Lemma always_applyMutation m : always P (applyMutation m).
Proof.
  destruct m; cbn [applyMutation]; always_auto;
    auto using always_applyUpdate, always_applyAdded, always_applyRemoved.
Qed.

Lemma always_applyMutations ms : always P (applyMutations ms).
Proof.
  induction ms as [|m ms IH]; cbn [applyMutations]; always_auto;
    auto using always_applyMutation.
Qed.

Lemma always_discover steps : ∀ q out, always P (discover steps q out).
Proof.
  induction steps as [|n IH]; intros [|x q] out; cbn [discover]; always_auto;
    auto using always_removeClass.
Qed.

Lemma always_collectNew steps : ∀ out, always P (collectNew steps out).
Proof.
  induction steps as [|n IH]; intros out; cbn [collectNew]; always_auto;
    auto using always_discover.
Qed.

Lemma always_sweep c act steps :
  (∀ r, always P (act r)) → ∀ out, always P (sweep c act steps out).
Proof.
  intros Hact. induction steps as [|n IH]; intros out; cbn [sweep]; always_auto; auto.
Qed.

Lemma always_getMutationSummary : always P getMutationSummary.
Proof.
  unfold getMutationSummary.
  always_auto;
    auto using always_collectNew, always_sweep, always_removeAllClasses.
Qed.

Lemma always_mirrorsRealDom live : always P (mirrorsRealDom live).
Proof. unfold mirrorsRealDom. always_auto; auto using always_assert. Qed.

End StableInvariants.


(** * The registry (claim C9) *)

Lemma always_applyMutationBatch P ms :
  Stable P →
  (∀ b s, P s → P (setRemovedAttached b s)) →
  (∀ b s, P s → P (setClassifyNodes b s)) →
  always P (applyMutationBatch ms).
Proof.
  intros HP Ha Hc. unfold applyMutationBatch.
  always_auto;
    auto using always_modify, always_applyMutations, always_getMutationSummary,
      always_sweep, always_removeClass.
  apply always_modify. intros s. apply HP.
Qed.

Lemma always_run P c :
  Stable P →
  (∀ b s, P s → P (setRemovedAttached b s)) →
  (∀ b s, P s → P (setClassifyNodes b s)) →
  ∀ s, P s → P (run c s).
Proof.
  intros HP Ha Hc s Hs. destruct c; cbn [run].
  - by apply always_insertShadowNode.
  - by apply always_moveShadowNode.
  - by apply always_updateShadowNode.
  - by apply always_removeShadowNode.
  - by apply always_applyMutationBatch.
  - by apply always_getMutationSummary.
  - by apply always_mirrorsRealDom.
  - by apply always_setClass.
  - by apply always_removeClass.
  - by apply always_removeAllClasses.
Qed.

Lemma setNodeIndex_known node i s :
  getNodeIndex (Some node) s = Some i → setNodeIndex node s = Returns i s.
Proof.
  unfold setNodeIndex. intros H. rewrite H. f_equal.
  cbn in H. rewrite insert_id by done. by destruct s.
Qed.

Lemma setNodeIndex_unknown node s :
  getNodeIndex (Some node) s = None →
  setNodeIndex node s =
    Returns (nextIndex s)
      (setRegistry (S (nextIndex s)) (<[node := nextIndex s]> (nodeIndex s)) s).
Proof. unfold setNodeIndex. by intros ->. Qed.

Lemma Registry_setNodeIndex node s :
  Registry s → Registry (finalState (setNodeIndex node s)).
Proof.
  intros [Hlt Hinj].
  destruct (getNodeIndex (Some node) s) as [i|] eqn:Hi.
  { by rewrite (setNodeIndex_known _ _ _ Hi). }
  rewrite (setNodeIndex_unknown _ _ Hi). cbn in Hi. split; cbn.
  - intros n i. rewrite lookup_insert. case_decide; [intros [= <-]; lia|].
    intros Hn%Hlt. lia.
  - intros n m i. rewrite !lookup_insert.
    repeat case_decide; subst; try done.
    + intros [= <-] Hm%Hlt. lia.
    + intros Hn%Hlt [= <-]. lia.
    + apply Hinj.
Qed.

Lemma RegistryGrows_refl s : RegistryGrows s s.
Proof. split; [done|]. split; auto. Qed.

Lemma RegistryGrows_setNodeIndex s0 node s :
  Registry s → RegistryGrows s0 s →
  RegistryGrows s0 (finalState (setNodeIndex node s)).
Proof.
  intros [Hlt _] (Hle & Hkeep & Hnew).
  destruct (getNodeIndex (Some node) s) as [i|] eqn:Hi.
  { by rewrite (setNodeIndex_known _ _ _ Hi). }
  rewrite (setNodeIndex_unknown _ _ Hi). cbn in Hi.
  split; [cbn; lia|]. split; cbn.
  - intros n i Hn%Hkeep. rewrite lookup_insert_ne; [done|]. congruence.
  - intros n i. rewrite lookup_insert. case_decide; [intros [= <-]; right; lia|].
    apply Hnew.
Qed.

Lemma Stable_registry s0 :
  Stable (λ s, Registry s ∧ RegistryGrows s0 s).
Proof.
  split; try done.
  intros node s [H1 H2]. split.
  - by apply Registry_setNodeIndex.
  - by apply RegistryGrows_setNodeIndex.
Qed.

Lemma Registry_run c s :
  Registry s → Registry (run c s) ∧ RegistryGrows s (run c s).
Proof.
  intros H.
  apply (always_run (λ s', Registry s' ∧ RegistryGrows s s')).
  - apply Stable_registry.
  - done.
  - done.
  - split; [done | apply RegistryGrows_refl].
Qed.

Lemma RegistryGrows_trans s1 s2 s3 :
  RegistryGrows s1 s2 → RegistryGrows s2 s3 → RegistryGrows s1 s3.
Proof.
  intros (Hle & Hkeep & Hnew) (Hle' & Hkeep' & Hnew').
  split; [lia|]. split; [auto|].
  intros n i H. destruct (Hnew' _ _ H) as [H2|H2]; [|right; lia].
  apply Hnew, H2.
Qed.

Lemma Registry_runAll cs : ∀ s,
  Registry s → Registry (runAll cs s) ∧ RegistryGrows s (runAll cs s).
Proof.
  induction cs as [|c cs IH]; intros s H; cbn.
  - split; [done | apply RegistryGrows_refl].
  - destruct (Registry_run c s H) as [H1 H2].
    destruct (IH _ H1) as [H3 H4]. split; [done|].
    by eapply RegistryGrows_trans.
Qed.

Lemma Registry_new : Registry newShadowDom.
Proof.
  split; [intros n i H | intros n m i H _];
    change (nodeIndex newShadowDom) with (∅ : gmap Node nat) in H;
    by rewrite lookup_empty in H.
Qed.

(** C9. Index assignment is idempotent and strictly monotone:
    [setNodeIndex] returns the index a node already has and leaves the
    state as it is; for a node without index it returns [nextIndex] and
    increments it, so the index is greater than every index handed out
    before.  Whatever is called on the object afterwards (removals and
    batches included), the node keeps the index and no other node holds it
    or is given it. *)
Theorem setNodeIndex_assigns_once (s : ShadowDom) (node : Node) :
  Registry s →
  ∃ index s',
    setNodeIndex node s = Returns index s' ∧
    (∀ i, getNodeIndex (Some node) s = Some i → index = i ∧ s' = s) ∧
    (getNodeIndex (Some node) s = None →
       index = nextIndex s ∧ nextIndex s' = S (nextIndex s) ∧
       ∀ m j, nodeIndex s !! m = Some j → j < index) ∧
    getNodeIndex (Some node) s' = Some index ∧
    Registry s' ∧
    ∀ calls,
      Registry (runAll calls s') ∧
      getNodeIndex (Some node) (runAll calls s') = Some index ∧
      ∀ other, other ≠ node →
        getNodeIndex (Some other) (runAll calls s') ≠ Some index ∧
        returned (setNodeIndex other (runAll calls s')) ≠ Some index.
Proof.
  intros HR.
  assert (HR' := Registry_setNodeIndex node s HR).
  assert (∃ index s', setNodeIndex node s = Returns index s' ∧
            getNodeIndex (Some node) s' = Some index) as (index & s' & Hrun & Hget).
  { destruct (getNodeIndex (Some node) s) as [i|] eqn:Hi.
    - rewrite (setNodeIndex_known _ _ _ Hi). eauto.
    - rewrite (setNodeIndex_unknown _ _ Hi). eexists _, _. split; [done|].
      cbn. by rewrite lookup_insert_eq. }
  exists index, s'. rewrite Hrun in HR'. cbn in HR'.
  split; [done|]. split; [|split; [|split; [done|split; [done|]]]].
  - intros i Hi. rewrite (setNodeIndex_known _ _ _ Hi) in Hrun. by injection Hrun.
  - intros Hi. rewrite (setNodeIndex_unknown _ _ Hi) in Hrun.
    injection Hrun as <- <-. split; [done|]. split; [done|]. apply HR.
  - intros calls.
    destruct (Registry_runAll calls s' HR') as [[Hlt Hinj] (Hle & Hkeep & Hnew)].
    assert (getNodeIndex (Some node) (runAll calls s') = Some index) as Hget'.
    { cbn in *. by apply Hkeep. }
    split; [done|]. split; [done|].
    intros other Hne.
    assert (getNodeIndex (Some other) (runAll calls s') ≠ Some index) as Hother.
    { cbn in *. intros H. apply Hne. by eapply Hinj. }
    split; [done|].
    destruct (getNodeIndex (Some other) (runAll calls s')) as [j|] eqn:Hj.
    + rewrite (setNodeIndex_known _ _ _ Hj). cbn. congruence.
    + rewrite (setNodeIndex_unknown _ _ Hj). cbn. intros [= H].
      cbn in Hget'. apply Hlt in Hget'. lia.
Qed.


(** * Forests *)

Global Arguments ids : simpl never.
Global Arguments hasId : simpl never.

Ltac app_norm := repeat first [rewrite <- app_assoc | rewrite <- app_comm_cons].

Lemma elements_updateById i g f :
  elements (updateById i g f) =
  (λ e, if decide (elId e = i) then g e else e) <$> elements f.
Proof.
  induction f as [|e kids IHk next IHn]; [done|].
  cbn. by rewrite fmap_app, IHk, IHn.
Qed.

Lemma elements_mapForest h f : elements (mapForest h f) = h <$> elements f.
Proof.
  induction f as [|e kids IHk next IHn]; [done|].
  cbn. by rewrite fmap_app, IHk, IHn.
Qed.

Lemma topLevel_mapForest h f : topLevel (mapForest h f) = h <$> topLevel f.
Proof.
  induction f as [|e kids IHk next IHn]; [done|]. cbn. by rewrite IHn.
Qed.

Lemma topLevel_elements f e : e ∈ topLevel f → e ∈ elements f.
Proof.
  induction f as [|x kids IHk next IHn]; cbn; [done|].
  rewrite !elem_of_cons, elem_of_app. naive_solver.
Qed.

Lemma hasId_true i f : hasId i f = true ↔ i ∈ ids f.
Proof. unfold hasId. by rewrite bool_decide_eq_true. Qed.

Lemma hasId_false i f : hasId i f = false ↔ i ∉ ids f.
Proof. unfold hasId. by rewrite bool_decide_eq_false. Qed.

Lemma ids_Cons e kids next : ids (Cons e kids next) = elId e :: ids kids ++ ids next.
Proof. unfold ids. cbn. by rewrite fmap_app. Qed.

Lemma getElementById_None i f : getElementById i f = None ↔ i ∉ ids f.
Proof.
  induction f as [|e kids IHk next IHn]; cbn.
  - split; [intros _; apply not_elem_of_nil | done].
  - rewrite ids_Cons, not_elem_of_cons, not_elem_of_app, <- IHk, <- IHn.
    case_decide; [naive_solver|].
    destruct (getElementById i kids); naive_solver.
Qed.

Lemma getElementById_is_Some i f : is_Some (getElementById i f) ↔ i ∈ ids f.
Proof.
  rewrite <- not_eq_None_Some, getElementById_None.
  split; [apply dec_stable | auto].
Qed.

(** Where the element found stands in document order: its subtree follows
    it, and no element before it has the id. *)
Lemma getElementById_split i f e kids :
  getElementById i f = Some (e, kids) →
  elId e = i ∧
  ∃ l1 l2, elements f = l1 ++ e :: elements kids ++ l2 ∧ i ∉ elId <$> l1.
Proof.
  revert e kids.
  induction f as [|x xkids IHk xnext IHn]; intros e kids; cbn; [done|].
  case_decide as Hx.
  - intros [= <- <-]. split; [done|]. exists [], (elements xnext).
    split; [done | apply not_elem_of_nil].
  - destruct (getElementById i xkids) as [r|] eqn:Hk.
    + intros [= ->]. destruct (IHk _ _ eq_refl) as (Hid & l1 & l2 & Hel & Hl1).
      split; [done|]. exists (x :: l1), (l2 ++ elements xnext). split.
      * rewrite Hel. by app_norm.
      * rewrite fmap_cons, not_elem_of_cons. done.
    + intros Hn. destruct (IHn _ _ Hn) as (Hid & l1 & l2 & Hel & Hl1).
      split; [done|]. exists (x :: elements xkids ++ l1), l2. split.
      * rewrite Hel. by app_norm.
      * rewrite fmap_cons, fmap_app, not_elem_of_cons, not_elem_of_app.
        split; [done|]. split; [|done]. by apply getElementById_None.
Qed.

Lemma getElementById_elem i f e kids :
  getElementById i f = Some (e, kids) → elId e = i ∧ e ∈ elements f.
Proof.
  intros (Hid & l1 & l2 & Hel & _)%getElementById_split. split; [done|].
  rewrite Hel. set_solver.
Qed.

Lemma getElementById_kids i f e kids x :
  getElementById i f = Some (e, kids) → x ∈ elements kids → x ∈ elements f.
Proof.
  intros (Hid & l1 & l2 & Hel & _)%getElementById_split Hx.
  rewrite Hel. set_solver.
Qed.

Lemma perm_move {A} (e : A) l1 l2 l3 : l1 ++ e :: l2 ++ l3 ≡ₚ e :: l2 ++ l1 ++ l3.
Proof.
  rewrite <- Permutation_middle. f_equiv.
  rewrite !app_assoc. f_equiv. apply Permutation_app_comm.
Qed.

Lemma elements_insertTop ref e kids f :
  elements (insertTop ref e kids f) ≡ₚ e :: elements kids ++ elements f.
Proof.
  induction f as [|x xkids _ xnext IHn]; cbn.
  - done.
  - case_decide; [done|]. cbn. rewrite IHn.
    change (x :: elements xkids ++ e :: elements kids ++ elements xnext)
      with ((x :: elements xkids) ++ e :: elements kids ++ elements xnext).
    by rewrite perm_move.
Qed.

Lemma elements_insertUnder p ref e kids f :
  p ∈ ids f →
  elements (insertUnder p ref e kids f) ≡ₚ e :: elements kids ++ elements f.
Proof.
  induction f as [|x xkids IHk xnext IHn]; cbn.
  - by intros ?%elem_of_nil.
  - rewrite ids_Cons, elem_of_cons, elem_of_app. intros Hp.
    case_decide as Hx.
    + cbn. rewrite elements_insertTop.
      change (x :: (e :: elements kids ++ elements xkids) ++ elements xnext)
        with ([x] ++ e :: (elements kids ++ elements xkids) ++ elements xnext).
      rewrite <- (app_assoc (elements kids)). by rewrite perm_move.
    + destruct (hasId p xkids) eqn:Hk; cbn.
      * apply hasId_true in Hk. rewrite (IHk Hk).
        change (x :: (e :: elements kids ++ elements xkids) ++ elements xnext)
          with ([x] ++ e :: (elements kids ++ elements xkids) ++ elements xnext).
        rewrite <- (app_assoc (elements kids)). by rewrite perm_move.
      * apply hasId_false in Hk. rewrite IHn by naive_solver.
        change (x :: elements xkids ++ e :: elements kids ++ elements xnext)
          with ((x :: elements xkids) ++ e :: elements kids ++ elements xnext).
        by rewrite perm_move.
Qed.

Lemma insertUnder_absent p ref e kids f :
  p ∉ ids f → insertUnder p ref e kids f = f.
Proof.
  induction f as [|x xkids IHk xnext IHn]; cbn; [done|].
  rewrite ids_Cons, not_elem_of_cons, not_elem_of_app. intros (Hx & Hk & Hn).
  case_decide; [congruence|].
  rewrite (proj2 (hasId_false _ _) Hk). by rewrite IHn.
Qed.

Lemma elements_insertUnder_sub p ref e kids f :
  elements (insertUnder p ref e kids f) ⊆+ e :: elements kids ++ elements f.
Proof.
  destruct (decide (p ∈ ids f)) as [Hp|Hp].
  - by rewrite elements_insertUnder.
  - rewrite insertUnder_absent by done.
    apply submseteq_cons, submseteq_inserts_l. done.
Qed.

Lemma removeById_absent i f : i ∉ ids f → removeById i f = f.
Proof.
  induction f as [|x xkids IHk xnext IHn]; cbn; [done|].
  rewrite ids_Cons, not_elem_of_cons, not_elem_of_app. intros (Hx & Hk & Hn).
  case_decide; [congruence|].
  rewrite (proj2 (hasId_false _ _) Hk). by rewrite IHn.
Qed.

Lemma elements_removeById i f e kids :
  getElementById i f = Some (e, kids) →
  elements f ≡ₚ e :: elements kids ++ elements (removeById i f).
Proof.
  revert e kids.
  induction f as [|x xkids IHk xnext IHn]; intros e kids; cbn; [done|].
  case_decide as Hx.
  - by intros [= <- <-].
  - destruct (getElementById i xkids) as [r|] eqn:Hk.
    + intros [= ->].
      rewrite (proj2 (hasId_true i xkids)) by (apply getElementById_is_Some; eauto).
      cbn. rewrite (IHk _ _ eq_refl) at 1.
      change (x :: (e :: elements kids ++ elements (removeById i xkids)) ++ elements xnext)
        with ([x] ++ e :: (elements kids ++ elements (removeById i xkids)) ++ elements xnext).
      rewrite <- (app_assoc (elements kids)). by rewrite perm_move.
    + intros Hn.
      rewrite (proj2 (hasId_false i xkids)) by (by apply getElementById_None).
      cbn. rewrite (IHn _ _ Hn) at 1.
      change (x :: elements xkids ++ e :: elements kids ++ elements (removeById i xnext))
        with ((x :: elements xkids) ++ e :: elements kids ++ elements (removeById i xnext)).
      by rewrite perm_move.
Qed.


(** * Classification happens inside a batch only (claim C10) *)

Lemma bind_returns {A B} (m : M A) (k : A → M B) s b s' :
  (m ≫= k) s = Returns b s' →
  ∃ a s1, m s = Returns a s1 ∧ k a s1 = Returns b s'.
Proof. rewrite bind_eq. destruct (m s) as [a s1|]; [eauto | done]. Qed.

Lemma applyMutationBatch_eq ms s :
  applyMutationBatch ms s = (applyMutations ms;; finishBatch) (startBatch s).
Proof. reflexivity. Qed.

Lemma docGetElementById_deref i s r :
  docGetElementById i s = Some r → deref i s = Some r.
Proof.
  unfold docGetElementById, deref, removedInDoc.
  destruct (getElementById i (shadowDomRoot s)); [done|].
  destruct (removedAttached s); [done|]. done.
Qed.

Lemma deref_elem i s e kids :
  deref i s = Some (e, kids) → elId e = i ∧ e ∈ allElements s.
Proof.
  unfold deref, allElements. rewrite elem_of_app.
  destruct (getElementById i (shadowDomRoot s)) as [r|] eqn:Hr.
  - intros [= ->]. apply getElementById_elem in Hr. naive_solver.
  - intros H%getElementById_elem. naive_solver.
Qed.

Lemma allElements_updateElement i g s :
  allElements (updateElement i g s) =
  (λ e, if decide (elId e = i) then g e else e) <$> allElements s.
Proof.
  unfold allElements, updateElement. cbn.
  by rewrite fmap_app, !elements_updateById.
Qed.

Lemma allElements_detachElement i s e kids :
  deref i s = Some (e, kids) →
  allElements s ≡ₚ e :: elements kids ++ allElements (detachElement i s).
Proof.
  unfold deref, detachElement, allElements.
  destruct (getElementById i (shadowDomRoot s)) as [r|] eqn:Hr.
  - intros [= ->].
    rewrite (proj2 (hasId_true _ _)) by (apply getElementById_is_Some; eauto).
    cbn. rewrite (elements_removeById _ _ _ _ Hr) at 1. by app_norm.
  - intros Hd.
    rewrite (proj2 (hasId_false _ _)) by (by apply getElementById_None).
    cbn. rewrite (elements_removeById _ _ _ _ Hd) at 1. apply perm_move.
Qed.

Lemma allElements_attachElement p ref e kids s :
  allElements (attachElement p ref e kids s) ⊆+ e :: elements kids ++ allElements s.
Proof.
  unfold attachElement, allElements. destruct p as [| |p]; cbn.
  - rewrite elements_insertTop. by app_norm.
  - rewrite elements_insertTop. by rewrite perm_move.
  - destruct (hasId p (shadowDomRoot s)); cbn.
    + etrans; [apply submseteq_app; [apply elements_insertUnder_sub|done]|].
      by app_norm.
    + etrans; [apply submseteq_app; [done|apply elements_insertUnder_sub]|].
      by rewrite perm_move.
Qed.

Lemma Stable_classifyNodes b : Stable (λ s, classifyNodes s = b).
Proof.
  split; try done.
  intros node s. unfold setNodeIndex. by destruct (getNodeIndex _ _).
Qed.

Lemma classifyNodes_run c s :
  (∀ ms, c ≠ CallApplyMutationBatch ms) → classifyNodes (run c s) = classifyNodes s.
Proof.
  intros Hc.
  pose proof (Stable_classifyNodes (classifyNodes s)) as HP.
  destruct c; cbn [run]; try (by destruct (Hc mutations)).
  - by apply (always_insertShadowNode _ HP).
  - by apply (always_moveShadowNode _ HP).
  - by apply (always_updateShadowNode _ HP).
  - by apply (always_removeShadowNode _ HP).
  - by apply (always_getMutationSummary _ HP).
  - by apply (always_mirrorsRealDom _ HP).
  - by apply (always_setClass _ HP).
  - by apply (always_removeClass _ HP).
  - by apply (always_removeAllClasses _ HP).
Qed.

Lemma applyMutationBatch_returns_flag ms s sum s' :
  applyMutationBatch ms s = Returns sum s' → classifyNodes s' = false.
Proof.
  apply (returnsWith_elim _ _ (λ _ s', classifyNodes s' = false)).
  unfold applyMutationBatch.
  do 7 (apply returnsWith_skip; intros ? ?).
  apply returnsWith_bind, returnsWith_modify. done.
Qed.

Section NoTags.
Context (s0 : ShadowDom).

Let Quiet (s : ShadowDom) : Prop := classifyNodes s = false ∧ addsNoTags s0 s.

Lemma quiet_same_forests s s' :
  classifyNodes s' = classifyNodes s → allElements s' = allElements s →
  Quiet s → Quiet s'.
Proof.
  intros Hc He [Hf Ht]. split; [congruence|].
  intros e. rewrite He. apply Ht.
Qed.

Lemma quiet_setNodeIndex node : always Quiet (setNodeIndex node).
Proof.
  intros s. apply quiet_same_forests; unfold setNodeIndex;
    by destruct (getNodeIndex _ _).
Qed.

Lemma quiet_assert c src msg : always Quiet (assert c src msg).
Proof.
  unfold assert. always_auto; try apply always_modify;
    intros s; by apply quiet_same_forests.
Qed.

Lemma quiet_insertNew p e r : classList e = [] → always Quiet (insertNew p e r).
Proof.
  intros He s [Hf Ht].
  assert (Quiet (attachElement p r e Nil s)) as Hq.
  { split; [by destruct p as [| |p]; cbn; try destruct (hasId _ _)|].
    intros x Hx.
    eapply elem_of_submseteq in Hx; [|apply allElements_attachElement].
    cbn in Hx. rewrite elem_of_cons in Hx. destruct Hx as [->|Hx]; [by left|].
    by apply Ht. }
  unfold insertNew. destruct r; [destruct (decide _)|]; done.
Qed.

Lemma quiet_insertExisting p i r : always Quiet (insertExisting p i r).
Proof.
  intros s [Hf Ht]. unfold insertExisting.
  destruct (deref i s) as [[e kids]|] eqn:Hd; [|done].
  assert (∀ ref, Quiet (attachElement p ref e kids (detachElement i s))) as Hq.
  { intros ref. split.
    - unfold detachElement.
      by destruct p as [| |p]; cbn; destruct (hasId i _); cbn;
        try destruct (hasId p _).
    - intros x Hx.
      eapply elem_of_submseteq in Hx; [|apply allElements_attachElement].
      rewrite <- (allElements_detachElement _ _ _ _ Hd) in Hx. by apply Ht. }
  repeat case_match; cbn [finalState]; done.
Qed.

Lemma quiet_insertShadowNode node p n l : always Quiet (insertShadowNode node p n l).
Proof.
  unfold insertShadowNode. apply always_bind; [apply quiet_setNodeIndex|].
  intros index. apply always_read'. intros s [Hf _]. cbv zeta. rewrite Hf.
  always_auto; auto using quiet_assert, quiet_insertNew.
  all: apply always_modify; intros s'; by apply quiet_same_forests.
Qed.

Lemma quiet_moveShadowNode i p n : always Quiet (moveShadowNode i p n).
Proof.
  unfold moveShadowNode. apply always_read'. intros s [Hf _]. cbv zeta. rewrite Hf.
  always_auto; auto using quiet_assert, quiet_insertExisting.
Qed.

Lemma quiet_updateShadowNode i l : always Quiet (updateShadowNode i l).
Proof.
  unfold updateShadowNode. apply always_read'. intros s [Hf _]. cbv zeta. rewrite Hf.
  always_auto; auto using quiet_assert.
  apply always_modify. intros s' [Hf' Ht]. split; [done|].
  intros e. rewrite allElements_updateElement, list_elem_of_fmap.
  intros (e' & -> & He'). destruct (Ht _ He') as [Hnil|(e0 & ? & ? & ?)];
    case_decide; eauto.
Qed.

End NoTags.

Lemma addsNoTags_refl s : addsNoTags s s.
Proof. intros e He. right. eauto. Qed.


(** * Records that are skipped (claims C4 and C5) *)

Lemma applyMutations_app ms1 ms2 s :
  applyMutations (ms1 ++ ms2) s = (applyMutations ms1;; applyMutations ms2) s.
Proof.
  revert s. induction ms1 as [|m ms1 IH]; intros s; [done|].
  cbn [app applyMutations]. rewrite !bind_eq.
  destruct (applyMutation m s) as [[] s1|x s1]; [|done].
  rewrite IH. by rewrite bind_eq.
Qed.


Lemma applyInsert_skip a parent prev next s :
  shouldProcessChildListMutation (handle a) parent s = false →
  applyInsert a parent prev next false s = Returns () s.
Proof. intros H. rewrite applyInsert_eq, bind_eq. cbn. by rewrite H. Qed.

Lemma applyRemove_skip r parent s :
  shouldProcessChildListMutation r parent s = false →
  applyRemove r parent s = Returns () s.
Proof.
  intros H. unfold applyRemove. rewrite bind_eq. cbn [get]. cbv zeta. rewrite H.
  by destruct (getNodeIndex (Some r) s).
Qed.




Lemma getShadowNode_None_ref i s :
  getShadowNode i s = None → refOf (getShadowNode i s) = None.
Proof. by intros ->. Qed.




(** * Class lists and class updates *)

Lemma contains_add c l : contains c (add c l) = true.
Proof.
  unfold add. destruct (contains c l) eqn:H; [done|].
  unfold contains. rewrite bool_decide_eq_true. set_solver.
Qed.

Lemma contains_add_ne c d l : c ≠ d → contains c (add d l) = contains c l.
Proof.
  intros Hne. unfold add. destruct (contains d l); [done|].
  unfold contains. apply bool_decide_ext. set_solver.
Qed.

Lemma contains_removeToken c l : contains c (removeToken c l) = false.
Proof.
  unfold contains, removeToken. rewrite bool_decide_eq_false.
  rewrite list_elem_of_filter. naive_solver.
Qed.

Lemma contains_removeToken_ne c d l :
  c ≠ d → contains c (removeToken d l) = contains c l.
Proof.
  intros Hne. unfold contains, removeToken. apply bool_decide_ext.
  rewrite list_elem_of_filter. naive_solver.
Qed.

Lemma removeToken_absent c l : contains c l = false → removeToken c l = l.
Proof.
  unfold contains, removeToken. rewrite bool_decide_eq_false. intros H.
  induction l as [|x l IH]; [done|].
  rewrite not_elem_of_cons in H. destruct H as [Hx Hl].
  rewrite filter_cons_True by done. by rewrite IH.
Qed.

Lemma withClassList_id g e : g (classList e) = classList e → withClassList g e = e.
Proof. destruct e. unfold withClassList. cbn. by intros ->. Qed.

Lemma stripNew_nil e : stripNew [] e = e.
Proof. unfold stripNew. by rewrite bool_decide_eq_false_2 by apply not_elem_of_nil. Qed.

Lemma elId_stripNew X e : elId (stripNew X e) = elId e.
Proof. unfold stripNew. by destruct (bool_decide _). Qed.

Lemma elId_swept c g e : elId (swept c g e) = elId e.
Proof. unfold swept. by destruct (elHas c e). Qed.

Lemma elHas_stripNew X e :
  elHas NewNodeClassName (stripNew X e)
  = elHas NewNodeClassName e && negb (bool_decide (elId e ∈ X)).
Proof.
  unfold stripNew. destruct (bool_decide _); cbn.
  - unfold elHas. cbn. by rewrite contains_removeToken, andb_false_r.
  - by rewrite andb_true_r.
Qed.

Lemma elHas_stripNew_ne c X e :
  c ≠ NewNodeClassName → elHas c (stripNew X e) = elHas c e.
Proof.
  intros Hc. unfold stripNew. destruct (bool_decide _); [|done].
  unfold elHas. cbn. by apply contains_removeToken_ne.
Qed.

Lemma stripNew_step X x e :
  (if decide (elId (stripNew X e) = x)
   then withClassList (removeToken NewNodeClassName) (stripNew X e)
   else stripNew X e) = stripNew (X ++ [x]) e.
Proof.
  rewrite elId_stripNew. unfold stripNew.
  destruct (decide (elId e = x)) as [Hx|Hx].
  - rewrite (bool_decide_eq_true_2 (elId e ∈ X ++ [x])) by set_solver.
    destruct (bool_decide _); [|done].
    destruct e. unfold withClassList. cbn. f_equal.
    apply removeToken_absent, contains_removeToken.
  - rewrite (bool_decide_ext (elId e ∈ X ++ [x]) (elId e ∈ X)); [done|].
    set_solver.
Qed.

(** ** Maps over forests *)

Lemma updateById_mapForest i g f :
  updateById i g f = mapForest (λ e, if decide (elId e = i) then g e else e) f.
Proof. induction f as [|e kids IHk next IHn]; [done|]. cbn. by rewrite IHk, IHn. Qed.

Lemma mapForest_compose h1 h2 f :
  mapForest h1 (mapForest h2 f) = mapForest (h1 ∘ h2) f.
Proof. induction f as [|e kids IHk next IHn]; [done|]. cbn. by rewrite IHk, IHn. Qed.

Lemma mapForest_ext h1 h2 f :
  (∀ e, e ∈ elements f → h1 e = h2 e) → mapForest h1 f = mapForest h2 f.
Proof.
  induction f as [|e kids IHk next IHn]; [done|]. cbn. intros H.
  rewrite H, IHk, IHn; [done | | | ]; set_solver.
Qed.

Lemma mapForest_id h f : (∀ e, e ∈ elements f → h e = e) → mapForest h f = f.
Proof.
  induction f as [|e kids IHk next IHn]; [done|]. cbn. intros H.
  rewrite H, IHk, IHn; [done | | | ]; set_solver.
Qed.

Lemma ids_mapForest h f : (∀ e, elId (h e) = elId e) → ids (mapForest h f) = ids f.
Proof.
  intros H. unfold ids. rewrite elements_mapForest, <- list_fmap_compose.
  apply list_fmap_ext. intros ? e _. apply H.
Qed.

Lemma getElementById_mapForest h i f :
  (∀ e, elId (h e) = elId e) →
  getElementById i (mapForest h f)
  = (λ r, (h r.1, mapForest h r.2)) <$> getElementById i f.
Proof.
  intros H. induction f as [|e kids IHk next IHn]; [done|]. cbn.
  rewrite H. case_decide; [done|]. rewrite IHk, IHn.
  by destruct (getElementById i kids).
Qed.

Lemma getElementById_NoDup f e :
  NoDup (ids f) → e ∈ elements f →
  ∃ kids, getElementById (elId e) f = Some (e, kids).
Proof.
  induction f as [|x xkids IHk xnext IHn]; cbn; [by intros _ ?%elem_of_nil|].
  rewrite ids_Cons, NoDup_cons, NoDup_app, not_elem_of_app.
  intros ((Hxk & Hxn) & Hk & Hdisj & Hn).
  rewrite elem_of_cons, elem_of_app. intros [->|[He|He]].
  - rewrite decide_True by done. eauto.
  - assert (elId e ∈ ids xkids) as Hin by (by apply list_elem_of_fmap_2).
    rewrite decide_False by (intros Heq; by rewrite Heq in Hxk).
    destruct (IHk Hk He) as [kids ->]. eauto.
  - assert (elId e ∈ ids xnext) as Hin by (by apply list_elem_of_fmap_2).
    rewrite decide_False by (intros Heq; by rewrite Heq in Hxn).
    rewrite (proj2 (getElementById_None _ _)) by (intros ?; by eapply Hdisj).
    by apply IHn.
Qed.

Lemma mapClasses_updateElement i g s :
  updateElement i g s = mapClasses (λ e, if decide (elId e = i) then g e else e) s.
Proof. unfold updateElement, mapClasses. by rewrite !updateById_mapForest. Qed.

Lemma mapClasses_compose h1 h2 s :
  mapClasses h1 (mapClasses h2 s) = mapClasses (h1 ∘ h2) s.
Proof. unfold mapClasses. cbn. by rewrite !mapForest_compose. Qed.

Lemma mapClasses_ext h1 h2 s :
  (∀ e, e ∈ allElements s → h1 e = h2 e) → mapClasses h1 s = mapClasses h2 s.
Proof.
  intros H. unfold mapClasses.
  rewrite (mapForest_ext h1 h2 (shadowDomRoot s)),
    (mapForest_ext h1 h2 (removedNodes s)); [done | |];
    intros e He; apply H; unfold allElements; set_solver.
Qed.

Lemma mapClasses_id h s : (∀ e, e ∈ allElements s → h e = e) → mapClasses h s = s.
Proof.
  intros H. unfold mapClasses.
  rewrite !mapForest_id; [by destruct s | |];
    intros e He; apply H; unfold allElements; set_solver.
Qed.

Lemma allElements_mapClasses h s : allElements (mapClasses h s) = h <$> allElements s.
Proof. unfold allElements, mapClasses. cbn. by rewrite fmap_app, !elements_mapForest. Qed.

Lemma allIds_mapClasses h s :
  (∀ e, elId (h e) = elId e) → allIds (mapClasses h s) = allIds s.
Proof.
  intros H. unfold allIds. rewrite allElements_mapClasses, <- list_fmap_compose.
  apply list_fmap_ext. intros ? e _. apply H.
Qed.


(** * The sweeps of [getMutationSummary] and of the cleanup *)

Lemma docElements_detached s :
  removedAttached s = false → docElements s = elements (shadowDomRoot s).
Proof. unfold docElements, removedInDoc. intros ->. apply app_nil_r. Qed.

Lemma NoDup_fmap_eq {A B} (f : A → B) (l : list A) x y :
  NoDup (f <$> l) → x ∈ l → y ∈ l → f x = f y → x = y.
Proof.
  induction l as [|a l IH]; cbn; [by intros _ ?%elem_of_nil|].
  rewrite NoDup_cons, !elem_of_cons. intros [Ha Hl] [->|Hx] [->|Hy] Heq; auto.
  - destruct Ha. rewrite Heq. by apply list_elem_of_fmap_2.
  - destruct Ha. rewrite <- Heq. by apply list_elem_of_fmap_2.
Qed.

(** Updating the first element of a class so that it leaves the class
    takes it out of the collection and leaves the rest as it was. *)
Lemma filter_update_head (P : IShadowDomNode → Prop) `{∀ e, Decision (P e)}
    (g : IShadowDomNode → IShadowDomNode) l x rest :
  NoDup (elId <$> l) → filter P l = x :: rest → ¬ P (g x) →
  filter P ((λ e, if decide (elId e = elId x) then g e else e) <$> l) = rest.
Proof.
  intros Hnd Hf Hg. induction l as [|a l IH]; [done|].
  cbn in Hnd. apply NoDup_cons in Hnd as [Ha Hl]. cbn [fmap list_fmap].
  destruct (decide (P a)) as [HPa|HPa].
  - rewrite filter_cons_True in Hf by done. injection Hf as -> <-.
    rewrite decide_True by done. rewrite filter_cons_False by done.
    f_equal. rewrite <- (list_fmap_id l) at 2. apply list_fmap_ext.
    intros ? e He%list_elem_of_lookup_2. rewrite decide_False; [done|].
    intros Heq. apply Ha. rewrite <- Heq. by apply list_elem_of_fmap_2.
  - rewrite filter_cons_False in Hf by done.
    assert (x ∈ l) as Hx.
    { eapply list_elem_of_filter. rewrite Hf. by left. }
    rewrite decide_False.
    2:{ intros Heq. apply Ha. rewrite Heq. by apply list_elem_of_fmap_2. }
    rewrite filter_cons_False by done. by apply IH.
Qed.

Lemma setForests_mapClasses r d h s :
  setForests r d (mapClasses h s) = setForests r d s.
Proof. done. Qed.

Lemma setForests_updateElement r d i g s :
  setForests r d (updateElement i g s) = setForests r d s.
Proof. done. Qed.

Section Sweep.
Context (c : ClassName) (g : list ClassName → list ClassName)
        (act : option Ref → M unit).
Context (Hact : ∀ i, act (Some (Elem i)) = modify (updateElement i (withClassList g))).
Context (Hg : ∀ l, contains c (g l) = false).

Lemma sweep_spec n : ∀ out s,
  NoDup (allIds s) → removedAttached s = false → countClass c s ≤ n →
  sweep c act n out s =
    Returns (out ++ (elId <$> getElementsByClassName c s))
            (setForests (mapForest (swept c g) (shadowDomRoot s)) (removedNodes s) s).
Proof.
  induction n as [|n IH]; intros out s Hnd Hdet Hcount.
  - destruct (getElementsByClassName c s) as [|next rest] eqn:Hc.
    2:{ unfold countClass in Hcount. rewrite Hc in Hcount. cbn in Hcount. lia. }
    cbn [sweep]. rewrite read_eq, Hc, ret_eq, app_nil_r. f_equal.
    rewrite mapForest_id; [by destruct s|].
    intros e He. unfold swept.
    destruct (elHas c e) eqn:Hh; [|done].
    assert (e ∈ getElementsByClassName c s) as Hin.
    { unfold getElementsByClassName. rewrite docElements_detached by done.
      by apply list_elem_of_filter. }
    rewrite Hc in Hin. by apply elem_of_nil in Hin.
  - cbn [sweep]. rewrite read_eq.
    destruct (getElementsByClassName c s) as [|next rest] eqn:Hc.
    + rewrite ret_eq, app_nil_r. f_equal.
      rewrite mapForest_id; [by destruct s|].
      intros e He. unfold swept.
      destruct (elHas c e) eqn:Hh; [|done].
      assert (e ∈ getElementsByClassName c s) as Hin.
      { unfold getElementsByClassName. rewrite docElements_detached by done.
        by apply list_elem_of_filter. }
      rewrite Hc in Hin. by apply elem_of_nil in Hin.
    + unfold getElementsByClassName in Hc.
      rewrite docElements_detached in Hc by done.
      assert (next ∈ elements (shadowDomRoot s) ∧ elHas c next = true) as [Hnext Hhas].
      { assert (next ∈ filter (λ e, elHas c e = true) (elements (shadowDomRoot s))) as Hin
          by (rewrite Hc; by left).
        apply list_elem_of_filter in Hin. tauto. }
      assert (NoDup (ids (shadowDomRoot s))) as Hndr.
      { unfold allIds, allElements in Hnd. rewrite fmap_app in Hnd.
        by apply NoDup_app in Hnd as (? & _ & _). }
      rewrite bind_eq, Hact. cbn [modify].
      set (upd := λ e, if decide (elId e = elId next) then withClassList g e else e).
      assert (getElementsByClassName c (updateElement (elId next) (withClassList g) s) = rest)
        as Hrest.
      { unfold getElementsByClassName. rewrite docElements_detached by done.
        cbn. rewrite elements_updateById.
        apply (filter_update_head (λ e, elHas c e = true)); [done..|].
        unfold elHas. cbn. by rewrite Hg. }
      rewrite IH.
      * rewrite Hrest. rewrite <- app_assoc. cbn. f_equal.
        rewrite setForests_updateElement.
        rewrite !updateById_mapForest, mapForest_compose. f_equal.
        -- apply mapForest_ext. intros e He. cbn. case_decide as Hid; [|done].
           assert (e = next) as -> by (by eapply NoDup_fmap_eq).
           unfold swept. rewrite Hhas. unfold elHas. cbn. by rewrite Hg.
        -- apply mapForest_id. intros e He. rewrite decide_False; [done|].
           intros Hid. unfold allIds, allElements in Hnd. rewrite fmap_app in Hnd.
           apply NoDup_app in Hnd as (_ & Hdisj & _).
           apply (Hdisj (elId next)); [by apply list_elem_of_fmap_2|].
           rewrite <- Hid. by apply list_elem_of_fmap_2.
      * rewrite mapClasses_updateElement, allIds_mapClasses; [done|].
        intros e. by case_decide.
      * done.
      * unfold countClass in *. rewrite Hrest.
        unfold getElementsByClassName in Hcount.
        rewrite docElements_detached, Hc in Hcount by done. cbn in Hcount. lia.
Qed.

End Sweep.


(** * Parents and children in a forest without duplicate ids *)

Lemma topLevel_ids f i : i ∈ elId <$> topLevel f → i ∈ ids f.
Proof.
  intros (e & -> & He)%list_elem_of_fmap.
  by apply list_elem_of_fmap_2, topLevel_elements.
Qed.

Lemma topLevel_NoDup f : NoDup (ids f) → NoDup (elId <$> topLevel f).
Proof.
  induction f as [|e kids _ next IHn]; cbn; [constructor|].
  rewrite ids_Cons, !NoDup_cons, NoDup_app, not_elem_of_app.
  intros ((_ & Hn) & _ & _ & Hnext). split; [|by apply IHn].
  intros H. by apply Hn, topLevel_ids.
Qed.

Lemma getElementById_ids_split i f e kids :
  getElementById i f = Some (e, kids) →
  ∃ l1 l2, ids f = l1 ++ i :: ids kids ++ l2.
Proof.
  intros (Hid & l1 & l2 & Hel & _)%getElementById_split.
  exists (elId <$> l1), (elId <$> l2). unfold ids.
  by rewrite Hel, fmap_app, fmap_cons, fmap_app, Hid.
Qed.

Lemma kids_NoDup i f e kids :
  getElementById i f = Some (e, kids) → NoDup (ids f) →
  NoDup (ids kids) ∧ i ∉ ids kids.
Proof.
  intros (l1 & l2 & Hids)%getElementById_ids_split. rewrite Hids.
  rewrite NoDup_app, NoDup_cons, NoDup_app, not_elem_of_app. naive_solver.
Qed.

Lemma kids_ids i f e kids x :
  getElementById i f = Some (e, kids) → x ∈ ids kids → x ∈ ids f.
Proof.
  intros (l1 & l2 & Hids)%getElementById_ids_split Hx. rewrite Hids. set_solver.
Qed.

(** A parent comes before its children in document order. *)
Lemma parent_precedes i f e kids c :
  getElementById i f = Some (e, kids) → c ∈ ids kids →
  ∃ l1 l2 l3, ids f = l1 ++ i :: l2 ++ c :: l3.
Proof.
  intros (l1 & l2 & Hids)%getElementById_ids_split Hc.
  apply list_elem_of_split in Hc as (k1 & k2 & Hk).
  exists l1, k1, (k2 ++ l2). rewrite Hids, Hk. by app_norm.
Qed.

Lemma parentIn_absent c q f : c ∉ ids f → parentIn c q f = None.
Proof.
  revert q. induction f as [|x xkids IHk xnext IHn]; intros q; cbn; [done|].
  rewrite ids_Cons, not_elem_of_cons, not_elem_of_app. intros (Hx & Hk & Hn).
  rewrite decide_False by congruence. by rewrite IHk, IHn.
Qed.

Lemma parentIn_present c q f : c ∈ ids f → is_Some (parentIn c q f).
Proof.
  revert q. induction f as [|x xkids IHk xnext IHn]; intros q; cbn.
  - by intros ?%elem_of_nil.
  - rewrite ids_Cons, elem_of_cons, elem_of_app. intros Hc.
    case_decide; [eauto|].
    destruct (decide (c ∈ ids xkids)) as [Hk|Hk].
    + destruct (IHk (Elem (elId x)) Hk) as [p ->]. eauto.
    + rewrite parentIn_absent by done. apply IHn. naive_solver.
Qed.

Lemma parentIn_topLevel c q f :
  NoDup (ids f) → c ∈ elId <$> topLevel f → parentIn c q f = Some q.
Proof.
  induction f as [|x xkids _ xnext IHn]; cbn; [by intros _ ?%elem_of_nil|].
  rewrite ids_Cons, NoDup_cons, NoDup_app, not_elem_of_app, elem_of_cons.
  intros ((Hxk & Hxn) & Hk & Hdisj & Hn) [->|Hc].
  - by rewrite decide_True.
  - assert (c ∈ ids xnext) as Hin by (by apply topLevel_ids).
    rewrite decide_False by (intros Heq; by rewrite Heq in Hxn).
    rewrite parentIn_absent by (intros ?; by eapply Hdisj).
    by apply IHn.
Qed.

(** The children of the element with id [p] have [p] as their parent. *)
Lemma parentIn_child p f e kids c q :
  NoDup (ids f) → getElementById p f = Some (e, kids) →
  c ∈ elId <$> topLevel kids → parentIn c q f = Some (Elem p).
Proof.
  revert q e kids.
  induction f as [|x xkids IHk xnext IHn]; intros q e kids; cbn; [done|].
  rewrite ids_Cons, NoDup_cons, NoDup_app, not_elem_of_app.
  intros ((Hxk & Hxn) & Hk & Hdisj & Hn).
  case_decide as Hx.
  - intros [= <- <-] Hc.
    assert (c ∈ ids xkids) as Hin by (by apply topLevel_ids).
    rewrite decide_False by (intros Heq; by rewrite Heq in Hxk).
    rewrite (parentIn_topLevel c _ xkids) by done. by rewrite Hx.
  - destruct (getElementById p xkids) as [r|] eqn:Hpk.
    + intros [= ->] Hc.
      assert (c ∈ ids xkids) as Hin by (eapply kids_ids; [done|by apply topLevel_ids]).
      rewrite decide_False by (intros Heq; by rewrite Heq in Hxk).
      by rewrite (IHk _ _ _ Hk eq_refl Hc).
    + intros Hpn Hc.
      assert (c ∈ ids xnext) as Hin by (eapply kids_ids; [done|by apply topLevel_ids]).
      rewrite decide_False by (intros Heq; by rewrite Heq in Hxn).
      rewrite parentIn_absent by (intros ?; by eapply Hdisj).
      by apply (IHn _ _ _ Hn Hpn).
Qed.

Lemma unique_parent f p1 p2 e1 kids1 e2 kids2 c :
  NoDup (ids f) →
  getElementById p1 f = Some (e1, kids1) → c ∈ elId <$> topLevel kids1 →
  getElementById p2 f = Some (e2, kids2) → c ∈ elId <$> topLevel kids2 →
  p1 = p2.
Proof.
  intros Hnd H1 Hc1 H2 Hc2.
  pose proof (parentIn_child _ _ _ _ _ RootDiv Hnd H1 Hc1) as Hp1.
  pose proof (parentIn_child _ _ _ _ _ RootDiv Hnd H2 Hc2) as Hp2.
  congruence.
Qed.


(** * The loop that collects the new nodes *)

Lemma weight_bound f : weight f + length (topLevel f) ≤ 2 * length (elements f).
Proof.
  induction f as [|e kids IHk next IHn]; cbn; [lia|].
  rewrite length_app. destruct (elHas _ e); lia.
Qed.

Lemma stateWeight_bound s : S (stateWeight s) ≤ discoverSteps s.
Proof.
  unfold stateWeight, discoverSteps.
  pose proof (weight_bound (shadowDomRoot s)).
  pose proof (weight_bound (removedNodes s)). lia.
Qed.

Lemma length_topLevel_updateById i g f :
  length (topLevel (updateById i g f)) = length (topLevel f).
Proof. induction f as [|e kids _ next IHn]; cbn; [done|]. by rewrite IHn. Qed.

Definition rmNew : IShadowDomNode → IShadowDomNode :=
  withClassList (removeToken NewNodeClassName).

Lemma elHas_rmNew e : elHas NewNodeClassName (rmNew e) = false.
Proof. unfold elHas, rmNew. cbn. apply contains_removeToken. Qed.

Lemma weight_updateById_le i f : weight (updateById i rmNew f) ≤ weight f.
Proof.
  induction f as [|e kids IHk next IHn]; cbn; [lia|].
  rewrite length_topLevel_updateById.
  case_decide; [rewrite elHas_rmNew|]; destruct (elHas _ e); lia.
Qed.

Lemma weight_updateById_lt i f e kids :
  getElementById i f = Some (e, kids) → elHas NewNodeClassName e = true →
  weight (updateById i rmNew f) + S (length (topLevel kids)) ≤ weight f.
Proof.
  revert e kids.
  induction f as [|x xkids IHk xnext IHn]; intros e kids; cbn; [done|].
  rewrite length_topLevel_updateById.
  pose proof (weight_updateById_le i xkids).
  pose proof (weight_updateById_le i xnext).
  case_decide as Hx.
  - intros [= <- <-] Hnew. rewrite elHas_rmNew, Hnew. lia.
  - destruct (getElementById i xkids) as [r|] eqn:Hk.
    + intros [= ->] Hnew. specialize (IHk _ _ eq_refl Hnew). lia.
    + intros Hn Hnew. specialize (IHn _ _ Hn Hnew). lia.
Qed.

Lemma stateWeight_removeNew x st :
  hasClass (Some (Elem x)) NewNodeClassName st = true →
  stateWeight (updateElement x rmNew st) + S (length (childNodesOf x st))
  ≤ stateWeight st.
Proof.
  unfold hasClass, childNodesOf, deref, stateWeight, updateElement. cbn.
  pose proof (weight_updateById_le x (shadowDomRoot st)).
  pose proof (weight_updateById_le x (removedNodes st)).
  destruct (getElementById x (shadowDomRoot st)) as [[e kids]|] eqn:Hr.
  - intros Hnew. rewrite length_fmap.
    pose proof (weight_updateById_lt _ _ _ _ Hr Hnew). lia.
  - destruct (getElementById x (removedNodes st)) as [[e kids]|] eqn:Hd; [|done].
    intros Hnew. rewrite length_fmap.
    pose proof (weight_updateById_lt _ _ _ _ Hd Hnew). lia.
Qed.

(** ** Lists *)

Lemma filter_ext_elem {A} (P Q : A → Prop) `{∀ x, Decision (P x)} `{∀ x, Decision (Q x)}
    (l : list A) :
  (∀ x, x ∈ l → P x ↔ Q x) → filter P l = filter Q l.
Proof.
  induction l as [|a l IH]; [done|]. intros Hext.
  assert (P a ↔ Q a) as Ha by (apply Hext; by left).
  assert (filter P l = filter Q l) as IH'
    by (apply IH; intros x Hx; apply Hext; by right).
  destruct (decide (P a)).
  - rewrite !filter_cons_True by tauto. by rewrite IH'.
  - by rewrite !filter_cons_False by tauto.
Qed.

Lemma fmap_filter_corr {A B} (f : A → B) (P : A → Prop) (Q : B → Prop)
    `{∀ x, Decision (P x)} `{∀ x, Decision (Q x)} (l : list A) :
  (∀ x, x ∈ l → P x ↔ Q (f x)) → f <$> filter P l = filter Q (f <$> l).
Proof.
  induction l as [|a l IH]; [done|]. intros Hext.
  assert (P a ↔ Q (f a)) as Ha by (apply Hext; by left).
  cbn [fmap list_fmap].
  destruct (decide (P a)).
  - rewrite !filter_cons_True by tauto. cbn. f_equal.
    apply IH. intros x Hx. apply Hext. by right.
  - rewrite !filter_cons_False by tauto.
    apply IH. intros x Hx. apply Hext. by right.
Qed.

Lemma filter_head_first {A} (P : A → Prop) `{∀ x, Decision (P x)} l x rest :
  filter P l = x :: rest →
  P x ∧ ∃ l1 l2, l = l1 ++ x :: l2 ∧ ∀ y, y ∈ l1 → ¬ P y.
Proof.
  induction l as [|a l IH]; [done|].
  destruct (decide (P a)) as [Ha|Ha].
  - rewrite filter_cons_True by done. intros [= -> <-]. split; [done|].
    exists [], l. split; [done|]. by intros y ?%elem_of_nil.
  - rewrite filter_cons_False by done. intros Hf.
    destruct (IH Hf) as (Hx & l1 & l2 & -> & Hl1). split; [done|].
    exists (a :: l1), l2. split; [done|].
    intros y [->|Hy]%elem_of_cons; auto.
Qed.

Lemma NoDup_split_unique {A} (l a1 a2 b1 b2 : list A) x :
  NoDup l → l = a1 ++ x :: a2 → l = b1 ++ x :: b2 → a1 = b1.
Proof.
  intros Hnd. revert l Hnd b1. induction a1 as [|a a1 IH]; intros l Hnd b1 -> Hb.
  - destruct b1 as [|b b1]; [done|]. injection Hb as <- Hb.
    apply NoDup_cons in Hnd as [Hx _]. destruct Hx. rewrite Hb. set_solver.
  - destruct b1 as [|b b1].
    + injection Hb as -> Hb. apply NoDup_cons in Hnd as [Hx _].
      destruct Hx. set_solver.
    + injection Hb as <- Hb. f_equal.
      apply NoDup_cons in Hnd as [_ Hnd]. by eapply IH.
Qed.

Lemma filter_length_lt_elem {A} (P Q : A → Prop) `{∀ x, Decision (P x)}
    `{∀ x, Decision (Q x)} (l : list A) x :
  (∀ y, Q y → P y) → x ∈ l → P x → ¬ Q x →
  length (filter Q l) < length (filter P l).
Proof.
  intros Himp. induction l as [|a l IH]; [by intros ?%elem_of_nil|].
  assert (length (filter Q l) ≤ length (filter P l)) as Hle.
  { clear IH. induction l as [|b l IHl]; [done|].
    destruct (decide (Q b)).
    - rewrite !filter_cons_True by auto. cbn. lia.
    - rewrite (filter_cons_False Q) by done.
      destruct (decide (P b)); [rewrite filter_cons_True by done; cbn; lia|].
      by rewrite filter_cons_False. }
  intros [->|Hx]%elem_of_cons HP HQ.
  - rewrite (filter_cons_True P), (filter_cons_False Q) by done. cbn. lia.
  - specialize (IH Hx HP HQ).
    destruct (decide (Q a)).
    + rewrite !filter_cons_True by auto. cbn. lia.
    + rewrite (filter_cons_False Q) by done.
      destruct (decide (P a)); [rewrite filter_cons_True by done; cbn; lia|].
      by rewrite filter_cons_False.
Qed.


Lemma deref_mapClasses h i s :
  (∀ e, elId (h e) = elId e) →
  deref i (mapClasses h s) = (λ r, (h r.1, mapForest h r.2)) <$> deref i s.
Proof.
  intros H. unfold deref, mapClasses. cbn.
  rewrite !getElementById_mapForest by done.
  by destruct (getElementById i (shadowDomRoot s)).
Qed.

Lemma strip_nil s : strip s [] = s.
Proof. apply mapClasses_id. intros e _. apply stripNew_nil. Qed.

Lemma strip_step s X x : updateElement x rmNew (strip s X) = strip s (X ++ [x]).
Proof.
  unfold strip. rewrite mapClasses_updateElement, mapClasses_compose.
  apply mapClasses_ext. intros e _. apply stripNew_step.
Qed.

Lemma bool_eq_decide (b : bool) (P : Prop) `{Decision P} :
  (b = true ↔ P) → b = bool_decide P.
Proof.
  intros Hb. destruct b; symmetry.
  - apply bool_decide_eq_true. by apply Hb.
  - apply bool_decide_eq_false. intros HP%Hb. done.
Qed.

Lemma hasClass_strip_iff s X x :
  hasClass (Some (Elem x)) NewNodeClassName (strip s X) = true ↔ curNew s X x.
Proof.
  unfold curNew, isNew, hasClass, strip.
  rewrite deref_mapClasses by apply elId_stripNew.
  destruct (deref x s) as [[e kids]|] eqn:Hd; cbn.
  - apply deref_elem in Hd as [<- _]. rewrite elHas_stripNew.
    rewrite andb_true_iff, negb_true_iff, bool_decide_eq_false. done.
  - naive_solver.
Qed.

Lemma hasClass_strip s X x :
  hasClass (Some (Elem x)) NewNodeClassName (strip s X) = bool_decide (curNew s X x).
Proof. apply bool_eq_decide, hasClass_strip_iff. Qed.

Lemma childNodesOf_strip s X x : childNodesOf x (strip s X) = childNodesOf x s.
Proof.
  unfold childNodesOf, strip.
  rewrite deref_mapClasses by apply elId_stripNew.
  destruct (deref x s) as [[e kids]|]; cbn; [|done].
  rewrite topLevel_mapForest, <- list_fmap_compose.
  apply list_fmap_ext. intros ? y _. apply elId_stripNew.
Qed.

Lemma discoverSteps_strip s X : discoverSteps (strip s X) = discoverSteps s.
Proof.
  unfold discoverSteps, strip, mapClasses. cbn.
  by rewrite !elements_mapForest, !length_fmap.
Qed.

Section NewLoop.
Context (s : ShadowDom).
Context (Hnd : NoDup (allIds s)) (Hdet : removedAttached s = false).

Lemma NoDup_root : NoDup (ids (shadowDomRoot s)).
Proof.
  unfold allIds, allElements in Hnd. rewrite fmap_app in Hnd.
  by apply NoDup_app in Hnd as (? & _ & _).
Qed.

Lemma deref_root e :
  e ∈ elements (shadowDomRoot s) →
  ∃ kids, getElementById (elId e) (shadowDomRoot s) = Some (e, kids) ∧
          deref (elId e) s = Some (e, kids).
Proof.
  intros He. destruct (getElementById_NoDup _ _ NoDup_root He) as [kids Hk].
  exists kids. split; [done|]. unfold deref. by rewrite Hk.
Qed.

Lemma deref_in_root i :
  i ∈ ids (shadowDomRoot s) →
  ∃ e kids, getElementById i (shadowDomRoot s) = Some (e, kids) ∧
            deref i s = Some (e, kids).
Proof.
  intros (e & -> & He)%list_elem_of_fmap.
  destruct (deref_root e He) as (kids & ? & ?). eauto.
Qed.

Lemma isNew_root e :
  e ∈ elements (shadowDomRoot s) →
  isNew s (elId e) ↔ elHas NewNodeClassName e = true.
Proof.
  intros He. destruct (deref_root e He) as (kids & _ & Hd).
  unfold isNew, hasClass. by rewrite Hd.
Qed.

(** The collection [topNewNodes], as ids in document order. *)
Lemma newIds X :
  elId <$> getElementsByClassName NewNodeClassName (strip s X)
  = filter (curNew s X) (ids (shadowDomRoot s)).
Proof.
  unfold getElementsByClassName. rewrite docElements_detached by done.
  unfold strip, mapClasses. cbn. rewrite elements_mapForest.
  rewrite (fmap_filter_corr elId _ (curNew s X)).
  - f_equal. unfold ids. rewrite <- list_fmap_compose.
    apply list_fmap_ext. intros ? e _. apply elId_stripNew.
  - intros e' (e & -> & He)%list_elem_of_fmap.
    rewrite elHas_stripNew, elId_stripNew. unfold curNew.
    rewrite (isNew_root e He), andb_true_iff, negb_true_iff, bool_decide_eq_false.
    done.
Qed.

Lemma countClass_strip X :
  countClass NewNodeClassName (strip s X)
  = length (filter (curNew s X) (ids (shadowDomRoot s))).
Proof. unfold countClass. by rewrite <- newIds, length_fmap. Qed.

(** ** Children *)

Lemma children_in_root x c :
  x ∈ ids (shadowDomRoot s) → c ∈ childNodesOf x s → c ∈ ids (shadowDomRoot s).
Proof.
  intros (e & kids & Hg & Hd)%deref_in_root. unfold childNodesOf. rewrite Hd.
  intros Hc%topLevel_ids. by eapply kids_ids.
Qed.

Lemma children_NoDup x :
  x ∈ ids (shadowDomRoot s) → NoDup (childNodesOf x s) ∧ x ∉ childNodesOf x s.
Proof.
  intros (e & kids & Hg & Hd)%deref_in_root. unfold childNodesOf. rewrite Hd.
  destruct (kids_NoDup _ _ _ _ Hg NoDup_root) as [Hk Hx]. split.
  - by apply topLevel_NoDup.
  - intros H%topLevel_ids. done.
Qed.

Lemma children_unique_parent p1 p2 c :
  p1 ∈ ids (shadowDomRoot s) → p2 ∈ ids (shadowDomRoot s) →
  c ∈ childNodesOf p1 s → c ∈ childNodesOf p2 s → p1 = p2.
Proof.
  intros (e1 & k1 & Hg1 & Hd1)%deref_in_root (e2 & k2 & Hg2 & Hd2)%deref_in_root.
  unfold childNodesOf. rewrite Hd1, Hd2. intros Hc1 Hc2.
  by eapply (unique_parent _ _ _ _ _ _ _ _ NoDup_root).
Qed.

Lemma children_after_parent p c :
  p ∈ ids (shadowDomRoot s) → c ∈ childNodesOf p s →
  ∃ l1 l2 l3, ids (shadowDomRoot s) = l1 ++ p :: l2 ++ c :: l3.
Proof.
  intros (e & kids & Hg & Hd)%deref_in_root. unfold childNodesOf. rewrite Hd.
  intros Hc%topLevel_ids. by eapply parent_precedes.
Qed.

End NewLoop.


Lemma head_app_cons {A} (l1 l2 : list A) : l1 ≠ [] → head (l1 ++ l2) = head l1.
Proof. by destruct l1. Qed.

Section QueueInvariant.
Context (s : ShadowDom).
Context (Hnd : NoDup (allIds s)) (Hdet : removedAttached s = false).

Lemma pending_nil out : pending s [] out = out.
Proof. unfold pending. by rewrite filter_nil, app_nil_r. Qed.

Lemma pending_cons_new x q out :
  curNew s out x → pending s (x :: q) out = out ++ x :: filter (curNew s out) q.
Proof. intros Hx. unfold pending. by rewrite filter_cons_True. Qed.

Lemma pending_cons_old x q out :
  ¬ curNew s out x → pending s (x :: q) out = pending s q out.
Proof. intros Hx. unfold pending. by rewrite filter_cons_False. Qed.

Lemma QueueInv_init : QueueInv s [] [].
Proof.
  split; rewrite ?pending_nil.
  - constructor.
  - by intros y ?%elem_of_nil.
  - by intros p c ?%elem_of_nil.
  - by intros p ?%elem_of_nil.
  - by left.
Qed.

Lemma QueueInv_old x q out :
  QueueInv s (x :: q) out → ¬ curNew s out x → QueueInv s q out.
Proof.
  intros [H1 H2 H3 H4 H5] Hx. rewrite pending_cons_old in * by done.
  by split.
Qed.

Lemma QueueInv_new x q out :
  QueueInv s (x :: q) out → curNew s out x →
  QueueInv s (q ++ reverse (childNodesOf x s)) (out ++ [x]) ∧
  pending s (q ++ reverse (childNodesOf x s)) (out ++ [x])
  = pending s (x :: q) out ++ segment s x.
Proof.
  intros [H1 H2 H3 H4 H5] Hx. rewrite pending_cons_new in * by done.
  set (F := filter (curNew s out) q) in *.
  assert (x ∈ out ++ x :: F) as HxV by set_solver.
  destruct (H2 x HxV) as [HxN HxD].
  destruct (children_NoDup s Hnd x HxD) as [Hkids Hxk].
  assert (x ∉ out) as Hxo by apply Hx.
  assert (x ∉ F) as HxF.
  { apply NoDup_app in H1 as (_ & _ & H1). by apply NoDup_cons in H1 as [? _]. }
  assert (∀ c, c ∈ childNodesOf x s → c ∉ out ++ x :: F) as Hfresh.
  { intros c Hc HcV. apply Hxo. by apply (H3 x c). }
  assert (filter (curNew s (out ++ [x])) q = F) as E1.
  { apply filter_ext_elem. intros y Hy. unfold curNew. split.
    - intros [? Hn]. split; [done|]. set_solver.
    - intros [Hy1 Hy2]. split; [done|].
      assert (y ∈ F) as HyF by (apply list_elem_of_filter; by split).
      set_solver. }
  assert (filter (curNew s (out ++ [x])) (reverse (childNodesOf x s)) = segment s x) as E2.
  { apply filter_ext_elem. intros c Hc. rewrite elem_of_reverse in Hc.
    unfold curNew. split; [tauto|].
    intros HcN. split; [done|]. specialize (Hfresh c Hc). set_solver. }
  assert (pending s (q ++ reverse (childNodesOf x s)) (out ++ [x])
          = (out ++ x :: F) ++ segment s x) as EV.
  { unfold pending. rewrite filter_app, E1, E2. by app_norm. }
  split; [|done]. split; rewrite EV.
  - apply NoDup_app. split; [done|]. split.
    + intros c HcV [_ Hc]%list_elem_of_filter. rewrite elem_of_reverse in Hc.
      by apply (Hfresh c).
    + apply NoDup_filter. by rewrite reverse_Permutation.
  - intros y [Hy|[Hy1 Hy2]%list_elem_of_filter]%elem_of_app; [auto|].
    rewrite elem_of_reverse in Hy2. split; [done|]. by eapply children_in_root.
  - intros p c [Hc|[_ Hc]%list_elem_of_filter]%elem_of_app Hcp HpN HpD.
    + apply elem_of_app. left. by apply (H3 p c).
    + rewrite elem_of_reverse in Hc.
      rewrite (children_unique_parent s Hnd p x c) by done. set_solver.
  - intros p [Hp|Hp%list_elem_of_singleton]%elem_of_app.
    + destruct (H4 p Hp) as (l1 & l2 & l3 & ->).
      exists l1, l2, (l3 ++ segment s x). by app_norm.
    + subst p. exists out, F, []. rewrite app_nil_r. by app_norm.
  - right. rewrite head_app_cons by (by destruct out).
    destruct H5 as [H5|H5]; [by destruct out|done].
Qed.

Lemma QueueInv_top out t rest :
  QueueInv s [] out →
  filter (curNew s out) (ids (shadowDomRoot s)) = t :: rest →
  QueueInv s [t] out ∧ pending s [t] out = out ++ [t].
Proof.
  intros [H1 H2 H3 H4 H5] Hf. rewrite pending_nil in *.
  destruct (filter_head_first _ _ _ _ Hf) as (Ht & l1 & l2 & HD & Hl1).
  assert (pending s [t] out = out ++ [t]) as EV.
  { rewrite pending_cons_new by done. by rewrite filter_nil. }
  assert (t ∈ ids (shadowDomRoot s)) as HtD by (rewrite HD; set_solver).
  split; [|done]. split; rewrite EV.
  - apply NoDup_app. split; [done|]. split.
    + intros y Hy Hy'%list_elem_of_singleton. subst y. by apply Ht.
    + apply NoDup_singleton.
  - intros y [Hy|Hy%list_elem_of_singleton]%elem_of_app; [auto|]. subst y.
    split; [apply Ht | done].
  - intros p c [Hc|Hc%list_elem_of_singleton]%elem_of_app Hcp HpN HpD.
    + by apply (H3 p c).
    + subst c. destruct (decide (p ∈ out)) as [|Hpo]; [done|]. exfalso.
      destruct (children_after_parent s Hnd p t HpD Hcp) as (m1 & m2 & m3 & HD').
      assert (m1 ++ p :: m2 = l1) as <-.
      { eapply (NoDup_split_unique (ids (shadowDomRoot s))).
        - by apply NoDup_root.
        - rewrite HD'. by app_norm.
        - done. }
      apply (Hl1 p); [set_solver|]. by split.
  - intros p Hp. destruct (H4 p Hp) as (k1 & k2 & k3 & ->).
    exists k1, k2, (k3 ++ [t]). by app_norm.
  - right. destruct out as [|o out].
    + cbn. rewrite <- (filter_ext_elem (curNew s []) (isNew s)), Hf; [done|].
      intros y _. unfold curNew. split; [tauto|]. intros ?. split; [done|].
      apply not_elem_of_nil.
    + destruct H5 as [H5|H5]; done.
Qed.

Lemma discover_spec steps : ∀ q out,
  QueueInv s q out → length q + stateWeight (strip s out) ≤ steps →
  ∃ out',
    discover steps q out (strip s out) = Returns out' (strip s out') ∧
    QueueInv s [] out' ∧
    ∀ y, y ∈ pending s q out → y ∈ out'.
Proof.
  induction steps as [|n IH]; intros [|x q] out Hinv Hsteps.
  - exists out. rewrite pending_nil. by split.
  - cbn [length] in Hsteps. lia.
  - exists out. rewrite pending_nil. by split.
  - cbn [discover]. rewrite read_eq, hasClass_strip.
    destruct (decide (curNew s out x)) as [Hx|Hx].
    + rewrite bool_decide_eq_true_2 by done.
      rewrite bind_eq. cbn [removeClass modify].
      change (withClassList (removeToken NewNodeClassName)) with rmNew.
      rewrite strip_step, read_eq, childNodesOf_strip.
      destruct (QueueInv_new x q out Hinv Hx) as [Hinv' EV].
      destruct (IH (q ++ reverse (childNodesOf x s)) (out ++ [x]) Hinv')
        as (out' & Hrun & Hfin & Hsub).
      * pose proof (stateWeight_removeNew x (strip s out)) as Hw.
        rewrite hasClass_strip, bool_decide_eq_true_2 in Hw by done.
        specialize (Hw eq_refl).
        rewrite strip_step, childNodesOf_strip in Hw.
        rewrite length_app, length_reverse. cbn [length] in Hsteps. lia.
      * exists out'. split; [done|]. split; [done|].
        intros y Hy. apply Hsub. rewrite EV. set_solver.
    + rewrite bool_decide_eq_false_2 by done.
      destruct (IH q out (QueueInv_old x q out Hinv Hx)) as (out' & Hrun & Hfin & Hsub).
      * cbn [length] in Hsteps. lia.
      * exists out'. split; [done|]. split; [done|].
        intros y Hy. apply Hsub. by rewrite <- (pending_cons_old x).
Qed.

Lemma collectNew_spec steps : ∀ out,
  QueueInv s [] out →
  length (filter (curNew s out) (ids (shadowDomRoot s))) ≤ steps →
  ∃ out',
    collectNew steps out (strip s out) = Returns out' (strip s out') ∧
    QueueInv s [] out' ∧
    filter (curNew s out') (ids (shadowDomRoot s)) = [].
Proof.
  induction steps as [|n IH]; intros out Hinv Hsteps.
  - destruct (filter (curNew s out) (ids (shadowDomRoot s))) as [|t rest] eqn:Hf;
      [|cbn in Hsteps; lia].
    exists out. cbn [collectNew]. rewrite read_eq.
    pose proof (newIds s Hnd Hdet out) as Hids. rewrite Hf in Hids.
    apply fmap_nil_inv in Hids. rewrite Hids. by split.
  - cbn [collectNew]. rewrite read_eq.
    pose proof (newIds s Hnd Hdet out) as Hids.
    destruct (getElementsByClassName NewNodeClassName (strip s out))
      as [|topNode others] eqn:Hc.
    + exists out. by split.
    + cbn in Hids. symmetry in Hids.
      destruct (QueueInv_top out _ _ Hinv Hids) as [Hinv' EV].
      destruct (discover_spec (discoverSteps (strip s out)) [elId topNode] out Hinv')
        as (out1 & Hrun & Hfin & Hsub).
      { pose proof (stateWeight_bound (strip s out)). cbn [length]. lia. }
      rewrite bind_eq, Hrun.
      destruct (filter_head_first _ _ _ _ Hids) as (Ht & l1 & l2 & HD & _).
      apply IH; [done|].
      assert (length (filter (curNew s out1) (ids (shadowDomRoot s)))
              < length (filter (curNew s out) (ids (shadowDomRoot s)))); [|lia].
      apply (filter_length_lt_elem _ _ _ (elId topNode)).
      * intros y [Hy1 Hy2]. split; [done|]. intros Hy. apply Hy2, Hsub.
        rewrite EV. set_solver.
      * rewrite HD. set_solver.
      * done.
      * intros [_ Hn]. apply Hn, Hsub. rewrite EV. set_solver.
Qed.

(** The whole loop, from the state [getMutationSummary] starts in. *)
Lemma collectNew_run :
  ∃ out,
    collectNew (countClass NewNodeClassName s) [] s = Returns out (strip s out) ∧
    QueueInv s [] out ∧
    filter (curNew s out) (ids (shadowDomRoot s)) = [].
Proof.
  destruct (collectNew_spec (countClass NewNodeClassName s) [] QueueInv_init)
    as (out & Hrun & Hinv & Hdone).
  - by rewrite <- (countClass_strip s Hnd Hdet []), strip_nil.
  - exists out. rewrite strip_nil in Hrun. by split.
Qed.

End QueueInvariant.


(** * The summary *)

Definition clearClasses : list ClassName → list ClassName := λ _, [].

Lemma ids_filter_fmap (P Q : IShadowDomNode → Prop) `{∀ e, Decision (P e)}
    `{∀ e, Decision (Q e)} (h : IShadowDomNode → IShadowDomNode)
    (l : list IShadowDomNode) :
  (∀ e, e ∈ l → P (h e) ↔ Q e) → (∀ e, elId (h e) = elId e) →
  elId <$> filter P (h <$> l) = elId <$> filter Q l.
Proof.
  intros HPQ Hid. induction l as [|a l IH]; [done|].
  assert (P (h a) ↔ Q a) as Ha by (apply HPQ; by left).
  assert (elId <$> filter P (h <$> l) = elId <$> filter Q l) as IH'
    by (apply IH; intros e He; apply HPQ; by right).
  cbn [fmap list_fmap]. destruct (decide (Q a)).
  - rewrite !filter_cons_True by tauto. cbn. by rewrite Hid, IH'.
  - by rewrite !filter_cons_False by tauto.
Qed.

Lemma elHas_swept_clear c d e :
  elHas d (swept c clearClasses e) = elHas d e && negb (elHas c e).
Proof.
  unfold swept. destruct (elHas c e); cbn.
  - by rewrite andb_false_r.
  - by rewrite andb_true_r.
Qed.

Lemma removeAllClasses_act i :
  removeAllClasses (Some (Elem i)) = modify (updateElement i (withClassList clearClasses)).
Proof. done. Qed.

Section Summary.
Context (s : ShadowDom).
Context (Hnd : NoDup (allIds s)) (Hdet : removedAttached s = false).

Lemma root_removed_disjoint i :
  i ∈ ids (shadowDomRoot s) → i ∉ ids (removedNodes s).
Proof.
  unfold allIds, allElements in Hnd. rewrite fmap_app in Hnd.
  apply NoDup_app in Hnd as (_ & Hdisj & _). apply Hdisj.
Qed.

(** What [getMutationSummary] returns, and the state it leaves. *)
Lemma getMutationSummary_spec :
  ∃ out,
    QueueInv s [] out ∧
    filter (curNew s out) (ids (shadowDomRoot s)) = [] ∧
    collectNew (countClass NewNodeClassName s) [] s = Returns out (strip s out) ∧
    getMutationSummary s =
      Returns
        {| newNodes := out;
           movedNodes :=
             elId <$> filter (λ e, elHas MovedNodeClassName e = true)
                             (elements (shadowDomRoot s));
           updatedNodes :=
             elId <$> filter (λ e, elHas UpdatedNodeClassName e = true ∧
                                   elHas MovedNodeClassName e = false)
                             (elements (shadowDomRoot s));
           removedSummary :=
             elId <$> filter (λ e, elHas NewNodeClassName e = false)
                             (topLevel (removedNodes s)) |}
        (setForests
           (mapForest (swept UpdatedNodeClassName clearClasses)
              (mapForest (swept MovedNodeClassName clearClasses)
                 (mapForest (stripNew out) (shadowDomRoot s))))
           (removedNodes s) s).
Proof.
  destruct (collectNew_run s Hnd Hdet) as (out & Hrun & Hinv & Hdone).
  exists out. split; [done|]. split; [done|]. split; [done|].
  assert (mapForest (stripNew out) (removedNodes s) = removedNodes s) as Hrem.
  { apply mapForest_id. intros e He. unfold stripNew.
    rewrite bool_decide_eq_false_2; [done|]. intros Hin.
    destruct (inv_new _ _ _ Hinv (elId e)) as [_ HD].
    { by rewrite pending_nil. }
    apply (root_removed_disjoint _ HD). by apply list_elem_of_fmap_2. }
  set (s1 := strip s out).
  assert (NoDup (allIds s1)) as Hnd1.
  { unfold s1, strip. rewrite allIds_mapClasses; [done|]. apply elId_stripNew. }
  pose proof (sweep_spec MovedNodeClassName clearClasses removeAllClasses
                removeAllClasses_act (λ _, eq_refl)
                (countClass MovedNodeClassName s1) [] s1 Hnd1 Hdet (le_n _)) as Hm.
  set (s2 := setForests (mapForest (swept MovedNodeClassName clearClasses)
                           (shadowDomRoot s1)) (removedNodes s1) s1) in *.
  assert (NoDup (allIds s2)) as Hnd2.
  { unfold s2, allIds, allElements, ids in *. cbn.
    rewrite fmap_app, elements_mapForest, <- list_fmap_compose.
    rewrite (list_fmap_ext (elId ∘ swept MovedNodeClassName clearClasses) elId);
      [by rewrite <- fmap_app | intros ? e _; apply elId_swept]. }
  pose proof (sweep_spec UpdatedNodeClassName clearClasses removeAllClasses
                removeAllClasses_act (λ _, eq_refl)
                (countClass UpdatedNodeClassName s2) [] s2 Hnd2 Hdet (le_n _)) as Hu.
  unfold getMutationSummary.
  rewrite read_eq, bind_eq, Hrun, read_eq, bind_eq. fold s1. rewrite Hm.
  rewrite read_eq, bind_eq. rewrite Hu. rewrite read_eq, ret_eq.
  f_equal.
  - f_equal.
    + cbn [app]. unfold getElementsByClassName. rewrite docElements_detached by done.
      unfold s1, strip, mapClasses. cbn. rewrite elements_mapForest.
      apply ids_filter_fmap; [|apply elId_stripNew].
      intros e _. by rewrite elHas_stripNew_ne.
    + cbn [app]. unfold getElementsByClassName. rewrite docElements_detached by done.
      unfold s2, s1, strip, mapClasses. cbn.
      rewrite !elements_mapForest, <- list_fmap_compose.
      apply ids_filter_fmap.
      * intros e _. cbn. rewrite elHas_swept_clear, !elHas_stripNew_ne by done.
        rewrite andb_true_iff, negb_true_iff. done.
      * intros e. cbn. by rewrite elId_swept, elId_stripNew.
    + cbn. by rewrite Hrem.
  - unfold s2, s1, strip, mapClasses. cbn. by rewrite Hrem.
Qed.

(** The list of new nodes holds the nodes of the document tagged
    [cl-new]. *)
Lemma collected_new out :
  QueueInv s [] out → filter (curNew s out) (ids (shadowDomRoot s)) = [] →
  ∀ i, i ∈ out ↔ i ∈ ids (shadowDomRoot s) ∧ isNew s i.
Proof.
  intros [_ H2 _ _ _] Hdone i. rewrite pending_nil in H2.
  split; [intros Hi; destruct (H2 i Hi); by split|].
  intros [HD HN]. destruct (decide (i ∈ out)) as [|Hout]; [done|].
  assert (i ∈ filter (curNew s out) (ids (shadowDomRoot s))) as Hin
    by (apply list_elem_of_filter; by split).
  rewrite Hdone in Hin. by apply elem_of_nil in Hin.
Qed.

(** The state [getMutationSummary] leaves: the same elements, those of
    the document without [cl-new], [cl-moved] and [cl-updated]. *)
Lemma getMutationSummary_state :
  ∃ sum s',
    getMutationSummary s = Returns sum s' ∧
    (∀ i, i ∈ newNodes sum ↔ i ∈ ids (shadowDomRoot s) ∧ isNew s i) ∧
    removedSummary sum =
      elId <$> filter (λ e, elHas NewNodeClassName e = false)
                      (topLevel (removedNodes s)) ∧
    allIds s' = allIds s ∧
    ids (shadowDomRoot s') = ids (shadowDomRoot s) ∧
    removedNodes s' = removedNodes s ∧
    removedAttached s' = false ∧
    nextIndex s' = nextIndex s ∧
    nodeIndex s' = nodeIndex s ∧
    (∀ e, e ∈ elements (shadowDomRoot s') →
          elHas NewNodeClassName e = false ∧
          elHas MovedNodeClassName e = false ∧
          elHas UpdatedNodeClassName e = false) ∧
    NoDup (newNodes sum).
Proof.
  destruct getMutationSummary_spec as (out & Hinv & Hdone & _ & Hrun).
  pose proof (collected_new out Hinv Hdone) as Hnew.
  assert (NoDup out) as Hndout.
  { destruct Hinv as [H _ _ _ _]. by rewrite pending_nil in H. }
  eexists _, _. split; [exact Hrun|]. cbn.
  assert (∀ e, elId (swept UpdatedNodeClassName clearClasses
                       (swept MovedNodeClassName clearClasses (stripNew out e))) = elId e)
    as Hid by (intros e; by rewrite !elId_swept, elId_stripNew).
  assert (ids (mapForest (swept UpdatedNodeClassName clearClasses)
                 (mapForest (swept MovedNodeClassName clearClasses)
                    (mapForest (stripNew out) (shadowDomRoot s))))
          = ids (shadowDomRoot s)) as Hids.
  { rewrite !mapForest_compose. by apply ids_mapForest. }
  split; [done|]. split; [done|]. split.
  { unfold allIds, allElements. cbn. rewrite !fmap_app. f_equal. apply Hids. }
  split; [done|]. split; [done|]. split; [done|]. split; [done|]. split; [done|].
  split; [|done].
  intros e. rewrite !elements_mapForest.
  intros (e2 & -> & He2)%list_elem_of_fmap.
  apply list_elem_of_fmap in He2 as (e1 & -> & He1).
  apply list_elem_of_fmap in He1 as (e0 & -> & He0).
  rewrite !elHas_swept_clear, elHas_stripNew, !elHas_stripNew_ne by done.
  split; [|split].
  - destruct (elHas NewNodeClassName e0) eqn:Hn; [|done].
    rewrite bool_decide_eq_true_2; [done|]. apply Hnew. split.
    + by apply list_elem_of_fmap_2.
    + by apply (isNew_root s Hnd).
  - by destruct (elHas MovedNodeClassName e0).
  - destruct (elHas UpdatedNodeClassName e0), (elHas MovedNodeClassName e0); done.
Qed.

End Summary.

(** ** The order of the list of new nodes *)

Section Blocks.
Context (s : ShadowDom).
Context (Hnd : NoDup (allIds s)) (Hdet : removedAttached s = false).

(** A run of the inner loop puts in the list the nodes of the queue that
    are still tagged, and after them, for every node it lists, in the
    order it lists them, the children of that node that are tagged. *)
Lemma discover_block steps : ∀ q out,
  QueueInv s q out → length q + stateWeight (strip s out) ≤ steps →
  ∃ out',
    discover steps q out (strip s out) = Returns out' (strip s out') ∧
    QueueInv s [] out' ∧
    (∀ y, y ∈ pending s q out → y ∈ out') ∧
    out' = pending s q out ++ flat_map (segment s) (drop (length out) out').
Proof.
  induction steps as [|n IH]; intros [|x q] out Hinv Hsteps.
  - exists out. rewrite pending_nil, drop_all. cbn. rewrite app_nil_r. by split.
  - cbn [length] in Hsteps. lia.
  - exists out. rewrite pending_nil, drop_all. cbn. rewrite app_nil_r. by split.
  - cbn [discover]. rewrite read_eq, hasClass_strip.
    destruct (decide (curNew s out x)) as [Hx|Hx].
    + rewrite bool_decide_eq_true_2 by done.
      rewrite bind_eq. cbn [removeClass modify].
      change (withClassList (removeToken NewNodeClassName)) with rmNew.
      rewrite strip_step, read_eq, childNodesOf_strip.
      destruct (QueueInv_new s Hnd Hdet x q out Hinv Hx) as [Hinv' EV].
      destruct (IH (q ++ reverse (childNodesOf x s)) (out ++ [x]) Hinv')
        as (out' & Hrun & Hfin & Hsub & Heq).
      * pose proof (stateWeight_removeNew x (strip s out)) as Hw.
        rewrite hasClass_strip, bool_decide_eq_true_2 in Hw by done.
        specialize (Hw eq_refl).
        rewrite strip_step, childNodesOf_strip in Hw.
        rewrite length_app, length_reverse. cbn [length] in Hsteps. lia.
      * exists out'. split; [done|]. split; [done|]. split.
        { intros y Hy. apply Hsub. rewrite EV. set_solver. }
        rewrite EV, pending_cons_new in Heq by done.
        rewrite length_app, Nat.add_1_r in Heq. rewrite pending_cons_new by done.
        assert (out' !! length out = Some x) as Hlook.
        { rewrite Heq, <- !app_assoc. by apply list_lookup_middle. }
        rewrite (drop_S _ _ _ Hlook). cbn [flat_map].
        rewrite <- app_assoc in Heq. exact Heq.
    + rewrite bool_decide_eq_false_2 by done.
      destruct (IH q out (QueueInv_old s x q out Hinv Hx))
        as (out' & Hrun & Hfin & Hsub & Heq).
      * cbn [length] in Hsteps. lia.
      * exists out'. split; [done|]. split; [done|]. split.
        { intros y Hy. apply Hsub. by rewrite <- (pending_cons_old s x). }
        by rewrite pending_cons_old.
Qed.

(** The outer loop appends one block for every node it takes from the
    collection: the node, and after it the tagged children of every node
    of the block.  The nodes it takes come in the order of the
    document. *)
Lemma collectNew_blocks steps : ∀ out,
  QueueInv s [] out →
  length (filter (curNew s out) (ids (shadowDomRoot s))) ≤ steps →
  ∃ out' tops blocks,
    collectNew steps out (strip s out) = Returns out' (strip s out') ∧
    out' = out ++ concat blocks ∧
    Forall2 (λ t B, B = t :: flat_map (segment s) B) tops blocks ∧
    sublist tops (filter (curNew s out) (ids (shadowDomRoot s))).
Proof.
  induction steps as [|n IH]; intros out Hinv Hsteps.
  - destruct (filter (curNew s out) (ids (shadowDomRoot s))) as [|t rest] eqn:Hf;
      [|cbn in Hsteps; lia].
    exists out, [], []. cbn [collectNew]. rewrite read_eq.
    pose proof (newIds s Hnd Hdet out) as Hids. rewrite Hf in Hids.
    apply fmap_nil_inv in Hids. rewrite Hids. cbn. rewrite app_nil_r.
    split; [done|]. split; [done|]. split; constructor.
  - cbn [collectNew]. rewrite read_eq.
    pose proof (newIds s Hnd Hdet out) as Hids.
    destruct (getElementsByClassName NewNodeClassName (strip s out))
      as [|topNode others] eqn:Hc.
    + exists out, [], []. cbn. rewrite app_nil_r.
      split; [done|]. split; [done|]. split; [constructor | apply sublist_nil_l].
    + cbn in Hids. symmetry in Hids. set (t := elId topNode) in *.
      destruct (QueueInv_top s Hnd Hdet out _ _ Hinv Hids) as [Hinv' EV].
      destruct (discover_block (discoverSteps (strip s out)) [t] out Hinv')
        as (out1 & Hrun & Hfin & Hsub & Heq).
      { pose proof (stateWeight_bound (strip s out)). cbn [length]. lia. }
      rewrite bind_eq, Hrun.
      destruct (filter_head_first _ _ _ _ Hids) as (Ht & l1 & l2 & HD & _).
      rewrite EV in Heq.
      set (B := drop (length out) out1) in *.
      assert (B = t :: flat_map (segment s) B) as HB.
      { unfold B at 1. rewrite Heq, <- app_assoc. by rewrite drop_app_length. }
      assert (out1 = out ++ B) as Hout1.
      { rewrite HB. rewrite Heq at 1. by rewrite <- app_assoc. }
      assert (∀ y, curNew s out1 y → curNew s out y) as Hmono.
      { intros y [Hy1 Hy2]. split; [done|]. intros Hy. apply Hy2, Hsub.
        rewrite EV. set_solver. }
      assert (¬ curNew s out1 t) as Htdone.
      { intros [_ Hn]. apply Hn, Hsub. rewrite EV. set_solver. }
      assert (filter (curNew s out1) (ids (shadowDomRoot s))
              = filter (curNew s out1) (elId <$> others)) as Hrest.
      { rewrite <- (list_filter_filter_l (curNew s out1) (curNew s out)) by done.
        rewrite Hids. by rewrite filter_cons_False. }
      destruct (IH out1 Hfin) as (out' & tops & blocks & Hrun' & Heq' & Hb & Hsl).
      { assert (length (filter (curNew s out1) (ids (shadowDomRoot s)))
                < length (filter (curNew s out) (ids (shadowDomRoot s)))); [|lia].
        apply (filter_length_lt_elem _ _ _ t); [done| |done|done].
        rewrite HD. set_solver. }
      exists out', (t :: tops), (B :: blocks). split; [done|]. split.
      { rewrite Heq', Hout1. cbn [concat]. by rewrite <- app_assoc. }
      split; [by constructor|].
      rewrite Hids. apply sublist_skip. rewrite Hrest in Hsl.
      etrans; [exact Hsl | apply sublist_filter].
Qed.

End Blocks.

(** C3 (as amended). [getMutationSummary] builds [newNodes] from the
    nodes of the document tagged [cl-new], not from the [cl-new-top] tags
    and not in tagging order: it takes the first node in document order
    that is still tagged [cl-new], visits it and then, through a queue, the
    children of every node it lists, from the last child to the first;
    a visited node that is still tagged is listed and loses [cl-new], and
    only that tag.  When it returns, [newNodes] lists every node of the
    document that was tagged [cl-new] exactly once, the first listed is
    the first of them in document order, and every listed node is
    followed, later in the list, by its children that were tagged, in
    one run from the last child to the first.  The list is made of
    blocks, one for each subtree of tagged nodes: a block is its first
    node followed by the runs of tagged children of the nodes of the
    block, in the order the block lists these nodes; and the first nodes
    of the blocks come in the order of the document. *)
Theorem new_nodes_order (s : ShadowDom) :
  NoDup (allIds s) → removedAttached s = false →
  ∃ sum s',
    getMutationSummary s = Returns sum s' ∧
    collectNew (countClass NewNodeClassName s) [] s
      = Returns (newNodes sum) (strip s (newNodes sum)) ∧
    NoDup (newNodes sum) ∧
    (∀ i, i ∈ newNodes sum ↔ i ∈ ids (shadowDomRoot s) ∧ isNew s i) ∧
    head (newNodes sum) = head (filter (isNew s) (ids (shadowDomRoot s))) ∧
    (∀ p, p ∈ newNodes sum →
       ∃ l1 l2 l3, newNodes sum = l1 ++ p :: l2 ++ segment s p ++ l3) ∧
    (∀ e, e ∈ elements (shadowDomRoot s') → elHas NewNodeClassName e = false) ∧
    (∃ tops blocks,
       newNodes sum = concat blocks ∧
       Forall2 (λ t B, B = t :: flat_map (segment s) B) tops blocks ∧
       sublist tops (filter (isNew s) (ids (shadowDomRoot s)))).
Proof.
  intros Hnd Hdet.
  destruct (getMutationSummary_spec s Hnd Hdet) as (out & Hinv & Hdone & Hloop & Hrun).
  eexists _, _. split; [exact Hrun|]. cbn [newNodes].
  pose proof (collected_new s out Hinv Hdone) as Hall.
  assert (filter (curNew s []) (ids (shadowDomRoot s))
          = filter (isNew s) (ids (shadowDomRoot s))) as Hstart.
  { apply filter_ext_elem. intros y _. unfold curNew. split; [tauto|].
    intros ?. split; [done | apply not_elem_of_nil]. }
  assert (∃ tops blocks,
            out = concat blocks ∧
            Forall2 (λ t B, B = t :: flat_map (segment s) B) tops blocks ∧
            sublist tops (filter (isNew s) (ids (shadowDomRoot s)))) as Hblocks.
  { destruct (collectNew_blocks s Hnd Hdet (countClass NewNodeClassName s) []
                (QueueInv_init s))
      as (out' & tops & blocks & Hrun' & Heq & Hb & Hsl).
    { by rewrite <- (countClass_strip s Hnd Hdet []), strip_nil. }
    rewrite strip_nil, Hloop in Hrun'. injection Hrun' as <- _.
    exists tops, blocks. split; [done|]. split; [done|]. by rewrite <- Hstart. }
  destruct Hinv as [H1 H2 H3 H4 H5]. rewrite pending_nil in *.
  split; [done|]. split; [done|]. split; [done|]. split; [|split; [done|]].
  - destruct H5 as [->|H5]; [|done].
    rewrite (filter_ext_elem (isNew s) (curNew s [])), Hdone; [done|].
    intros y _. unfold curNew. split; [|tauto].
    intros ?. split; [done | apply not_elem_of_nil].
  - split; [|exact Hblocks].
    cbn [shadowDomRoot setForests]. intros e.
    rewrite !elements_mapForest.
    intros (e2 & -> & He2)%list_elem_of_fmap.
    apply list_elem_of_fmap in He2 as (e1 & -> & He1).
    apply list_elem_of_fmap in He1 as (e0 & -> & He0).
    rewrite !elHas_swept_clear, elHas_stripNew.
    destruct (elHas NewNodeClassName e0) eqn:Hnew; [|done].
    rewrite bool_decide_eq_true_2; [done|]. apply Hall. split.
    + by apply list_elem_of_fmap_2.
    + by apply (isNew_root s Hnd).
Qed.

(** C6 (as amended). [updatedNodes] lists, in document order and not in
    tagging order, exactly the nodes of the document that are tagged
    [cl-updated] and not [cl-moved] when the summary is extracted;
    [movedNodes] lists, in document order, those tagged [cl-moved].  So no
    node is in both, and the removed nodes are in none of the other
    lists; but a node listed in [newNodes] is listed again in
    [movedNodes] or [updatedNodes] when it carries that tag. *)
Theorem updated_nodes_list (s : ShadowDom) :
  NoDup (allIds s) → removedAttached s = false →
  ∃ sum s',
    getMutationSummary s = Returns sum s' ∧
    movedNodes sum =
      elId <$> filter (λ e, elHas MovedNodeClassName e = true)
                      (elements (shadowDomRoot s)) ∧
    updatedNodes sum =
      elId <$> filter (λ e, elHas UpdatedNodeClassName e = true ∧
                            elHas MovedNodeClassName e = false)
                      (elements (shadowDomRoot s)) ∧
    removedSummary sum =
      elId <$> filter (λ e, elHas NewNodeClassName e = false)
                      (topLevel (removedNodes s)) ∧
    (∀ i, i ∈ newNodes sum ↔ i ∈ ids (shadowDomRoot s) ∧ isNew s i) ∧
    (∀ i, i ∈ movedNodes sum → i ∉ updatedNodes sum) ∧
    (∀ i, i ∈ removedSummary sum →
          (i ∉ newNodes sum) ∧ (i ∉ movedNodes sum) ∧ (i ∉ updatedNodes sum)).
Proof.
  intros Hnd Hdet.
  destruct (getMutationSummary_spec s Hnd Hdet) as (out & Hinv & Hdone & _ & Hrun).
  pose proof (collected_new s out Hinv Hdone) as Hnew.
  eexists _, _. split; [exact Hrun|]. cbn.
  split; [done|]. split; [done|]. split; [done|]. split; [done|].
  assert (∀ i e, i ∈ elId <$> topLevel (removedNodes s) → e ∈ elements (shadowDomRoot s) →
                 elId e ≠ i) as Hdisj.
  { intros i e Hi He Heq.
    apply (root_removed_disjoint s Hnd i).
    - rewrite <- Heq. by apply list_elem_of_fmap_2.
    - by apply topLevel_ids. }
  split.
  - intros i (e1 & -> & [H1 He1]%list_elem_of_filter)%list_elem_of_fmap
             (e2 & Heq & [[_ H2] He2]%list_elem_of_filter)%list_elem_of_fmap.
    assert (e1 = e2) as -> by (by eapply (NoDup_fmap_eq elId), Heq; [apply NoDup_root|..]).
    congruence.
  - intros i (e & -> & [_ He]%list_elem_of_filter)%list_elem_of_fmap.
    assert (elId e ∈ elId <$> topLevel (removedNodes s)) as Hi
      by (by apply list_elem_of_fmap_2).
    split; [|split].
    + rewrite Hnew. intros [HD _].
      apply (root_removed_disjoint s Hnd _ HD). by apply topLevel_ids.
    + intros (e1 & Heq & [_ He1]%list_elem_of_filter)%list_elem_of_fmap.
      by eapply Hdisj.
    + intros (e1 & Heq & [_ He1]%list_elem_of_filter)%list_elem_of_fmap.
      by eapply Hdisj.
Qed.


(** * Well-formedness is kept while records are applied *)

Lemma NoDup_fmap_sub {A B} (f : A → B) (l k : list A) :
  l ⊆+ k → NoDup (f <$> k) → NoDup (f <$> l).
Proof.
  intros (l' & Hk)%submseteq_Permutation. rewrite Hk, fmap_app.
  by intros (? & _ & _)%NoDup_app.
Qed.

Lemma always_bind_at {A B} P (m : M A) (k : A → M B) s :
  P (finalState (m s)) → (∀ a, always P (k a)) → P (finalState ((m ≫= k) s)).
Proof.
  intros Hm Hk. rewrite bind_eq.
  destruct (m s) as [a s'|x s']; cbn in *; [by apply Hk | done].
Qed.

Section BatchInvariant.
Context (n0 : nat).

Lemma BatchInv_sub s s' :
  BatchInv n0 s →
  classifyNodes s' = classifyNodes s → nextIndex s' = nextIndex s →
  nodeIndex s' = nodeIndex s → allElements s' ⊆+ allElements s →
  BatchInv n0 s'.
Proof.
  intros (Hc & [Hnd Hlt] & Hreg & Hnew) Hc' Hn' Hr' Hsub.
  split; [congruence|]. split; [split|split].
  - by apply (NoDup_fmap_sub _ _ _ Hsub).
  - intros i (e & -> & He)%list_elem_of_fmap. rewrite Hn'. apply Hlt.
    apply list_elem_of_fmap_2. by eapply elem_of_submseteq.
  - rewrite Hn', Hr'. done.
  - intros e He. apply Hnew. by eapply elem_of_submseteq.
Qed.

Lemma BatchInv_report r s : BatchInv n0 s → BatchInv n0 (addReport r s).
Proof. intros H. by apply (BatchInv_sub s _ H). Qed.

Lemma BatchInv_document d s : BatchInv n0 s → BatchInv n0 (setShadowDocument d s).
Proof. intros H. by apply (BatchInv_sub s _ H). Qed.

Lemma BatchInv_update i h s :
  (∀ e, elId (h e) = elId e) →
  (∀ e, elHas NewNodeClassName e = true → elHas NewNodeClassName (h e) = true) →
  BatchInv n0 s → BatchInv n0 (updateElement i h s).
Proof.
  intros Hid Hkeep (Hc & [Hnd Hlt] & Hreg & Hnew).
  assert (allIds (updateElement i h s) = allIds s) as Hids.
  { rewrite mapClasses_updateElement. apply allIds_mapClasses.
    intros e. by case_decide. }
  split; [done|]. split; [split|split].
  - by rewrite Hids.
  - by rewrite Hids.
  - done.
  - intros e. rewrite allElements_updateElement.
    intros (e0 & -> & He0)%list_elem_of_fmap.
    case_decide; [rewrite Hid|]; auto.
Qed.

Lemma BatchInv_classes i g s :
  (∀ l, contains NewNodeClassName l = true → contains NewNodeClassName (g l) = true) →
  BatchInv n0 s → BatchInv n0 (updateElement i (withClassList g) s).
Proof. intros Hg. apply BatchInv_update; [done|]. intros e. apply Hg. Qed.

Lemma BatchInv_detach_attach p ref i e kids s :
  deref i s = Some (e, kids) →
  BatchInv n0 s → BatchInv n0 (attachElement p ref e kids (detachElement i s)).
Proof.
  intros Hd H. apply (BatchInv_sub s _ H).
  - unfold detachElement.
    by destruct p as [| |p]; cbn; destruct (hasId i _); cbn;
      try destruct (hasId p _).
  - unfold detachElement.
    by destruct p as [| |p]; cbn; destruct (hasId i _); cbn;
      try destruct (hasId p _).
  - unfold detachElement.
    by destruct p as [| |p]; cbn; destruct (hasId i _); cbn;
      try destruct (hasId p _).
  - etrans; [apply allElements_attachElement|].
    by rewrite <- (allElements_detachElement _ _ _ _ Hd).
Qed.

Lemma batch_assert c src msg : always (BatchInv n0) (assert c src msg).
Proof.
  unfold assert. always_auto; try apply always_modify; auto using BatchInv_report.
Qed.

Lemma batch_setClass r c : always (BatchInv n0) (setClass r c).
Proof.
  unfold setClass. always_auto. apply always_modify. intros s.
  apply BatchInv_classes. intros l Hl.
  destruct (decide (NewNodeClassName = c)) as [<-|Hne].
  - apply contains_add.
  - by rewrite contains_add_ne.
Qed.

Lemma batch_removeClass r c :
  c ≠ NewNodeClassName → always (BatchInv n0) (removeClass r c).
Proof.
  intros Hc. unfold removeClass. always_auto. apply always_modify. intros s.
  apply BatchInv_classes. intros l Hl. by rewrite contains_removeToken_ne.
Qed.

Lemma batch_insertExisting p i r : always (BatchInv n0) (insertExisting p i r).
Proof.
  intros s H. unfold insertExisting.
  destruct (deref i s) as [[e kids]|] eqn:Hd; [|done].
  repeat case_match; cbn [finalState]; try done.
  all: by apply BatchInv_detach_attach.
Qed.

Lemma batch_moveShadowNode i p n : always (BatchInv n0) (moveShadowNode i p n).
Proof.
  unfold moveShadowNode.
  always_auto;
    auto using batch_assert, batch_insertExisting, batch_setClass, batch_removeClass.
Qed.

Lemma batch_updateShadowNode i l : always (BatchInv n0) (updateShadowNode i l).
Proof.
  unfold updateShadowNode.
  always_auto; auto using batch_assert, batch_setClass.
  apply always_modify. intros s. by apply BatchInv_update.
Qed.

Lemma batch_removeShadowNode i : always (BatchInv n0) (removeShadowNode i).
Proof.
  unfold removeShadowNode.
  always_auto; auto using batch_assert, batch_insertExisting.
Qed.

Lemma BatchInv_attach_fresh p ref e s :
  BatchInv n0 s → elId e ∉ allIds s → elId e < nextIndex s →
  elHas NewNodeClassName e = true →
  BatchInv n0 (attachElement p ref e Nil s).
Proof.
  intros (Hc & [Hnd Hlt] & Hreg & Hnew) Hfresh Hid Hhas.
  pose proof (allElements_attachElement p ref e Nil s) as Hsub. cbn in Hsub.
  assert (classifyNodes (attachElement p ref e Nil s) = classifyNodes s
          ∧ nextIndex (attachElement p ref e Nil s) = nextIndex s
          ∧ nodeIndex (attachElement p ref e Nil s) = nodeIndex s) as (Hc' & Hn' & Hr').
  { by destruct p as [| |p]; cbn; try destruct (hasId p _). }
  split; [congruence|]. split; [split|split].
  - apply (NoDup_fmap_sub _ _ _ Hsub). cbn. by apply NoDup_cons.
  - intros i (x & -> & Hx)%list_elem_of_fmap. rewrite Hn'.
    eapply elem_of_submseteq in Hx; [|exact Hsub].
    apply elem_of_cons in Hx as [->|Hx]; [done|].
    by apply Hlt, list_elem_of_fmap_2.
  - by rewrite Hn', Hr'.
  - intros x Hx. eapply elem_of_submseteq in Hx; [|exact Hsub].
    apply elem_of_cons in Hx as [->|Hx]; auto.
Qed.

(** A node without index gets a fresh one, and its element a fresh id. *)
Lemma batch_insertShadowNode node p n l s :
  getNodeIndex (Some node) s = None →
  BatchInv n0 s → BatchInv n0 (finalState (insertShadowNode node p n l s)).
Proof.
  intros Hnone (Hc & [Hnd Hlt] & Hreg & Hnew).
  unfold insertShadowNode. rewrite bind_eq, (setNodeIndex_unknown _ _ Hnone).
  set (s1 := setRegistry (S (nextIndex s)) (<[node:=nextIndex s]> (nodeIndex s)) s).
  set (Fresh := λ s', BatchInv n0 s' ∧ (nextIndex s ∉ allIds s')
                      ∧ nextIndex s < nextIndex s').
  assert (Fresh s1) as H1.
  { split; [|split; [|cbn; lia]].
    - split; [done|]. split; [split|split]; cbn.
      + done.
      + intros i Hi. specialize (Hlt i Hi). lia.
      + intros m i. rewrite lookup_insert. case_decide; [intros [= <-]; lia|].
        intros Hm%Hreg. lia.
      + done.
    - intros Hi%Hlt. lia. }
  assert (classifyNodes s1 = true) as Hc1 by done.
  rewrite read_eq. cbv zeta. rewrite Hc1.
  match goal with |- context [insertNew _ ?e _] => set (shadowNode := e) end.
  assert (elId shadowNode = nextIndex s ∧ elHas NewNodeClassName shadowNode = true)
    as [Hid Hhas].
  { unfold shadowNode. destruct (negb _); split; done. }
  clearbody shadowNode.
  assert (∀ r s', Fresh s' → Fresh (addReport r s')) as Hrep.
  { intros r s' (? & ? & ?). split; [by apply BatchInv_report | done]. }
  assert (∀ d s', Fresh s' → Fresh (setShadowDocument d s')) as Hdoc.
  { intros d s' (? & ? & ?). split; [by apply BatchInv_document | done]. }
  assert (∀ parent r s', Fresh s' →
            BatchInv n0 (finalState (insertNew parent shadowNode r s'))) as Hins.
  { intros parent r s' (Hb & Hf & Hn).
    assert (BatchInv n0 (attachElement parent r shadowNode Nil s'))
      by (apply BatchInv_attach_fresh; rewrite ?Hid; done).
    unfold insertNew. destruct r; [destruct (decide _)|]; done. }
  rewrite bind_eq.
  assert (∃ s2, (if bool_decide (node = document)
                 then modify (setShadowDocument (Some (nextIndex s)))
                 else mret ()) s1 = Returns () s2 ∧ Fresh s2) as (s2 & -> & H2).
  { destruct (bool_decide (node = document)); eexists; (split; [reflexivity|]); auto. }
  assert (∀ c src msg s',
            Fresh s' →
            match assert c src msg s' with
            | Returns _ s3 => Fresh s3
            | Throws _ s3 => BatchInv n0 s3
            end) as Hassert.
  { intros c src msg s' H'. unfold assert. destruct c; [done|].
    rewrite bind_eq. cbn [modify].
    destruct assertThrows; cbn; [by apply Hrep | by apply Hrep]. }
  rewrite bind_eq.
  match goal with |- context [assert ?c ?a ?b s2] =>
    specialize (Hassert c a b s2 H2); destruct (assert c a b s2) as [[] s3|x s3]
  end; [|done].
  match goal with |- context [match ?x with Some _ => _ | None => mret None end] =>
    destruct x as [parent|] end; [|apply Hassert].
  rewrite bind_eq.
  specialize (Hins parent (elId ∘ fst <$> getShadowNode n s1) s3 Hassert).
  destruct (insertNew _ _ _ s3); done.
Qed.

Lemma batch_discoverChildren insert n ks :
  Forall (λ k, ∀ parent prev next force,
               always (BatchInv n0) (insert k parent prev next force)) ks →
  ∀ prev, always (BatchInv n0) (discoverChildren insert n ks prev).
Proof.
  induction 1 as [|k ks Hk _ IH]; intros prev; cbn [discoverChildren];
    always_auto; auto.
Qed.

Lemma batch_applyInsert a :
  ∀ parent prev next force, always (BatchInv n0) (applyInsert a parent prev next force).
Proof.
  induction a as [n ks IH] using LiveNode_induction. intros. rewrite applyInsert_eq.
  apply always_read. intros s Hs. cbv zeta.
  destruct (_ || force); [|done].
  destruct (getNodeIndex (Some (handle (Live n ks))) s) as [i|] eqn:Hi.
  - refine ((_ : always (BatchInv n0) _) s Hs).
    always_auto; auto using batch_moveShadowNode.
  - apply always_bind_at; [by apply batch_insertShadowNode|].
    intros r. always_auto; auto using batch_setClass.
    by apply batch_discoverChildren.
Qed.

Lemma batch_applyRemove r parent : always (BatchInv n0) (applyRemove r parent).
Proof. unfold applyRemove. always_auto; auto using batch_removeShadowNode. Qed.

Lemma batch_applyUpdate n : always (BatchInv n0) (applyUpdate n).
Proof. unfold applyUpdate. always_auto; auto using batch_updateShadowNode. Qed.

Lemma batch_applyAdded added target :
  ∀ prev next, always (BatchInv n0) (applyAdded added target prev next).
Proof.
  induction added as [|a rest IH]; intros; cbn [applyAdded]; always_auto;
    auto using batch_applyInsert.
Qed.

Lemma batch_applyRemoved removed target :
  always (BatchInv n0) (applyRemoved removed target).
Proof.
  induction removed as [|r rest IH]; cbn [applyRemoved]; always_auto;
    auto using batch_applyRemove.
Qed.

Lemma batch_applyMutation m : always (BatchInv n0) (applyMutation m).
Proof.
  destruct m; cbn [applyMutation]; always_auto;
    auto using batch_applyUpdate, batch_applyAdded, batch_applyRemoved.
Qed.

Lemma batch_applyMutations ms : always (BatchInv n0) (applyMutations ms).
Proof.
  induction ms as [|m ms IH]; cbn [applyMutations]; always_auto;
    auto using batch_applyMutation.
Qed.

End BatchInvariant.

(** A well-formed object with a sound registry starts every batch in a
    state of the invariant. *)
Lemma BatchInv_start s :
  WF s → (∀ n i, nodeIndex s !! n = Some i → i < nextIndex s) →
  BatchInv (nextIndex s) (startBatch s).
Proof.
  intros [Hnd Hlt] Hreg. split; [done|]. split; [by split|]. split; [done|].
  intros e He Hle. cbn in He.
  assert (elId e < nextIndex s) by (by apply Hlt, list_elem_of_fmap_2).
  cbn in Hle. lia.
Qed.


(** * Applying records never uses up a step bound *)

Lemma withinSteps_ret {A} (a : A) s : withinSteps (mret a) s.
Proof. done. Qed.

Lemma withinSteps_bind {A B} (m : M A) (k : A → M B) s :
  withinSteps m s → (∀ a s1, withinSteps (k a) s1) → withinSteps (m ≫= k) s.
Proof.
  unfold withinSteps. rewrite bind_eq. intros Hm Hk.
  destruct (m s) as [a s1|x s1]; [apply Hk | done].
Qed.

Ltac steps_auto :=
  repeat lazymatch goal with
  | |- withinSteps (mret _) _ => exact I
  | |- withinSteps get _ => exact I
  | |- withinSteps (modify _) _ => exact I
  | |- withinSteps (_ ≫= _) _ => apply withinSteps_bind; [|intros ? ?]
  | |- withinSteps (if ?b then _ else _) _ => destruct b
  | |- withinSteps (match ?x with _ => _ end) _ => destruct x
  | |- withinSteps (let _ := _ in _) _ => cbv zeta
  end.

Lemma withinSteps_assert c src msg s : withinSteps (assert c src msg) s.
Proof.
  unfold assert. destruct c; [done|]. unfold withinSteps. rewrite bind_eq. cbn.
  by destruct assertThrows.
Qed.

Lemma withinSteps_setClass r c s : withinSteps (setClass r c) s.
Proof. unfold setClass. by steps_auto. Qed.

Lemma withinSteps_removeClass r c s : withinSteps (removeClass r c) s.
Proof. unfold removeClass. by steps_auto. Qed.

Lemma withinSteps_insertNew p e r s : withinSteps (insertNew p e r) s.
Proof.
  unfold withinSteps, insertNew. destruct r; [destruct (decide _)|]; done.
Qed.

Lemma withinSteps_insertExisting p i r s : withinSteps (insertExisting p i r) s.
Proof.
  unfold withinSteps, insertExisting.
  destruct (deref i s) as [[e kids]|]; [|done]. by repeat case_match.
Qed.

Lemma withinSteps_insertShadowNode node p n l s :
  withinSteps (insertShadowNode node p n l) s.
Proof.
  unfold insertShadowNode.
  steps_auto; auto using withinSteps_assert, withinSteps_insertNew.
  unfold withinSteps, setNodeIndex. by destruct (getNodeIndex _ _).
Qed.

Lemma withinSteps_moveShadowNode i p n s : withinSteps (moveShadowNode i p n) s.
Proof.
  unfold moveShadowNode.
  steps_auto;
    auto using withinSteps_assert, withinSteps_insertExisting, withinSteps_setClass,
      withinSteps_removeClass.
Qed.

Lemma withinSteps_updateShadowNode i l s : withinSteps (updateShadowNode i l) s.
Proof.
  unfold updateShadowNode.
  steps_auto; auto using withinSteps_assert, withinSteps_setClass.
Qed.

Lemma withinSteps_removeShadowNode i s : withinSteps (removeShadowNode i) s.
Proof.
  unfold removeShadowNode.
  steps_auto; auto using withinSteps_assert, withinSteps_insertExisting.
Qed.

Lemma withinSteps_discoverChildren insert n ks :
  Forall (λ k, ∀ parent prev next force s,
               withinSteps (insert k parent prev next force) s) ks →
  ∀ prev s, withinSteps (discoverChildren insert n ks prev) s.
Proof.
  induction 1 as [|k ks Hk _ IH]; intros prev s; cbn [discoverChildren];
    steps_auto; auto.
Qed.

Lemma withinSteps_applyInsert a :
  ∀ parent prev next force s, withinSteps (applyInsert a parent prev next force) s.
Proof.
  induction a as [n ks IH] using LiveNode_induction. intros. rewrite applyInsert_eq.
  steps_auto;
    auto using withinSteps_insertShadowNode, withinSteps_setClass,
      withinSteps_moveShadowNode.
  by apply withinSteps_discoverChildren.
Qed.

Lemma withinSteps_applyMutation m s : withinSteps (applyMutation m) s.
Proof.
  assert (∀ added target prev next s', withinSteps (applyAdded added target prev next) s')
    as Hadd.
  { induction added as [|a rest IH]; intros; cbn [applyAdded]; steps_auto;
      auto using withinSteps_applyInsert. }
  assert (∀ removed target s', withinSteps (applyRemoved removed target) s') as Hrem.
  { induction removed as [|r rest IH]; intros; cbn [applyRemoved]; steps_auto; auto.
    unfold applyRemove. steps_auto; auto using withinSteps_removeShadowNode. }
  destruct m; cbn [applyMutation]; steps_auto; auto.
  all: unfold applyUpdate; steps_auto; auto using withinSteps_updateShadowNode.
Qed.

Lemma withinSteps_applyMutations ms s : withinSteps (applyMutations ms) s.
Proof.
  revert s. induction ms as [|m ms IH]; intros s; cbn [applyMutations];
    steps_auto; auto using withinSteps_applyMutation.
Qed.


(** * The second half of a batch *)

Lemma elHas_swept_remove c d e :
  elHas d (swept c (removeToken c) e) = elHas d e && negb (bool_decide (d = c)).
Proof.
  unfold swept. destruct (elHas c e) eqn:Hc.
  - unfold elHas. cbn. case_bool_decide as Hd.
    + subst d. by rewrite contains_removeToken, andb_false_r.
    + rewrite contains_removeToken_ne by done. by rewrite andb_true_r.
  - case_bool_decide as Hd; [subst d; by rewrite Hc | by rewrite andb_true_r].
Qed.

(** From a well-formed shadow document the second half of a batch
    returns the summary of [getMutationSummary], and leaves no tag but
    [cl-new-top]. *)
Lemma finishBatch_spec s :
  NoDup (allIds s) →
  ∃ sum s2 s',
    getMutationSummary (setRemovedAttached false s) = Returns sum s2 ∧
    finishBatch s = Returns sum s' ∧
    removedNodes s' = Nil ∧
    classifyNodes s' = false ∧
    removedAttached s' = false ∧
    nextIndex s' = nextIndex s ∧
    nodeIndex s' = nodeIndex s ∧
    ids (shadowDomRoot s') = ids (shadowDomRoot s) ∧
    (∀ e c, e ∈ elements (shadowDomRoot s') → c ≠ TopNewNodeClassName →
            elHas c e = false).
Proof.
  intros Hnd.
  destruct (getMutationSummary_state (setRemovedAttached false s) Hnd eq_refl)
    as (sum & s2 & Hrun & _ & _ & Hids & Hroot & Hrem & Hdet & Hnext & Hreg & Hcl & _).
  exists sum, s2. eexists. split; [done|].
  unfold finishBatch. rewrite bind_eq. cbn [modify]. rewrite bind_eq, Hrun.
  rewrite read_eq, bind_eq.
  rewrite (sweep_spec FinalClassName (removeToken FinalClassName)
             (λ r, removeClass r FinalClassName) (λ _, eq_refl)
             (contains_removeToken FinalClassName));
    [|by rewrite Hids|done|done].
  rewrite bind_eq. cbn [modify]. rewrite bind_eq. cbn [modify]. rewrite ret_eq.
  split; [done|]. cbn.
  split; [done|]. split; [done|]. split; [done|]. split; [done|]. split; [done|].
  split.
  { rewrite ids_mapForest by (intros; apply elId_swept). done. }
  intros e c. rewrite elements_mapForest.
  intros (e0 & -> & He0)%list_elem_of_fmap Hc.
  rewrite elHas_swept_remove. destruct (Hcl e0 He0) as (H1 & H2 & H3).
  destruct c; try done; rewrite ?H1, ?H2, ?H3; [|done..].
  by rewrite bool_decide_eq_true_2, andb_false_r.
Qed.

(** A batch that starts from a well-formed shadow document stops only
    where a record is applied. *)
Lemma applyMutationBatch_cases ms s :
  WF s → (∀ n i, nodeIndex s !! n = Some i → i < nextIndex s) →
  (∃ x sx, applyMutations ms (startBatch s) = Throws x sx ∧
           applyMutationBatch ms s = Throws x sx ∧ x ≠ StepLimit) ∨
  (∃ s1, applyMutations ms (startBatch s) = Returns () s1 ∧
         BatchInv (nextIndex s) s1 ∧
         applyMutationBatch ms s = finishBatch s1).
Proof.
  intros Hwf Hreg. rewrite applyMutationBatch_eq, bind_eq.
  pose proof (batch_applyMutations (nextIndex s) ms (startBatch s)
                (BatchInv_start s Hwf Hreg)) as Hinv.
  pose proof (withinSteps_applyMutations ms (startBatch s)) as Hsteps.
  unfold withinSteps in Hsteps.
  destruct (applyMutations ms (startBatch s)) as [[] s1|x sx] eqn:Hrun.
  - right. by exists s1.
  - left. exists x, sx. split; [done|]. split; [done|]. by intros ->.
Qed.

(** C2 (as amended). A node that is first seen in a batch (its index is
    handed out during the batch) and whose mirror lies in the holding area
    when the records have been applied is listed neither as new nor as
    removed in the summary; its index is below [nextIndex] afterwards, so
    whatever is called later, at most one live node holds the index and
    [setNodeIndex] gives it to no node that does not hold it already. *)
Theorem cancelled_insert_not_reported (ms : list MutationRecord) (s : ShadowDom)
    (sum : IShadowDomMutationSummary) (s' : ShadowDom) (i : nat) :
  WF s → Registry s →
  applyMutationBatch ms s = Returns sum s' →
  nextIndex s ≤ i →
  i ∈ ids (removedNodes (finalState (applyMutations ms (startBatch s)))) →
  (i ∉ newNodes sum) ∧ (i ∉ removedSummary sum) ∧
  (i ∉ ids (shadowDomRoot s')) ∧
  i < nextIndex s' ∧
  ∀ calls,
    Registry (runAll calls s') ∧
    ∀ node, returned (setNodeIndex node (runAll calls s')) = Some i →
            getNodeIndex (Some node) (runAll calls s') = Some i.
Proof.
  intros Hwf HR Hrun Hi Hheld.
  destruct (applyMutationBatch_cases ms s Hwf (proj1 HR))
    as [(x & sx & _ & Hthrow & _)|(s1 & Hrec & Hinv & Hfin)]; [congruence|].
  rewrite Hrec in Hheld. cbn [finalState] in Hheld.
  destruct Hinv as (_ & [Hnd Hlt] & _ & Hfresh).
  destruct (getMutationSummary_state (setRemovedAttached false s1) Hnd eq_refl)
    as (sum1 & s2 & Hsum & Hnew & Hremoved & _).
  destruct (finishBatch_spec s1 Hnd)
    as (sum2 & s2' & s3 & Hsum' & Hfin' & _ & _ & _ & Hnext & _ & Hids & _).
  rewrite Hsum in Hsum'. injection Hsum' as <- <-.
  rewrite Hfin, Hfin' in Hrun. injection Hrun as <- <-.
  assert (i ∉ ids (shadowDomRoot s1)) as Hout.
  { intros Hin.
    by apply (root_removed_disjoint (setRemovedAttached false s1) Hnd i). }
  assert (i < nextIndex s3) as Hbelow.
  { rewrite Hnext. apply Hlt. unfold allIds, allElements.
    rewrite fmap_app, elem_of_app. by right. }
  split; [|split; [|split; [|split; [done|]]]].
  - rewrite Hnew. intros [Hin _]. by apply Hout.
  - rewrite Hremoved.
    intros (e & -> & [Hno He]%list_elem_of_filter)%list_elem_of_fmap.
    cbn in He. rewrite Hfresh in Hno; [done| |done].
    unfold allElements. rewrite elem_of_app. right. by apply topLevel_elements.
  - by rewrite Hids.
  - intros calls.
    assert (Registry s3) as HR3.
    { pose proof (Registry_run (CallApplyMutationBatch ms) s HR) as [H _].
      cbn in H. by rewrite Hfin, Hfin' in H. }
    destruct (Registry_runAll calls s3 HR3) as [HR4 (Hle & _ & _)].
    split; [done|]. intros node.
    destruct (getNodeIndex (Some node) (runAll calls s3)) as [j|] eqn:Hj.
    + by rewrite (setNodeIndex_known _ _ _ Hj).
    + rewrite (setNodeIndex_unknown _ _ Hj). cbn. intros [= H]. lia.
Qed.


(** * Taking a subtree out and putting it under a new parent *)

Lemma parentIn_mapForest h c q f :
  (∀ e, elId (h e) = elId e) → parentIn c q (mapForest h f) = parentIn c q f.
Proof.
  intros Hid. revert q.
  induction f as [|x xkids IHk xnext IHn]; intros q; cbn; [done|].
  by rewrite !Hid, IHk, IHn.
Qed.

Lemma nextSiblingIn_mapForest h c f :
  (∀ e, elId (h e) = elId e) → nextSiblingIn c (mapForest h f) = nextSiblingIn c f.
Proof.
  intros Hid.
  induction f as [|x xkids IHk xnext IHn]; cbn; [done|].
  rewrite Hid, IHk, IHn. case_decide; [|done].
  destruct xnext; cbn; by rewrite ?Hid.
Qed.

Lemma updateById_absent i g f : i ∉ ids f → updateById i g f = f.
Proof.
  induction f as [|x xkids IHk xnext IHn]; cbn; [done|].
  rewrite ids_Cons, not_elem_of_cons, not_elem_of_app. intros (Hx & Hk & Hn).
  rewrite decide_False by congruence. by rewrite IHk, IHn.
Qed.

(** Where a parent found by [parentIn] comes from. *)
Lemma parentIn_inv r q f q' :
  NoDup (ids f) → parentIn r q f = Some q' →
  (q' = q ∧ r ∈ elId <$> topLevel f) ∨
  (∃ p pe pk, q' = Elem p ∧ getElementById p f = Some (pe, pk) ∧
              r ∈ elId <$> topLevel pk).
Proof.
  revert q.
  induction f as [|x xkids IHk xnext IHn]; intros q; cbn; [done|].
  rewrite ids_Cons, NoDup_cons, NoDup_app, not_elem_of_app.
  intros ((Hxk & Hxn) & Hk & Hdisj & Hn).
  case_decide as Hx.
  { intros [= <-]. left. split; [done|]. rewrite Hx. by left. }
  destruct (parentIn r (Elem (elId x)) xkids) as [q1|] eqn:Hq1.
  - intros [= <-]. destruct (IHk _ Hk Hq1) as [[-> Hr]|(p & pe & pk & -> & Hp & Hr)].
    + right. exists (elId x), x, xkids. by rewrite decide_True.
    + right. exists p, pe, pk. split; [done|]. split; [|done].
      rewrite decide_False, Hp; [done|].
      intros Heq. apply Hxk. rewrite Heq. apply getElementById_is_Some. eauto.
  - intros Hq. destruct (IHn _ Hn Hq) as [[-> Hr]|(p & pe & pk & -> & Hp & Hr)].
    + left. split; [done|]. by right.
    + right. exists p, pe, pk. split; [done|]. split; [|done].
      assert (p ∈ ids xnext) as Hin by (apply getElementById_is_Some; eauto).
      rewrite decide_False by (intros Heq; apply Hxn; by rewrite Heq).
      rewrite (proj2 (getElementById_None p xkids)); [done|].
      intros ?. by eapply Hdisj.
Qed.

(** The next sibling of a child, read off the child list. *)
Lemma nextSiblingIn_topLevel c f l1 l2 :
  NoDup (ids f) → elId <$> topLevel f = l1 ++ c :: l2 →
  nextSiblingIn c f = Some (head l2).
Proof.
  revert l1.
  induction f as [|x xkids _ xnext IHn]; intros l1; cbn.
  { intros _ H. by destruct l1. }
  rewrite ids_Cons, NoDup_cons, NoDup_app, not_elem_of_app.
  intros ((Hxk & Hxn) & Hk & Hdisj & Hn) Hl.
  destruct l1 as [|y l1]; cbn in Hl; injection Hl as Hy Hl.
  - rewrite decide_True by done. f_equal. rewrite <- Hl. by destruct xnext.
  - assert (c ∈ ids xnext) as Hin.
    { apply topLevel_ids. rewrite Hl. set_solver. }
    rewrite decide_False by (intros Heq; apply Hxn; by rewrite Heq).
    assert (nextSiblingIn c xkids = None) as ->.
    { clear -Hin Hdisj. assert (c ∉ ids xkids) as Hc by (intros ?; by eapply Hdisj).
      clear -Hc. induction xkids as [|k kk IHkk kn IHkn]; cbn; [done|].
      rewrite ids_Cons, not_elem_of_cons, not_elem_of_app in Hc.
      destruct Hc as (? & ? & ?).
      rewrite decide_False by congruence. by rewrite IHkk, IHkn. }
    by apply (IHn l1).
Qed.

Lemma nextSiblingIn_absent c f : c ∉ ids f → nextSiblingIn c f = None.
Proof.
  induction f as [|x xkids IHk xnext IHn]; cbn; [done|].
  rewrite ids_Cons, not_elem_of_cons, not_elem_of_app. intros (Hx & Hk & Hn).
  rewrite decide_False by congruence. by rewrite IHk, IHn.
Qed.

Lemma nextSiblingIn_child p f pe pk c l1 l2 :
  NoDup (ids f) → getElementById p f = Some (pe, pk) →
  elId <$> topLevel pk = l1 ++ c :: l2 →
  nextSiblingIn c f = Some (head l2).
Proof.
  revert pe pk.
  induction f as [|x xkids IHk xnext IHn]; intros pe pk; cbn; [done|].
  rewrite ids_Cons, NoDup_cons, NoDup_app, not_elem_of_app.
  intros ((Hxk & Hxn) & Hk & Hdisj & Hn).
  case_decide as Hx.
  - intros [= <- <-] Hl.
    assert (c ∈ ids xkids) as Hin by (apply topLevel_ids; rewrite Hl; set_solver).
    rewrite decide_False by (intros Heq; apply Hxk; by rewrite Heq).
    by rewrite (nextSiblingIn_topLevel c xkids l1 l2).
  - destruct (getElementById p xkids) as [r|] eqn:Hpk.
    + intros [= ->] Hl.
      assert (c ∈ ids xkids) as Hin.
      { eapply kids_ids; [done|]. apply topLevel_ids. rewrite Hl. set_solver. }
      rewrite decide_False by (intros Heq; apply Hxk; by rewrite Heq).
      by rewrite (IHk _ _ Hk eq_refl Hl).
    + intros Hpn Hl.
      assert (c ∈ ids xnext) as Hin.
      { eapply kids_ids; [done|]. apply topLevel_ids. rewrite Hl. set_solver. }
      rewrite decide_False by (intros Heq; apply Hxn; by rewrite Heq).
      rewrite nextSiblingIn_absent by (intros ?; by eapply Hdisj).
      by apply (IHn _ _ Hn Hpn).
Qed.

Lemma getElementById_insertTop_new ref e kids f :
  elId e ∉ ids f → getElementById (elId e) (insertTop ref e kids f) = Some (e, kids).
Proof.
  induction f as [|x xkids _ xnext IHn]; cbn.
  - by rewrite decide_True.
  - rewrite ids_Cons, not_elem_of_cons, not_elem_of_app. intros (Hx & Hk & Hn).
    case_decide; cbn.
    + by rewrite decide_True.
    + rewrite decide_False by congruence.
      rewrite (proj2 (getElementById_None _ xkids)) by done. by apply IHn.
Qed.

Lemma getElementById_insertUnder_new p ref e kids f :
  p ∈ ids f → elId e ∉ ids f →
  getElementById (elId e) (insertUnder p ref e kids f) = Some (e, kids).
Proof.
  induction f as [|x xkids IHk xnext IHn]; cbn.
  { by intros ?%elem_of_nil. }
  rewrite ids_Cons, elem_of_cons, elem_of_app, not_elem_of_cons, not_elem_of_app.
  intros Hp (Hx & Hk & Hn).
  case_decide as Hxp; cbn.
  - rewrite decide_False by congruence. by rewrite getElementById_insertTop_new.
  - destruct (hasId p xkids) eqn:Hpk; cbn; rewrite decide_False by congruence.
    + apply hasId_true in Hpk. by rewrite IHk.
    + apply hasId_false in Hpk.
      rewrite (proj2 (getElementById_None _ xkids)) by done.
      apply IHn; [|done]. naive_solver.
Qed.

Lemma getElementById_insertUnder_parent p ref e kids f pe pk :
  elId e ≠ p → getElementById p f = Some (pe, pk) →
  getElementById p (insertUnder p ref e kids f) = Some (pe, insertTop ref e kids pk).
Proof.
  intros He. revert pe pk.
  induction f as [|x xkids IHk xnext IHn]; intros pe pk; cbn; [done|].
  case_decide as Hx.
  - intros [= <- <-]. cbn. by rewrite decide_True.
  - destruct (getElementById p xkids) as [r|] eqn:Hpk.
    + intros [= ->].
      rewrite (proj2 (hasId_true p xkids)) by (apply getElementById_is_Some; eauto).
      cbn. rewrite decide_False by done. by rewrite (IHk _ _ eq_refl).
    + intros Hpn.
      rewrite (proj2 (hasId_false p xkids)) by (by apply getElementById_None).
      cbn. rewrite decide_False by done. rewrite Hpk. by apply IHn.
Qed.

(** After the subtree of [i] is taken out, another element is found as
    before, without that subtree. *)
Lemma getElementById_removeById i p f e kids :
  NoDup (ids f) → getElementById i f = Some (e, kids) →
  p ≠ i → p ∉ ids kids →
  getElementById p (removeById i f)
  = (λ r, (r.1, removeById i r.2)) <$> getElementById p f.
Proof.
  intros Hnd Hi Hp Hpk. revert e kids Hnd Hi Hpk.
  induction f as [|x xkids IHk xnext IHn]; intros e kids; cbn; [done|].
  rewrite ids_Cons, NoDup_cons, NoDup_app, not_elem_of_app.
  intros ((Hxk & Hxn) & Hk & Hdisj & Hn).
  case_decide as Hx.
  - intros [= <- <-] Hpk. rewrite decide_False by congruence.
    rewrite (proj2 (getElementById_None p xkids)) by done.
    destruct (getElementById p xnext) as [[pe pk]|] eqn:Hpn; [|done]. cbn.
    rewrite removeById_absent; [done|].
    intros Hin. apply Hxn. rewrite Hx. by eapply kids_ids.
  - destruct (getElementById i xkids) as [r|] eqn:Hik.
    + intros [= ->] Hpk.
      rewrite (proj2 (hasId_true i xkids)) by (apply getElementById_is_Some; eauto).
      cbn. case_decide as Hxp.
      * done.
      * rewrite (IHk _ _ Hk eq_refl Hpk).
        destruct (getElementById p xkids) as [r|]; [done|]. cbn.
        destruct (getElementById p xnext) as [[pe pk]|] eqn:Hpn; [|done]. cbn.
        rewrite removeById_absent; [done|].
        intros Hin. apply (Hdisj i).
        -- apply getElementById_is_Some. eauto.
        -- by eapply kids_ids.
    + intros Hin Hpk.
      rewrite (proj2 (hasId_false i xkids)) by (by apply getElementById_None).
      cbn. case_decide as Hxp.
      * cbn. rewrite removeById_absent; [done|]. by apply getElementById_None.
      * destruct (getElementById p xkids) as [[pe pk]|] eqn:Hpx.
        -- cbn. rewrite removeById_absent; [done|].
           intros Hi. apply getElementById_None in Hik. apply Hik.
           by eapply kids_ids.
        -- by apply (IHn _ _ Hn Hin).
Qed.

Lemma topLevel_insertTop ref e kids f :
  ∃ l1 l2,
    elId <$> topLevel f = l1 ++ l2 ∧
    elId <$> topLevel (insertTop ref e kids f) = l1 ++ elId e :: l2 ∧
    head l2 = r ← ref; if bool_decide (r ∈ elId <$> topLevel f) then Some r else None.
Proof.
  induction f as [|x xkids _ xnext IHn]; cbn.
  - exists [], []. split; [done|]. split; [done|]. by destruct ref.
  - case_decide as Hx.
    + exists [], (elId x :: (elId <$> topLevel xnext)).
      split; [done|]. split; [done|]. rewrite Hx. cbn.
      by rewrite bool_decide_eq_true_2 by (by left).
    + destruct IHn as (l1 & l2 & H1 & H2 & H3).
      exists (elId x :: l1), l2. cbn. rewrite H1, H2. split; [done|]. split; [done|].
      rewrite H3. destruct ref as [r|]; [|done]. cbn.
      apply (f_equal (λ b : bool, if b then Some r else None)).
      apply bool_decide_ext. rewrite elem_of_cons.
      rewrite <- H1. split; [by right|]. intros [->|?]; [by destruct Hx|done].
Qed.

Lemma filter_all {A} (P : A → Prop) `{∀ x, Decision (P x)} (l : list A) :
  (∀ x, x ∈ l → P x) → filter P l = l.
Proof.
  induction l as [|a l IH]; intros Hall; [done|].
  rewrite filter_cons_True by (apply Hall; by left).
  f_equal. apply IH. intros x Hx. apply Hall. by right.
Qed.

Lemma filter_none {A} (P : A → Prop) `{∀ x, Decision (P x)} (l : list A) :
  (∀ x, x ∈ l → ¬ P x) → filter P l = [].
Proof.
  induction l as [|a l IH]; intros Hall; [done|].
  rewrite filter_cons_False by (apply Hall; by left).
  apply IH. intros x Hx. apply Hall. by right.
Qed.

Lemma topLevel_removeById i f :
  NoDup (ids f) →
  elId <$> topLevel (removeById i f) = filter (λ x, x ≠ i) (elId <$> topLevel f).
Proof.
  induction f as [|x xkids _ xnext IHn]; [done|].
  rewrite ids_Cons, NoDup_cons, NoDup_app, not_elem_of_app.
  intros ((Hxk & Hxn) & Hk & Hdisj & Hn).
  assert (∀ g, i ∉ ids g → filter (λ x, x ≠ i) (elId <$> topLevel g) = elId <$> topLevel g)
    as Hsame.
  { intros g Hg. apply filter_all. by intros y Hy%topLevel_ids ->. }
  cbn [removeById topLevel]. rewrite fmap_cons.
  case_decide as Hx.
  - rewrite filter_cons_False by (intros H; by apply H).
    rewrite Hsame; [done|]. by rewrite <- Hx.
  - rewrite filter_cons_True by done.
    destruct (hasId i xkids) eqn:Hik; cbn [topLevel]; rewrite fmap_cons; f_equal.
    + apply hasId_true in Hik. rewrite Hsame; [done|]. intros ?. by eapply Hdisj.
    + by apply IHn.
Qed.


(** * Moving a shadow node *)

(** The subtree put under [p] is found there, before the child [ref]. *)
Lemma insertUnder_places f q p ref e kids pe pk :
  NoDup (ids (insertUnder p ref e kids f)) →
  elId e ∉ ids f → elId e ≠ p →
  getElementById p f = Some (pe, pk) →
  (∀ r, ref = Some r → r ∈ elId <$> topLevel pk) →
  getElementById (elId e) (insertUnder p ref e kids f) = Some (e, kids) ∧
  parentIn (elId e) q (insertUnder p ref e kids f) = Some (Elem p) ∧
  nextSiblingIn (elId e) (insertUnder p ref e kids f) = Some ref.
Proof.
  intros Hnd Hi Hne Hp Href.
  assert (p ∈ ids f) as Hin by (apply getElementById_is_Some; eauto).
  pose proof (getElementById_insertUnder_parent p ref e kids f pe pk Hne Hp) as Hp'.
  destruct (topLevel_insertTop ref e kids pk) as (l1 & l2 & H1 & H2 & H3).
  split; [by apply getElementById_insertUnder_new|]. split.
  - apply (parentIn_child p _ pe (insertTop ref e kids pk)); [done..|].
    rewrite H2. set_solver.
  - rewrite (nextSiblingIn_child p _ pe (insertTop ref e kids pk) _ l1 l2) by done.
    f_equal. rewrite H3. destruct ref as [r|]; [|done]. cbn.
    by rewrite bool_decide_eq_true_2 by (by apply Href).
Qed.

Lemma move_places s i p ref e kids pe pk :
  NoDup (allIds s) →
  deref i s = Some (e, kids) →
  getElementById p (shadowDomRoot s) = Some (pe, pk) →
  p ≠ i → p ∉ ids kids →
  (∀ r, ref = Some r → r ≠ i ∧ r ∈ elId <$> topLevel pk) →
  let s' := attachElement (Elem p) ref e kids (detachElement i s) in
  allIds s' ≡ₚ allIds s ∧
  getElementById i (shadowDomRoot s') = Some (e, kids) ∧
  parentIn i RootDiv (shadowDomRoot s') = Some (Elem p) ∧
  nextSiblingIn i (shadowDomRoot s') = Some ref.
Proof.
  intros Hnd Hd Hp Hpi Hpk Href.
  destruct (deref_elem _ _ _ _ Hd) as [<- _].
  assert (p ∈ ids (shadowDomRoot s)) as Hin by (apply getElementById_is_Some; eauto).
  assert (NoDup (ids pk)) as Hndk.
  { eapply kids_NoDup; [done|]. unfold allIds, allElements in Hnd.
    rewrite fmap_app in Hnd. by apply NoDup_app in Hnd as (? & _ & _). }
  assert (∀ r, ref = Some r → r ∈ elId <$> topLevel (removeById (elId e) pk)) as Href'.
  { intros r Hr. destruct (Href r Hr) as [Hne Hr'].
    rewrite topLevel_removeById by done. by apply list_elem_of_filter. }
  unfold allIds, allElements in *. rewrite fmap_app in Hnd.
  assert (Hnd' := Hnd). apply NoDup_app in Hnd' as (Hndr & Hdisj & Hndm).
  unfold deref in Hd. cbv zeta. unfold detachElement.
  destruct (getElementById (elId e) (shadowDomRoot s)) as [r|] eqn:Hir.
  - injection Hd as ->.
    rewrite (proj2 (hasId_true (elId e) _)) by (apply getElementById_is_Some; eauto).
    pose proof (elements_removeById _ _ _ _ Hir) as Hperm.
    pose proof (getElementById_removeById (elId e) p _ e kids Hndr Hir Hpi Hpk) as Hp1.
    rewrite Hp in Hp1. cbn in Hp1.
    assert (p ∈ ids (removeById (elId e) (shadowDomRoot s))) as Hin1
      by (apply getElementById_is_Some; eauto).
    cbn [attachElement shadowDomRoot removedNodes setForests].
    rewrite (proj2 (hasId_true p _)) by done.
    cbn [shadowDomRoot removedNodes setForests].
    assert (elId <$> elements (insertUnder p ref e kids (removeById (elId e) (shadowDomRoot s)))
            ≡ₚ elId <$> elements (shadowDomRoot s)) as Hperm'.
    { rewrite elements_insertUnder by done. by rewrite <- Hperm. }
    split; [by rewrite !fmap_app, Hperm'|].
    apply (insertUnder_places _ _ _ _ _ _ pe (removeById (elId e) pk)).
    + unfold ids. by rewrite Hperm'.
    + unfold ids in Hndr. rewrite Hperm in Hndr.
      rewrite !fmap_cons, fmap_app, NoDup_cons, not_elem_of_app in Hndr. tauto.
    + congruence.
    + done.
    + done.
  - rewrite (proj2 (hasId_false (elId e) _)) by (by apply getElementById_None).
    pose proof (elements_removeById _ _ _ _ Hd) as Hperm.
    apply getElementById_None in Hir.
    cbn [attachElement shadowDomRoot removedNodes setForests].
    rewrite (proj2 (hasId_true p _)) by done.
    cbn [shadowDomRoot removedNodes setForests].
    assert (removeById (elId e) pk = pk) as Hsame.
    { apply removeById_absent. intros Hik. apply Hir. by eapply kids_ids. }
    rewrite Hsame in Href'.
    assert (elId <$> elements (insertUnder p ref e kids (shadowDomRoot s)) ++
              elements (removeById (elId e) (removedNodes s))
            ≡ₚ elId <$> elements (shadowDomRoot s) ++ elements (removedNodes s)) as Hperm'.
    { rewrite elements_insertUnder by done. rewrite Hperm. f_equiv.
      rewrite (Permutation_app_comm (elements (shadowDomRoot s))).
      cbn [app]. constructor. rewrite <- !app_assoc. f_equiv.
      apply Permutation_app_comm. }
    split; [done|].
    apply (insertUnder_places _ _ _ _ _ _ pe pk).
    + rewrite <- fmap_app in Hnd. rewrite <- Hperm' in Hnd.
      rewrite fmap_app in Hnd. by apply NoDup_app in Hnd as (? & _ & _).
    + done.
    + congruence.
    + done.
    + done.
Qed.

Lemma parentNode_mapClasses h r s :
  (∀ e, elId (h e) = elId e) → parentNode r (mapClasses h s) = parentNode r s.
Proof. intros H. unfold parentNode, mapClasses. cbn. by rewrite !parentIn_mapForest. Qed.

Lemma nextSiblingOf_mapClasses h r s :
  (∀ e, elId (h e) = elId e) → nextSiblingOf r (mapClasses h s) = nextSiblingOf r s.
Proof.
  intros H. unfold nextSiblingOf, mapClasses. cbn. by rewrite !nextSiblingIn_mapForest.
Qed.

Lemma deref_kids_fresh s i e kids :
  NoDup (allIds s) → deref i s = Some (e, kids) → i ∉ ids kids.
Proof.
  unfold allIds, allElements, deref. rewrite fmap_app.
  intros (Hr & _ & Hm)%NoDup_app.
  destruct (getElementById i (shadowDomRoot s)) as [r|] eqn:Hi.
  - intros [= ->]. by eapply kids_NoDup.
  - intros Hd. by eapply kids_NoDup.
Qed.

(** A node whose parent is an element of the document is in the child
    list of that element. *)
Lemma parentNode_child_inv s r p pe pk :
  NoDup (allIds s) → getElementById p (shadowDomRoot s) = Some (pe, pk) →
  parentNode r s = Some (Elem p) → r ∈ elId <$> topLevel pk.
Proof.
  unfold allIds, allElements, parentNode. rewrite fmap_app.
  intros (Hr & Hdisj & Hm)%NoDup_app Hp.
  destruct (parentIn r RootDiv (shadowDomRoot s)) as [q|] eqn:Hq.
  - intros [= ->].
    destruct (parentIn_inv _ _ _ _ Hr Hq) as [[? _]|(p' & pe' & pk' & [= <-] & Hp' & Hin)];
      [done|].
    rewrite Hp in Hp'. by injection Hp' as <- <-.
  - intros Hq'.
    destruct (parentIn_inv _ _ _ _ Hm Hq') as [[? _]|(p' & pe' & pk' & [= <-] & Hp' & Hin)];
      [done|].
    destruct (Hdisj p).
    + apply getElementById_is_Some. eauto.
    + apply getElementById_is_Some. eauto.
Qed.

(** What [moveShadowNode] does to the class list of the node it moves
    under a parent that is, or is not, tagged [cl-new]. *)
Definition movedClasses (parentIsNew : bool) (l : list ClassName) : list ClassName :=
  (if parentIsNew then removeToken TopNewNodeClassName else add TopNewNodeClassName)
    (add MovedNodeClassName l).

Lemma contains_movedClasses b l : contains MovedNodeClassName (movedClasses b l) = true.
Proof.
  unfold movedClasses. destruct b.
  - rewrite contains_removeToken_ne by done. apply contains_add.
  - rewrite contains_add_ne by done. apply contains_add.
Qed.

Lemma hasClass_updateElement_ne p i c g s :
  p ≠ i → hasClass (Some (Elem p)) c (updateElement i (withClassList g) s)
          = hasClass (Some (Elem p)) c s.
Proof.
  intros Hne. unfold hasClass. rewrite mapClasses_updateElement.
  rewrite deref_mapClasses by (intros e; by case_decide).
  destruct (deref p s) as [[e kids]|] eqn:Hd; [|done]. cbn.
  apply deref_elem in Hd as [Hid _]. by rewrite decide_False by congruence.
Qed.

Lemma assert_true src msg : assert true src msg = mret ().
Proof. done. Qed.

(** [moveShadowNode] on a node with a mirror, under a parent whose mirror
    is in the document and not inside the moved subtree, before an anchor
    that is a child of that parent. *)
Lemma moveShadowNode_places s i pidx nidx e kids pe pk :
  NoDup (allIds s) → classifyNodes s = true →
  getShadowNode (Some i) s = Some (e, kids) →
  getShadowNode pidx s = Some (pe, pk) →
  elId pe ∈ ids (shadowDomRoot s) →
  elId pe ≠ i → elId pe ∉ ids kids →
  (∀ re rk, getShadowNode nidx s = Some (re, rk) →
            elId re ≠ i ∧ parentNode (elId re) s = Some (Elem (elId pe))) →
  ∃ s',
    moveShadowNode (Some i) pidx nidx s = Returns (Some (Elem i)) s' ∧
    nextIndex s' = nextIndex s ∧ nodeIndex s' = nodeIndex s ∧
    allIds s' ≡ₚ allIds s ∧
    getElementById i (shadowDomRoot s')
    = Some (withClassList
              (movedClasses (hasClass (Some (Elem (elId pe))) NewNodeClassName s)) e,
            kids) ∧
    parentNode i s' = Some (Elem (elId pe)) ∧
    nextSiblingOf i s' = elId ∘ fst <$> getShadowNode nidx s.
Proof.
  intros Hnd Hc Hnode Hparent Hproot Hpi Hpk Hanchor.
  set (p := elId pe) in *.
  set (anchor := elId ∘ fst <$> getShadowNode nidx s).
  set (b := hasClass (Some (Elem p)) NewNodeClassName s).
  assert (deref i s = Some (e, kids)) as Hd by (by apply docGetElementById_deref).
  destruct (deref_elem _ _ _ _ Hd) as [Hid _].
  assert (getElementById p (shadowDomRoot s) = Some (pe, pk)) as Hp.
  { destruct pidx as [j|]; [|done]. cbn in Hparent.
    apply docGetElementById_deref in Hparent.
    destruct (deref_elem _ _ _ _ Hparent) as [Hj _]. fold p in Hj. subst j.
    unfold deref in Hparent.
    apply getElementById_is_Some in Hproot as [r Hr]. by rewrite Hr in Hparent |- *. }
  assert (i ∉ ids kids) as Hik by (by eapply deref_kids_fresh).
  (* the class changes *)
  set (h := λ x : IShadowDomNode,
         if decide (elId x = i) then withClassList (movedClasses b) x else x).
  assert (∀ x, elId (h x) = elId x) as Hh by (intros x; unfold h; by case_decide).
  set (s2 := mapClasses h s).
  assert (NoDup (allIds s2)) as Hnd2 by (unfold s2; by rewrite allIds_mapClasses).
  assert (mapForest h kids = kids) as Hkids.
  { apply mapForest_id. intros x Hx. unfold h. rewrite decide_False; [done|].
    intros Heq. apply Hik. rewrite <- Heq. by apply list_elem_of_fmap_2. }
  assert (deref i s2 = Some (withClassList (movedClasses b) e, kids)) as Hd2.
  { unfold s2. rewrite deref_mapClasses, Hd by done. cbn.
    rewrite Hkids. unfold h. by rewrite decide_True. }
  assert (getElementById p (shadowDomRoot s2) = Some (pe, mapForest h pk)) as Hp2.
  { unfold s2, mapClasses. cbn. rewrite getElementById_mapForest, Hp by done. cbn.
    unfold h. by rewrite decide_False. }
  assert (∀ r, anchor = Some r →
               r ≠ i ∧ r ∈ elId <$> topLevel pk ∧ parentNode r s = Some (Elem p))
    as Hanchor'.
  { intros r Hr. unfold anchor in Hr.
    destruct (getShadowNode nidx s) as [[re rk]|] eqn:Hn; [|done].
    cbn in Hr. injection Hr as <-. destruct (Hanchor re rk eq_refl) as [Hne Hpar].
    split; [done|]. split; [|done].
    apply (parentNode_child_inv s _ p pe pk Hnd Hp Hpar). }
  pose proof (move_places s2 i p anchor _ kids pe (mapForest h pk) Hnd2 Hd2 Hp2 Hpi Hpk)
    as Hplaces.
  cbv zeta in Hplaces.
  destruct Hplaces as (Hperm & Hget & Hpar & Hnext).
  { intros r Hr. destruct (Hanchor' r Hr) as (Hne & Hin & _). split; [done|].
    rewrite topLevel_mapForest, <- list_fmap_compose.
    by rewrite (list_fmap_ext (elId ∘ h) elId) by (intros; apply Hh). }
  exists (attachElement (Elem p) anchor (withClassList (movedClasses b) e) kids
            (detachElement i s2)).
  split.
  { unfold moveShadowNode. rewrite read_eq. cbv zeta.
    rewrite Hnode, Hparent. cbn [refOf fmap option_fmap option_map compose fst].
    rewrite !bool_decide_eq_true_2 by eauto. rewrite !assert_true.
    fold p. rewrite Hid, Hc.
    rewrite bind_eq, ret_eq, bind_eq, ret_eq, bind_eq, bind_eq.
    change (setClass (Some (Elem i)) MovedNodeClassName s)
      with (Returns () (updateElement i (withClassList (add MovedNodeClassName)) s)).
    cbv beta iota. rewrite read_eq.
    rewrite hasClass_updateElement_ne by done. fold b.
    assert ((if b then removeClass (Some (Elem i)) TopNewNodeClassName
             else setClass (Some (Elem i)) TopNewNodeClassName)
              (updateElement i (withClassList (add MovedNodeClassName)) s)
            = Returns () s2) as ->.
    { unfold s2.
      destruct b; cbn [removeClass setClass]; unfold modify; f_equal;
        rewrite !mapClasses_updateElement, mapClasses_compose;
        apply mapClasses_ext; intros x _; cbn; unfold h, movedClasses;
        destruct (decide (elId x = i)) as [Hx|Hx]; cbn;
        rewrite ?decide_True, ?decide_False by done; done. }
    rewrite bind_eq. unfold insertExisting. rewrite Hd2.
    rewrite bool_decide_eq_false_2 by done.
    rewrite (proj2 (hasId_false p kids)) by done. cbn [orb].
    fold anchor.
    destruct anchor as [r|] eqn:Ha.
    - destruct (Hanchor' r eq_refl) as (Hne & _ & Hpr).
      unfold s2. rewrite parentNode_mapClasses, Hpr by done.
      rewrite bool_decide_eq_false_2 by (intros H; by apply H).
      rewrite decide_False by congruence. done.
    - rewrite decide_False by done. done. }
  split; [|split; [|split; [|split; [|split]]]].
  - unfold detachElement, attachElement.
    by destruct (hasId i _); cbn; destruct (hasId p _).
  - unfold detachElement, attachElement.
    by destruct (hasId i _); cbn; destruct (hasId p _).
  - rewrite Hperm. unfold s2. by rewrite allIds_mapClasses.
  - done.
  - unfold parentNode. by rewrite Hpar.
  - unfold nextSiblingOf. by rewrite Hnext.
Qed.


Lemma contains_movedClasses_top b l :
  contains TopNewNodeClassName (movedClasses b l) = negb b.
Proof.
  unfold movedClasses. destruct b; [apply contains_removeToken | apply contains_add].
Qed.

(** C8 (as amended). While a batch is applied to a shadow document
    without duplicate ids, take a record that adds a node with an index
    and a mirror, that is not quashed (the parent of the mirror is not
    tagged [cl-final], nor is the new parent, unless the node is met in the
    discovery of an inserted subtree), whose parent has a mirror in the
    document, outside the subtree of the node, and whose anchor either has
    no mirror or has one that is another child of that parent.
    [applyInsert] then returns, the registry is as it was, and the same
    element, with its subtree, is a child of the parent's mirror, before
    the anchor (or last); it is tagged [cl-moved], and [cl-new-top] if and
    only if the parent's mirror is not tagged [cl-new].  A summary
    extracted in that state lists the index as moved, and leaves the
    mirror at that place. *)
Theorem known_node_is_moved (s : ShadowDom) (a : LiveNode) (parent : Node)
    (previousSibling nextSibling : option Node) (force : bool)
    (i : nat) (e pe : IShadowDomNode) (kids pk : Forest) :
  NoDup (allIds s) → classifyNodes s = true →
  getNodeIndex (Some (handle a)) s = Some i →
  shouldProcessChildListMutation (handle a) parent s || force = true →
  getShadowNode (Some i) s = Some (e, kids) →
  getShadowNode (getNodeIndex (Some parent) s) s = Some (pe, pk) →
  force = true ∨ elHas FinalClassName pe = false →
  elId pe ∈ ids (shadowDomRoot s) →
  elId pe ≠ i → elId pe ∉ ids kids →
  (∀ re rk, getShadowNode (getNodeIndex nextSibling s) s = Some (re, rk) →
            elId re ≠ i ∧ parentNode (elId re) s = Some (Elem (elId pe))) →
  ∃ s' e',
    applyInsert a parent previousSibling nextSibling force s = Returns () s' ∧
    getNodeIndex (Some (handle a)) s' = Some i ∧
    nextIndex s' = nextIndex s ∧
    allIds s' ≡ₚ allIds s ∧
    deref i s' = Some (e', kids) ∧
    e' = withClassList
           (movedClasses (hasClass (Some (Elem (elId pe))) NewNodeClassName s)) e ∧
    elHas MovedNodeClassName e' = true ∧
    elHas TopNewNodeClassName e'
    = negb (hasClass (Some (Elem (elId pe))) NewNodeClassName s) ∧
    parentNode i s' = Some (Elem (elId pe)) ∧
    nextSiblingOf i s' = elId ∘ fst <$> getShadowNode (getNodeIndex nextSibling s) s ∧
    ∃ sum s'',
      getMutationSummary (setRemovedAttached false s') = Returns sum s'' ∧
      i ∈ movedNodes sum ∧
      parentNode i s'' = Some (Elem (elId pe)) ∧
      nextSiblingOf i s''
      = elId ∘ fst <$> getShadowNode (getNodeIndex nextSibling s) s.
Proof.
  intros Hnd Hc Hidx Hvalid Hnode Hparent _ Hproot Hpi Hpk Hanchor.
  destruct (moveShadowNode_places s i (getNodeIndex (Some parent) s)
              (getNodeIndex nextSibling s) e kids pe pk
              Hnd Hc Hnode Hparent Hproot Hpi Hpk Hanchor)
    as (s' & Hmove & Hnext & Hreg & Hperm & Hget & Hpar & Hsib).
  exists s'. eexists. split.
  { rewrite applyInsert_eq, read_eq. cbv zeta. rewrite Hvalid, Hidx.
    by rewrite read_eq, bind_eq, Hmove. }
  split; [cbn in *; by rewrite Hreg|]. split; [done|]. split; [done|].
  split; [unfold deref; by rewrite Hget|]. split; [done|].
  split; [apply contains_movedClasses|]. split; [apply contains_movedClasses_top|].
  split; [done|]. split; [done|].
  assert (NoDup (allIds (setRemovedAttached false s'))) as Hnd'.
  { change (NoDup (allIds s')). by rewrite Hperm. }
  destruct (getMutationSummary_spec _ Hnd' eq_refl) as (out & _ & _ & _ & Hrun).
  eexists _, _. split; [exact Hrun|]. cbn [movedNodes].
  assert (∀ x, elId (swept UpdatedNodeClassName clearClasses
                       (swept MovedNodeClassName clearClasses (stripNew out x))) = elId x)
    as Hid by (intros x; by rewrite !elId_swept, elId_stripNew).
  split; [|split].
  - destruct (getElementById_elem _ _ _ _ Hget) as [Hi Hin].
    apply list_elem_of_fmap. eexists. split; [symmetry; exact Hi|].
    apply list_elem_of_filter. split; [apply contains_movedClasses | exact Hin].
  - unfold parentNode in *. cbn.
    rewrite !mapForest_compose, parentIn_mapForest by apply Hid. done.
  - unfold nextSiblingOf in *. cbn.
    rewrite !mapForest_compose, nextSiblingIn_mapForest by apply Hid. done.
Qed.





(** * Calls outside a batch *)

Lemma cleared_addsNoTags s s' : cleared s → addsNoTags s s' → cleared s'.
Proof.
  intros Hc Ht e c He Hne. unfold elHas.
  destruct (Ht e He) as [->|(e0 & He0 & _ & <-)]; [done|]. by apply Hc.
Qed.

Section EmptyHoldingArea.

Let Empty (s : ShadowDom) : Prop := removedNodes s = Nil.

Lemma empty_same s s' : removedNodes s' = removedNodes s → Empty s → Empty s'.
Proof. unfold Empty. congruence. Qed.

Lemma empty_attachElement p ref e kids s :
  p ≠ RemovedDiv → Empty s → Empty (attachElement p ref e kids s).
Proof.
  unfold Empty. intros Hp H. destruct p as [| |p]; [done..|]. cbn.
  destruct (hasId p _); cbn; [done|]. by rewrite H.
Qed.

Lemma empty_detachElement i s : Empty s → Empty (detachElement i s).
Proof.
  unfold Empty, detachElement. intros H.
  destruct (hasId i _); cbn; [done|]. by rewrite H.
Qed.

Lemma empty_updateElement i g s : Empty s → Empty (updateElement i g s).
Proof. unfold Empty. intros H. cbn. by rewrite H. Qed.

Lemma empty_assert c src msg : always Empty (assert c src msg).
Proof. unfold assert. always_auto; by try apply always_modify. Qed.

Lemma empty_insertNew p e r : p ≠ RemovedDiv → always Empty (insertNew p e r).
Proof.
  intros Hp s H. unfold insertNew.
  destruct r; [destruct (decide _)|]; cbn [finalState];
    auto using empty_attachElement.
Qed.

Lemma empty_insertExisting p i r : p ≠ RemovedDiv → always Empty (insertExisting p i r).
Proof.
  intros Hp s H. unfold insertExisting.
  destruct (deref i s) as [[e kids]|]; [|done].
  repeat case_match; cbn [finalState]; try done.
  all: by apply empty_attachElement, empty_detachElement.
Qed.

Lemma empty_insertShadowNode node p n l : always Empty (insertShadowNode node p n l).
Proof.
  unfold insertShadowNode. apply always_bind.
  { intros s. apply empty_same. unfold setNodeIndex. by destruct (getNodeIndex _ _). }
  intros index. apply always_read'. intros s _. cbv zeta.
  apply always_bind; [destruct (bool_decide _); by try apply always_modify|].
  intros _. apply always_bind; [apply empty_assert|]. intros _.
  destruct (bool_decide (node = document)).
  - always_auto. by apply empty_insertNew.
  - destruct (getShadowNode p s) as [[pe pk]|]; cbn [refOf fmap option_fmap option_map];
    [|by always_auto].
    always_auto. by apply empty_insertNew.
Qed.

Lemma empty_moveShadowNode i p n : always Empty (moveShadowNode i p n).
Proof.
  unfold moveShadowNode. apply always_read'. intros s _. cbv zeta.
  apply always_bind; [apply empty_assert|]. intros _.
  apply always_bind; [apply empty_assert|]. intros _.
  destruct (getShadowNode p s) as [[pe pk]|]; cbn [refOf fmap option_fmap option_map];
    [|by always_auto].
  destruct (getShadowNode i s) as [[e k]|]; cbn [refOf fmap option_fmap option_map];
    [|by always_auto].
  apply always_bind.
  { destruct (classifyNodes s); [|apply always_ret].
    always_auto; cbn; apply always_modify, empty_updateElement. }
  intros _. always_auto. by apply empty_insertExisting.
Qed.

Lemma empty_updateShadowNode i l : always Empty (updateShadowNode i l).
Proof.
  unfold updateShadowNode. apply always_read'. intros s _. cbv zeta.
  apply always_bind; [apply empty_assert|]. intros _.
  destruct (getShadowNode i s) as [[e k]|]; cbn [refOf fmap option_fmap option_map];
    [|by always_auto].
  always_auto; cbn; try apply always_ret; apply always_modify, empty_updateElement.
Qed.

End EmptyHoldingArea.

Lemma cleared_getElementsByClassName c s :
  cleared s → c ≠ TopNewNodeClassName → getElementsByClassName c s = [].
Proof.
  intros Hc Hne. unfold getElementsByClassName.
  apply filter_none. intros e He.
  rewrite Hc; [done| |done].
  unfold docElements, removedInDoc, allElements in *.
  rewrite elem_of_app in *. destruct (removedAttached s); [done|].
  destruct He as [?|?%elem_of_nil]; [by left|done].
Qed.

Lemma collectNew_none n out s :
  getElementsByClassName NewNodeClassName s = [] → collectNew n out s = Returns out s.
Proof. intros H. destruct n; cbn [collectNew]; by rewrite read_eq, H. Qed.

Lemma sweep_none c act n out s :
  getElementsByClassName c s = [] → sweep c act n out s = Returns out s.
Proof. intros H. destruct n; cbn [sweep]; by rewrite read_eq, H. Qed.

(** On a state without tags and with an empty holding area, a batch
    without records reports nothing. *)
Lemma empty_batch_reports_nothing s :
  cleared s → removedNodes s = Nil →
  returned (applyMutationBatch [] s)
  = Some {| newNodes := []; movedNodes := []; updatedNodes := [];
            removedSummary := [] |}.
Proof.
  intros Hc Hr.
  set (s1 := setRemovedAttached false (startBatch s)).
  assert (cleared s1) as Hc1 by exact Hc.
  assert (getMutationSummary s1
          = Returns {| newNodes := []; movedNodes := []; updatedNodes := [];
                       removedSummary := [] |} s1) as Hsum.
  { unfold getMutationSummary.
    rewrite read_eq, bind_eq, collectNew_none
      by (by apply cleared_getElementsByClassName).
    rewrite read_eq, bind_eq, sweep_none by (by apply cleared_getElementsByClassName).
    rewrite read_eq, bind_eq, sweep_none by (by apply cleared_getElementsByClassName).
    rewrite read_eq, ret_eq. do 2 f_equal.
    change (removedNodes s1) with (removedNodes s). by rewrite Hr. }
  rewrite applyMutationBatch_eq, bind_eq. cbn [applyMutations]. rewrite ret_eq.
  unfold finishBatch. rewrite bind_eq. cbn [modify]. fold s1.
  rewrite bind_eq, Hsum, read_eq, bind_eq.
  rewrite sweep_none by (by apply cleared_getElementsByClassName).
  done.
Qed.

Lemma structural_run c s :
  structural c → classifyNodes s = false → cleared s → removedNodes s = Nil →
  classifyNodes (run c s) = false ∧ cleared (run c s) ∧ removedNodes (run c s) = Nil.
Proof.
  intros Hs Hf Hc Hr.
  assert (classifyNodes s = false ∧ addsNoTags s s) as Hq
    by (split; [done | apply addsNoTags_refl]).
  destruct c; try done; cbn [run].
  - destruct (quiet_insertShadowNode s node parentIndex nextSiblingIndex layout s Hq)
      as [Hf' Ht].
    split; [done|]. split; [by eapply cleared_addsNoTags|].
    by apply empty_insertShadowNode.
  - destruct (quiet_moveShadowNode s index newParentIndex newNextSiblingIndex s Hq)
      as [Hf' Ht].
    split; [done|]. split; [by eapply cleared_addsNoTags|].
    by apply empty_moveShadowNode.
  - destruct (quiet_updateShadowNode s index newLayout s Hq) as [Hf' Ht].
    split; [done|]. split; [by eapply cleared_addsNoTags|].
    by apply empty_updateShadowNode.
Qed.

Lemma structural_runAll calls : ∀ s,
  Forall structural calls →
  classifyNodes s = false → cleared s → removedNodes s = Nil →
  classifyNodes (runAll calls s) = false ∧ cleared (runAll calls s) ∧
  removedNodes (runAll calls s) = Nil.
Proof.
  induction calls as [|c calls IH]; intros s Hall Hf Hc Hr; [done|].
  apply Forall_cons in Hall as [Hs Hall].
  destruct (structural_run c s Hs Hf Hc Hr) as (Hf' & Hc' & Hr').
  by apply IH.
Qed.

(** ** The class lists outside a batch *)

Lemma allElements_attachElement_perm q ref e kids s :
  (∀ p, q = Elem p → p ∈ allIds s) →
  allElements (attachElement q ref e kids s) ≡ₚ e :: elements kids ++ allElements s.
Proof.
  intros Hq. unfold attachElement, allElements. destruct q as [| |p]; cbn.
  - rewrite elements_insertTop. by app_norm.
  - rewrite elements_insertTop. by rewrite perm_move.
  - specialize (Hq p eq_refl). unfold allIds, allElements in Hq.
    rewrite fmap_app, elem_of_app in Hq.
    destruct (hasId p (shadowDomRoot s)) eqn:Hp; cbn.
    + apply hasId_true in Hp. rewrite elements_insertUnder by done. by app_norm.
    + apply hasId_false in Hp. rewrite elements_insertUnder by tauto.
      by rewrite perm_move.
Qed.

Lemma insertNew_elements q e r s :
  (∀ p, q = Elem p → p ∈ allIds s) →
  allElements (finalState (insertNew q e r s)) = allElements s ∨
  allElements (finalState (insertNew q e r s)) ≡ₚ e :: allElements s.
Proof.
  intros Hq. unfold insertNew.
  destruct r; [destruct (decide _)|]; cbn [finalState]; [right|by left|right].
  all: by rewrite allElements_attachElement_perm.
Qed.

Lemma insertExisting_elements q i r s :
  (∀ p, q = Elem p → p ∈ allIds s) →
  allElements (finalState (insertExisting q i r s)) ≡ₚ allElements s.
Proof.
  intros Hq. unfold insertExisting.
  destruct (deref i s) as [[e kids]|] eqn:Hd; [|done].
  destruct (match q with Elem p => _ | _ => false end) eqn:Hcyc; [done|].
  destruct (match r with Some _ => _ | None => false end); [done|].
  cbn [finalState].
  pose proof (allElements_detachElement _ _ _ _ Hd) as Hperm.
  rewrite allElements_attachElement_perm; [by rewrite <- Hperm|].
  intros p ->. specialize (Hq p eq_refl).
  apply orb_false_iff in Hcyc as [Hpi Hpk].
  apply bool_decide_eq_false in Hpi. apply hasId_false in Hpk.
  destruct (deref_elem _ _ _ _ Hd) as [Hid _].
  unfold allIds in Hq |- *. rewrite Hperm in Hq.
  rewrite fmap_cons, fmap_app, elem_of_cons, elem_of_app in Hq.
  destruct Hq as [Hq|[Hq|Hq]]; [congruence|done|done].
Qed.

Lemma getShadowNode_present i s e kids :
  getShadowNode i s = Some (e, kids) → elId e ∈ allIds s.
Proof.
  destruct i as [i|]; [|done]. cbn [getShadowNode mbind option_bind].
  intros [_ He]%docGetElementById_deref%deref_elem. by apply list_elem_of_fmap_2.
Qed.

Lemma assert_run c src msg s :
  assert c src msg s
  = if c then Returns () s
    else (if assertThrows then Throws AssertionFailure else Returns ())
           (addReport (src, msg) s).
Proof. unfold assert. destruct c; [done|]. by destruct assertThrows. Qed.

Ltac run_flat :=
  cbv beta iota delta [mbind M_bind mret M_ret assert modify throw].

(** While the flag is down [moveShadowNode] leaves every element as it
    is. *)
Lemma moveShadowNode_elements s i p n :
  classifyNodes s = false →
  allElements (finalState (moveShadowNode i p n s)) ≡ₚ allElements s.
Proof.
  intros Hf. unfold moveShadowNode. rewrite read_eq. cbv zeta. rewrite Hf.
  destruct (getShadowNode p s) as [[pe pk]|] eqn:Hp;
    destruct (getShadowNode i s) as [[e k]|] eqn:Hi;
    cbn [refOf fmap option_fmap option_map compose fst];
    rewrite ?(bool_decide_eq_true_2 (is_Some (Some _))) by eauto;
    rewrite ?(bool_decide_eq_false_2 (is_Some None)) by (by intros [? ?]);
    run_flat.
  - pose proof (insertExisting_elements (Elem (elId pe)) (elId e)
                  (elId ∘ fst <$> getShadowNode n s) s) as Hperm.
    destruct (insertExisting _ _ _ s); cbn [finalState] in *;
      apply Hperm; intros ? [= <-]; by eapply getShadowNode_present.
  - by destruct assertThrows.
  - by destruct assertThrows.
  - by destruct assertThrows.
Qed.

(** While the flag is down [updateShadowNode] changes the layout and
    [ignore] only. *)
Lemma updateShadowNode_elements s i l :
  classifyNodes s = false →
  tagging <$> allElements (finalState (updateShadowNode i l s))
  = tagging <$> allElements s.
Proof.
  intros Hf. unfold updateShadowNode. rewrite read_eq. cbv zeta. rewrite Hf.
  destruct (getShadowNode i s) as [[e k]|] eqn:Hi;
    cbn [refOf fmap option_fmap option_map compose fst];
    rewrite ?(bool_decide_eq_true_2 (is_Some (Some _))) by eauto;
    rewrite ?(bool_decide_eq_false_2 (is_Some None)) by (by intros [? ?]).
  - destruct l as [l|]; run_flat; cbn [finalState]; [|done].
    rewrite allElements_updateElement, <- list_fmap_compose.
    apply list_fmap_ext. intros ? x _. cbn. by case_decide.
  - run_flat. by destruct assertThrows.
Qed.

(** While the flag is down [insertShadowNode] leaves every element as it
    is, and the element it creates has no class. *)
Lemma insertShadowNode_elements s node p n l :
  classifyNodes s = false →
  ∃ created,
    length created ≤ 1 ∧
    Forall (λ e, classList e = [] ∧ elNode e = node) created ∧
    allElements (finalState (insertShadowNode node p n l s))
    ≡ₚ created ++ allElements s.
Proof.
  intros Hf. unfold insertShadowNode. rewrite bind_eq.
  destruct (setNodeIndex node s) as [index s1|x s1] eqn:Hset.
  2: { unfold setNodeIndex in Hset. by destruct (getNodeIndex _ _). }
  assert (classifyNodes s1 = false ∧ allElements s1 = allElements s)
    as [Hf1 He1].
  { unfold setNodeIndex in Hset.
    destruct (getNodeIndex _ _); injection Hset as <- <-; done. }
  rewrite read_eq. cbv zeta. rewrite Hf1.
  match goal with |- context [insertNew _ ?e _] => set (shadowNode := e) end.
  assert (classList shadowNode = [] ∧ elNode shadowNode = node) as Hnew by done.
  clearbody shadowNode.
  rewrite bind_eq.
  assert (∃ s2, (if bool_decide (node = document)
                 then modify (setShadowDocument (Some index))
                 else mret ()) s1 = Returns () s2 ∧
                allElements s2 = allElements s ∧ allIds s2 = allIds s1)
    as (s2 & -> & He2 & Hi2).
  { destruct (bool_decide (node = document)); eexists; (split; [reflexivity|]); done. }
  rewrite bind_eq, assert_run.
  match goal with |- context [bool_decide (is_Some ?x)] =>
    destruct x as [q|] eqn:Hq end.
  - rewrite (bool_decide_eq_true_2 (is_Some (Some _))) by eauto.
    cbv beta iota. rewrite bind_eq.
    assert (∀ p0, q = Elem p0 → p0 ∈ allIds s2) as Hpres.
    { intros p0 ->. rewrite Hi2.
      destruct (bool_decide (node = document)); [done|].
      destruct (getShadowNode p s1) as [[pe pk]|] eqn:Hp; [|done].
      injection Hq as <-. by eapply getShadowNode_present. }
    pose proof (insertNew_elements q shadowNode (elId ∘ fst <$> getShadowNode n s1)
                  s2 Hpres) as Hins.
    destruct (insertNew _ _ _ s2) as [[] s3|x s3]; cbn [finalState] in *.
    + rewrite ret_eq. cbn [finalState]. destruct Hins as [Hins|Hins].
      * exists []. rewrite Hins, He2. split; [cbn; lia|]. by split.
      * exists [shadowNode]. rewrite Hins, He2. split; [done|].
        split; [by constructor | done].
    + destruct Hins as [Hins|Hins].
      * exists []. rewrite Hins, He2. split; [cbn; lia|]. by split.
      * exists [shadowNode]. rewrite Hins, He2. split; [done|].
        split; [by constructor | done].
  - rewrite (bool_decide_eq_false_2 (is_Some None)) by (by intros [? ?]).
    exists []. split; [cbn; lia|]. split; [done|].
    destruct assertThrows; run_flat; cbn [finalState app];
      change (allElements (addReport _ s2)) with (allElements s2); by rewrite He2.
Qed.

Lemma keepsClassLists_addsNoTags s s' created :
  keepsClassLists s s' created → addsNoTags s s'.
Proof.
  intros [Hc Hperm] e He.
  assert (tagging e ∈ tagging <$> (created ++ allElements s)) as Hin
    by (rewrite <- Hperm; by apply list_elem_of_fmap_2).
  apply list_elem_of_fmap in Hin as (e0 & Heq & [Hin|Hin]%elem_of_app);
    injection Heq as Hid Hcl.
  - left. rewrite Hcl. by apply (proj1 (Forall_forall _ _) Hc).
  - right. by exists e0.
Qed.

(** C10 (as amended). Tags are attached only while the flag
    [classifyNodes] is set.  It is false in a new object,
    [applyMutationBatch] sets it before it applies the records, it stays
    set while they are applied, and it is false again when
    [applyMutationBatch] returns (not when it stops with an exception); no
    other method changes it.  While it is false, [insertShadowNode],
    [moveShadowNode] and [updateShadowNode] change structure or payload
    only: the elements are those there were, each with the class list it
    had, and the one element that [insertShadowNode] may create, which
    has no class.  So after any number of these calls on an object
    without tags that a method reads and with an empty holding area (a
    new object, or one left by a batch that returned), there are still no
    such tags, and a batch without records reports nothing. *)
Theorem tags_only_inside_batch (s : ShadowDom) :
  classifyNodes newShadowDom = false ∧
  (∀ ms,
     applyMutationBatch ms s = (applyMutations ms;; finishBatch) (startBatch s) ∧
     classifyNodes (startBatch s) = true ∧
     classifyNodes (finalState (applyMutations ms (startBatch s))) = true ∧
     ∀ sum s', applyMutationBatch ms s = Returns sum s' → classifyNodes s' = false) ∧
  (∀ c, (∀ ms, c ≠ CallApplyMutationBatch ms) →
        classifyNodes (run c s) = classifyNodes s) ∧
  (classifyNodes s = false →
     (∀ node p n l,
        ∃ created,
          length created ≤ 1 ∧
          keepsClassLists s (finalState (insertShadowNode node p n l s)) created) ∧
     (∀ i p n, keepsClassLists s (finalState (moveShadowNode i p n s)) []) ∧
     (∀ i l, keepsClassLists s (finalState (updateShadowNode i l s)) [])) ∧
  (classifyNodes s = false → cleared s → removedNodes s = Nil →
     ∀ calls, Forall structural calls →
       classifyNodes (runAll calls s) = false ∧
       cleared (runAll calls s) ∧
       returned (applyMutationBatch [] (runAll calls s))
       = Some {| newNodes := []; movedNodes := []; updatedNodes := [];
                 removedSummary := [] |}).
Proof.
  split; [done|]. split; [|split; [|split]].
  - intros ms. split; [done|]. split; [done|]. split.
    + by apply (always_applyMutations _ (Stable_classifyNodes true)).
    + apply applyMutationBatch_returns_flag.
  - intros c Hc. by apply classifyNodes_run.
  - intros Hf. split; [|split].
    + intros node p n l.
      destruct (insertShadowNode_elements s node p n l Hf)
        as (created & Hlen & Hc & Hperm).
      exists created. split; [done|]. split.
      * eapply Forall_impl; [exact Hc|]. by intros e [? _].
      * by rewrite Hperm.
    + intros i p n. split; [done|]. by rewrite moveShadowNode_elements.
    + intros i l. split; [done|]. by rewrite updateShadowNode_elements.
  - intros Hf Hc Hr calls Hall.
    destruct (structural_runAll calls s Hall Hf Hc Hr) as (Hf' & Hc' & Hr').
    split; [done|]. split; [done|]. by apply empty_batch_reports_nothing.
Qed.


(** C7 (as amended). A batch started on a well-formed shadow document
    stops only with an exception raised while a record is applied, and
    returns whenever every record has been applied.  When it has returned,
    the holding area is empty and detached, [classifyNodes] is false, and
    no node of the document carries [cl-new], [cl-moved], [cl-updated] or
    [cl-final]; the cleanup does not clear [cl-new-top].  What is left is
    no tag that a method reads, on a shadow document that is well formed
    again: a batch without records that follows reports nothing. *)
Theorem batch_clears_tags (ms : list MutationRecord) (s : ShadowDom) :
  WF s → (∀ n i, nodeIndex s !! n = Some i → i < nextIndex s) →
  (∀ x sx, applyMutationBatch ms s = Throws x sx →
           applyMutations ms (startBatch s) = Throws x sx ∧ x ≠ StepLimit) ∧
  (∀ s1, applyMutations ms (startBatch s) = Returns () s1 →
         ∃ sum s', applyMutationBatch ms s = Returns sum s') ∧
  (∀ sum s', applyMutationBatch ms s = Returns sum s' →
     removedNodes s' = Nil ∧
     removedAttached s' = false ∧
     classifyNodes s' = false ∧
     (∀ e c, e ∈ elements (shadowDomRoot s') → c ≠ TopNewNodeClassName →
             elHas c e = false) ∧
     cleared s' ∧
     WF s' ∧ (∀ n i, nodeIndex s' !! n = Some i → i < nextIndex s') ∧
     returned (applyMutationBatch [] s')
     = Some {| newNodes := []; movedNodes := []; updatedNodes := [];
               removedSummary := [] |}).
Proof.
  intros Hwf Hreg.
  destruct (applyMutationBatch_cases ms s Hwf Hreg)
    as [(x & sx & Hrec & Hrun & Hx)|(s1 & Hrec & Hinv & Hrun)].
  { rewrite Hrun, Hrec. split; [|split]; [|done..].
    intros ? ? [= <- <-]. done. }
  destruct Hinv as (_ & [Hnd Hlt] & Hbound & _).
  destruct (finishBatch_spec s1 Hnd)
    as (sum & s2 & s' & _ & Hfin & Hrem & Hflag & Hdet & Hnext & Hreg' & Hids & Hcl).
  rewrite Hrun, Hfin. split; [done|]. split; [eauto|].
  intros ? ? [= <- <-].
  assert (cleared s') as Hcleared.
  { intros e c. unfold allElements. rewrite Hrem, app_nil_r. apply Hcl. }
  assert (allIds s' = ids (shadowDomRoot s1)) as Hall.
  { unfold allIds, allElements. rewrite Hrem, app_nil_r. exact Hids. }
  assert (WF s') as Hwf'.
  { split.
    - rewrite Hall. unfold allIds, allElements in Hnd. rewrite fmap_app in Hnd.
      by apply NoDup_app in Hnd as (? & _ & _).
    - intros i. rewrite Hall, Hnext. intros Hi. apply Hlt.
      unfold allIds, allElements. rewrite fmap_app, elem_of_app. by left. }
  split; [done|]. split; [done|]. split; [done|]. split; [done|]. split; [done|].
  split; [done|]. split; [by rewrite Hreg', Hnext|].
  by apply empty_batch_reports_nothing.
Qed.

(** * Further properties of the methods *)

(** ** The class list of a shadow node *)

Lemma hasClass_updateElement i c g s :
  hasClass (Some (Elem i)) c (updateElement i (withClassList g) s)
  = match deref i s with
    | Some (e, _) => contains c (g (classList e))
    | None => false
    end.
Proof.
  unfold hasClass. rewrite mapClasses_updateElement.
  rewrite deref_mapClasses by (intros e; by case_decide).
  destruct (deref i s) as [[e kids]|] eqn:Hd; [|done]. cbn.
  apply deref_elem in Hd as [Hid _]. by rewrite decide_True.
Qed.

Lemma updateElement_twice i g1 g2 s :
  updateElement i (withClassList g1) (updateElement i (withClassList g2) s)
  = updateElement i (withClassList (g1 ∘ g2)) s.
Proof.
  rewrite !mapClasses_updateElement, mapClasses_compose.
  apply mapClasses_ext. intros e _. cbn.
  destruct (decide (elId e = i)) as [Hi|Hi]; cbn.
  - by rewrite decide_True.
  - by rewrite decide_False.
Qed.

Lemma add_add c l : add c (add c l) = add c l.
Proof.
  unfold add at 1. by rewrite contains_add.
Qed.

(** X1. [setClass], [removeClass] and [removeAllClasses] against [hasClass],
    for a reference to a shadow node of the object: the class that is set
    is there, the class that is removed is not, no class is left when all
    are removed; the other classes of the node, and the classes of every
    other node, are what they were; setting a class twice is setting it
    once; and on the null reference the three methods do nothing. *)
Theorem class_list_round_trip (s : ShadowDom) (i : nat) (c : ClassName) :
  is_Some (deref i s) →
  let r := Some (Elem i) in
  hasClass r c (finalState (setClass r c s)) = true ∧
  hasClass r c (finalState (removeClass r c s)) = false ∧
  (∀ d, hasClass r d (finalState (removeAllClasses r s)) = false) ∧
  (∀ d, d ≠ c →
        hasClass r d (finalState (setClass r c s)) = hasClass r d s ∧
        hasClass r d (finalState (removeClass r c s)) = hasClass r d s) ∧
  (∀ j d, j ≠ i →
        hasClass (Some (Elem j)) d (finalState (setClass r c s))
        = hasClass (Some (Elem j)) d s ∧
        hasClass (Some (Elem j)) d (finalState (removeClass r c s))
        = hasClass (Some (Elem j)) d s ∧
        hasClass (Some (Elem j)) d (finalState (removeAllClasses r s))
        = hasClass (Some (Elem j)) d s) ∧
  (setClass r c;; setClass r c) s = setClass r c s ∧
  (∀ d, hasClass None d s = false ∧ setClass None d s = Returns () s ∧
        removeClass None d s = Returns () s) ∧
  removeAllClasses None s = Returns () s.
Proof.
  intros [[e kids] Hd]. cbv zeta. cbn [setClass removeClass removeAllClasses modify finalState].
  repeat split.
  - rewrite hasClass_updateElement, Hd. apply contains_add.
  - rewrite hasClass_updateElement, Hd. apply contains_removeToken.
  - intros d. by rewrite hasClass_updateElement, Hd.
  - rewrite hasClass_updateElement. unfold hasClass. rewrite Hd.
    by apply contains_add_ne.
  - rewrite hasClass_updateElement. unfold hasClass. rewrite Hd.
    by apply contains_removeToken_ne.
  - by apply hasClass_updateElement_ne.
  - by apply hasClass_updateElement_ne.
  - by apply hasClass_updateElement_ne.
  - rewrite bind_eq. cbn [modify]. apply (f_equal (Returns ())). rewrite updateElement_twice.
    rewrite !mapClasses_updateElement. apply mapClasses_ext. intros x _.
    case_decide; [|done]. unfold withClassList. cbn. by rewrite add_add.
Qed.

(** ** Reading the summary twice *)

(** X2. [getMutationSummary] consumes the tags it reads: called again on the
    state it has left, it lists no new, moved or updated node, and the
    same removed nodes, and changes nothing. *)
Theorem summary_is_consumed (s : ShadowDom) :
  NoDup (allIds s) → removedAttached s = false →
  ∃ sum s',
    getMutationSummary s = Returns sum s' ∧
    ids (shadowDomRoot s') = ids (shadowDomRoot s) ∧
    getMutationSummary s'
    = Returns {| newNodes := []; movedNodes := []; updatedNodes := [];
                 removedSummary := removedSummary sum |} s'.
Proof.
  intros Hnd Hdet.
  destruct (getMutationSummary_state s Hnd Hdet)
    as (sum & s' & Hrun & _ & Hremoved & _ & Hids & Hrem & Hdet' & _ & _ & Hcl & _).
  exists sum, s'. split; [done|]. split; [done|].
  assert (∀ c, c = NewNodeClassName ∨ c = MovedNodeClassName ∨ c = UpdatedNodeClassName →
               getElementsByClassName c s' = []) as Hnone.
  { intros c Hc. unfold getElementsByClassName. rewrite docElements_detached by done.
    apply filter_none. intros e He. destruct (Hcl e He) as (H1 & H2 & H3).
    destruct Hc as [-> | [-> | ->]]; congruence. }
  unfold getMutationSummary.
  rewrite read_eq, bind_eq, collectNew_none by auto.
  rewrite read_eq, bind_eq, sweep_none by auto.
  rewrite read_eq, bind_eq, sweep_none by auto.
  rewrite read_eq, ret_eq. do 2 f_equal. by rewrite Hrem, Hremoved.
Qed.

(** ** Records about nodes without index *)

(** A record that can only concern nodes the object has never indexed: an
    attribute or character-data change of such a node, or a child-list
    record that adds nothing and removes such nodes. *)
Definition unknownTarget (s : ShadowDom) (m : MutationRecord) : Prop :=
  match m with
  | Attributes t | CharacterData t => getNodeIndex (Some t) s = None
  | ChildList _ added removed _ _ =>
      added = [] ∧ Forall (λ r, getNodeIndex (Some r) s = None) removed
  | OtherType => True
  end.

Lemma applyRemoved_unknown removed target s :
  Forall (λ r, getNodeIndex (Some r) s = None) removed →
  applyRemoved removed target s = Returns () s.
Proof.
  induction 1 as [|r rest Hr _ IH]; [done|].
  cbn [applyRemoved]. rewrite bind_eq. unfold applyRemove at 1.
  rewrite read_eq. cbv zeta. rewrite Hr. exact IH.
Qed.

Lemma unknownTarget_skipped s m :
  unknownTarget s m → applyMutation m s = Returns () s.
Proof.
  destruct m as [t|t|t added removed prev next|]; cbn [unknownTarget applyMutation].
  - intros H. unfold applyUpdate. rewrite read_eq. cbv zeta. by rewrite H.
  - intros H. unfold applyUpdate. rewrite read_eq. cbv zeta. by rewrite H.
  - intros [-> H]. cbn [applyAdded]. rewrite bind_eq, ret_eq.
    by apply applyRemoved_unknown.
  - done.
Qed.

(** Records that leave the state as it is can be taken out of a batch. *)
Lemma skipped_records_drop s1 skipped :
  applyMutations skipped s1 = Returns () s1 →
  ∀ s before after,
    applyMutations before (startBatch s) = Returns () s1 →
    applyMutationBatch (before ++ skipped ++ after) s
    = applyMutationBatch (before ++ after) s.
Proof.
  intros Hskip s before after Hb.
  rewrite !applyMutationBatch_eq, !bind_eq, !applyMutations_app, !bind_eq, Hb.
  by rewrite applyMutations_app, bind_eq, Hskip.
Qed.

(** X3. [applyUpdate] and [applyRemove] return at once for a node without
    index: records about such nodes change nothing, tell [assert]
    nothing, and the batch returns what it returns without them. *)
Theorem unknown_targets_are_ignored (s1 : ShadowDom) (ms : list MutationRecord) :
  Forall (unknownTarget s1) ms →
  applyMutations ms s1 = Returns () s1 ∧
  ∀ s before after,
    applyMutations before (startBatch s) = Returns () s1 →
    applyMutationBatch (before ++ ms ++ after) s
    = applyMutationBatch (before ++ after) s.
Proof.
  intros Hms.
  assert (applyMutations ms s1 = Returns () s1) as Hskip.
  { induction Hms as [|m ms Hm _ IH]; [done|].
    cbn [applyMutations]. by rewrite bind_eq, unknownTarget_skipped. }
  split; [done|]. by apply skipped_records_drop.
Qed.

(** ** The ids of the shadow nodes and the registry *)

(** Every shadow node carries as id the index of the live node it
    mirrors. *)
Definition Indexed (s : ShadowDom) : Prop :=
  ∀ e, e ∈ allElements s → getNodeIndex (Some (elNode e)) s = Some (elId e).

Lemma Indexed_sub s s' :
  Indexed s → nodeIndex s' = nodeIndex s → allElements s' ⊆+ allElements s →
  Indexed s'.
Proof.
  intros H Hr Hsub e He. cbn. rewrite Hr. apply H.
  by eapply elem_of_submseteq.
Qed.

Lemma Indexed_update i h s :
  (∀ e, elId (h e) = elId e) → (∀ e, elNode (h e) = elNode e) →
  Indexed s → Indexed (updateElement i h s).
Proof.
  intros Hid Hnode H e. rewrite allElements_updateElement.
  intros (e0 & -> & He0)%list_elem_of_fmap.
  specialize (H e0 He0). cbn in *.
  case_decide; [rewrite Hid, Hnode|]; done.
Qed.

Lemma Indexed_detach_attach p ref i e kids s :
  deref i s = Some (e, kids) →
  Indexed s → Indexed (attachElement p ref e kids (detachElement i s)).
Proof.
  intros Hd H. apply (Indexed_sub s _ H).
  - unfold detachElement.
    by destruct p as [| |p]; cbn; destruct (hasId i _); cbn;
      try destruct (hasId p _).
  - etrans; [apply allElements_attachElement|].
    by rewrite <- (allElements_detachElement _ _ _ _ Hd).
Qed.

Lemma Indexed_attach_new p ref e s :
  Indexed s → getNodeIndex (Some (elNode e)) s = Some (elId e) →
  Indexed (attachElement p ref e Nil s).
Proof.
  intros H He x Hx.
  assert (nodeIndex (attachElement p ref e Nil s) = nodeIndex s) as Hr
    by (by destruct p as [| |p]; cbn; try destruct (hasId p _)).
  cbn. rewrite Hr.
  eapply elem_of_submseteq in Hx; [|apply allElements_attachElement].
  cbn in Hx. apply elem_of_cons in Hx as [->|Hx]; [exact He | by apply H].
Qed.

Section IndexedInvariant.

Lemma indexed_assert c src msg : always Indexed (assert c src msg).
Proof.
  unfold assert. always_auto; try apply always_modify;
    intros s Hs; by apply (Indexed_sub s).
Qed.

Lemma indexed_classes i g : always Indexed (modify (updateElement i (withClassList g))).
Proof. apply always_modify. intros s. by apply Indexed_update. Qed.

Lemma indexed_setClass r c : always Indexed (setClass r c).
Proof. unfold setClass. always_auto; apply indexed_classes. Qed.

Lemma indexed_removeClass r c : always Indexed (removeClass r c).
Proof. unfold removeClass. always_auto; apply indexed_classes. Qed.

Lemma indexed_removeAllClasses r : always Indexed (removeAllClasses r).
Proof. unfold removeAllClasses. always_auto; apply indexed_classes. Qed.

(** [setNodeIndex] writes the index the node has, or gives a node without
    index one: the entries of the other nodes are kept. *)
Lemma setNodeIndex_keeps node s n i :
  getNodeIndex (Some n) s = Some i →
  getNodeIndex (Some n) (finalState (setNodeIndex node s)) = Some i.
Proof.
  cbn. intros Hn. unfold setNodeIndex. cbn.
  destruct (nodeIndex s !! node) as [j|] eqn:Hj; cbn.
  - rewrite lookup_insert. case_decide; [|done]. congruence.
  - rewrite lookup_insert. case_decide; [|done]. congruence.
Qed.

Lemma setNodeIndex_gives node s :
  ∃ index s', setNodeIndex node s = Returns index s' ∧
              getNodeIndex (Some node) s' = Some index ∧
              allElements s' = allElements s.
Proof.
  unfold setNodeIndex. cbn.
  destruct (nodeIndex s !! node) as [j|]; eexists _, _; (split; [done|]);
    cbn; by rewrite lookup_insert_eq.
Qed.

Lemma indexed_setNodeIndex node : always Indexed (setNodeIndex node).
Proof.
  intros s H e He.
  destruct (setNodeIndex_gives node s) as (index & s' & Hrun & _ & Hel).
  pose proof (setNodeIndex_keeps node s (elNode e) (elId e)) as Hk.
  rewrite Hrun in *. cbn [finalState] in *. rewrite Hel in He. auto.
Qed.

Lemma indexed_insertExisting p i r : always Indexed (insertExisting p i r).
Proof.
  intros s H. unfold insertExisting.
  destruct (deref i s) as [[e kids]|] eqn:Hd; [|done].
  repeat case_match; cbn [finalState]; try done.
  all: by apply Indexed_detach_attach.
Qed.

Lemma indexed_insertShadowNode node p n l : always Indexed (insertShadowNode node p n l).
Proof.
  intros s H. unfold insertShadowNode. rewrite bind_eq.
  destruct (setNodeIndex_gives node s) as (index & s1 & Hrun & Hreg & Hel).
  pose proof (indexed_setNodeIndex node s H) as H1.
  rewrite Hrun in *. cbn [finalState] in H1. rewrite read_eq. cbv zeta.
  set (Known := λ s', Indexed s' ∧ getNodeIndex (Some node) s' = Some index).
  assert (Known s1) as HK by done.
  match goal with |- context [insertNew _ ?e _] => set (shadowNode := e) end.
  assert (elId shadowNode = index ∧ elNode shadowNode = node) as [Hid Hnode].
  { unfold shadowNode. destruct (classifyNodes s1); [destruct (negb _)|]; done. }
  clearbody shadowNode.
  rewrite bind_eq.
  assert (∃ s2, (if bool_decide (node = document)
                 then modify (setShadowDocument (Some index))
                 else mret ()) s1 = Returns () s2 ∧ Known s2) as (s2 & -> & H2).
  { destruct (bool_decide (node = document)); eexists; (split; [reflexivity|]);
      [|done].
    destruct HK as [HI HR]. split; [by apply (Indexed_sub s1) | done]. }
  assert (∀ c src msg s', Known s' →
            match assert c src msg s' with
            | Returns _ s3 => Known s3
            | Throws _ s3 => Indexed s3
            end) as Hassert.
  { intros c src msg s' [HI HR]. unfold assert. destruct c; [done|].
    rewrite bind_eq. cbn [modify].
    destruct assertThrows; cbn; [by apply (Indexed_sub s')|].
    split; [by apply (Indexed_sub s') | done]. }
  rewrite bind_eq.
  match goal with |- context [assert ?c ?a ?b s2] =>
    specialize (Hassert c a b s2 H2); destruct (assert c a b s2) as [[] s3|x s3]
  end; [|done].
  match goal with |- context [match ?x with Some _ => _ | None => mret None end] =>
    destruct x as [parent|] end; [|apply Hassert].
  rewrite bind_eq. destruct Hassert as [HI HR].
  assert (Indexed (attachElement parent (elId ∘ fst <$> getShadowNode n s1)
                     shadowNode Nil s3)) as Hnew
    by (apply Indexed_attach_new; rewrite ?Hid, ?Hnode; done).
  unfold insertNew. destruct (_ <$> getShadowNode n s1); [destruct (decide _)|]; done.
Qed.

Lemma indexed_moveShadowNode i p n : always Indexed (moveShadowNode i p n).
Proof.
  unfold moveShadowNode.
  always_auto;
    auto using indexed_assert, indexed_insertExisting, indexed_setClass,
      indexed_removeClass.
Qed.

Lemma indexed_updateShadowNode i l : always Indexed (updateShadowNode i l).
Proof.
  unfold updateShadowNode.
  always_auto; auto using indexed_assert, indexed_setClass.
  apply always_modify. intros s. by apply Indexed_update.
Qed.

Lemma indexed_removeShadowNode i : always Indexed (removeShadowNode i).
Proof.
  unfold removeShadowNode.
  always_auto; auto using indexed_assert, indexed_insertExisting.
Qed.

Lemma indexed_discoverChildren insert n ks :
  Forall (λ k, ∀ parent prev next force,
               always Indexed (insert k parent prev next force)) ks →
  ∀ prev, always Indexed (discoverChildren insert n ks prev).
Proof.
  induction 1 as [|k ks Hk _ IH]; intros prev; cbn [discoverChildren];
    always_auto; auto.
Qed.

Lemma indexed_applyInsert a :
  ∀ parent prev next force, always Indexed (applyInsert a parent prev next force).
Proof.
  induction a as [n ks IH] using LiveNode_induction. intros. rewrite applyInsert_eq.
  always_auto;
    auto using indexed_insertShadowNode, indexed_setClass, indexed_moveShadowNode.
  by apply indexed_discoverChildren.
Qed.

Lemma indexed_applyRemove r parent : always Indexed (applyRemove r parent).
Proof. unfold applyRemove. always_auto; auto using indexed_removeShadowNode. Qed.

Lemma indexed_applyUpdate n : always Indexed (applyUpdate n).
Proof. unfold applyUpdate. always_auto; auto using indexed_updateShadowNode. Qed.

Lemma indexed_applyAdded added target :
  ∀ prev next, always Indexed (applyAdded added target prev next).
Proof.
  induction added as [|a rest IH]; intros; cbn [applyAdded]; always_auto;
    auto using indexed_applyInsert.
Qed.

Lemma indexed_applyRemoved removed target :
  always Indexed (applyRemoved removed target).
Proof.
  induction removed as [|r rest IH]; cbn [applyRemoved]; always_auto;
    auto using indexed_applyRemove.
Qed.

Lemma indexed_applyMutation m : always Indexed (applyMutation m).
Proof.
  destruct m; cbn [applyMutation]; always_auto;
    auto using indexed_applyUpdate, indexed_applyAdded, indexed_applyRemoved.
Qed.

Lemma indexed_applyMutations ms : always Indexed (applyMutations ms).
Proof.
  induction ms as [|m ms IH]; cbn [applyMutations]; always_auto;
    auto using indexed_applyMutation.
Qed.

Lemma indexed_discover steps : ∀ q out, always Indexed (discover steps q out).
Proof.
  induction steps as [|n IH]; intros [|x q] out; cbn [discover]; always_auto;
    auto using indexed_removeClass.
Qed.

Lemma indexed_collectNew steps : ∀ out, always Indexed (collectNew steps out).
Proof.
  induction steps as [|n IH]; intros out; cbn [collectNew]; always_auto;
    auto using indexed_discover.
Qed.

Lemma indexed_sweep c act steps :
  (∀ r, always Indexed (act r)) → ∀ out, always Indexed (sweep c act steps out).
Proof.
  intros Hact. induction steps as [|n IH]; intros out; cbn [sweep]; always_auto; auto.
Qed.

Lemma indexed_getMutationSummary : always Indexed getMutationSummary.
Proof.
  unfold getMutationSummary.
  always_auto;
    auto using indexed_collectNew, indexed_sweep, indexed_removeAllClasses.
Qed.

Lemma indexed_applyMutationBatch ms : always Indexed (applyMutationBatch ms).
Proof.
  unfold applyMutationBatch.
  always_auto;
    auto using indexed_applyMutations, indexed_getMutationSummary,
      indexed_sweep, indexed_removeClass.
  all: apply always_modify; intros s Hs; apply (Indexed_sub s); try done.
  unfold allElements. cbn. rewrite app_nil_r. by apply submseteq_inserts_r.
Qed.

Lemma indexed_mirrorsRealDom live : always Indexed (mirrorsRealDom live).
Proof. unfold mirrorsRealDom. always_auto; auto using indexed_assert. Qed.

Lemma Indexed_run c s : Indexed s → Indexed (run c s).
Proof.
  intros Hs. destruct c; cbn [run].
  - by apply indexed_insertShadowNode.
  - by apply indexed_moveShadowNode.
  - by apply indexed_updateShadowNode.
  - by apply indexed_removeShadowNode.
  - by apply indexed_applyMutationBatch.
  - by apply indexed_getMutationSummary.
  - by apply indexed_mirrorsRealDom.
  - by apply indexed_setClass.
  - by apply indexed_removeClass.
  - by apply indexed_removeAllClasses.
Qed.

Lemma Indexed_runAll calls : ∀ s, Indexed s → Indexed (runAll calls s).
Proof.
  induction calls as [|c calls IH]; intros s Hs; [done|].
  cbn. apply IH. by apply Indexed_run.
Qed.

End IndexedInvariant.

Lemma Indexed_new : Indexed newShadowDom.
Proof. intros e He. cbn in He. by apply elem_of_nil in He. Qed.

(** X4. Whatever is called on a new object, and whether the calls return or
    throw: the id of every shadow node, in the document or in the holding
    area, is the index the registry holds for the live node it mirrors;
    it is below [nextIndex]; and two shadow nodes with different ids
    mirror different live nodes.  Every public method keeps this from any
    state in which it holds. *)
Theorem mirror_ids_are_registry_indices (calls : list Call) :
  (∀ s c, Indexed s → Indexed (run c s)) ∧
  let s := runAll calls newShadowDom in
  Indexed s ∧
  (∀ e, e ∈ allElements s → elId e < nextIndex s) ∧
  (∀ e1 e2, e1 ∈ allElements s → e2 ∈ allElements s →
            elNode e1 = elNode e2 → elId e1 = elId e2).
Proof.
  split; [intros s c; apply Indexed_run|]. cbv zeta.
  pose proof (Indexed_runAll calls _ Indexed_new) as HI.
  destruct (Registry_runAll calls _ Registry_new) as [[Hlt _] _].
  split; [done|]. split.
  - intros e He. apply (Hlt (elNode e)). by apply HI.
  - intros e1 e2 H1 H2 Heq.
    pose proof (HI e1 H1) as G1. pose proof (HI e2 H2) as G2.
    rewrite Heq in G1. congruence.
Qed.

(** ** [updateShadowNode] *)

(** What [updateShadowNode] does to the node it is given: the new layout,
    if there is one, with [ignore] read off its tag; and [cl-updated]
    while nodes are classified. *)
Definition updatedNode (newLayout : option ILayoutState) (classify : bool)
    (e : IShadowDomNode) : IShadowDomNode :=
  let e1 := match newLayout with
            | Some l => withLayout l (bool_decide (tag l = IgnoreTag)) e
            | None => e
            end in
  if classify then withClassList (add UpdatedNodeClassName) e1 else e1.

Lemma elId_updatedNode l b e : elId (updatedNode l b e) = elId e.
Proof. unfold updatedNode. by destruct l, b. Qed.

Lemma updateElement_id i s : updateElement i id s = s.
Proof.
  rewrite mapClasses_updateElement. apply mapClasses_id.
  intros e _. by case_decide.
Qed.

Lemma updateElement_compose i g1 g2 s :
  (∀ e, elId (g2 e) = elId e) →
  updateElement i g1 (updateElement i g2 s) = updateElement i (g1 ∘ g2) s.
Proof.
  intros Hid. rewrite !mapClasses_updateElement, mapClasses_compose.
  apply mapClasses_ext. intros e _. cbn.
  destruct (decide (elId e = i)) as [Hi|Hi].
  - by rewrite decide_True by (by rewrite Hid).
  - by rewrite decide_False.
Qed.

Lemma updateShadowNode_run i newLayout s e kids :
  getShadowNode (Some i) s = Some (e, kids) →
  updateShadowNode (Some i) newLayout s
  = Returns () (updateElement i (updatedNode newLayout (classifyNodes s)) s).
Proof.
  intros Hnode.
  assert (elId e = i) as Hid.
  { apply docGetElementById_deref in Hnode. by apply deref_elem in Hnode as [? _]. }
  unfold updateShadowNode. rewrite read_eq. cbv zeta. rewrite Hnode.
  cbn [refOf fmap option_fmap option_map compose fst].
  rewrite bool_decide_eq_true_2 by eauto. rewrite assert_true, bind_eq, ret_eq.
  rewrite Hid, bind_eq. unfold updatedNode.
  destruct newLayout as [l|], (classifyNodes s); cbn [modify setClass].
  - apply (f_equal (Returns ())). by rewrite updateElement_compose.
  - done.
  - done.
  - by rewrite ret_eq, <- (updateElement_id i s) at 1.
Qed.

(** X6. On a shadow document in which no two nodes have the same id,
    [updateShadowNode] on a node of the document changes the payload of
    that node and nothing else: no node is created, dropped or moved, the
    registry and the reports are what they were, and every other node is
    untouched.  The node gets the new layout and an [ignore] that is read
    off the tag of that layout alone, whatever the parent's is; the
    [ignore] of its descendants is not recomputed.  Without a layout and
    outside a batch the call changes nothing at all.  On an index without
    node in the document the method tells [assert] and leaves the shadow
    document alone. *)
Theorem updateShadowNode_changes_payload_only (s : ShadowDom) (i : nat)
    (newLayout : option ILayoutState) :
  NoDup (allIds s) →
  (∀ e kids, getShadowNode (Some i) s = Some (e, kids) →
     ∃ s',
       updateShadowNode (Some i) newLayout s = Returns () s' ∧
       allElements s'
       = (λ x, if decide (elId x = i)
               then updatedNode newLayout (classifyNodes s) x else x)
           <$> allElements s ∧
       allIds s' = allIds s ∧
       (∀ r, parentNode r s' = parentNode r s ∧
             nextSiblingOf r s' = nextSiblingOf r s) ∧
       nodeIndex s' = nodeIndex s ∧ nextIndex s' = nextIndex s ∧
       reports s' = reports s ∧ classifyNodes s' = classifyNodes s ∧
       (∀ e' kids', getShadowNode (Some i) s' = Some (e', kids') →
          elNode e' = elNode e ∧
          ∀ l, newLayout = Some l →
               elLayout e' = Some l ∧
               elIgnore e' = bool_decide (tag l = IgnoreTag)) ∧
       (newLayout = None → classifyNodes s = false → s' = s)) ∧
  (getShadowNode (Some i) s = None →
     updateShadowNode (Some i) newLayout s
     = (if assertThrows then Throws AssertionFailure else Returns ())
         (addReport ("updateShadowNode", "shadowNode is missing") s)).
Proof.
  intros _. split.
  - intros e kids Hnode. eexists. split; [by eapply updateShadowNode_run|].
    set (h := updatedNode newLayout (classifyNodes s)).
    assert (∀ x, elId ((λ x, if decide (elId x = i) then h x else x) x) = elId x)
      as Hid by (intros x; cbn; case_decide; [apply elId_updatedNode | done]).
    split; [apply allElements_updateElement|].
    split; [rewrite mapClasses_updateElement; by apply allIds_mapClasses|].
    split.
    { intros r. rewrite mapClasses_updateElement.
      by rewrite parentNode_mapClasses, nextSiblingOf_mapClasses. }
    split; [done|]. split; [done|]. split; [done|]. split; [done|]. split.
    + intros e' kids'. cbn [getShadowNode mbind option_bind].
      intros He'%docGetElementById_deref.
      rewrite mapClasses_updateElement, deref_mapClasses in He' by done.
      apply docGetElementById_deref in Hnode. rewrite Hnode in He'.
      cbn in He'. injection He' as <- <-.
      apply deref_elem in Hnode as [-> _]. rewrite decide_True by done.
      unfold h, updatedNode.
      split; [by destruct newLayout, (classifyNodes s)|].
      intros l ->. by destruct (classifyNodes s).
    + intros -> Hc. unfold h, updatedNode. rewrite Hc.
      apply updateElement_id.
  - intros Hnode. unfold updateShadowNode. rewrite read_eq. cbv zeta.
    rewrite Hnode. cbn [refOf fmap option_fmap option_map].
    rewrite bool_decide_eq_false_2 by (by intros [? ?]).
    unfold assert. rewrite !bind_eq. cbn [modify].
    destruct assertThrows; reflexivity.
Qed.

(** ** What [moveShadowNode] refuses *)

(** The state in which [moveShadowNode] calls [insertBefore] or
    [appendChild]: while nodes are classified, the node has been tagged
    by then. *)
Definition taggedForMove (i p : nat) (s : ShadowDom) : ShadowDom :=
  if classifyNodes s
  then updateElement i
         (withClassList (movedClasses (hasClass (Some (Elem p)) NewNodeClassName s))) s
  else s.

Lemma moveShadowNode_tags s i pidx nidx e kids pe pk :
  getShadowNode (Some i) s = Some (e, kids) →
  getShadowNode pidx s = Some (pe, pk) →
  moveShadowNode (Some i) pidx nidx s
  = (insertExisting (Elem (elId pe)) i (elId ∘ fst <$> getShadowNode nidx s);;
     mret (Some (Elem i))) (taggedForMove i (elId pe) s).
Proof.
  intros Hnode Hparent.
  assert (elId e = i) as Hid.
  { apply docGetElementById_deref in Hnode. by apply deref_elem in Hnode as [? _]. }
  unfold moveShadowNode. rewrite read_eq. cbv zeta.
  rewrite Hnode, Hparent. cbn [refOf fmap option_fmap option_map compose fst].
  rewrite !bool_decide_eq_true_2 by eauto. rewrite !assert_true.
  rewrite Hid. rewrite bind_eq, ret_eq, bind_eq, ret_eq.
  rewrite (bind_eq (if classifyNodes s then _ else _)).
  unfold taggedForMove. destruct (classifyNodes s); [|done].
  rewrite bind_eq. cbn [setClass modify]. rewrite read_eq.
  set (b := hasClass (Some (Elem (elId pe))) NewNodeClassName s).
  assert (hasClass (Some (Elem (elId pe))) NewNodeClassName
            (updateElement i (withClassList (add MovedNodeClassName)) s) = b) as ->.
  { destruct (decide (elId pe = i)) as [Hp|Hp].
    - rewrite Hp. rewrite hasClass_updateElement. subst b. unfold hasClass.
      rewrite Hp. destruct (deref i s) as [[x ?]|]; [|done].
      by apply contains_add_ne.
    - by apply hasClass_updateElement_ne. }
  clearbody b. unfold movedClasses.
  destruct b; cbn [removeClass modify]; by rewrite updateElement_twice.
Qed.

Lemma deref_tagged i g s e kids :
  deref i s = Some (e, kids) →
  ∃ kids', deref i (updateElement i (withClassList g) s) = Some (withClassList g e, kids')
           ∧ ids kids' = ids kids.
Proof.
  intros Hd. rewrite mapClasses_updateElement.
  rewrite deref_mapClasses, Hd by (intros x; by case_decide). cbn.
  apply deref_elem in Hd as [Hid _]. rewrite decide_True by done.
  eexists. split; [done|]. apply ids_mapForest. intros x. by case_decide.
Qed.

(** X7. On a shadow document in which no two nodes have the same id,
    [moveShadowNode] never builds a cycle and never guesses a place: for
    a new parent that is the node itself or one of its descendants the
    call ends in the [HierarchyRequestError] of the DOM, and for an anchor
    that is not a child of the new parent in its [NotFoundError].  In both
    cases no node has changed place; outside a batch the object is
    exactly what it was, inside a batch the node has been tagged before
    the DOM call is made. *)
Theorem moveShadowNode_refuses (s : ShadowDom) (i : nat) (pidx nidx : option nat)
    (e pe : IShadowDomNode) (kids pk : Forest) :
  NoDup (allIds s) →
  getShadowNode (Some i) s = Some (e, kids) →
  getShadowNode pidx s = Some (pe, pk) →
  let s' := taggedForMove i (elId pe) s in
  (classifyNodes s = false → s' = s) ∧
  (allIds s' = allIds s ∧
   ∀ r, parentNode r s' = parentNode r s ∧ nextSiblingOf r s' = nextSiblingOf r s) ∧
  (elId pe = i ∨ elId pe ∈ ids kids →
     moveShadowNode (Some i) pidx nidx s = Throws HierarchyRequestError s') ∧
  (elId pe ≠ i → elId pe ∉ ids kids →
   ∀ re rk, getShadowNode nidx s = Some (re, rk) →
            parentNode (elId re) s ≠ Some (Elem (elId pe)) →
     moveShadowNode (Some i) pidx nidx s = Throws NotFoundError s').
Proof.
  intros _ Hnode Hparent. cbv zeta.
  pose proof (moveShadowNode_tags s i pidx nidx e kids pe pk Hnode Hparent) as Hrun.
  assert (deref i s = Some (e, kids)) as Hd by (by apply docGetElementById_deref).
  assert (∃ e' kids', deref i (taggedForMove i (elId pe) s) = Some (e', kids')
                      ∧ ids kids' = ids kids) as (e' & kids' & Hd' & Hk').
  { unfold taggedForMove. destruct (classifyNodes s); [|eauto].
    destruct (deref_tagged i (movedClasses (hasClass (Some (Elem (elId pe)))
                                             NewNodeClassName s)) s e kids Hd)
      as (kids' & ? & ?). eauto. }
  assert (∀ r, parentNode r (taggedForMove i (elId pe) s) = parentNode r s ∧
               nextSiblingOf r (taggedForMove i (elId pe) s) = nextSiblingOf r s)
    as Hshape.
  { intros r. unfold taggedForMove. destruct (classifyNodes s); [|done].
    rewrite mapClasses_updateElement.
    rewrite parentNode_mapClasses, nextSiblingOf_mapClasses;
      [done | intros x; by case_decide..]. }
  split; [|split; [split; [|done]|split]].
  - unfold taggedForMove. by intros ->.
  - unfold taggedForMove. destruct (classifyNodes s); [|done].
    rewrite mapClasses_updateElement. apply allIds_mapClasses.
    intros x. by case_decide.
  - intros Hcycle. rewrite Hrun, bind_eq. unfold insertExisting. rewrite Hd'.
    assert (bool_decide (elId pe = i) || hasId (elId pe) kids' = true) as ->; [|done].
    destruct Hcycle as [->|Hin].
    + by rewrite bool_decide_eq_true_2.
    + rewrite (proj2 (hasId_true _ _)) by (by rewrite Hk'). apply orb_true_r.
  - intros Hpi Hpk re rk Hanchor Hnot. rewrite Hrun, bind_eq.
    unfold insertExisting. rewrite Hd', Hanchor.
    rewrite bool_decide_eq_false_2 by done.
    rewrite (proj2 (hasId_false _ _)) by (by rewrite Hk').
    cbn [orb fmap option_fmap option_map compose fst].
    rewrite bool_decide_eq_true_2; [done|]. by rewrite (proj1 (Hshape _)).
Qed.

(** ** [removeShadowNode] *)

Lemma elements_insertTop_last e kids f :
  elements (insertTop None e kids f) = elements f ++ e :: elements kids.
Proof.
  induction f as [|x xkids _ xnext IHn]; cbn.
  - by rewrite app_nil_r.
  - rewrite decide_False by done. cbn. rewrite IHn. by app_norm.
Qed.

Lemma topLevel_insertTop_last e kids f :
  topLevel (insertTop None e kids f) = topLevel f ++ [e].
Proof.
  induction f as [|x xkids _ xnext IHn]; cbn; [done|].
  rewrite decide_False by done. cbn. by rewrite IHn.
Qed.

(** Taking a subtree out leaves the other elements in their order. *)
Lemma elements_removeById_split i f e kids :
  getElementById i f = Some (e, kids) →
  ∃ l1 l2, elements f = l1 ++ e :: elements kids ++ l2 ∧
           elements (removeById i f) = l1 ++ l2.
Proof.
  revert e kids.
  induction f as [|x xkids IHk xnext IHn]; intros e kids; cbn; [done|].
  case_decide as Hx.
  - intros [= <- <-]. by exists [], (elements xnext).
  - destruct (getElementById i xkids) as [r|] eqn:Hk.
    + intros [= ->]. destruct (IHk _ _ eq_refl) as (l1 & l2 & Hel & Hrm).
      rewrite (proj2 (hasId_true i xkids)) by (apply getElementById_is_Some; eauto).
      exists (x :: l1), (l2 ++ elements xnext). cbn. rewrite Hel, Hrm.
      split; by app_norm.
    + intros Hn. destruct (IHn _ _ Hn) as (l1 & l2 & Hel & Hrm).
      rewrite (proj2 (hasId_false i xkids)) by (by apply getElementById_None).
      exists (x :: elements xkids ++ l1), l2. cbn. rewrite Hel, Hrm.
      split; by app_norm.
Qed.

Lemma ids_removeById i f e kids :
  NoDup (ids f) → getElementById i f = Some (e, kids) →
  ids (removeById i f) = filter (λ x, x ∉ i :: ids kids) (ids f).
Proof.
  intros Hnd Hi.
  destruct (getElementById_elem _ _ _ _ Hi) as [Hid _].
  destruct (elements_removeById_split _ _ _ _ Hi) as (l1 & l2 & Hel & Hrm).
  unfold ids in *. rewrite Hrm, Hel in *.
  rewrite !fmap_app, fmap_cons, fmap_app in *. rewrite Hid in *.
  set (K := elId <$> elements kids) in *.
  change (i :: K ++ (elId <$> l2)) with ((i :: K) ++ (elId <$> l2)) in *.
  apply NoDup_app in Hnd as (H1 & Hd1 & Hnd).
  apply NoDup_app in Hnd as (HK & Hd2 & H2).
  rewrite !filter_app.
  rewrite (filter_all _ (elId <$> l1)), (filter_none _ (i :: K)),
    (filter_all _ (elId <$> l2)); [done | | |].
  - intros x Hx Hin. by apply (Hd2 x).
  - intros x Hx Hnot. by apply Hnot.
  - intros x Hx Hin. apply (Hd1 x Hx). rewrite elem_of_app. by left.
Qed.

(** Where [removedNodes.appendChild(shadowNode)] leaves the node. *)
Lemma remove_places s i e kids :
  NoDup (allIds s) →
  deref i s = Some (e, kids) →
  let s' := attachElement RemovedDiv None e kids (detachElement i s) in
  allIds s' ≡ₚ allIds s ∧
  ids (shadowDomRoot s') = filter (λ x, x ∉ i :: ids kids) (ids (shadowDomRoot s)) ∧
  getElementById i (removedNodes s') = Some (e, kids) ∧
  (∃ l, elId <$> topLevel (removedNodes s') = l ++ [i] ∧
        l = filter (λ x, x ≠ i) (elId <$> topLevel (removedNodes s))).
Proof.
  intros Hnd Hd. destruct (deref_elem _ _ _ _ Hd) as [Hid _].
  unfold allIds, allElements in *. rewrite fmap_app in Hnd.
  assert (Hnd' := Hnd). apply NoDup_app in Hnd' as (Hndr & Hdisj & Hndm).
  unfold deref in Hd. cbv zeta. unfold detachElement.
  destruct (getElementById i (shadowDomRoot s)) as [r|] eqn:Hir.
  - injection Hd as ->.
    rewrite (proj2 (hasId_true i _)) by (apply getElementById_is_Some; eauto).
    cbn [attachElement shadowDomRoot removedNodes setForests].
    pose proof (elements_removeById _ _ _ _ Hir) as Hperm.
    assert (i ∉ ids (removedNodes s)) as Him.
    { apply Hdisj. apply getElementById_is_Some. eauto. }
    split; [|split; [|split]].
    + apply fmap_Permutation. cbn [shadowDomRoot removedNodes setForests].
      rewrite elements_insertTop_last, Hperm.
      rewrite (Permutation_app_comm (elements (removeById i (shadowDomRoot s)))).
      rewrite <- app_assoc. apply Permutation_app_comm.
    + by eapply ids_removeById.
    + rewrite <- Hid. apply getElementById_insertTop_new. by rewrite Hid.
    + eexists. rewrite topLevel_insertTop_last, fmap_app. cbn. rewrite Hid.
      split; [done|]. symmetry. apply filter_all.
      intros x Hx%topLevel_ids ->. done.
  - rewrite (proj2 (hasId_false i _)) by (by apply getElementById_None).
    cbn [attachElement shadowDomRoot removedNodes setForests].
    pose proof (elements_removeById _ _ _ _ Hd) as Hperm.
    apply getElementById_None in Hir.
    assert (i ∉ ids (removeById i (removedNodes s))) as Him.
    { unfold ids in Hndm. rewrite Hperm in Hndm.
      rewrite fmap_cons, fmap_app, Hid, NoDup_cons, not_elem_of_app in Hndm.
      unfold ids. tauto. }
    split; [|split; [|split]].
    + apply fmap_Permutation. cbn [shadowDomRoot removedNodes setForests].
      rewrite elements_insertTop_last. f_equiv.
      rewrite Hperm. apply Permutation_app_comm.
    + symmetry. apply filter_all. intros x Hx Hin.
      apply elem_of_cons in Hin as [->|Hin]; [done|].
      apply (Hdisj x Hx). by eapply kids_ids.
    + rewrite <- Hid. apply getElementById_insertTop_new. by rewrite Hid.
    + eexists. rewrite topLevel_insertTop_last, fmap_app. cbn. rewrite Hid.
      split; [done|]. by apply topLevel_removeById.
Qed.

(** X8. [removeShadowNode] keeps the node: it moves it, with its subtree, to
    the end of the holding area, where its index still leads to it only
    while that area is attached to the document, that is during a batch.
    The other nodes of the document stay, in the order they had; nothing
    is created or dropped, and the registry is what it was.  Outside a
    batch the index no longer leads to a shadow node afterwards, nor do
    those of the descendants, and a second removal finds nothing to
    remove. *)
Theorem removeShadowNode_holds_the_subtree (s : ShadowDom) (i : nat)
    (e : IShadowDomNode) (kids : Forest) :
  NoDup (allIds s) →
  getShadowNode (Some i) s = Some (e, kids) →
  ∃ s',
    removeShadowNode (Some i) s = Returns () s' ∧
    allIds s' ≡ₚ allIds s ∧
    nodeIndex s' = nodeIndex s ∧ nextIndex s' = nextIndex s ∧
    reports s' = reports s ∧
    ids (shadowDomRoot s')
    = filter (λ x, x ∉ i :: ids kids) (ids (shadowDomRoot s)) ∧
    deref i s' = Some (e, kids) ∧
    parentNode i s' = Some RemovedDiv ∧ nextSiblingOf i s' = None ∧
    (∀ x, x ∈ i :: ids kids →
          (is_Some (getShadowNode (Some x) s') ↔ removedAttached s = true)) ∧
    (removedAttached s = false →
       removeShadowNode (Some i) s'
       = (if assertThrows then Throws AssertionFailure else Returns ())
           (addReport ("removeShadowNode", "shadowNode is missing") s')).
Proof.
  intros Hnd Hnode.
  assert (deref i s = Some (e, kids)) as Hd by (by apply docGetElementById_deref).
  destruct (deref_elem _ _ _ _ Hd) as [Hid _].
  pose proof (remove_places s i e kids Hnd Hd) as Hplaces. cbv zeta in Hplaces.
  set (s' := attachElement RemovedDiv None e kids (detachElement i s)) in *.
  destruct Hplaces as (Hperm & Hroot & Hget & l & Htop & _).
  assert (removedAttached s' = removedAttached s ∧ nodeIndex s' = nodeIndex s ∧
          nextIndex s' = nextIndex s ∧ reports s' = reports s) as (Hatt & Hreg & Hnext & Hrep).
  { unfold s', detachElement. by destruct (hasId i _). }
  assert (NoDup (allIds s')) as Hnd' by (by rewrite Hperm).
  assert (∀ x, x ∈ i :: ids kids → x ∉ ids (shadowDomRoot s')) as Hgone.
  { intros x Hx. rewrite Hroot. intros [Hnot _]%list_elem_of_filter. done. }
  assert (∀ x, x ∈ i :: ids kids → x ∈ ids (removedNodes s')) as Hheld.
  { intros x Hx. apply elem_of_cons in Hx as [->|Hx].
    - apply getElementById_is_Some. eauto.
    - by eapply kids_ids. }
  assert (removeShadowNode (Some i) s = Returns () s') as Hrun.
  { unfold removeShadowNode. rewrite read_eq. cbv zeta. rewrite Hnode.
    cbn [refOf fmap option_fmap option_map compose fst].
    rewrite bool_decide_eq_true_2 by eauto. rewrite assert_true, bind_eq, ret_eq.
    rewrite Hid. unfold insertExisting. rewrite Hd. cbn.
    by rewrite decide_False. }
  assert (getElementById i (shadowDomRoot s') = None) as Hnone
    by (apply getElementById_None, Hgone; by left).
  exists s'. split; [done|]. split; [done|]. split; [done|]. split; [done|].
  split; [done|]. split; [done|]. split; [|split; [|split; [|split]]].
  - unfold deref. by rewrite Hnone.
  - unfold parentNode.
    rewrite parentIn_absent by (apply Hgone; by left).
    apply parentIn_topLevel.
    + unfold allIds, allElements in Hnd'. rewrite fmap_app in Hnd'.
      by apply NoDup_app in Hnd' as (_ & _ & ?).
    + rewrite Htop. set_solver.
  - unfold nextSiblingOf.
    rewrite nextSiblingIn_absent by (apply Hgone; by left).
    rewrite (nextSiblingIn_topLevel i _ l []); [done| |done].
    unfold allIds, allElements in Hnd'. rewrite fmap_app in Hnd'.
    by apply NoDup_app in Hnd' as (_ & _ & ?).
  - intros x Hx. cbn [getShadowNode mbind option_bind]. unfold docGetElementById.
    rewrite (proj2 (getElementById_None x _)) by (by apply Hgone).
    unfold removedInDoc. rewrite Hatt. destruct (removedAttached s).
    + split; [done|]. intros _. by apply getElementById_is_Some, Hheld.
    + split; [by intros [? ?] | done].
  - intros Hdet. unfold removeShadowNode. rewrite read_eq. cbv zeta.
    assert (getShadowNode (Some i) s' = None) as ->.
    { cbn [getShadowNode mbind option_bind]. unfold docGetElementById.
      rewrite Hnone. unfold removedInDoc. by rewrite Hatt, Hdet. }
    cbn [refOf fmap option_fmap option_map].
    rewrite bool_decide_eq_false_2 by (by intros [? ?]).
    unfold assert. rewrite !bind_eq. cbn [modify].
    destruct assertThrows; reflexivity.
Qed.

(** ** [insertShadowNode] *)

(** The subtree put at the top level of a forest is found there, before
    the child [ref]. *)
Lemma insertTop_places f q ref e kids :
  NoDup (ids (insertTop ref e kids f)) →
  elId e ∉ ids f →
  (∀ r, ref = Some r → r ∈ elId <$> topLevel f) →
  getElementById (elId e) (insertTop ref e kids f) = Some (e, kids) ∧
  parentIn (elId e) q (insertTop ref e kids f) = Some q ∧
  nextSiblingIn (elId e) (insertTop ref e kids f) = Some ref.
Proof.
  intros Hnd Hi Href.
  destruct (topLevel_insertTop ref e kids f) as (l1 & l2 & H1 & H2 & H3).
  split; [by apply getElementById_insertTop_new|]. split.
  - apply parentIn_topLevel; [done|]. rewrite H2. set_solver.
  - rewrite (nextSiblingIn_topLevel _ _ l1 l2) by done.
    f_equal. rewrite H3. destruct ref as [r|]; [|done]. cbn.
    by rewrite bool_decide_eq_true_2 by (by apply Href).
Qed.

(** The class list [insertShadowNode] gives the node it creates. *)
Definition insertedClasses (classify parentIsNew : bool) : list ClassName :=
  if classify then
    if parentIsNew then [NewNodeClassName]
    else [NewNodeClassName; TopNewNodeClassName]
  else [].

(** [insertShadowNode] for a node without index under a parent of the
    document: the state it leaves. *)
Lemma insertShadowNode_exact s node pidx nidx layout pe pk :
  getNodeIndex (Some node) s = None → node ≠ document →
  getShadowNode pidx s = Some (pe, pk) → elId pe ∈ ids (shadowDomRoot s) →
  (∀ re rk, getShadowNode nidx s = Some (re, rk) →
            parentNode (elId re) s = Some (Elem (elId pe))) →
  insertShadowNode node pidx nidx layout s
  = Returns (Some (Elem (nextIndex s)))
      (setForests
         (insertUnder (elId pe) (elId ∘ fst <$> getShadowNode nidx s)
            {| elId := nextIndex s; elNode := node; elLayout := layout;
               elIgnore := match layout with
                           | Some l => bool_decide (tag l = IgnoreTag)
                           | None => false
                           end || elIgnore pe;
               classList := insertedClasses (classifyNodes s)
                              (hasClass (Some (Elem (elId pe))) NewNodeClassName s) |}
            Nil (shadowDomRoot s))
         (removedNodes s)
         (setRegistry (S (nextIndex s)) (<[node:=nextIndex s]> (nodeIndex s)) s)).
Proof.
  intros Hnone Hdoc Hparent Hproot Hanchor.
  set (p := elId pe) in *.
  set (anchor := elId ∘ fst <$> getShadowNode nidx s).
  set (s1 := setRegistry (S (nextIndex s)) (<[node:=nextIndex s]> (nodeIndex s)) s).
  set (e' := {| elId := nextIndex s; elNode := node; elLayout := layout;
                elIgnore := match layout with
                            | Some l => bool_decide (tag l = IgnoreTag)
                            | None => false
                            end || elIgnore pe;
                classList := insertedClasses (classifyNodes s)
                               (hasClass (Some (Elem p)) NewNodeClassName s) |}).
  set (s' := setForests (insertUnder p anchor e' Nil (shadowDomRoot s))
                        (removedNodes s) s1).
  unfold insertShadowNode. rewrite bind_eq, (setNodeIndex_unknown _ _ Hnone).
  fold s1. rewrite read_eq. cbv zeta.
  rewrite bool_decide_eq_false_2 by done.
  change (getShadowNode pidx s1) with (getShadowNode pidx s).
  change (getShadowNode nidx s1) with (getShadowNode nidx s).
  rewrite Hparent. cbn [refOf fmap option_fmap option_map compose fst].
  rewrite bool_decide_eq_true_2 by eauto.
  rewrite assert_true, bind_eq, ret_eq, bind_eq, ret_eq, bind_eq.
  fold p. fold anchor.
  change (classifyNodes s1) with (classifyNodes s).
  change (hasClass (Some (Elem p)) NewNodeClassName s1)
    with (hasClass (Some (Elem p)) NewNodeClassName s).
  match goal with |- context [insertNew _ ?x _] =>
    assert (x = e') as ->
  end.
  { unfold e', insertedClasses.
    destruct (classifyNodes s); [destruct (hasClass _ _ s)|]; cbn;
      destruct layout; cbn; by rewrite ?orb_false_r. }
  unfold insertNew.
  assert (attachElement (Elem p) anchor e' Nil s1 = s') as Hatt.
  { unfold attachElement. cbn [shadowDomRoot removedNodes s1 setRegistry].
    by rewrite (proj2 (hasId_true p _)) by done. }
  destruct anchor as [r|] eqn:Ha.
  - assert (parentNode r s1 = Some (Elem p)) as Hpr.
    { unfold anchor in Ha.
      destruct (getShadowNode nidx s) as [[re rk]|] eqn:Hn; [|done].
      cbn in Ha. injection Ha as <-. by apply (Hanchor re rk). }
    rewrite decide_True by done. by rewrite Hatt.
  - by rewrite Hatt.
Qed.

(** X9. [insertShadowNode] for a live node without index, other than the
    document, under a parent whose shadow node is in the document, before
    an anchor that is a child of that parent or without anchor: the node
    gets the next index, and that index leads to a new shadow node
    without children, at the place asked for.  The shadow node carries the
    live node and the layout; it is ignored when its layout has the
    ignore tag or when its parent is ignored.  It is tagged only while
    nodes are classified.  The other nodes keep their index, and the
    shadow document stays well formed. *)
Theorem insertShadowNode_round_trip (s : ShadowDom) (node : Node)
    (pidx nidx : option nat) (layout : option ILayoutState)
    (pe : IShadowDomNode) (pk : Forest) :
  WF s → (∀ n i, nodeIndex s !! n = Some i → i < nextIndex s) →
  getNodeIndex (Some node) s = None → node ≠ document →
  getShadowNode pidx s = Some (pe, pk) → elId pe ∈ ids (shadowDomRoot s) →
  (∀ re rk, getShadowNode nidx s = Some (re, rk) →
            parentNode (elId re) s = Some (Elem (elId pe))) →
  let index := nextIndex s in
  ∃ s' e',
    insertShadowNode node pidx nidx layout s = Returns (Some (Elem index)) s' ∧
    getNodeIndex (Some node) s' = Some index ∧
    nextIndex s' = S index ∧
    (∀ m, m ≠ node → getNodeIndex (Some m) s' = getNodeIndex (Some m) s) ∧
    getShadowNode (Some index) s' = Some (e', Nil) ∧
    elId e' = index ∧ elNode e' = node ∧ elLayout e' = layout ∧
    elIgnore e'
    = match layout with
      | Some l => bool_decide (tag l = IgnoreTag)
      | None => false
      end || elIgnore pe ∧
    classList e'
    = insertedClasses (classifyNodes s)
        (hasClass (Some (Elem (elId pe))) NewNodeClassName s) ∧
    parentNode index s' = Some (Elem (elId pe)) ∧
    nextSiblingOf index s' = elId ∘ fst <$> getShadowNode nidx s ∧
    allIds s' ≡ₚ index :: allIds s ∧
    WF s' ∧
    shadowDocument s' = shadowDocument s ∧ reports s' = reports s.
Proof.
  intros [Hnd Hlt] Hreg Hnone Hdoc Hparent Hproot Hanchor. cbv zeta.
  set (p := elId pe) in *.
  set (anchor := elId ∘ fst <$> getShadowNode nidx s).
  set (s1 := setRegistry (S (nextIndex s)) (<[node:=nextIndex s]> (nodeIndex s)) s).
  assert (getElementById p (shadowDomRoot s) = Some (pe, pk)) as Hp.
  { destruct pidx as [j|]; [|done]. cbn in Hparent.
    apply docGetElementById_deref in Hparent.
    destruct (deref_elem _ _ _ _ Hparent) as [Hj _]. fold p in Hj. subst j.
    unfold deref in Hparent.
    apply getElementById_is_Some in Hproot as [r Hr]. by rewrite Hr in Hparent |- *. }
  assert (nextIndex s ∉ allIds s) as Hfresh by (intros Hin%Hlt; lia).
  assert (nextIndex s ∉ ids (shadowDomRoot s)) as Hfreshr.
  { intros Hin. apply Hfresh. unfold allIds, allElements.
    rewrite fmap_app, elem_of_app. by left. }
  assert (nextIndex s ≠ p) as Hne by (intros Heq; apply Hfreshr; by rewrite Heq).
  assert (∀ r, anchor = Some r → r ∈ elId <$> topLevel pk) as Href.
  { intros r Hr. unfold anchor in Hr.
    destruct (getShadowNode nidx s) as [[re rk]|] eqn:Hn; [|done].
    cbn in Hr. injection Hr as <-.
    by apply (parentNode_child_inv s _ p pe pk Hnd Hp), (Hanchor re rk). }
  set (e' := {| elId := nextIndex s; elNode := node; elLayout := layout;
                elIgnore := match layout with
                            | Some l => bool_decide (tag l = IgnoreTag)
                            | None => false
                            end || elIgnore pe;
                classList := insertedClasses (classifyNodes s)
                               (hasClass (Some (Elem p)) NewNodeClassName s) |}).
  set (s' := setForests (insertUnder p anchor e' Nil (shadowDomRoot s))
                        (removedNodes s) s1).
  assert (insertShadowNode node pidx nidx layout s
          = Returns (Some (Elem (nextIndex s))) s') as Hrun
    by (by apply (insertShadowNode_exact s node pidx nidx layout pe pk)).
  assert (elements (shadowDomRoot s') ≡ₚ e' :: elements (shadowDomRoot s)) as Hperm.
  { unfold s'. cbn [shadowDomRoot setForests].
    rewrite elements_insertUnder by done. done. }
  assert (allIds s' ≡ₚ nextIndex s :: allIds s) as Hall.
  { unfold allIds, allElements. rewrite Hperm. done. }
  assert (NoDup (allIds s')) as Hnd'.
  { rewrite Hall. by apply NoDup_cons. }
  destruct (insertUnder_places (shadowDomRoot s) RootDiv p anchor e' Nil pe pk)
    as (Hget & Hpar & Hnext); [|done..|].
  { unfold allIds, allElements in Hnd'. rewrite fmap_app in Hnd'.
    by apply NoDup_app in Hnd' as (? & _ & _). }
  change (elId e') with (nextIndex s) in Hget, Hpar, Hnext.
  exists s', e'. split; [done|]. split; [|split; [done|split]].
  - cbn. apply lookup_insert_eq.
  - intros m Hm. cbn. by rewrite lookup_insert_ne.
  - split.
    { cbn [getShadowNode mbind option_bind]. unfold docGetElementById.
      unfold s' at 1. cbn [shadowDomRoot setForests]. by rewrite Hget. }
    split; [done|]. split; [done|]. split; [done|]. split; [done|]. split; [done|].
    split; [unfold parentNode, s'; cbn [shadowDomRoot setForests]; by rewrite Hpar|].
    split; [unfold nextSiblingOf, s'; cbn [shadowDomRoot setForests]; by rewrite Hnext|].
    split; [done|]. split; [|done].
    split; [done|]. intros i. rewrite Hall. cbn.
    intros [->|Hi%Hlt]%elem_of_cons; lia.
Qed.

Lemma parentNode_root_inv s r :
  NoDup (allIds s) → parentNode r s = Some RootDiv →
  r ∈ elId <$> topLevel (shadowDomRoot s).
Proof.
  unfold allIds, allElements, parentNode. rewrite fmap_app.
  intros (Hr & _ & Hm)%NoDup_app.
  destruct (parentIn r RootDiv (shadowDomRoot s)) as [q|] eqn:Hq.
  - intros [= ->].
    by destruct (parentIn_inv _ _ _ _ Hr Hq) as [[_ ?]|(p' & pe' & pk' & [=] & _)].
  - intros Hq'.
    by destruct (parentIn_inv _ _ _ _ Hm Hq') as [[[=] _]|(p' & pe' & pk' & [=] & _)].
Qed.

(** X10. [insertShadowNode] for the document, when it has no index yet: the
    parent index it is given is not looked at.  The shadow node is put
    directly under [shadowDomRoot], it becomes the shadow document that
    [mirrorsRealDom] starts from, and it is ignored only when its own
    layout has the ignore tag. *)
Theorem insertShadowNode_document (s : ShadowDom) (pidx nidx : option nat)
    (layout : option ILayoutState) :
  WF s → (∀ n i, nodeIndex s !! n = Some i → i < nextIndex s) →
  getNodeIndex (Some document) s = None →
  (∀ re rk, getShadowNode nidx s = Some (re, rk) →
            parentNode (elId re) s = Some RootDiv) →
  let index := nextIndex s in
  ∃ s' e',
    insertShadowNode document pidx nidx layout s = Returns (Some (Elem index)) s' ∧
    shadowDocument s' = Some index ∧
    getNodeIndex (Some document) s' = Some index ∧
    nextIndex s' = S index ∧
    getShadowNode (Some index) s' = Some (e', Nil) ∧
    elId e' = index ∧ elNode e' = document ∧ elLayout e' = layout ∧
    elIgnore e'
    = match layout with
      | Some l => bool_decide (tag l = IgnoreTag)
      | None => false
      end ∧
    classList e' = insertedClasses (classifyNodes s) false ∧
    parentNode index s' = Some RootDiv ∧
    nextSiblingOf index s' = elId ∘ fst <$> getShadowNode nidx s ∧
    allIds s' ≡ₚ index :: allIds s ∧
    WF s' ∧ reports s' = reports s.
Proof.
  intros [Hnd Hlt] Hreg Hnone Hanchor. cbv zeta.
  set (anchor := elId ∘ fst <$> getShadowNode nidx s).
  set (s1 := setRegistry (S (nextIndex s)) (<[document:=nextIndex s]> (nodeIndex s)) s).
  set (s2 := setShadowDocument (Some (nextIndex s)) s1).
  assert (nextIndex s ∉ allIds s) as Hfresh by (intros Hin%Hlt; lia).
  assert (nextIndex s ∉ ids (shadowDomRoot s)) as Hfreshr.
  { intros Hin. apply Hfresh. unfold allIds, allElements.
    rewrite fmap_app, elem_of_app. by left. }
  assert (∀ r, anchor = Some r → r ∈ elId <$> topLevel (shadowDomRoot s)) as Href.
  { intros r Hr. unfold anchor in Hr.
    destruct (getShadowNode nidx s) as [[re rk]|] eqn:Hn; [|done].
    cbn in Hr. injection Hr as <-.
    by apply (parentNode_root_inv s _ Hnd), (Hanchor re rk). }
  set (e' := {| elId := nextIndex s; elNode := document; elLayout := layout;
                elIgnore := match layout with
                            | Some l => bool_decide (tag l = IgnoreTag)
                            | None => false
                            end;
                classList := insertedClasses (classifyNodes s) false |}).
  set (s' := setForests (insertTop anchor e' Nil (shadowDomRoot s))
                        (removedNodes s) s2).
  assert (insertShadowNode document pidx nidx layout s
          = Returns (Some (Elem (nextIndex s))) s') as Hrun.
  { unfold insertShadowNode. rewrite bind_eq, (setNodeIndex_unknown _ _ Hnone).
    fold s1. rewrite read_eq. cbv zeta.
    rewrite bool_decide_eq_true_2 by done.
    change (getShadowNode nidx s1) with (getShadowNode nidx s).
    rewrite bool_decide_eq_true_2 by eauto.
    rewrite bind_eq. cbn [modify]. fold s2.
    rewrite assert_true, bind_eq, ret_eq, bind_eq.
    fold anchor.
    change (classifyNodes s1) with (classifyNodes s).
    change (hasClass (Some RootDiv) NewNodeClassName s1) with false.
    match goal with |- context [insertNew _ ?x _] =>
      assert (x = e') as ->
    end.
    { unfold e', insertedClasses.
      destruct (classifyNodes s); cbn; destruct layout; cbn;
        by rewrite ?orb_false_r. }
    unfold insertNew.
    assert (attachElement RootDiv anchor e' Nil s2 = s') as Hatt by done.
    destruct anchor as [r|] eqn:Ha.
    - assert (parentNode r s2 = Some RootDiv) as Hpr.
      { unfold anchor in Ha.
        destruct (getShadowNode nidx s) as [[re rk]|] eqn:Hn; [|done].
        cbn in Ha. injection Ha as <-. by apply (Hanchor re rk). }
      rewrite decide_True by done. by rewrite Hatt.
    - by rewrite Hatt. }
  assert (elements (shadowDomRoot s') ≡ₚ e' :: elements (shadowDomRoot s)) as Hperm.
  { unfold s'. cbn [shadowDomRoot setForests]. by rewrite elements_insertTop. }
  assert (allIds s' ≡ₚ nextIndex s :: allIds s) as Hall.
  { unfold allIds, allElements. rewrite Hperm. done. }
  assert (NoDup (allIds s')) as Hnd'.
  { rewrite Hall. by apply NoDup_cons. }
  destruct (insertTop_places (shadowDomRoot s) RootDiv anchor e' Nil)
    as (Hget & Hpar & Hnext); [|done..|].
  { unfold allIds, allElements in Hnd'. rewrite fmap_app in Hnd'.
    by apply NoDup_app in Hnd' as (? & _ & _). }
  change (elId e') with (nextIndex s) in Hget, Hpar, Hnext.
  exists s', e'. split; [done|]. split; [done|]. split.
  { cbn. apply lookup_insert_eq. }
  split; [done|]. split.
  { cbn [getShadowNode mbind option_bind]. unfold docGetElementById.
    unfold s' at 1. cbn [shadowDomRoot setForests]. by rewrite Hget. }
  split; [done|]. split; [done|]. split; [done|]. split; [done|]. split; [done|].
  split; [unfold parentNode, s'; cbn [shadowDomRoot setForests]; by rewrite Hpar|].
  split; [unfold nextSiblingOf, s'; cbn [shadowDomRoot setForests]; by rewrite Hnext|].
  split; [done|]. split; [|done].
  split; [done|]. intros i. rewrite Hall. cbn.
  intros [->|Hi%Hlt]%elem_of_cons; lia.
Qed.

(** ** What a batch leaves of the shadow document *)

(** The end of a batch on the class list of a node: [cl-new] is taken
    from the nodes listed as new, a node tagged [cl-moved] or
    [cl-updated] loses all its classes, and [cl-final] is taken from
    every node. *)
Definition cleanup (new : list nat) (e : IShadowDomNode) : IShadowDomNode :=
  swept FinalClassName (removeToken FinalClassName)
    (swept UpdatedNodeClassName clearClasses
       (swept MovedNodeClassName clearClasses (stripNew new e))).

Lemma elId_cleanup new e : elId (cleanup new e) = elId e.
Proof. unfold cleanup. by rewrite !elId_swept, elId_stripNew. Qed.

Lemma elNode_swept c g e : elNode (swept c g e) = elNode e.
Proof. unfold swept. by destruct (elHas c e). Qed.

Lemma elNode_stripNew X e : elNode (stripNew X e) = elNode e.
Proof. unfold stripNew. by destruct (bool_decide _). Qed.

Lemma elNode_cleanup new e : elNode (cleanup new e) = elNode e.
Proof. unfold cleanup. by rewrite !elNode_swept, elNode_stripNew. Qed.

(** The second half of a batch, in full: the summary is that of
    [getMutationSummary], the shadow document keeps its shape, every
    node is cleaned up, and the holding area is emptied. *)
Lemma finishBatch_exact s :
  NoDup (allIds s) →
  ∃ sum s2,
    getMutationSummary (setRemovedAttached false s) = Returns sum s2 ∧
    finishBatch s
    = Returns sum
        (setClassifyNodes false
           (setForests (mapForest (cleanup (newNodes sum)) (shadowDomRoot s)) Nil
              (setRemovedAttached false s))).
Proof.
  intros Hnd.
  destruct (getMutationSummary_spec (setRemovedAttached false s) Hnd eq_refl)
    as (out & _ & _ & _ & Hrun).
  eexists _, _. split; [exact Hrun|].
  unfold finishBatch. rewrite bind_eq. cbn [modify]. rewrite bind_eq, Hrun.
  rewrite read_eq, bind_eq.
  rewrite (sweep_spec FinalClassName (removeToken FinalClassName)
             (λ r, removeClass r FinalClassName) (λ _, eq_refl)
             (contains_removeToken FinalClassName)); [| |done|done].
  - rewrite bind_eq. cbn [modify]. rewrite bind_eq. cbn [modify]. rewrite ret_eq.
    cbn [newNodes shadowDomRoot setForests setRemovedAttached].
    rewrite !mapForest_compose. reflexivity.
  - unfold allIds, allElements in *.
    cbn [shadowDomRoot removedNodes setForests setRemovedAttached].
    rewrite !mapForest_compose, fmap_app, elements_mapForest, <- list_fmap_compose.
    rewrite (list_fmap_ext _ elId (elements (shadowDomRoot s))); [by rewrite <- fmap_app|].
    intros ? e _. cbn. by rewrite !elId_swept, elId_stripNew.
Qed.

(** ** Shadow trees read as trees of live nodes *)

(** The live nodes a forest of shadow nodes mirrors, with its shape. *)
Fixpoint liveForest (f : Forest) : list LiveNode :=
  match f with
  | Nil => []
  | Cons e kids next => Live (elNode e) (liveForest kids) :: liveForest next
  end.

Definition liveTree (r : IShadowDomNode * Forest) : LiveNode :=
  Live (elNode r.1) (liveForest r.2).

Lemma liveForest_mapForest h f :
  (∀ e, elNode (h e) = elNode e) → liveForest (mapForest h f) = liveForest f.
Proof.
  intros H. induction f as [|e kids IHk next IHn]; [done|].
  cbn. by rewrite H, IHk, IHn.
Qed.

Lemma traverse_liveForest f :
  flat_map traverseNodeTree (liveForest f) = elNode <$> elements f.
Proof.
  induction f as [|e kids IHk next IHn]; [done|].
  cbn. by rewrite fmap_app, IHk, IHn.
Qed.

(** The traversal of a shadow tree is that of the tree of live nodes it
    mirrors. *)
Lemma traverse_liveTree r : traverseNodeTree (liveTree r) = traverseShadowTree r.
Proof.
  destruct r as [e kids]. unfold liveTree, traverseShadowTree. cbn.
  by rewrite traverse_liveForest.
Qed.

(** ** The discovery of an inserted subtree *)

Lemma hasId_insertTop ref e kids f : hasId (elId e) (insertTop ref e kids f) = true.
Proof.
  apply hasId_true. unfold ids. rewrite elements_insertTop. set_solver.
Qed.

Lemma hasId_insertUnder p ref e kids f :
  p ∈ ids f → hasId (elId e) (insertUnder p ref e kids f) = true.
Proof.
  intros Hp. apply hasId_true. unfold ids.
  rewrite elements_insertUnder by done. set_solver.
Qed.

(** A child put under a subtree that has just been inserted. *)
Lemma insertUnder_insertTop r x kx ref e K f :
  elId e ∉ ids f →
  insertUnder (elId e) r x kx (insertTop ref e K f)
  = insertTop ref e (insertTop r x kx K) f.
Proof.
  induction f as [|y yk _ yn IHn]; cbn.
  - intros _. by rewrite decide_True.
  - rewrite ids_Cons, not_elem_of_cons, not_elem_of_app. intros (Hy & Hk & Hn).
    case_decide; cbn.
    + by rewrite decide_True.
    + rewrite decide_False by congruence.
      rewrite (proj2 (hasId_false _ yk)) by done. by rewrite IHn.
Qed.

Lemma insertUnder_insertUnder r x kx p ref e K f :
  elId e ∉ ids f → p ∈ ids f →
  insertUnder (elId e) r x kx (insertUnder p ref e K f)
  = insertUnder p ref e (insertTop r x kx K) f.
Proof.
  induction f as [|y yk IHk yn IHn]; cbn.
  { by intros _ ?%elem_of_nil. }
  rewrite ids_Cons, not_elem_of_cons, not_elem_of_app, elem_of_cons, elem_of_app.
  intros (Hy & Hk & Hn) Hp.
  case_decide as Hyp; cbn.
  - rewrite decide_False by congruence.
    rewrite hasId_insertTop. by rewrite insertUnder_insertTop.
  - destruct (hasId p yk) eqn:Hpk; cbn; rewrite decide_False by congruence.
    + apply hasId_true in Hpk.
      rewrite hasId_insertUnder by done. by rewrite IHk.
    + apply hasId_false in Hpk.
      rewrite (proj2 (hasId_false _ yk)) by done.
      rewrite IHn; [done..|]. naive_solver.
Qed.

Lemma insertTop_before x kx e kids next :
  insertTop (Some (elId e)) x kx (Cons e kids next) = Cons x kx (Cons e kids next).
Proof. cbn. by rewrite decide_True. Qed.

Lemma updateById_insertTop_new g ref e K f :
  elId (g e) = elId e → elId e ∉ ids f → elId e ∉ ids K →
  updateById (elId e) g (insertTop ref e K f) = insertTop ref (g e) K f.
Proof.
  intros Hg Hf HK.
  induction f as [|y yk _ yn IHn]; cbn.
  - rewrite decide_True by done. by rewrite updateById_absent.
  - revert Hf. rewrite ids_Cons, not_elem_of_cons, not_elem_of_app.
    intros (Hy & Hk & Hn).
    case_decide; cbn.
    + rewrite decide_True by done. rewrite decide_False by congruence.
      by rewrite !updateById_absent.
    + rewrite decide_False by congruence.
      by rewrite updateById_absent, IHn.
Qed.

Lemma updateById_insertUnder_new g p ref e K f :
  elId (g e) = elId e → elId e ∉ ids f → elId e ∉ ids K →
  updateById (elId e) g (insertUnder p ref e K f) = insertUnder p ref (g e) K f.
Proof.
  intros Hg Hf HK.
  induction f as [|y yk IHk yn IHn]; cbn; [done|].
  revert Hf. rewrite ids_Cons, not_elem_of_cons, not_elem_of_app.
  intros (Hy & Hk & Hn).
  case_decide; cbn.
  - rewrite decide_False by congruence.
    by rewrite updateById_insertTop_new, (updateById_absent _ _ yn).
  - destruct (hasId p yk); cbn; rewrite decide_False by congruence.
    + by rewrite IHk, (updateById_absent _ _ yn).
    + by rewrite IHn, (updateById_absent _ _ yk).
Qed.

(** *** The shadow subtree the discovery builds *)

(** The shadow node created for a live node met in the discovery. *)
Definition shadowOf (index : nat) (node : Node) (ign : bool)
    (classes : list ClassName) : IShadowDomNode :=
  {| elId := index; elNode := node; elLayout := None; elIgnore := ign;
     classList := classes |}.

(** The state of the discovery: the shadow children built so far, the
    next index, and the registry. *)
Definition Discovery : Type := Forest * nat * gmap Node nat.

(** The children of a live node are met from the last to the first; each
    gets the next index, then its own children are met. *)
Fixpoint build (ign : bool) (a : LiveNode) (i0 : nat) (R : gmap Node nat)
    : Discovery :=
  match a with
  | Live n ks =>
      foldr (λ c (acc : Discovery),
               let '(K, N, R1) := acc in
               let '(Kc, N2, R2) := build ign c N R1 in
               (Cons (shadowOf N (handle c) ign [NewNodeClassName; FinalClassName])
                     Kc K, N2, R2))
            (Nil, S i0, <[n := i0]> R) ks
  end.

Definition buildStep (ign : bool) (c : LiveNode) (acc : Discovery) : Discovery :=
  let '(K, N, R1) := acc in
  let '(Kc, N2, R2) := build ign c N R1 in
  (Cons (shadowOf N (handle c) ign [NewNodeClassName; FinalClassName]) Kc K, N2, R2).

Lemma build_eq ign n ks i0 R :
  build ign (Live n ks) i0 R = foldr (buildStep ign) (Nil, S i0, <[n := i0]> R) ks.
Proof. reflexivity. Qed.

(** What is known of a discovery that started at index [N0] with the
    registry [R0], once the live nodes [l] have been met. *)
Record Discovered (ign : bool) (l : list LiveNode) (N0 : nat)
    (R0 : gmap Node nat) (d : Discovery) : Prop := {
  disc_next : d.1.2 = N0 + length (flat_map traverseNodeTree l);
  disc_live : liveForest d.1.1 = l;
  disc_elem : ∀ x, x ∈ elements d.1.1 →
                N0 ≤ elId x < d.1.2 ∧
                classList x = [NewNodeClassName; FinalClassName] ∧
                elIgnore x = ign ∧ elLayout x = None;
  disc_nodup : NoDup (ids d.1.1);
  disc_other : ∀ m, m ∉ flat_map traverseNodeTree l → d.2 !! m = R0 !! m;
  disc_range : ∀ m, m ∈ flat_map traverseNodeTree l →
                 ∃ i, d.2 !! m = Some i ∧ N0 ≤ i < d.1.2;
  disc_indexed : NoDup (flat_map traverseNodeTree l) →
                 ∀ x, x ∈ elements d.1.1 → d.2 !! elNode x = Some (elId x)
}.

Lemma disc_nodes ign l N0 R0 d :
  Discovered ign l N0 R0 d → elNode <$> elements d.1.1 = flat_map traverseNodeTree l.
Proof. intros [_ H _ _ _ _ _]. by rewrite <- traverse_liveForest, H. Qed.

Lemma traverseNodeTree_eq a :
  traverseNodeTree a = handle a :: flat_map traverseNodeTree (liveChildren a).
Proof. by destruct a. Qed.

Lemma Discovered_nil ign N0 R0 : Discovered ign [] N0 R0 (Nil, N0, R0).
Proof.
  split; cbn.
  - lia.
  - done.
  - by intros x ?%elem_of_nil.
  - constructor.
  - done.
  - by intros m ?%elem_of_nil.
  - by intros _ x ?%elem_of_nil.
Qed.

Lemma Discovered_cons ign c l N0 R0 (K Kc : Forest) (N N2 : nat)
    (R1 R2 : gmap Node nat) :
  Discovered ign l N0 R0 (K, N, R1) →
  Discovered ign (liveChildren c) (S N) (<[handle c := N]> R1) (Kc, N2, R2) →
  Discovered ign (c :: l) N0 R0
    (Cons (shadowOf N (handle c) ign [NewNodeClassName; FinalClassName]) Kc K, N2, R2).
Proof.
  intros Hl Hc.
  pose proof (disc_nodes _ _ _ _ _ Hl) as Hnl.
  pose proof (disc_nodes _ _ _ _ _ Hc) as Hnc.
  destruct Hl as [L1 L2 L3 L4 L5 L6 L7]. destruct Hc as [C1 C2 C3 C4 C5 C6 C7].
  cbn [fst snd] in *.
  assert (N0 ≤ N) as HN by lia.
  assert (S N ≤ N2) as HN2 by lia.
  split; cbn [fst snd flat_map elements liveForest shadowOf elNode].
  - rewrite C1, L1, length_app, traverseNodeTree_eq. cbn. lia.
  - rewrite C2, L2. by destruct c.
  - intros x. rewrite elem_of_cons, elem_of_app. intros [->|[Hx|Hx]].
    + cbn. split; [lia|done].
    + destruct (C3 x Hx) as (? & ? & ? & ?). split; [lia|done].
    + destruct (L3 x Hx) as (? & ? & ? & ?). split; [lia|done].
  - rewrite ids_Cons. cbn. apply NoDup_cons. split.
    + rewrite not_elem_of_app. split.
      * intros (x & Hid & Hx)%list_elem_of_fmap. destruct (C3 x Hx). lia.
      * intros (x & Hid & Hx)%list_elem_of_fmap. destruct (L3 x Hx). lia.
    + apply NoDup_app. split; [done|]. split; [|done].
      intros i (x & -> & Hx)%list_elem_of_fmap (y & Hid & Hy)%list_elem_of_fmap.
      destruct (C3 x Hx), (L3 y Hy). lia.
  - intros m. rewrite traverseNodeTree_eq, not_elem_of_app, not_elem_of_cons.
    intros [[Hm1 Hm2] Hm3].
    rewrite C5 by done. rewrite lookup_insert_ne by done. by apply L5.
  - intros m Hm.
    destruct (decide (m ∈ flat_map traverseNodeTree (liveChildren c))) as [Hin|Hout].
    { destruct (C6 m Hin) as (i & Hi & ?). exists i. split; [done|lia]. }
    rewrite C5 by done.
    destruct (decide (m = handle c)) as [->|Hne].
    { rewrite lookup_insert_eq. exists N. split; [done|lia]. }
    rewrite lookup_insert_ne by done.
    rewrite traverseNodeTree_eq in Hm. cbn in Hm.
    rewrite elem_of_cons, elem_of_app in Hm.
    destruct Hm as [->|[?|Hm]]; [done..|].
    destruct (L6 m Hm) as (i & Hi & ?). exists i. split; [done|lia].
  - rewrite traverseNodeTree_eq. cbn. rewrite NoDup_cons, NoDup_app.
    rewrite not_elem_of_app. intros ([Hh1 Hh2] & Hndc & Hdisj & Hndl) x.
    rewrite elem_of_cons, elem_of_app. intros [->|[Hx|Hx]].
    + cbn. rewrite C5 by done. apply lookup_insert_eq.
    + by apply C7.
    + assert (elNode x ∈ flat_map traverseNodeTree l) as Hin
        by (rewrite <- Hnl; by apply list_elem_of_fmap_2).
      rewrite C5 by (intros ?; by eapply Hdisj).
      rewrite lookup_insert_ne by (intros Heq; apply Hh2; by rewrite Heq).
      by apply L7.
Qed.

Lemma build_Discovered ign a :
  ∀ i0 R, Discovered ign (liveChildren a) (S i0) (<[handle a := i0]> R)
            (build ign a i0 R).
Proof.
  induction a as [n ks IH] using LiveNode_induction. intros i0 R.
  rewrite build_eq. cbn [liveChildren handle].
  generalize (S i0) (<[n:=i0]> R). intros N0 R0.
  induction IH as [|c l Hc _ IHl]; [apply Discovered_nil|].
  cbn [foldr]. destruct (foldr (buildStep ign) (Nil, N0, R0) l) as [[K N] R1].
  unfold buildStep. specialize (Hc N R1).
  destruct (build ign c N R1) as [[Kc N2] R2].
  by apply (Discovered_cons ign c l N0 R0 K Kc N N2 R1 R2).
Qed.

Lemma foldr_Discovered ign l N0 R0 :
  Discovered ign l N0 R0 (foldr (buildStep ign) (Nil, N0, R0) l).
Proof.
  induction l as [|c l IHl]; [apply Discovered_nil|].
  cbn [foldr]. destruct (foldr (buildStep ign) (Nil, N0, R0) l) as [[K N] R1].
  unfold buildStep. pose proof (build_Discovered ign c N R1) as Hc.
  destruct (build ign c N R1) as [[Kc N2] R2].
  by apply (Discovered_cons ign c l N0 R0 K Kc N N2 R1 R2).
Qed.

(** *** What [applyInsert] does with a subtree it has never seen *)

(** [applyInsert] is given a live subtree none of whose nodes has an
    index, to be put under a parent whose shadow node is in the document,
    before an anchor that is a child of that parent. *)
Record CanInsert (s : ShadowDom) (a : LiveNode) (parent : Node)
    (next : option Node) (force : bool) (pe : IShadowDomNode) (pk : Forest)
    : Prop := {
  can_classify : classifyNodes s = true;
  can_nodup : NoDup (allIds s);
  can_below : ∀ i, i ∈ allIds s → i < nextIndex s;
  can_distinct : NoDup (traverseNodeTree a);
  can_unknown : ∀ m, m ∈ traverseNodeTree a →
                  getNodeIndex (Some m) s = None ∧ m ≠ document;
  can_parent : getNodeIndex (Some parent) s = Some (elId pe);
  can_mirror : getShadowNode (Some (elId pe)) s = Some (pe, pk);
  can_root : elId pe ∈ ids (shadowDomRoot s);
  can_valid : force = true ∨ elHas FinalClassName pe = false;
  can_anchor : ∀ re rk, getShadowNode (getNodeIndex next s) s = Some (re, rk) →
                 parentNode (elId re) s = Some (Elem (elId pe))
}.

(** The state after a discovery: the subtree built is under [p], before
    [ref]. *)
Definition discovered (s : ShadowDom) (p : nat) (ref : option nat)
    (e0 : IShadowDomNode) (d : Discovery) : ShadowDom :=
  setForests (insertUnder p ref e0 d.1.1 (shadowDomRoot s)) (removedNodes s)
    (setRegistry d.1.2 d.2 s).

(** The shadow node of the root of the subtree. *)
Definition rootOf (s : ShadowDom) (a : LiveNode) (pe : IShadowDomNode)
    : IShadowDomNode :=
  shadowOf (nextIndex s) (handle a) (elIgnore pe)
    (insertedClasses true (hasClass (Some (Elem (elId pe))) NewNodeClassName s)
     ++ [FinalClassName]).

Definition Discovers (c : LiveNode) : Prop :=
  ∀ s parent prev next force pe pk,
    CanInsert s c parent next force pe pk →
    applyInsert c parent prev next force s
    = Returns ()
        (discovered s (elId pe)
           (elId ∘ fst <$> getShadowNode (getNodeIndex next s) s)
           (rootOf s c pe)
           (build (elIgnore pe) c (nextIndex s) (nodeIndex s))).

Lemma allIds_discovered s p ref e0 d :
  p ∈ ids (shadowDomRoot s) →
  allIds (discovered s p ref e0 d) ≡ₚ elId e0 :: ids d.1.1 ++ allIds s.
Proof.
  intros Hp. unfold allIds, allElements, discovered, ids.
  cbn [shadowDomRoot removedNodes setForests setRegistry].
  rewrite elements_insertUnder by done.
  rewrite !fmap_app, fmap_cons, fmap_app. cbn [app]. by rewrite <- app_assoc.
Qed.

Lemma liveForest_nil K : liveForest K = [] → K = Nil.
Proof. by destruct K. Qed.

Lemma discoverChildren_discovers s p ref e0 n l :
  classifyNodes s = true → NoDup (allIds s) →
  (∀ i, i ∈ allIds s → i < nextIndex s) →
  p ∈ ids (shadowDomRoot s) →
  elId e0 = nextIndex s → elHas NewNodeClassName e0 = true →
  Forall Discovers l →
  NoDup (n :: flat_map traverseNodeTree l) →
  (∀ m, m ∈ flat_map traverseNodeTree l →
        getNodeIndex (Some m) s = None ∧ m ≠ document) →
  ∀ prev,
    discoverChildren applyInsert n l prev
      (discovered s p ref e0
         (Nil, S (nextIndex s), <[n := nextIndex s]> (nodeIndex s)))
    = Returns ()
        (discovered s p ref e0
           (foldr (buildStep (elIgnore e0))
              (Nil, S (nextIndex s), <[n := nextIndex s]> (nodeIndex s)) l)).
Proof.
  intros Hc Hnd Hlt Hp Hid Hnew Hall.
  set (i0 := nextIndex s) in *. set (ign := elIgnore e0).
  set (base := (Nil, S i0, <[n := i0]> (nodeIndex s)) : Discovery).
  assert (i0 ∉ allIds s) as Hfresh by (intros Hin%Hlt; lia).
  assert (i0 ∉ ids (shadowDomRoot s)) as Hfreshr.
  { intros Hin. apply Hfresh. unfold allIds, allElements.
    rewrite fmap_app, elem_of_app. by left. }
  induction Hall as [|c l Hdisc _ IH]; intros Hnodes Hunk prev; [done|].
  cbn [discoverChildren]. rewrite bind_eq.
  assert (NoDup (n :: flat_map traverseNodeTree l)) as Hnodes'.
  { revert Hnodes. cbn [flat_map]. rewrite !NoDup_cons, NoDup_app, not_elem_of_app.
    tauto. }
  rewrite IH; [|done|intros m Hm; apply Hunk; cbn; rewrite elem_of_app; by right].
  clear IH.
  pose proof (foldr_Discovered ign l (S i0) (<[n := i0]> (nodeIndex s))) as HD.
  fold base in HD |- *. cbn [foldr].
  destruct (foldr (buildStep ign) base l) as [[K N] R1] eqn:Hfold.
  pose proof (disc_nodes _ _ _ _ _ HD) as HKnodes.
  destruct HD as [D1 D2 D3 D4 D5 D6 D7]. cbn [fst snd] in *.
  revert Hnodes. cbn [flat_map]. rewrite NoDup_cons, NoDup_app, !not_elem_of_app.
  intros ([Hn1 Hn2] & Hndc & Hdisj & Hndl).
  set (σ := discovered s p ref e0 (K, N, R1)).
  assert (getElementById i0 (shadowDomRoot σ) = Some (e0, K)) as Hget.
  { unfold σ, discovered. cbn [shadowDomRoot setForests fst snd].
    rewrite <- Hid. apply getElementById_insertUnder_new; [done|by rewrite Hid]. }
  assert (allIds σ ≡ₚ i0 :: ids K ++ allIds s) as Hperm.
  { unfold σ. rewrite allIds_discovered by done. by rewrite Hid. }
  assert (NoDup (allIds σ)) as Hndσ.
  { rewrite Hperm. apply NoDup_cons. split.
    - rewrite not_elem_of_app. split; [|done].
      intros (x & Hx & Hin)%list_elem_of_fmap. destruct (D3 x Hin). lia.
    - apply NoDup_app. split; [done|]. split; [|done].
      intros i (x & -> & Hin)%list_elem_of_fmap Hold%Hlt. destruct (D3 x Hin). lia. }
  assert (NoDup (ids (shadowDomRoot σ))) as Hndr.
  { unfold allIds, allElements in Hndσ. rewrite fmap_app in Hndσ.
    by apply NoDup_app in Hndσ as (? & _ & _). }
  assert (deref i0 σ = Some (e0, K)) as Hderef by (unfold deref; by rewrite Hget).
  assert (hasClass (Some (Elem i0)) NewNodeClassName σ = true) as Hpnew.
  { unfold hasClass. by rewrite Hderef. }
  (* the anchor *)
  assert (insertTop (elId ∘ fst <$> getShadowNode (getNodeIndex (handle <$> head l) σ) σ)
            (shadowOf N (handle c) ign [NewNodeClassName; FinalClassName])
            (build ign c N R1).1.1 K
          = Cons (shadowOf N (handle c) ign [NewNodeClassName; FinalClassName])
                 (build ign c N R1).1.1 K ∧
          ∀ re rk, getShadowNode (getNodeIndex (handle <$> head l) σ) σ = Some (re, rk) →
                   parentNode (elId re) σ = Some (Elem i0)) as [Htop Hanchor].
  { destruct l as [|c' l'].
    - apply liveForest_nil in D2. subst K. done.
    - destruct K as [|x Kx rest]; [done|]. cbn [head fmap option_fmap option_map].
      assert (elNode x = handle c') as Hx.
      { cbn in D2. injection D2 as <- _. done. }
      assert (R1 !! handle c' = Some (elId x)) as Hreg.
      { rewrite <- Hx. apply D7; [done|]. by left. }
      assert (getNodeIndex (Some (handle c')) σ = Some (elId x)) as -> by exact Hreg.
      assert (elId x ∈ elId <$> topLevel (Cons x Kx rest)) as Htl by (by left).
      assert (parentIn (elId x) RootDiv (shadowDomRoot σ) = Some (Elem i0)) as Hpar
        by (by eapply parentIn_child).
      assert (elId x ∈ ids (shadowDomRoot σ)) as Hinr.
      { eapply kids_ids; [done|]. by apply topLevel_ids. }
      destruct (proj2 (getElementById_is_Some _ _) Hinr) as [[re rk] Hre].
      assert (getShadowNode (Some (elId x)) σ = Some (re, rk)) as Hsn.
      { cbn [getShadowNode mbind option_bind]. unfold docGetElementById. by rewrite Hre. }
      destruct (getElementById_elem _ _ _ _ Hre) as [Hreid _].
      rewrite Hsn. cbn [fmap option_fmap option_map compose fst]. rewrite Hreid.
      split; [apply insertTop_before|].
      intros ? ? [= <- <-]. rewrite Hreid. unfold parentNode. by rewrite Hpar. }
  assert (CanInsert σ c n (handle <$> head l) true e0 K) as Hcan.
  { split.
    - done.
    - done.
    - intros i. rewrite Hperm, elem_of_cons, elem_of_app.
      change (nextIndex σ) with N.
      intros [->|[(x & -> & Hin)%list_elem_of_fmap|Hold%Hlt]].
      + lia.
      + destruct (D3 x Hin). lia.
      + lia.
    - done.
    - intros m Hm. split; [|apply Hunk; cbn; rewrite elem_of_app; by left].
      change (getNodeIndex (Some m) σ) with (R1 !! m).
      rewrite D5 by (intros ?; by eapply Hdisj).
      rewrite lookup_insert_ne by (intros ->; done).
      apply Hunk. cbn. rewrite elem_of_app. by left.
    - change (getNodeIndex (Some n) σ) with (R1 !! n).
      rewrite D5 by done. rewrite Hid. apply lookup_insert_eq.
    - rewrite Hid. cbn [getShadowNode mbind option_bind]. unfold docGetElementById.
      by rewrite Hget.
    - rewrite Hid. apply getElementById_is_Some. eauto.
    - by left.
    - rewrite Hid. exact Hanchor. }
  rewrite (Hdisc σ n prev (handle <$> head l) true e0 K Hcan).
  f_equal. unfold buildStep, discovered, rootOf.
  change (nextIndex σ) with N. change (nodeIndex σ) with R1.
  fold ign. rewrite Hid, Hpnew.
  change (insertedClasses true true ++ [FinalClassName])
    with [NewNodeClassName; FinalClassName].
  destruct (build ign c N R1) as [[Kc N2] R2] eqn:Hb.
  cbn [fst snd] in *.
  change (shadowDomRoot σ) with (insertUnder p ref e0 K (shadowDomRoot s)).
  rewrite <- Hid at 1. rewrite insertUnder_insertUnder by (by rewrite ?Hid).
  rewrite Htop. reflexivity.
Qed.

Lemma applyInsert_discovers a : Discovers a.
Proof.
  induction a as [n ks IH] using LiveNode_induction.
  intros s parent prev next force pe pk [Hc Hnd Hlt Hdist Hunk Hpar Hmir Hroot Hvalid Hanchor].
  set (i0 := nextIndex s). set (p := elId pe) in *.
  set (ref := elId ∘ fst <$> getShadowNode (getNodeIndex next s) s).
  cbn [traverseNodeTree] in Hdist, Hunk.
  assert (getNodeIndex (Some n) s = None ∧ n ≠ document) as [Hnone Hdoc]
    by (apply Hunk; by left).
  assert (i0 ∉ allIds s) as Hfresh by (intros Hin%Hlt; unfold i0 in Hin; lia).
  assert ((i0 ∉ ids (shadowDomRoot s)) ∧ (i0 ∉ ids (removedNodes s))) as [Hfr Hfm].
  { unfold allIds, allElements in Hfresh.
    by rewrite fmap_app, not_elem_of_app in Hfresh. }
  assert (deref p s = Some (pe, pk)) as Hderef by (by apply docGetElementById_deref).
  rewrite applyInsert_eq, read_eq. cbv zeta. cbn [handle liveChildren].
  assert (shouldProcessChildListMutation n parent s || force = true) as ->.
  { destruct Hvalid as [->|Hfinal]; [apply orb_true_r|].
    unfold shouldProcessChildListMutation. rewrite Hnone, Hpar, Hmir.
    cbn [refOf fmap option_fmap option_map compose fst].
    rewrite bool_decide_eq_true_2 by eauto. unfold hasClass. fold p.
    by rewrite Hderef, Hfinal. }
  rewrite Hnone, Hpar, bind_eq.
  rewrite (insertShadowNode_exact s n (Some p) (getNodeIndex next s) None pe pk)
    by done.
  fold p i0 ref. rewrite Hc, bind_eq. cbn [setClass modify orb].
  set (b := hasClass (Some (Elem p)) NewNodeClassName s).
  set (e0 := rootOf s (Live n ks) pe).
  match goal with |- context [updateElement i0 ?g ?x] =>
    assert (updateElement i0 g x
            = discovered s p ref e0 (Nil, S i0, <[n := i0]> (nodeIndex s))) as ->
  end.
  { unfold updateElement, discovered.
    cbn [shadowDomRoot removedNodes setForests setRegistry fst snd].
    rewrite (updateById_absent i0 _ (removedNodes s)) by done.
    match goal with |- context [insertUnder p ref ?e Nil _] =>
      change i0 with (elId e) at 1
    end.
    rewrite updateById_insertUnder_new; [|done|done|by intros ?%elem_of_nil].
    unfold e0, rootOf, shadowOf, withClassList. cbn.
    unfold p in Hderef |- *. rewrite !Hderef.
    destruct (elHas NewNodeClassName pe); reflexivity. }
  rewrite (discoverChildren_discovers s p ref e0 n ks); try done.
  - unfold e0, rootOf. cbn [elHas classList shadowOf]. fold p b.
    clearbody b. destruct b; reflexivity.
  - intros m Hm. apply Hunk. by right.
Qed.

(** What [applyInsert] leaves of a subtree it has never seen. *)
Lemma applyInsert_mirrors (s : ShadowDom) (a : LiveNode)
    (parent : Node) (prev next : option Node) (force : bool)
    (pe : IShadowDomNode) (pk : Forest) :
  CanInsert s a parent next force pe pk →
  ∃ s' r,
    applyInsert a parent prev next force s = Returns () s' ∧
    getShadowNode (getNodeIndex (Some (handle a)) s') s' = Some r ∧
    liveTree r = a ∧
    traverseShadowTree r = traverseNodeTree a ∧
    elId r.1 = nextIndex s ∧
    parentNode (nextIndex s) s' = Some (Elem (elId pe)) ∧
    nextSiblingOf (nextIndex s) s'
    = elId ∘ fst <$> getShadowNode (getNodeIndex next s) s ∧
    nextIndex s' = nextIndex s + length (traverseNodeTree a) ∧
    (∀ x, x ∈ r.1 :: elements r.2 →
          getNodeIndex (Some (elNode x)) s' = Some (elId x) ∧
          nextIndex s ≤ elId x < nextIndex s' ∧
          elHas NewNodeClassName x = true ∧ elHas FinalClassName x = true ∧
          elIgnore x = elIgnore pe) ∧
    (∀ m, m ∉ traverseNodeTree a →
          getNodeIndex (Some m) s' = getNodeIndex (Some m) s) ∧
    allElements s' ≡ₚ (r.1 :: elements r.2) ++ allElements s ∧
    WF s' ∧
    getElementById (nextIndex s) (shadowDomRoot s') = Some r ∧
    parentIn (nextIndex s) RootDiv (shadowDomRoot s') = Some (Elem (elId pe)) ∧
    nextSiblingIn (nextIndex s) (shadowDomRoot s')
    = Some (elId ∘ fst <$> getShadowNode (getNodeIndex next s) s) ∧
    removedNodes s' = removedNodes s ∧
    (∀ x, x ∈ r.1 :: elements r.2 →
          elHas MovedNodeClassName x = false ∧
          elHas UpdatedNodeClassName x = false) ∧
    classifyNodes s' = true ∧
    getElementById (elId pe) (shadowDomRoot s')
    = Some (pe, insertTop (elId ∘ fst <$> getShadowNode (getNodeIndex next s) s)
                  r.1 r.2 pk).
Proof.
  intros Hcan.
  pose proof (applyInsert_discovers a s parent prev next force pe pk Hcan) as Hrun.
  destruct Hcan as [Hc Hnd Hlt Hdist Hunk Hpar Hmir Hroot Hvalid Hanchor].
  set (i0 := nextIndex s) in *. set (p := elId pe) in *.
  set (ref := elId ∘ fst <$> getShadowNode (getNodeIndex next s) s) in *.
  set (e0 := rootOf s a pe) in *.
  pose proof (build_Discovered (elIgnore pe) a i0 (nodeIndex s)) as HD.
  destruct (build (elIgnore pe) a i0 (nodeIndex s)) as [[K N] R'] eqn:Hb.
  pose proof (disc_nodes _ _ _ _ _ HD) as HKnodes.
  destruct HD as [D1 D2 D3 D4 D5 D6 D7]. cbn [fst snd] in *.
  set (s' := discovered s p ref e0 (K, N, R')) in *.
  rewrite traverseNodeTree_eq in Hdist, Hunk.
  apply NoDup_cons in Hdist as [Hh Hdist].
  assert (i0 ∉ allIds s) as Hfresh by (intros Hin%Hlt; unfold i0 in Hin; lia).
  assert (i0 ∉ ids (shadowDomRoot s)) as Hfr.
  { intros Hin. apply Hfresh. unfold allIds, allElements.
    rewrite fmap_app, elem_of_app. by left. }
  assert (getElementById p (shadowDomRoot s) = Some (pe, pk)) as Hp.
  { apply docGetElementById_deref in Hmir. unfold deref in Hmir.
    apply getElementById_is_Some in Hroot as [x Hx]. by rewrite Hx in Hmir |- *. }
  assert (allIds s' ≡ₚ i0 :: ids K ++ allIds s) as Hperm
    by (unfold s'; by rewrite allIds_discovered).
  assert (NoDup (allIds s')) as Hnd'.
  { rewrite Hperm. apply NoDup_cons. split.
    - rewrite not_elem_of_app. split; [|done].
      intros (x & Hx & Hin)%list_elem_of_fmap. destruct (D3 x Hin). lia.
    - apply NoDup_app. split; [done|]. split; [|done].
      intros i (x & -> & Hin)%list_elem_of_fmap Hold%Hlt. destruct (D3 x Hin).
      unfold i0 in *. lia. }
  assert (∀ r0, ref = Some r0 → r0 ∈ elId <$> topLevel pk) as Href.
  { intros r0 Hr. unfold ref in Hr.
    destruct (getShadowNode (getNodeIndex next s) s) as [[re rk]|] eqn:Hn; [|done].
    cbn in Hr. injection Hr as <-.
    by apply (parentNode_child_inv s _ p pe pk Hnd Hp), (Hanchor re rk). }
  destruct (insertUnder_places (shadowDomRoot s) RootDiv p ref e0 K pe pk)
    as (Hget & Hparent & Hnext); [|done| |done|done|].
  { unfold allIds, allElements in Hnd'. rewrite fmap_app in Hnd'.
    by apply NoDup_app in Hnd' as (? & _ & _). }
  { intros Heq. apply Hfr. change (elId e0) with i0 in Heq. by rewrite Heq. }
  change (elId e0) with i0 in Hget, Hparent, Hnext.
  assert (R' !! handle a = Some i0) as Hreg.
  { rewrite D5 by done. apply lookup_insert_eq. }
  exists s', (e0, K). split; [done|]. split.
  { change (getNodeIndex (Some (handle a)) s') with (R' !! handle a). rewrite Hreg.
    cbn [getShadowNode mbind option_bind]. unfold docGetElementById.
    change (shadowDomRoot s') with (insertUnder p ref e0 K (shadowDomRoot s)).
    by rewrite Hget. }
  assert (liveTree (e0, K) = a) as Hlive.
  { unfold liveTree. cbn [fst snd]. rewrite D2. by destruct a. }
  split; [done|]. split; [by rewrite <- traverse_liveTree, Hlive|].
  split; [done|]. split.
  { unfold parentNode.
    change (shadowDomRoot s') with (insertUnder p ref e0 K (shadowDomRoot s)).
    by rewrite Hparent. }
  split.
  { unfold nextSiblingOf.
    change (shadowDomRoot s') with (insertUnder p ref e0 K (shadowDomRoot s)).
    by rewrite Hnext. }
  split.
  { change (nextIndex s') with N. rewrite D1, traverseNodeTree_eq. cbn. lia. }
  split.
  { intros x. cbn [fst snd]. change (nextIndex s') with N.
    change (getNodeIndex (Some (elNode x)) s') with (R' !! elNode x).
    intros [->|Hx]%elem_of_cons.
    - split; [done|]. split; [unfold i0 in *; cbn; lia|].
      unfold e0, rootOf. cbn [elHas classList shadowOf elIgnore].
      by destruct (hasClass _ _ s).
    - destruct (D3 x Hx) as (? & Hcl & ? & _).
      split; [by apply D7|]. split; [unfold i0 in *; lia|].
      unfold elHas. by rewrite Hcl. }
  split.
  { intros m Hm. rewrite traverseNodeTree_eq, not_elem_of_cons in Hm.
    destruct Hm as [Hm1 Hm2].
    change (getNodeIndex (Some m) s') with (R' !! m).
    rewrite D5 by done. by rewrite lookup_insert_ne. }
  split.
  { unfold allElements, s', discovered.
    cbn [shadowDomRoot removedNodes setForests setRegistry fst snd].
    rewrite elements_insertUnder by done. cbn [app]. by rewrite <- app_assoc. }
  split.
  { split; [done|].
    intros i. rewrite Hperm, elem_of_cons, elem_of_app. change (nextIndex s') with N.
    intros [->|[(x & -> & Hin)%list_elem_of_fmap|Hold%Hlt]].
    - lia.
    - destruct (D3 x Hin). lia.
    - unfold i0 in *. lia. }
  split; [done|]. split; [done|]. split; [done|]. split; [done|].
  split; [|split; [exact Hc|]].
  - intros x. cbn [fst snd]. intros [->|Hx]%elem_of_cons.
    + unfold e0, rootOf. cbn [elHas classList shadowOf].
      by destruct (hasClass _ _ s).
    + destruct (D3 x Hx) as (_ & Hcl & _). unfold elHas. by rewrite Hcl.
  - change (shadowDomRoot s') with (insertUnder p ref e0 K (shadowDomRoot s)).
    cbn [fst snd]. apply getElementById_insertUnder_parent; [|done].
    change (elId e0) with i0. intros Heq. apply Hfr. by rewrite Heq.
Qed.

(** X11. [applyInsert] on a live subtree none of whose nodes has an index yet
    (the nodes are pairwise distinct and the document is not among them),
    under a parent whose shadow node is in the document and not tagged
    [cl-final], before an anchor that is a child of that parent: the call
    returns, and the shadow document has a new subtree at the place asked
    for, which read as a tree of live nodes is the live subtree itself,
    with its shape.  Every node of the subtree has got an index of its
    own, the indices are those from [nextIndex] on, and each shadow node
    carries the index of its live node; all are tagged [cl-new] and
    [cl-final].  The nodes that were there are all still there, and the
    shadow document is well formed. *)
Theorem inserted_subtree_is_mirrored (s : ShadowDom) (a : LiveNode)
    (parent : Node) (prev next : option Node) (force : bool)
    (pe : IShadowDomNode) (pk : Forest) :
  CanInsert s a parent next force pe pk →
  ∃ s' r,
    applyInsert a parent prev next force s = Returns () s' ∧
    getShadowNode (getNodeIndex (Some (handle a)) s') s' = Some r ∧
    liveTree r = a ∧
    traverseShadowTree r = traverseNodeTree a ∧
    elId r.1 = nextIndex s ∧
    parentNode (nextIndex s) s' = Some (Elem (elId pe)) ∧
    nextSiblingOf (nextIndex s) s'
    = elId ∘ fst <$> getShadowNode (getNodeIndex next s) s ∧
    nextIndex s' = nextIndex s + length (traverseNodeTree a) ∧
    (∀ x, x ∈ r.1 :: elements r.2 →
          getNodeIndex (Some (elNode x)) s' = Some (elId x) ∧
          nextIndex s ≤ elId x < nextIndex s' ∧
          elHas NewNodeClassName x = true ∧ elHas FinalClassName x = true ∧
          elIgnore x = elIgnore pe) ∧
    (∀ m, m ∉ traverseNodeTree a →
          getNodeIndex (Some m) s' = getNodeIndex (Some m) s) ∧
    allElements s' ≡ₚ (r.1 :: elements r.2) ++ allElements s ∧
    WF s'.
Proof.
  intros Hcan.
  destruct (applyInsert_mirrors s a parent prev next force pe pk Hcan)
    as (s' & r & H). exists s', r. tauto.
Qed.

(** ** Whole batches *)

(** The second half of a batch with its four lists. *)
Lemma finishBatch_lists s :
  NoDup (allIds s) →
  ∃ out,
    NoDup out ∧
    (∀ i, i ∈ out ↔ i ∈ ids (shadowDomRoot s) ∧ isNew s i) ∧
    finishBatch s
    = Returns
        {| newNodes := out;
           movedNodes :=
             elId <$> filter (λ e, elHas MovedNodeClassName e = true)
                             (elements (shadowDomRoot s));
           updatedNodes :=
             elId <$> filter (λ e, elHas UpdatedNodeClassName e = true ∧
                                   elHas MovedNodeClassName e = false)
                             (elements (shadowDomRoot s));
           removedSummary :=
             elId <$> filter (λ e, elHas NewNodeClassName e = false)
                             (topLevel (removedNodes s)) |}
        (setClassifyNodes false
           (setForests (mapForest (cleanup out) (shadowDomRoot s)) Nil
              (setRemovedAttached false s))).
Proof.
  intros Hnd.
  destruct (getMutationSummary_spec (setRemovedAttached false s) Hnd eq_refl)
    as (out & Hinv & Hdone & _ & Hrun).
  pose proof (collected_new (setRemovedAttached false s) out Hinv Hdone) as Hnew.
  destruct (finishBatch_exact s Hnd) as (sum & s2 & Hsum & Hfin).
  rewrite Hrun in Hsum. injection Hsum as <- _.
  exists out. split; [|split; [exact Hnew | exact Hfin]].
  destruct Hinv as [H _ _ _ _]. by rewrite pending_nil in H.
Qed.

Lemma nil_of_no_members {A} (l : list A) : (∀ x, x ∉ l) → l = [].
Proof. destruct l as [|a l]; [done|]. intros H. destruct (H a). by left. Qed.

Lemma cleared_hasClass s r c :
  cleared s → c ≠ TopNewNodeClassName → hasClass r c s = false.
Proof.
  intros Hcl Hc. unfold hasClass. destruct r as [[| |i]|]; try done.
  destruct (deref i s) as [[e kids]|] eqn:Hd; [|done].
  apply deref_elem in Hd as [_ He]. by apply Hcl.
Qed.

Lemma cleared_sub s s' :
  cleared s → allElements s' ⊆+ allElements s → cleared s'.
Proof. intros Hcl Hsub e c He. apply Hcl. by eapply elem_of_submseteq. Qed.

(** A batch on a state without tags: the lists when no node is tagged
    [cl-new] or [cl-moved] once the records are applied. *)
Lemma finishBatch_plain s :
  NoDup (allIds s) →
  (∀ e, e ∈ elements (shadowDomRoot s) →
        elHas NewNodeClassName e = false ∧ elHas MovedNodeClassName e = false) →
  finishBatch s
  = Returns
      {| newNodes := []; movedNodes := [];
         updatedNodes :=
           elId <$> filter (λ e, elHas UpdatedNodeClassName e = true)
                           (elements (shadowDomRoot s));
         removedSummary :=
           elId <$> filter (λ e, elHas NewNodeClassName e = false)
                           (topLevel (removedNodes s)) |}
      (setClassifyNodes false
         (setForests (mapForest (cleanup []) (shadowDomRoot s)) Nil
            (setRemovedAttached false s))).
Proof.
  intros Hnd Hplain.
  destruct (finishBatch_lists s Hnd) as (out & _ & Hout & Hfin).
  assert (out = []) as ->.
  { apply nil_of_no_members. intros i [Hi Hnew]%Hout.
    apply list_elem_of_fmap in Hi as (e & -> & He).
    apply (isNew_root (setRemovedAttached false s) Hnd e He) in Hnew.
    destruct (Hplain e He). congruence. }
  rewrite Hfin. do 2 f_equal.
  - rewrite filter_none; [done|]. intros e He. destruct (Hplain e He). congruence.
  - f_equal. apply filter_ext_elem. intros e He. destruct (Hplain e He). tauto.
Qed.

(** *** A removal *)

Lemma removeShadowNode_exact s i e kids :
  getShadowNode (Some i) s = Some (e, kids) →
  removeShadowNode (Some i) s
  = Returns () (attachElement RemovedDiv None e kids (detachElement i s)).
Proof.
  intros Hnode.
  assert (deref i s = Some (e, kids)) as Hd by (by apply docGetElementById_deref).
  destruct (deref_elem _ _ _ _ Hd) as [Hid _].
  unfold removeShadowNode. rewrite read_eq. cbv zeta. rewrite Hnode.
  cbn [refOf fmap option_fmap option_map compose fst].
  rewrite bool_decide_eq_true_2 by eauto. rewrite assert_true, bind_eq, ret_eq.
  rewrite Hid. unfold insertExisting. rewrite Hd. cbn.
  by rewrite decide_False.
Qed.

(** X12. A batch of one record that removes a live node whose shadow node is
    in the document, on an object without tags and with an empty holding
    area: the summary lists the index of the node as removed, and nothing
    else; the descendants of the node are not listed.  Afterwards the
    shadow node and its whole subtree are gone from the shadow document,
    no index of the subtree leads to a shadow node any more, and the
    other nodes are in the order they had.  The registry still holds the
    indices. *)
Theorem removal_is_reported (s : ShadowDom) (target r : Node)
    (prev next : option Node) (i : nat) (e : IShadowDomNode) (kids : Forest) :
  NoDup (allIds s) → cleared s → removedNodes s = Nil →
  getNodeIndex (Some r) s = Some i →
  getElementById i (shadowDomRoot s) = Some (e, kids) →
  ∃ s',
    applyMutationBatch [ChildList target [] [r] prev next] s
    = Returns {| newNodes := []; movedNodes := []; updatedNodes := [];
                 removedSummary := [i] |} s' ∧
    ids (shadowDomRoot s')
    = filter (λ x, x ∉ i :: ids kids) (ids (shadowDomRoot s)) ∧
    removedNodes s' = Nil ∧ classifyNodes s' = false ∧
    nodeIndex s' = nodeIndex s ∧ nextIndex s' = nextIndex s ∧
    (∀ x, x ∈ i :: ids kids → getShadowNode (Some x) s' = None).
Proof.
  intros Hnd Hcl Hempty Hreg Hget.
  set (s0 := startBatch s).
  assert (getShadowNode (Some i) s0 = Some (e, kids)) as Hnode.
  { cbn [getShadowNode mbind option_bind]. unfold docGetElementById.
    change (shadowDomRoot s0) with (shadowDomRoot s). by rewrite Hget. }
  assert (deref i s0 = Some (e, kids)) as Hd by (by apply docGetElementById_deref).
  destruct (deref_elem _ _ _ _ Hd) as [Hid _].
  assert (cleared s0) as Hcl0 by exact Hcl.
  assert (NoDup (allIds s0)) as Hnd0 by exact Hnd.
  assert (shouldProcessChildListMutation r target s0 = true) as Hvalid.
  { unfold shouldProcessChildListMutation.
    change (getNodeIndex (Some r) s0) with (getNodeIndex (Some r) s).
    rewrite Hreg, Hnode, Hid.
    assert (is_Some (parentNode i s0)) as [q Hq].
    { unfold parentNode.
      destruct (parentIn_present i RootDiv (shadowDomRoot s0)) as [q ->]; [|eauto].
      apply getElementById_is_Some. eauto. }
    rewrite Hq. rewrite bool_decide_eq_true_2 by eauto.
    by rewrite cleared_hasClass. }
  set (s1 := attachElement RemovedDiv None e kids (detachElement i s0)).
  assert (applyMutations [ChildList target [] [r] prev next] s0 = Returns () s1)
    as Hrec.
  { assert (applyRemove r target s0 = Returns () s1) as Hrm.
    { unfold applyRemove. rewrite read_eq. cbv zeta.
      change (getNodeIndex (Some r) s0) with (getNodeIndex (Some r) s).
      rewrite Hreg, Hvalid. by rewrite (removeShadowNode_exact s0 i e kids). }
    cbn [applyMutations applyMutation applyAdded applyRemoved].
    cbv beta iota delta [mbind M_bind mret M_ret]. by rewrite Hrm. }
  destruct (remove_places s0 i e kids Hnd0 Hd) as (Hperm & Hroot & _ & _).
  fold s1 in Hperm, Hroot.
  assert (NoDup (allIds s1)) as Hnd1 by (by rewrite Hperm).
  assert (removedNodes s1 = Cons e kids Nil ∧
          shadowDomRoot s1 = removeById i (shadowDomRoot s)) as [Hrem1 Hroot1].
  { unfold s1, detachElement.
    rewrite (proj2 (hasId_true i _)) by (apply getElementById_is_Some; eauto).
    cbn [attachElement shadowDomRoot removedNodes setForests s0 startBatch
         setClassifyNodes setRemovedAttached].
    by rewrite Hempty. }
  assert (cleared s1) as Hcl1.
  { apply (cleared_sub s0); [done|]. unfold s1.
    etrans; [apply allElements_attachElement|].
    by rewrite <- (allElements_detachElement _ _ _ _ Hd). }
  assert (e ∈ allElements s1) as He1.
  { unfold allElements. rewrite Hrem1, elem_of_app. right. by left. }
  rewrite applyMutationBatch_eq, bind_eq. fold s0. rewrite Hrec.
  rewrite finishBatch_plain; [|done|].
  2:{ intros x Hx. split; apply Hcl1; try done;
        unfold allElements; rewrite elem_of_app; by left. }
  eexists. split; [|split].
  - f_equal. f_equal.
    + rewrite filter_none; [done|]. intros x Hx Hup.
      rewrite Hcl1 in Hup; [done| |done].
      unfold allElements. rewrite elem_of_app. by left.
    + rewrite Hrem1. cbn [topLevel].
      rewrite filter_cons_True by (by apply Hcl1).
      cbn. by rewrite Hid.
  - cbn [shadowDomRoot setClassifyNodes setForests].
    rewrite ids_mapForest by apply elId_cleanup. exact Hroot.
  - split; [done|]. split; [done|]. split.
    { unfold s1, detachElement. by destruct (hasId i _). }
    split.
    { unfold s1, detachElement. by destruct (hasId i _). }
    intros x Hx. cbn [getShadowNode mbind option_bind]. unfold docGetElementById.
    cbn [shadowDomRoot removedInDoc removedAttached setClassifyNodes setForests
         setRemovedAttached].
    rewrite (proj2 (getElementById_None x _)); [done|].
    rewrite ids_mapForest by apply elId_cleanup. rewrite Hroot.
    intros [Hnot _]%list_elem_of_filter. done.
Qed.

(** *** Attribute and character-data records *)

(** The indices of the targets of the attribute and character-data
    records of a batch. *)
Definition touched (s : ShadowDom) (ms : list MutationRecord) : list nat :=
  omap (λ m, match m with
             | Attributes t | CharacterData t => getNodeIndex (Some t) s
             | _ => None
             end) ms.

(** A record about the attributes or the text of a node that has no index
    or whose shadow node is in the document. *)
Definition updateRecord (s : ShadowDom) (m : MutationRecord) : Prop :=
  match m with
  | Attributes t | CharacterData t =>
      ∀ i, getNodeIndex (Some t) s = Some i → i ∈ ids (shadowDomRoot s)
  | _ => False
  end.

Definition mark (T : list nat) (e : IShadowDomNode) : IShadowDomNode :=
  if bool_decide (elId e ∈ T) then withClassList (add UpdatedNodeClassName) e else e.

Lemma elId_mark T e : elId (mark T e) = elId e.
Proof. unfold mark. by destruct (bool_decide _). Qed.

Lemma touched_cons s m ms :
  touched s (m :: ms)
  = option_list match m with
                | Attributes t | CharacterData t => getNodeIndex (Some t) s
                | _ => None
                end ++ touched s ms.
Proof.
  unfold touched. cbn [omap list_omap].
  by destruct m as [t|t| |]; try destruct (getNodeIndex (Some t) s).
Qed.

Lemma applyUpdates_marks s0 ms :
  classifyNodes s0 = true → removedAttached s0 = true → removedNodes s0 = Nil →
  Forall (updateRecord s0) ms →
  ∀ T0, applyMutations ms (mapClasses (mark T0) s0)
        = Returns () (mapClasses (mark (T0 ++ touched s0 ms)) s0).
Proof.
  intros Hc Hatt Hempty Hall.
  induction Hall as [|m ms Hm _ IH]; intros T0.
  { cbn. by rewrite app_nil_r. }
  set (σ := mapClasses (mark T0) s0).
  assert (∀ t, (∀ i, getNodeIndex (Some t) s0 = Some i → i ∈ ids (shadowDomRoot s0)) →
               applyUpdate t σ
               = Returns () (mapClasses
                               (mark (T0 ++ option_list (getNodeIndex (Some t) s0))) s0))
    as Hupd.
  { intros t Hok.
    unfold applyUpdate. rewrite read_eq. cbv zeta.
    change (getNodeIndex (Some t) σ) with (getNodeIndex (Some t) s0).
    destruct (getNodeIndex (Some t) s0) as [i|] eqn:Hi.
    - specialize (Hok i eq_refl).
      assert (i ∈ ids (shadowDomRoot σ)) as Hin.
      { unfold σ, mapClasses. cbn [shadowDomRoot setForests].
        by rewrite ids_mapForest by apply elId_mark. }
      apply getElementById_is_Some in Hin as [[x xk] Hx].
      rewrite (updateShadowNode_run i None σ x xk).
      2:{ cbn [getShadowNode mbind option_bind]. unfold docGetElementById.
          by rewrite Hx. }
      f_equal. change (classifyNodes σ) with (classifyNodes s0). rewrite Hc.
      unfold σ. rewrite mapClasses_updateElement, mapClasses_compose.
      apply mapClasses_ext. intros y _. cbn.
      rewrite elId_mark. unfold mark, updatedNode.
      rewrite (bool_decide_ext (elId y ∈ T0 ++ [i]) (elId y ∈ T0 ∨ elId y = i))
        by (rewrite elem_of_app, list_elem_of_singleton; tauto).
      destruct (decide (elId y = i)) as [Hy|Hy];
        destruct (bool_decide (elId y ∈ T0)) eqn:HT.
      + rewrite bool_decide_eq_true_2 by tauto.
        unfold withClassList. cbn. by rewrite add_add.
      + by rewrite bool_decide_eq_true_2 by tauto.
      + apply bool_decide_eq_true in HT. by rewrite bool_decide_eq_true_2 by tauto.
      + apply bool_decide_eq_false in HT. by rewrite bool_decide_eq_false_2 by tauto.
    - cbn. by rewrite app_nil_r. }
  cbn [applyMutations]. rewrite bind_eq.
  destruct m as [t|t| |]; try done; cbn [applyMutation updateRecord] in *.
  - by rewrite (Hupd t Hm), IH, touched_cons, app_assoc.
  - by rewrite (Hupd t Hm), IH, touched_cons, app_assoc.
Qed.

(** X13. A batch of attribute and character-data records, on an object
    without tags and with an empty holding area, each record about a node
    without index or about a node whose shadow node is in the document:
    the summary lists the nodes with an index, each once however many
    records name it, in the order of the document and not in the order of
    the records; it lists nothing as new, moved or removed.  The shadow
    document keeps its shape and its nodes, and a listed node has lost
    every class. *)
Theorem updates_are_reported (s : ShadowDom) (ms : list MutationRecord) :
  NoDup (allIds s) → cleared s → removedNodes s = Nil →
  Forall (updateRecord s) ms →
  ∃ s',
    applyMutationBatch ms s
    = Returns {| newNodes := []; movedNodes := [];
                 updatedNodes :=
                   filter (λ i, i ∈ touched s ms) (ids (shadowDomRoot s));
                 removedSummary := [] |} s' ∧
    shadowDomRoot s'
    = mapForest (λ e, if bool_decide (elId e ∈ touched s ms)
                      then withClassList (λ _, []) e else e)
        (shadowDomRoot s) ∧
    removedNodes s' = Nil ∧ classifyNodes s' = false ∧
    nodeIndex s' = nodeIndex s ∧ nextIndex s' = nextIndex s ∧
    reports s' = reports s.
Proof.
  intros Hnd Hcl Hempty Hms.
  set (s0 := startBatch s). set (T := touched s ms).
  pose proof (applyUpdates_marks s0 ms eq_refl eq_refl Hempty Hms []) as Hrec.
  rewrite (mapClasses_id (mark [])) in Hrec.
  2:{ intros e _. unfold mark. by rewrite bool_decide_eq_false_2 by apply not_elem_of_nil. }
  cbn [app] in Hrec. change (touched s0 ms) with T in Hrec.
  set (s1 := mapClasses (mark T) s0) in *.
  assert (NoDup (allIds s1)) as Hnd1.
  { unfold s1. rewrite allIds_mapClasses; [done | apply elId_mark]. }
  assert (∀ e c, e ∈ elements (shadowDomRoot s) → c ≠ TopNewNodeClassName →
                 elHas c e = false) as Hcl'.
  { intros e c He. apply Hcl. unfold allElements. rewrite elem_of_app. by left. }
  assert (∀ e c, c ≠ UpdatedNodeClassName → elHas c (mark T e) = elHas c e) as Hmark.
  { intros e c Hc. unfold mark. destruct (bool_decide _); [|done].
    unfold elHas. cbn. by apply contains_add_ne. }
  rewrite applyMutationBatch_eq, bind_eq. fold s0. rewrite Hrec.
  rewrite finishBatch_plain; [|done|].
  2:{ intros x. unfold s1, mapClasses. cbn [shadowDomRoot setForests].
      rewrite elements_mapForest. intros (e & -> & He)%list_elem_of_fmap.
      rewrite !Hmark by done. split; by apply Hcl'. }
  exists (setClassifyNodes false
            (setForests (mapForest (cleanup []) (shadowDomRoot s1)) Nil
               (setRemovedAttached false s1))).
  split; [|split]; [| |repeat split; reflexivity].
  - f_equal. f_equal.
    + unfold s1, mapClasses. cbn [shadowDomRoot setForests].
      rewrite elements_mapForest.
      rewrite (ids_filter_fmap _ (λ e, elId e ∈ T)); [|
        |apply elId_mark].
      * unfold ids. apply fmap_filter_corr. done.
      * intros e He. unfold mark. destruct (decide (elId e ∈ T)) as [Hin|Hout].
        -- rewrite bool_decide_eq_true_2 by done. unfold elHas. cbn.
           rewrite contains_add. tauto.
        -- rewrite bool_decide_eq_false_2 by done.
           change (shadowDomRoot s0) with (shadowDomRoot s) in He.
           rewrite (Hcl' e UpdatedNodeClassName He) by done. split; [done|tauto].
    + unfold s1, mapClasses. cbn [removedNodes setForests s0 startBatch
                                   setClassifyNodes setRemovedAttached].
      by rewrite Hempty.
  - cbn [shadowDomRoot setClassifyNodes setForests].
    unfold s1, mapClasses. cbn [shadowDomRoot setForests s0 startBatch
                                setClassifyNodes setRemovedAttached].
    rewrite mapForest_compose. apply mapForest_ext. intros e He. cbn.
    unfold cleanup. rewrite stripNew_nil. unfold swept.
    rewrite Hmark, (Hcl' e MovedNodeClassName He) by done.
    unfold mark. destruct (bool_decide (elId e ∈ T)).
    + assert (elHas UpdatedNodeClassName
                (withClassList (add UpdatedNodeClassName) e) = true) as ->
        by apply contains_add.
      reflexivity.
    + rewrite (Hcl' e UpdatedNodeClassName He) by done.
      by rewrite (Hcl' e FinalClassName He) by done.
Qed.

(** *** An insertion *)

Lemma liveTree_handle r : handle (liveTree r) = elNode r.1.
Proof. done. Qed.

Lemma NoDup_range_Permutation (l : list nat) a :
  NoDup l → (∀ x, x ∈ l → a ≤ x < a + length l) → l ≡ₚ seq a (length l).
Proof.
  intros Hnd Hin. apply submseteq_length_Permutation.
  - apply NoDup_submseteq; [done|]. intros x Hx. apply elem_of_seq. by apply Hin.
  - by rewrite length_seq.
Qed.

(** X14. A batch of one record that inserts a live subtree none of whose nodes
    has an index yet, on an object without tags and with an empty holding
    area: the summary lists every node of the subtree once as new, under
    the indices from [nextIndex] on, and lists nothing as moved, updated
    or removed.  Afterwards the index of the root of the subtree leads to
    a shadow subtree that, read as a tree of live nodes, is the live
    subtree, at the place the record names; the shadow document holds the
    new nodes and those it had. *)
Theorem insertion_is_reported (s : ShadowDom) (a : LiveNode) (parent : Node)
    (prev next : option Node) (pe : IShadowDomNode) (pk : Forest) :
  cleared s → removedNodes s = Nil →
  CanInsert (startBatch s) a parent next false pe pk →
  ∃ sum s' r,
    applyMutationBatch [ChildList parent [a] [] prev next] s = Returns sum s' ∧
    newNodes sum ≡ₚ seq (nextIndex s) (length (traverseNodeTree a)) ∧
    movedNodes sum = [] ∧ updatedNodes sum = [] ∧ removedSummary sum = [] ∧
    getShadowNode (getNodeIndex (Some (handle a)) s') s' = Some r ∧
    liveTree r = a ∧
    parentNode (nextIndex s) s' = Some (Elem (elId pe)) ∧
    nextSiblingOf (nextIndex s) s'
    = elId ∘ fst <$> getShadowNode (getNodeIndex next s) (startBatch s) ∧
    nextIndex s' = nextIndex s + length (traverseNodeTree a) ∧
    removedNodes s' = Nil ∧ classifyNodes s' = false ∧
    ids (shadowDomRoot s') ≡ₚ newNodes sum ++ ids (shadowDomRoot s).
Proof.
  intros Hcl Hempty Hcan. set (s0 := startBatch s) in *.
  destruct (applyInsert_mirrors s0 a parent prev next false pe pk Hcan)
    as (s1 & r1 & Hrun & Hsn & Hlive & Htrav & Hrid & Hpar & Hnext & Hni & Hx
        & Hother & Hperm & [Hnd1 Hlt1] & Hget & HparentIn & HnextIn & Hrem & Htags & _).
  change (nextIndex s0) with (nextIndex s) in *.
  set (i0 := nextIndex s) in *. set (size := length (traverseNodeTree a)) in *.
  set (newEls := r1.1 :: elements r1.2) in *.
  assert (applyMutations [ChildList parent [a] [] prev next] s0 = Returns () s1)
    as Hrec.
  { cbn [applyMutations applyMutation applyAdded applyRemoved].
    cbv beta iota delta [mbind M_bind mret M_ret]. by rewrite Hrun. }
  assert (removedNodes s1 = Nil) as Hrem1 by (by rewrite Hrem).
  assert (allElements s0 = elements (shadowDomRoot s)) as Hold.
  { unfold allElements. cbn [removedNodes shadowDomRoot s0 startBatch setClassifyNodes
                             setRemovedAttached].
    by rewrite Hempty, app_nil_r. }
  assert (allElements s1 = elements (shadowDomRoot s1)) as Hall1.
  { unfold allElements. by rewrite Hrem1, app_nil_r. }
  rewrite Hall1, Hold in Hperm.
  assert (∀ e c, e ∈ elements (shadowDomRoot s) → c ≠ TopNewNodeClassName →
                 elHas c e = false) as Hcl'.
  { intros e c He. apply Hcl. unfold allElements. rewrite elem_of_app. by left. }
  assert (NoDup (elId <$> newEls)) as Hndnew.
  { unfold allIds in Hnd1. rewrite Hall1, Hperm, fmap_app in Hnd1.
    by apply NoDup_app in Hnd1 as (? & _ & _). }
  assert (length newEls = size) as Hlen.
  { unfold size. rewrite <- Htrav. unfold newEls, traverseShadowTree. cbn.
    by rewrite length_fmap. }
  destruct (finishBatch_lists s1 Hnd1) as (out & Hndout & Hout & Hfin).
  assert (out ≡ₚ elId <$> newEls) as Hnewout.
  { apply NoDup_Permutation; [done..|]. intros i. rewrite Hout. split.
    - intros [(e & -> & He)%list_elem_of_fmap Hnew].
      apply (isNew_root s1 Hnd1 e He) in Hnew.
      rewrite Hperm, elem_of_app in He. destruct He as [He|He].
      + by apply list_elem_of_fmap_2.
      + rewrite Hcl' in Hnew; done.
    - intros (e & -> & He)%list_elem_of_fmap.
      assert (e ∈ elements (shadowDomRoot s1)) as Hin
        by (rewrite Hperm, elem_of_app; by left).
      split; [by apply list_elem_of_fmap_2|].
      apply (isNew_root s1 Hnd1 e Hin). by apply Hx. }
  assert (elId <$> newEls ≡ₚ seq i0 size) as Hrange.
  { rewrite <- Hlen, <- (length_fmap elId). apply NoDup_range_Permutation; [done|].
    intros i (e & -> & He)%list_elem_of_fmap. rewrite length_fmap, Hlen.
    destruct (Hx e He) as (_ & ? & _). lia. }
  set (h := cleanup out).
  exists {| newNodes := out; movedNodes := []; updatedNodes := [];
            removedSummary := [] |},
    (setClassifyNodes false
       (setForests (mapForest h (shadowDomRoot s1)) Nil (setRemovedAttached false s1))),
    (h r1.1, mapForest h r1.2).
  assert (∀ e, e ∈ elements (shadowDomRoot s1) →
               elHas MovedNodeClassName e = false ∧
               elHas UpdatedNodeClassName e = false) as Hplain.
  { intros e. rewrite Hperm, elem_of_app. intros [He|He].
    - by apply Htags.
    - split; by apply Hcl'. }
  split.
  { rewrite applyMutationBatch_eq, bind_eq. fold s0. rewrite Hrec, Hfin.
    f_equal. f_equal.
    - rewrite filter_none; [done|]. intros e He. destruct (Hplain e He).
      congruence.
    - rewrite filter_none; [done|]. intros e He [? _]. destruct (Hplain e He).
      congruence.
    - by rewrite Hrem1. }
  cbn [newNodes movedNodes updatedNodes removedSummary].
  split; [by rewrite Hnewout|]. split; [done|]. split; [done|]. split; [done|].
  assert (getNodeIndex (Some (handle a)) s1 = Some i0) as Hidx.
  { rewrite <- Hlive, liveTree_handle, <- Hrid. apply Hx. by left. }
  assert (∀ e, elId (h e) = elId e) as Hh by apply elId_cleanup.
  split.
  { change (getNodeIndex (Some (handle a)) (setClassifyNodes false _))
      with (getNodeIndex (Some (handle a)) s1).
    rewrite Hidx. cbn [getShadowNode mbind option_bind]. unfold docGetElementById.
    cbn [shadowDomRoot setClassifyNodes setForests].
    by rewrite getElementById_mapForest, Hget. }
  split.
  { rewrite <- Hlive. unfold liveTree. cbn [fst snd].
    rewrite liveForest_mapForest by apply elNode_cleanup.
    unfold h. by rewrite elNode_cleanup. }
  split.
  { unfold parentNode. cbn [shadowDomRoot setClassifyNodes setForests].
    by rewrite parentIn_mapForest, HparentIn. }
  split.
  { unfold nextSiblingOf. cbn [shadowDomRoot setClassifyNodes setForests].
    by rewrite nextSiblingIn_mapForest, HnextIn. }
  split; [exact Hni|]. split; [done|]. split; [done|].
  cbn [shadowDomRoot setClassifyNodes setForests].
  rewrite ids_mapForest by done. unfold ids. by rewrite Hperm, fmap_app, Hnewout.
Qed.

(** ** The nodes a record adds, in their order *)

(** The children of a child list before the child with id [ref] (all of
    them when [ref] is null), and those from that child on. *)
Fixpoint upTo (ref : option nat) (f : Forest) : Forest :=
  match f with
  | Nil => Nil
  | Cons x xk xn =>
      if decide (ref = Some (elId x)) then Nil else Cons x xk (upTo ref xn)
  end.

Fixpoint fromChild (ref : option nat) (f : Forest) : Forest :=
  match f with
  | Nil => Nil
  | Cons x xk xn => if decide (ref = Some (elId x)) then f else fromChild ref xn
  end.

(** The subtrees [new], in their order, in front of the child list [f]. *)
Definition consAll (new : list (IShadowDomNode * Forest)) (f : Forest) : Forest :=
  foldr (λ r acc, Cons r.1 r.2 acc) f new.

(** The subtrees [new], in their order, put into the child list [f] before
    the first child with id [ref]; at the end when [ref] is null. *)
Fixpoint insertAll (ref : option nat) (new : list (IShadowDomNode * Forest))
    (f : Forest) : Forest :=
  match f with
  | Nil => consAll new Nil
  | Cons x xk xn =>
      if decide (ref = Some (elId x)) then consAll new f
      else Cons x xk (insertAll ref new xn)
  end.

Lemma insertAll_nil ref f : insertAll ref [] f = f.
Proof.
  induction f as [|x xk _ xn IH]; cbn; [done|]. case_decide; [done|]. by rewrite IH.
Qed.

Lemma insertAll_one ref e K f : insertAll ref [(e, K)] f = insertTop ref e K f.
Proof.
  induction f as [|x xk _ xn IH]; cbn; [done|]. case_decide; [done|]. by rewrite IH.
Qed.

(** A subtree put before the first of the subtrees put in earlier. *)
Lemma insertTop_insertAll ref e K r rs f :
  elId r.1 ∉ ids f →
  insertTop (Some (elId r.1)) e K (insertAll ref (r :: rs) f)
  = insertAll ref ((e, K) :: r :: rs) f.
Proof.
  induction f as [|x xk _ xn IH]; cbn.
  - intros _. by rewrite decide_True.
  - rewrite ids_Cons, not_elem_of_cons, not_elem_of_app. intros (Hx & _ & Hn).
    case_decide; cbn.
    + by rewrite decide_True.
    + rewrite decide_False by congruence. by rewrite IH.
Qed.

Lemma head_insertAll ref r rs f :
  elId r.1 ∈ elId <$> topLevel (insertAll ref (r :: rs) f).
Proof.
  induction f as [|x xk _ xn IH]; cbn; [by left|].
  case_decide; cbn; [by left | by right].
Qed.

Lemma liveForest_consAll new f :
  liveForest (consAll new f) = (liveTree <$> new) ++ liveForest f.
Proof.
  unfold consAll. induction new as [|r new IH]; cbn; [done|]. by rewrite IH.
Qed.

Lemma liveForest_insertAll ref new f :
  liveForest (insertAll ref new f)
  = liveForest (upTo ref f) ++ (liveTree <$> new) ++ liveForest (fromChild ref f).
Proof.
  induction f as [|x xk _ xn IH]; cbn [insertAll upTo fromChild].
  - rewrite liveForest_consAll. cbn. by rewrite app_nil_r.
  - case_decide.
    + by rewrite liveForest_consAll.
    + cbn [liveForest]. by rewrite IH.
Qed.

Lemma liveForest_split ref f :
  liveForest f = liveForest (upTo ref f) ++ liveForest (fromChild ref f).
Proof.
  induction f as [|x xk _ xn IH]; cbn; [done|].
  case_decide; cbn; [done|]. by rewrite <- IH.
Qed.

Lemma head_fromChild ref f :
  (∀ r, ref = Some r → r ∈ elId <$> topLevel f) →
  elId <$> head (topLevel (fromChild ref f)) = ref.
Proof.
  induction f as [|x xk _ xn IH]; cbn; intros Href.
  - destruct ref as [r|]; [|done]. pose proof (Href r eq_refl) as Hin.
    by apply elem_of_nil in Hin.
  - case_decide as Hx; cbn; [done|]. apply IH. intros r ->.
    pose proof (Href r eq_refl) as Hin.
    apply elem_of_cons in Hin as [->|Hin]; [done|]. exact Hin.
Qed.

(** A record adds the live subtrees [added], none of whose nodes has an
    index, under a parent whose shadow node is in the document and is not
    tagged [cl-final], before an anchor that is a child of that parent. *)
Record CanAdd (s : ShadowDom) (added : list LiveNode) (parent : Node)
    (next : option Node) (pe : IShadowDomNode) (pk : Forest) : Prop := {
  add_classify : classifyNodes s = true;
  add_nodup : NoDup (allIds s);
  add_below : ∀ i, i ∈ allIds s → i < nextIndex s;
  add_distinct : NoDup (flat_map traverseNodeTree added);
  add_unknown : ∀ m, m ∈ flat_map traverseNodeTree added →
                  getNodeIndex (Some m) s = None ∧ m ≠ document;
  add_parent : getNodeIndex (Some parent) s = Some (elId pe);
  add_mirror : getElementById (elId pe) (shadowDomRoot s) = Some (pe, pk);
  add_valid : elHas FinalClassName pe = false;
  add_anchor : ∀ re rk, getShadowNode (getNodeIndex next s) s = Some (re, rk) →
                 parentNode (elId re) s = Some (Elem (elId pe))
}.

Lemma CanAdd_tail s a rest parent next pe pk :
  CanAdd s (a :: rest) parent next pe pk → CanAdd s rest parent next pe pk.
Proof.
  intros [H1 H2 H3 H4 H5 H6 H7 H8 H9]. split; try done.
  - cbn [flat_map] in H4. by apply NoDup_app in H4 as (_ & _ & ?).
  - intros m Hm. apply H5. cbn [flat_map]. rewrite elem_of_app. by right.
Qed.

(** The loop over [addedNodes]: the subtrees it has built, in the child
    list of the parent. *)
Lemma applyAdded_builds s added parent next pe pk :
  CanAdd s added parent next pe pk →
  ∀ prev, ∃ s' rs,
    applyAdded added parent prev next s = Returns () s' ∧
    getElementById (elId pe) (shadowDomRoot s')
    = Some (pe, insertAll (elId ∘ fst <$> getShadowNode (getNodeIndex next s) s)
                  rs pk) ∧
    liveTree <$> rs = added ∧
    (∀ r, head rs = Some r →
          getNodeIndex (Some (handle (liveTree r))) s' = Some (elId r.1) ∧
          nextIndex s ≤ elId r.1) ∧
    classifyNodes s' = true ∧ WF s' ∧ removedNodes s' = removedNodes s ∧
    nextIndex s' = nextIndex s + length (flat_map traverseNodeTree added) ∧
    (∀ m, m ∉ flat_map traverseNodeTree added →
          getNodeIndex (Some m) s' = getNodeIndex (Some m) s) ∧
    (∀ m, m ∈ flat_map traverseNodeTree added →
          ∃ i, getNodeIndex (Some m) s' = Some i ∧ nextIndex s ≤ i < nextIndex s').
Proof.
  induction added as [|a rest IH]; intros Hadd prev.
  { destruct Hadd as [Hc Hnd Hlt Hdist Hunk Hpar Hmir Hvalid Hanchor].
    exists s, []. split; [done|]. rewrite insertAll_nil.
    split; [done|]. split; [done|]. split; [done|]. split; [done|].
    split; [done|]. split; [done|]. split; [cbn; lia|]. split; [done|].
    by intros m ?%elem_of_nil. }
  pose proof (CanAdd_tail _ _ _ _ _ _ _ Hadd) as Hrest.
  destruct (IH Hrest (Some (handle a)))
    as (s1 & rs1 & Hrun1 & Hkids1 & Hlive1 & Hhead1 & Hc1 & [Hnd1 Hlt1] & Hrem1
        & Hni1 & Hframe1 & Hrange1).
  clear IH.
  destruct Hadd as [Hc Hnd Hlt Hdist Hunk Hpar Hmir Hvalid Hanchor].
  set (ref := elId ∘ fst <$> getShadowNode (getNodeIndex next s) s) in *.
  set (p := elId pe) in *.
  set (anchor := match rest with [] => next | b :: _ => Some (handle b) end).
  cbn [flat_map] in Hdist, Hunk. apply NoDup_app in Hdist as (Hda & Hdisj & Hdr).
  assert (NoDup (ids (shadowDomRoot s1))) as Hndr1.
  { unfold allIds, allElements in Hnd1. rewrite fmap_app in Hnd1.
    by apply NoDup_app in Hnd1 as (? & _ & _). }
  assert (∀ x, x ∈ ids pk → x < nextIndex s) as Hpk.
  { intros x Hx. apply Hlt. unfold allIds, allElements.
    rewrite fmap_app, elem_of_app. left. by eapply kids_ids. }
  assert ((∀ e K, insertTop (elId ∘ fst <$> getShadowNode (getNodeIndex anchor s1) s1)
                    e K (insertAll ref rs1 pk)
                  = insertAll ref ((e, K) :: rs1) pk) ∧
          (∀ re rk, getShadowNode (getNodeIndex anchor s1) s1 = Some (re, rk) →
                    parentNode (elId re) s1 = Some (Elem p))) as [Htop Hanchor1].
  { unfold anchor. destruct rest as [|b rest'].
    - apply fmap_nil_inv in Hlive1. subst rs1.
      injection Hrun1 as <-. fold ref.
      split; [|exact Hanchor]. intros e K. by rewrite insertAll_nil, insertAll_one.
    - destruct rs1 as [|rb rs1']; [done|]. injection Hlive1 as Hb Hlive1.
      destruct (Hhead1 rb eq_refl) as [Hidx Hge]. rewrite Hb in Hidx. rewrite Hidx.
      assert (elId rb.1 ∈ elId <$> topLevel (insertAll ref (rb :: rs1') pk)) as Htl
        by apply head_insertAll.
      assert (elId rb.1 ∈ ids (shadowDomRoot s1)) as Hinr.
      { eapply kids_ids; [exact Hkids1|]. by apply topLevel_ids. }
      destruct (proj2 (getElementById_is_Some _ _) Hinr) as [[re rk] Hre].
      destruct (getElementById_elem _ _ _ _ Hre) as [Hreid _].
      assert (getShadowNode (Some (elId rb.1)) s1 = Some (re, rk)) as Hsn.
      { cbn [getShadowNode mbind option_bind]. unfold docGetElementById.
        by rewrite Hre. }
      rewrite Hsn. cbn [fmap option_fmap option_map compose fst]. rewrite Hreid.
      split.
      + intros e K. apply insertTop_insertAll. intros Hin%Hpk. lia.
      + intros ? ? [= <- <-]. rewrite Hreid. unfold parentNode.
        by rewrite (parentIn_child p _ pe _ _ RootDiv Hndr1 Hkids1 Htl). }
  assert (CanInsert s1 a parent anchor false pe (insertAll ref rs1 pk)) as Hcan.
  { split.
    - done.
    - done.
    - done.
    - done.
    - intros m Hm. rewrite Hframe1 by (intros ?; by eapply Hdisj).
      apply Hunk. rewrite elem_of_app. by left.
    - rewrite Hframe1; [done|]. intros Hin.
      destruct (Hunk parent) as [Hnone _]; [rewrite elem_of_app; by right|].
      by rewrite Hnone in Hpar.
    - cbn [getShadowNode mbind option_bind]. unfold docGetElementById.
      fold p. by rewrite Hkids1.
    - apply getElementById_is_Some. eauto.
    - by right.
    - exact Hanchor1. }
  destruct (applyInsert_mirrors s1 a parent prev anchor false pe _ Hcan)
    as (s2 & r & Hrun2 & _ & Hlive & Htrav & Hrid & _ & _ & Hni2 & Hx & Hother & _
        & Hwf2 & _ & _ & _ & Hrem2 & _ & Hc2 & Hkids2).
  exists s2, (r :: rs1). split.
  { cbn [applyAdded]. rewrite bind_eq, Hrun1. exact Hrun2. }
  split.
  { unfold p. rewrite Hkids2. destruct r as [e K]. cbn [fst snd]. by rewrite Htop. }
  split; [cbn; by rewrite Hlive, Hlive1|].
  split.
  { intros ? [= <-]. split; [|lia].
    rewrite liveTree_handle. apply Hx. by left. }
  split; [done|]. split; [done|]. split; [by rewrite Hrem2|].
  split.
  { rewrite Hni2, Hni1. cbn [flat_map]. rewrite length_app. lia. }
  split.
  { intros m. cbn [flat_map]. rewrite not_elem_of_app. intros [Hma Hmr].
    by rewrite Hother, Hframe1. }
  intros m. cbn [flat_map]. rewrite elem_of_app. intros [Hm|Hm].
  - rewrite <- Htrav in Hm. unfold traverseShadowTree in Hm.
    change (elNode r.1 :: (elNode <$> elements r.2))
      with (elNode <$> r.1 :: elements r.2) in Hm.
    apply list_elem_of_fmap in Hm as (x & -> & Hin).
    destruct (Hx x Hin) as (Hi & ? & _). exists (elId x). split; [done|]. lia.
  - destruct (Hrange1 m Hm) as (i & Hi & ?). exists i.
    rewrite Hother by (intros ?; by eapply Hdisj). split; [done|]. lia.
Qed.

(** X15. The loop over the added nodes of a record runs from the last node to
    the first, each node going before the one after it.  For live
    subtrees none of whose nodes has an index yet (the nodes are pairwise
    distinct and the document is not among them), added during a batch
    under a parent whose shadow node is in the document and not tagged
    [cl-final], before an anchor that is a child of that parent: the
    record is applied without an exception, and the children of the
    parent then mirror, in this order, the children it had before the
    anchor, the added subtrees in the order of the record, each with its
    shape, and the children it had from the anchor on.  Without anchor
    the added subtrees come last.  Every node of the subtrees has got an
    index of its own, from [nextIndex] on. *)
Theorem added_nodes_keep_their_order (s : ShadowDom) (added : list LiveNode)
    (parent : Node) (prev next : option Node) (pe : IShadowDomNode) (pk : Forest) :
  CanAdd s added parent next pe pk →
  let ref := elId ∘ fst <$> getShadowNode (getNodeIndex next s) s in
  ∃ s' pk',
    applyMutations [ChildList parent added [] prev next] s = Returns () s' ∧
    getShadowNode (Some (elId pe)) s' = Some (pe, pk') ∧
    liveForest pk = liveForest (upTo ref pk) ++ liveForest (fromChild ref pk) ∧
    elId <$> head (topLevel (fromChild ref pk)) = ref ∧
    liveForest pk'
    = liveForest (upTo ref pk) ++ added ++ liveForest (fromChild ref pk) ∧
    nextIndex s' = nextIndex s + length (flat_map traverseNodeTree added) ∧
    (∀ m, m ∉ flat_map traverseNodeTree added →
          getNodeIndex (Some m) s' = getNodeIndex (Some m) s) ∧
    (∀ m, m ∈ flat_map traverseNodeTree added →
          ∃ i, getNodeIndex (Some m) s' = Some i ∧
               nextIndex s ≤ i < nextIndex s') ∧
    WF s'.
Proof.
  intros Hadd ref.
  destruct (applyAdded_builds s added parent next pe pk Hadd prev)
    as (s' & rs & Hrun & Hkids & Hlive & _ & _ & Hwf & _ & Hni & Hframe & Hrange).
  destruct Hadd as [Hc Hnd Hlt Hdist Hunk Hpar Hmir Hvalid Hanchor].
  fold ref in Hkids.
  exists s', (insertAll ref rs pk). split.
  { cbn [applyMutations applyMutation applyRemoved].
    cbv beta iota delta [mbind M_bind mret M_ret]. by rewrite Hrun. }
  split.
  { cbn [getShadowNode mbind option_bind]. unfold docGetElementById.
    by rewrite Hkids. }
  split; [apply liveForest_split|].
  split.
  { apply head_fromChild. intros r0 Hr. unfold ref in Hr.
    destruct (getShadowNode (getNodeIndex next s) s) as [[re rk]|] eqn:Hn; [|done].
    cbn in Hr. injection Hr as <-.
    by apply (parentNode_child_inv s _ (elId pe) pe pk Hnd Hmir), (Hanchor re rk). }
  split; [by rewrite liveForest_insertAll, Hlive|].
  done.
Qed.

(** ** A live node with an index and no shadow node *)

(** The live node [n] has an index, and no shadow node mirrors it. *)
Definition Orphan (n : Node) (s : ShadowDom) : Prop :=
  is_Some (getNodeIndex (Some n) s) ∧ ∀ e, e ∈ allElements s → elNode e ≠ n.

Lemma Orphan_sub n s s' :
  Orphan n s → nodeIndex s' = nodeIndex s → allElements s' ⊆+ allElements s →
  Orphan n s'.
Proof.
  intros [Hi He] Hr Hsub. split; [cbn in *; by rewrite Hr|].
  intros e Hin. apply He. by eapply elem_of_submseteq.
Qed.

Lemma Orphan_update n i h s :
  (∀ e, elNode (h e) = elNode e) → Orphan n s → Orphan n (updateElement i h s).
Proof.
  intros Hnode [Hi He]. split; [done|].
  intros e. rewrite allElements_updateElement.
  intros (e0 & -> & He0)%list_elem_of_fmap.
  case_decide; [rewrite Hnode|]; by apply He.
Qed.

Lemma Orphan_detach_attach n p ref i e kids s :
  deref i s = Some (e, kids) →
  Orphan n s → Orphan n (attachElement p ref e kids (detachElement i s)).
Proof.
  intros Hd H. apply (Orphan_sub n s _ H).
  - unfold detachElement.
    by destruct p as [| |p]; cbn; destruct (hasId i _); cbn;
      try destruct (hasId p _).
  - etrans; [apply allElements_attachElement|].
    by rewrite <- (allElements_detachElement _ _ _ _ Hd).
Qed.

Lemma Orphan_attach_new n p ref e s :
  Orphan n s → elNode e ≠ n → Orphan n (attachElement p ref e Nil s).
Proof.
  intros [Hi H] He. split.
  - by destruct p as [| |p]; cbn in *; try destruct (hasId p _).
  - intros x Hx.
    eapply elem_of_submseteq in Hx; [|apply allElements_attachElement].
    cbn in Hx. apply elem_of_cons in Hx as [->|Hx]; [exact He | by apply H].
Qed.

(** The node of an orphan has no shadow node under its index. *)
Lemma Orphan_no_mirror n s i :
  Orphan n s → Indexed s → Registry s →
  getNodeIndex (Some n) s = Some i → getShadowNode (Some i) s = None.
Proof.
  intros [_ He] Hidx [_ Hinj] Hi.
  destruct (getShadowNode (Some i) s) as [[e k]|] eqn:Hsn; [|done]. exfalso.
  cbn [getShadowNode mbind option_bind] in Hsn.
  apply docGetElementById_deref, deref_elem in Hsn as [Hid Hin].
  apply (He e Hin). apply (Hinj _ _ i); [|exact Hi].
  rewrite <- Hid. by apply Hidx.
Qed.

Section OrphanInvariant.
Context (n : Node).

Lemma orphan_assert c src msg : always (Orphan n) (assert c src msg).
Proof.
  unfold assert. always_auto; try apply always_modify;
    intros s Hs; by apply (Orphan_sub n s).
Qed.

Lemma orphan_classes i g :
  always (Orphan n) (modify (updateElement i (withClassList g))).
Proof. apply always_modify. intros s. by apply Orphan_update. Qed.

Lemma orphan_setClass r c : always (Orphan n) (setClass r c).
Proof. unfold setClass. always_auto; apply orphan_classes. Qed.

Lemma orphan_removeClass r c : always (Orphan n) (removeClass r c).
Proof. unfold removeClass. always_auto; apply orphan_classes. Qed.

Lemma orphan_removeAllClasses r : always (Orphan n) (removeAllClasses r).
Proof. unfold removeAllClasses. always_auto; apply orphan_classes. Qed.

Lemma orphan_setNodeIndex node : always (Orphan n) (setNodeIndex node).
Proof.
  intros s [[i Hi] He].
  destruct (setNodeIndex_gives node s) as (index & s' & Hrun & _ & Hel).
  pose proof (setNodeIndex_keeps node s n i Hi) as Hk.
  rewrite Hrun in *. cbn [finalState] in *. split; [eauto|]. by rewrite Hel.
Qed.

Lemma orphan_insertExisting p i r : always (Orphan n) (insertExisting p i r).
Proof.
  intros s H. unfold insertExisting.
  destruct (deref i s) as [[e kids]|] eqn:Hd; [|done].
  repeat case_match; cbn [finalState]; try done.
  all: by apply Orphan_detach_attach.
Qed.

(** [insertShadowNode] for another node. *)
Lemma orphan_insertShadowNode node p nx l :
  node ≠ n → always (Orphan n) (insertShadowNode node p nx l).
Proof.
  intros Hne s H. unfold insertShadowNode. rewrite bind_eq.
  destruct (setNodeIndex_gives node s) as (index & s1 & Hrun & Hreg & Hel).
  pose proof (orphan_setNodeIndex node s H) as H1.
  rewrite Hrun in *. cbn [finalState] in H1. rewrite read_eq. cbv zeta.
  match goal with |- context [insertNew _ ?e _] => set (shadowNode := e) end.
  assert (elNode shadowNode = node) as Hnode.
  { unfold shadowNode. destruct (classifyNodes s1); [destruct (negb _)|]; done. }
  clearbody shadowNode.
  rewrite bind_eq.
  assert (∃ s2, (if bool_decide (node = document)
                 then modify (setShadowDocument (Some index))
                 else mret ()) s1 = Returns () s2 ∧ Orphan n s2) as (s2 & -> & H2).
  { destruct (bool_decide (node = document)); eexists; (split; [reflexivity|]);
      [|done].
    by apply (Orphan_sub n s1). }
  rewrite bind_eq.
  match goal with |- context [assert ?c ?a ?b s2] =>
    pose proof (orphan_assert c a b s2 H2) as Hassert;
    destruct (assert c a b s2) as [[] s3|x s3]
  end; [|done].
  cbn [finalState] in Hassert.
  match goal with |- context [match ?x with Some _ => _ | None => mret None end] =>
    destruct x as [parent|] end; [|done].
  rewrite bind_eq.
  assert (Orphan n (attachElement parent (elId ∘ fst <$> getShadowNode nx s1)
                      shadowNode Nil s3)) as Hnew
    by (apply Orphan_attach_new; [done | by rewrite Hnode]).
  unfold insertNew. destruct (_ <$> getShadowNode nx s1); [destruct (decide _)|]; done.
Qed.

Lemma orphan_moveShadowNode i p nx : always (Orphan n) (moveShadowNode i p nx).
Proof.
  unfold moveShadowNode.
  always_auto;
    auto using orphan_assert, orphan_insertExisting, orphan_setClass,
      orphan_removeClass.
Qed.

Lemma orphan_updateShadowNode i l : always (Orphan n) (updateShadowNode i l).
Proof.
  unfold updateShadowNode.
  always_auto; auto using orphan_assert, orphan_setClass.
  apply always_modify. intros s. by apply Orphan_update.
Qed.

Lemma orphan_removeShadowNode i : always (Orphan n) (removeShadowNode i).
Proof.
  unfold removeShadowNode.
  always_auto; auto using orphan_assert, orphan_insertExisting.
Qed.

Lemma orphan_discoverChildren insert m ks :
  Forall (λ k, ∀ parent prev next force,
               always (Orphan n) (insert k parent prev next force)) ks →
  ∀ prev, always (Orphan n) (discoverChildren insert m ks prev).
Proof.
  induction 1 as [|k ks Hk _ IH]; intros prev; cbn [discoverChildren];
    always_auto; auto.
Qed.

(** [applyInsert] calls [insertShadowNode] only for a node without index,
    never for the orphan. *)
Lemma orphan_applyInsert a :
  ∀ parent prev next force, always (Orphan n) (applyInsert a parent prev next force).
Proof.
  induction a as [m ks IH] using LiveNode_induction. intros. rewrite applyInsert_eq.
  apply always_read'. intros s0 Hs0. cbv zeta.
  destruct (_ || _); [|apply always_ret].
  destruct (getNodeIndex (Some (handle (Live m ks))) s0) eqn:Hidx.
  - always_auto; auto using orphan_moveShadowNode.
  - assert (handle (Live m ks) ≠ n) as Hne.
    { intros Heq. destruct Hs0 as [[i Hi] _]. rewrite Heq in Hidx.
      by rewrite Hidx in Hi. }
    always_auto; auto using orphan_insertShadowNode, orphan_setClass.
    by apply orphan_discoverChildren.
Qed.

Lemma orphan_applyRemove r parent : always (Orphan n) (applyRemove r parent).
Proof. unfold applyRemove. always_auto; auto using orphan_removeShadowNode. Qed.

Lemma orphan_applyUpdate m : always (Orphan n) (applyUpdate m).
Proof. unfold applyUpdate. always_auto; auto using orphan_updateShadowNode. Qed.

Lemma orphan_applyAdded added target :
  ∀ prev next, always (Orphan n) (applyAdded added target prev next).
Proof.
  induction added as [|a rest IH]; intros; cbn [applyAdded]; always_auto;
    auto using orphan_applyInsert.
Qed.

Lemma orphan_applyRemoved removed target :
  always (Orphan n) (applyRemoved removed target).
Proof.
  induction removed as [|r rest IH]; cbn [applyRemoved]; always_auto;
    auto using orphan_applyRemove.
Qed.

Lemma orphan_applyMutation m : always (Orphan n) (applyMutation m).
Proof.
  destruct m; cbn [applyMutation]; always_auto;
    auto using orphan_applyUpdate, orphan_applyAdded, orphan_applyRemoved.
Qed.

Lemma orphan_applyMutations ms : always (Orphan n) (applyMutations ms).
Proof.
  induction ms as [|m ms IH]; cbn [applyMutations]; always_auto;
    auto using orphan_applyMutation.
Qed.

Lemma orphan_discover steps : ∀ q out, always (Orphan n) (discover steps q out).
Proof.
  induction steps as [|k IH]; intros [|x q] out; cbn [discover]; always_auto;
    auto using orphan_removeClass.
Qed.

Lemma orphan_collectNew steps : ∀ out, always (Orphan n) (collectNew steps out).
Proof.
  induction steps as [|k IH]; intros out; cbn [collectNew]; always_auto;
    auto using orphan_discover.
Qed.

Lemma orphan_sweep c act steps :
  (∀ r, always (Orphan n) (act r)) →
  ∀ out, always (Orphan n) (sweep c act steps out).
Proof.
  intros Hact. induction steps as [|k IH]; intros out; cbn [sweep]; always_auto; auto.
Qed.

Lemma orphan_getMutationSummary : always (Orphan n) getMutationSummary.
Proof.
  unfold getMutationSummary.
  always_auto;
    auto using orphan_collectNew, orphan_sweep, orphan_removeAllClasses.
Qed.

Lemma orphan_applyMutationBatch ms : always (Orphan n) (applyMutationBatch ms).
Proof.
  unfold applyMutationBatch.
  always_auto;
    auto using orphan_applyMutations, orphan_getMutationSummary,
      orphan_sweep, orphan_removeClass.
  all: apply always_modify; intros s Hs; apply (Orphan_sub n s); try done.
  unfold allElements. cbn. rewrite app_nil_r. by apply submseteq_inserts_r.
Qed.

Lemma orphan_mirrorsRealDom live : always (Orphan n) (mirrorsRealDom live).
Proof. unfold mirrorsRealDom. always_auto; auto using orphan_assert. Qed.

Lemma Orphan_run c s :
  (∀ p nx l, c ≠ CallInsertShadowNode n p nx l) → Orphan n s → Orphan n (run c s).
Proof.
  intros Hc Hs. destruct c; cbn [run].
  - apply orphan_insertShadowNode; [|done]. intros ->. by eapply Hc.
  - by apply orphan_moveShadowNode.
  - by apply orphan_updateShadowNode.
  - by apply orphan_removeShadowNode.
  - by apply orphan_applyMutationBatch.
  - by apply orphan_getMutationSummary.
  - by apply orphan_mirrorsRealDom.
  - by apply orphan_setClass.
  - by apply orphan_removeClass.
  - by apply orphan_removeAllClasses.
Qed.

End OrphanInvariant.

(** X16. [insertShadowNode] gives the node its index before it looks for the
    parent.  When the parent has no shadow node the call tells [assert]
    and creates nothing, but the node keeps the index.  From then on the
    node has an index and no shadow node, and no call except another
    [insertShadowNode] for that very node changes this: [applyInsert]
    takes a node with an index for a node to be moved.  A record of a
    batch that adds the node, or removes it, is skipped without a word,
    so the batch goes on as if the record were not there and the node is
    never mirrored. *)
Theorem registered_node_is_never_mirrored (n : Node) :
  (∀ s pidx nidx layout,
     Indexed s → getNodeIndex (Some n) s = None → n ≠ document →
     getShadowNode pidx s = None →
     let s1 := addReport ("insertShadowNode", "parent is missing")
                 (setRegistry (S (nextIndex s)) (<[n := nextIndex s]> (nodeIndex s)) s) in
     insertShadowNode n pidx nidx layout s
     = (if assertThrows then Throws AssertionFailure else Returns None) s1 ∧
     Orphan n s1 ∧ getNodeIndex (Some n) s1 = Some (nextIndex s) ∧
     shadowDomRoot s1 = shadowDomRoot s ∧ removedNodes s1 = removedNodes s) ∧
  (∀ s c, Orphan n s → (∀ p nx l, c ≠ CallInsertShadowNode n p nx l) →
          Orphan n (run c s)) ∧
  (∀ s, Orphan n s → Indexed s → Registry s →
        getShadowNode (getNodeIndex (Some n) s) s = None ∧
        ∀ ks parent prev next,
          applyInsert (Live n ks) parent prev next false s = Returns () s ∧
          applyRemove n parent s = Returns () s ∧
          ∀ rest,
            applyMutations (ChildList parent [Live n ks] [] prev next :: rest) s
            = applyMutations rest s ∧
            applyMutations (ChildList parent [] [n] prev next :: rest) s
            = applyMutations rest s).
Proof.
  split; [|split].
  - intros s pidx nidx layout Hidx Hnone Hdoc Hp. cbv zeta.
    split; [|split; [|split; [cbn; apply lookup_insert_eq | done]]].
    + unfold insertShadowNode. rewrite bind_eq. unfold setNodeIndex at 1.
      rewrite Hnone. cbv zeta. rewrite read_eq. cbv zeta.
      rewrite (bool_decide_eq_false_2 (n = document)) by done.
      change (getShadowNode pidx (setRegistry _ _ s)) with (getShadowNode pidx s).
      rewrite Hp. cbn [refOf fmap option_fmap option_map].
      rewrite bind_eq, ret_eq, bind_eq.
      rewrite (bool_decide_eq_false_2 (is_Some None)) by (by intros [? ?]).
      unfold assert. rewrite bind_eq. cbn [modify].
      destruct assertThrows; reflexivity.
    + split.
      * exists (nextIndex s). cbn. apply lookup_insert_eq.
      * intros e He Heq. specialize (Hidx e He). rewrite Heq in Hidx.
        by rewrite Hnone in Hidx.
  - intros s c Hs Hc. by apply Orphan_run.
  - intros s Hs Hidx Hreg. destruct (Hs) as [[i Hi] _].
    assert (getShadowNode (Some i) s = None) as Hnone
      by (by eapply Orphan_no_mirror).
    rewrite Hi. split; [done|]. intros ks parent prev next.
    assert (shouldProcessChildListMutation n parent s = false) as Hskip.
    { unfold shouldProcessChildListMutation. by rewrite Hi, Hnone. }
    assert (applyInsert (Live n ks) parent prev next false s = Returns () s) as Hins
      by (by apply applyInsert_skip).
    assert (applyRemove n parent s = Returns () s) as Hrem
      by (by apply applyRemove_skip).
    split; [done|]. split; [done|]. intros rest.
    split; cbn [applyMutations applyMutation applyAdded applyRemoved];
      cbv beta iota delta [mbind M_bind mret M_ret]; by rewrite ?Hins, ?Hrem.
Qed.

End Methods.

(** * A page, and batches observed on it *)

(** The value of [IgnoreTag] in the examples. *)
Definition tagIgnore : string := "*IGNORE*".

(** The calls that mirror the page
    [document(0) > html(1) > body(2) > K(3), B(4)] node by node, in
    document order. *)
Definition pageCalls : list Call :=
  [ CallInsertShadowNode 0 None None None;
    CallInsertShadowNode 1 (Some 0) None None;
    CallInsertShadowNode 2 (Some 1) None None;
    CallInsertShadowNode 3 (Some 2) None None;
    CallInsertShadowNode 4 (Some 2) None None ].

Definition page : LiveNode := Live 0 [Live 1 [Live 2 [Live 3 []; Live 4 []]]].

(** The object once the page is mirrored: node [n] has index [n], and the
    next index is 5. *)
Definition synced : ShadowDom := runAll false tagIgnore pageCalls newShadowDom.

(** The state in which the summary of a batch is extracted. *)
Definition beforeSummary (assertThrows : bool) (ms : list MutationRecord) : ShadowDom :=
  setRemovedAttached false
    (finalState (applyMutations assertThrows tagIgnore ms (startBatch synced))).

(** The live nodes behind a list of indices. *)
Definition liveNodes (s : ShadowDom) (l : list nat) : list Node :=
  omap (λ i, elNode ∘ fst <$> deref i s) l.

(** The class list of the mirror with index [i]. *)
Definition classesOf (i : nat) (s : ShadowDom) : option (list ClassName) :=
  classList ∘ fst <$> deref i s.

(** A node P(5) is appended to the body, K(3) is moved into P, and then
    out of it again, before P.  The observer reports five records; when
    they are processed P has no child. *)
Definition movedInAndOut : list MutationRecord :=
  [ ChildList 2 [Live 5 []] [] (Some 4) None;
    ChildList 2 [] [3] None (Some 4);
    ChildList 5 [Live 3 []] [] None None;
    ChildList 5 [] [3] None None;
    ChildList 2 [Live 3 []] [] (Some 4) (Some 5) ].

Definition pageAfterMove : LiveNode :=
  Live 0 [Live 1 [Live 2 [Live 4 []; Live 3 []; Live 5 []]]].

(** N(5) is appended to the body, removed, and appended again. *)
Definition reinserted : list MutationRecord :=
  [ ChildList 2 [Live 5 []] [] (Some 4) None;
    ChildList 2 [] [5] (Some 4) None;
    ChildList 2 [Live 5 []] [] (Some 4) None ].

(** P(5) with the children A(6) > C(8) and B(7) is appended to the body. *)
Definition subtreeInserted : list MutationRecord :=
  [ ChildList 2 [Live 5 [Live 6 [Live 8 []]; Live 7 []]] [] (Some 4) None ].

(** X(5) is appended to the body, then Y(6) is inserted before K(3). *)
Definition twoInserts : list MutationRecord :=
  [ ChildList 2 [Live 5 []] [] (Some 4) None;
    ChildList 2 [Live 6 []] [] None (Some 3) ].


(** N(5) is appended to the body and an attribute of it changes, then an
    attribute of K(3). *)
Definition insertedAndUpdated : list MutationRecord :=
  [ ChildList 2 [Live 5 []] [] (Some 4) None; Attributes 5; Attributes 3 ].

Definition oneInsert : list MutationRecord :=
  [ ChildList 2 [Live 5 []] [] (Some 4) None ].

(** P(5) > C(6) is appended to the body; a stale record then adds C to P. *)
Definition staleInsert : list MutationRecord :=
  [ ChildList 2 [Live 5 [Live 6 []]] [] (Some 4) None;
    ChildList 5 [Live 6 []] [] None None ].

(** K(3) is moved to the end of the body, then removed: it leaves the
    body, comes back after B(4), and leaves again. *)
Definition movedThenRemoved : list MutationRecord :=
  [ ChildList 2 [] [3] None (Some 4);
    ChildList 2 [Live 3 []] [] (Some 4) None;
    ChildList 2 [] [3] (Some 4) None ].

(** P(5) is appended to the body, Y(6) is inserted before K(3), and K is
    moved into P: when the records are processed P has the child K. *)
Definition abortedBatch : list MutationRecord :=
  [ ChildList 2 [Live 5 [Live 3 []]] [] (Some 4) None;
    ChildList 2 [Live 6 []] [] None (Some 3);
    ChildList 2 [] [3] (Some 6) (Some 4);
    ChildList 5 [Live 3 []] [] None None ].

(** The object after [abortedBatch]. *)
Definition afterAbort (assertThrows : bool) : ShadowDom :=
  finalState (applyMutationBatch assertThrows tagIgnore abortedBatch synced).

(** N(5) is appended to the body and removed again. *)
Definition insertedAndRemoved : list MutationRecord :=
  [ ChildList 2 [Live 5 []] [] (Some 4) None;
    ChildList 2 [] [5] (Some 4) None ].


(** The state of a batch after the record that takes B(4) out of the
    body, when B is moved before K(3). *)
Definition takenOut : ShadowDom :=
  finalState (applyMutations false tagIgnore
                [ChildList 2 [] [4] (Some 3) None] (startBatch synced)).

(** The mirror of node [n] on the mirrored page. *)
Definition plain (n : nat) : IShadowDomNode :=
  {| elId := n; elNode := n; elLayout := None; elIgnore := false; classList := [] |}.

Definition emptySummary : IShadowDomMutationSummary :=
  {| newNodes := []; movedNodes := []; updatedNodes := []; removedSummary := [] |}.

(** The children of the mirror of the body on the mirrored page. *)
Definition bodyKids : Forest := Cons (plain 3) Nil (Cons (plain 4) Nil Nil).


(** The subtree P(5) > (A(6) > C(8)), B(7) of [subtreeInserted]. *)
Definition subtree : LiveNode := Live 5 [Live 6 [Live 8 []]; Live 7 []].

(** Records about a node (9) that was never mirrored. *)
Definition unknownRecords : list MutationRecord :=
  [ Attributes 9; CharacterData 9; ChildList 2 [] [9] (Some 4) None ].

(** An attribute of K(3) changes twice, and the text of B(4) once. *)
Definition updateRecords : list MutationRecord :=
  [ Attributes 3; CharacterData 4; Attributes 3 ].

(** P(5) > C(6) and Q(7), added together between K(3) and B(4). *)
Definition addedSiblings : list LiveNode := [Live 5 [Live 6 []]; Live 7 []].

(** The mirrored page after an insert of X(6) under a parent (9) that was
    never mirrored. *)
Definition orphaned : ShadowDom :=
  runAll false tagIgnore (pageCalls ++ [CallInsertShadowNode 6 (Some 9) None None])
    newShadowDom.


Lemma Registry_synced : Registry synced.
Proof. apply Registry_runAll, Registry_new. Qed.

Lemma WF_synced : WF synced.
Proof.
  split.
  - apply (bool_decide_unpack _). vm_compute. exact I.
  - apply Forall_forall. apply (bool_decide_unpack _). vm_compute. exact I.
Qed.

(** C1. On the mirrored page the validator returns true; after the batch
    [movedInAndOut] it returns false: the record that moves K out of P,
    and the one that puts it back into the body, are skipped because the
    mirror of K lies under a mirror tagged [cl-final], so the mirror keeps
    K inside P while the page has it before P. *)
Theorem moved_in_and_out_breaks_mirror :
  returned (mirrorsRealDom false page synced) = Some true ∧
  returned ((applyMutationBatch false tagIgnore movedInAndOut;;
             mirrorsRealDom false pageAfterMove) synced) = Some false ∧
  returned ((applyMutationBatch true tagIgnore movedInAndOut;;
             mirrorsRealDom true pageAfterMove) synced) = Some false ∧
  parentNode 3 (finalState (applyMutationBatch false tagIgnore movedInAndOut synced))
  = Some (Elem 5).
Proof. vm_compute. done. Qed.

(** ** Inputs on which the statements of the specification fail *)

(** Against C2 as it is stated: a node that is inserted, removed and
    inserted again in one batch is first seen and removed in that batch, and
    the summary lists it as new. *)
Lemma reinserted_node_is_new :
  newNodes <$> returned (applyMutationBatch false tagIgnore reinserted synced)
  = Some [5] ∧
  newNodes <$> returned (applyMutationBatch true tagIgnore reinserted synced)
  = Some [5].
Proof. vm_compute. done. Qed.

(** Against C3 as it is stated: of the inserted subtree P > (A > C), B the
    summary lists P, B, A, C, not P, A, C, B; and of two subtrees it lists
    first the one that is first in the document, not the one inserted first. *)
Lemma new_nodes_not_depth_first :
  (let o := applyMutationBatch false tagIgnore subtreeInserted synced in
   (λ sum, liveNodes (finalState o) (newNodes sum)) <$> returned o)
  = Some [5; 7; 6; 8] ∧
  (let o := applyMutationBatch false tagIgnore twoInserts synced in
   (λ sum, liveNodes (finalState o) (newNodes sum)) <$> returned o)
  = Some [6; 5].
Proof. vm_compute. done. Qed.



(** Against C6 as it is stated: the node inserted and updated in one batch
    is listed as new and as updated, and K, which was tagged after it, is
    listed before it. *)
Lemma new_node_listed_as_updated :
  (λ sum, (newNodes sum, updatedNodes sum)) <$>
    returned (applyMutationBatch false tagIgnore insertedAndUpdated synced)
  = Some ([5], [3; 5]).
Proof. vm_compute. done. Qed.

(** Against C7 as it is stated: the inserted node still carries [cl-new-top]
    when the batch has returned. *)
Lemma top_new_survives_batch :
  classesOf 5 (finalState (applyMutationBatch false tagIgnore oneInsert synced))
  = Some [TopNewNodeClassName].
Proof. vm_compute. done. Qed.

(** Against C8 as it is stated: a record that adds a node with an index is
    skipped when the mirror of the node lies under a mirror tagged [cl-
    final]; and a node that is moved and then removed is not listed as
    moved. *)
Lemma known_node_not_listed_as_moved :
  (λ sum, (newNodes sum, movedNodes sum)) <$>
    returned (applyMutationBatch false tagIgnore staleInsert synced)
  = Some ([5; 6], []) ∧
  (λ sum, (movedNodes sum, removedSummary sum)) <$>
    returned (applyMutationBatch false tagIgnore movedThenRemoved synced)
  = Some ([], [3]).
Proof. vm_compute. done. Qed.

(** Against C10 as it is stated: the discovery of P moves the mirror of K
    under the mirror of P, so the insertion of Y before K throws
    [NotFoundError] and the batch stops with [classifyNodes] still set; a
    node inserted after that, outside any batch, is tagged. *)
Lemma flag_survives_aborted_batch :
  (applyMutationBatch false tagIgnore abortedBatch synced
   = Throws NotFoundError (afterAbort false) ∧
   classifyNodes (afterAbort false) = true ∧
   classesOf 7 (run false tagIgnore (CallInsertShadowNode 7 (Some 2) None None)
                  (afterAbort false))
   = Some [NewNodeClassName; TopNewNodeClassName]) ∧
  (applyMutationBatch true tagIgnore abortedBatch synced
   = Throws NotFoundError (afterAbort true) ∧
   classifyNodes (afterAbort true) = true ∧
   classesOf 7 (run true tagIgnore (CallInsertShadowNode 7 (Some 2) None None)
                  (afterAbort true))
   = Some [NewNodeClassName; TopNewNodeClassName]).
Proof. vm_compute. done. Qed.

(** ** The theorems at work on the page *)

Lemma setNodeIndex_assigns_once_witness :
  Registry synced ∧
  ∃ index s', setNodeIndex 7 synced = Returns index s' ∧
              getNodeIndex (Some 7) s' = Some index.
Proof.
  split; [exact Registry_synced|].
  destruct (setNodeIndex_assigns_once false tagIgnore synced 7 Registry_synced)
    as (index & s' & Hrun & _ & _ & Hget & _).
  exists index, s'. by split.
Defined.



Lemma new_nodes_order_witness :
  NoDup (allIds (beforeSummary false subtreeInserted)) ∧
  ∃ sum s', getMutationSummary (beforeSummary false subtreeInserted) = Returns sum s' ∧
            NoDup (newNodes sum).
Proof.
  assert (NoDup (allIds (beforeSummary false subtreeInserted))) as H.
  { apply (bool_decide_unpack _). vm_compute. exact I. }
  split; [exact H|].
  destruct (new_nodes_order (beforeSummary false subtreeInserted) H eq_refl)
    as (sum & s' & Hrun & _ & Hnd & _).
  exists sum, s'. split; [exact Hrun | exact Hnd].
Defined.

Lemma updated_nodes_list_witness :
  NoDup (allIds (beforeSummary false insertedAndUpdated)) ∧
  ∃ sum s', getMutationSummary (beforeSummary false insertedAndUpdated) = Returns sum s' ∧
            ∀ i, i ∈ movedNodes sum → i ∉ updatedNodes sum.
Proof.
  assert (NoDup (allIds (beforeSummary false insertedAndUpdated))) as H.
  { apply (bool_decide_unpack _). vm_compute. exact I. }
  split; [exact H|].
  destruct (updated_nodes_list (beforeSummary false insertedAndUpdated) H eq_refl)
    as (sum & s' & Hrun & _ & _ & _ & _ & Hdisj & _).
  exists sum, s'. split; [exact Hrun | exact Hdisj].
Defined.

Lemma batch_clears_tags_witness :
  WF synced ∧
  removedNodes (finalState (applyMutationBatch false tagIgnore oneInsert synced)) = Nil ∧
  classifyNodes (finalState (applyMutationBatch false tagIgnore oneInsert synced)) = false.
Proof.
  split; [exact WF_synced|].
  destruct (batch_clears_tags false tagIgnore oneInsert synced WF_synced
              (proj1 Registry_synced)) as (_ & _ & Hret).
  destruct (Hret {| newNodes := [5]; movedNodes := []; updatedNodes := [];
                    removedSummary := [] |}
              (finalState (applyMutationBatch false tagIgnore oneInsert synced)))
    as (H1 & _ & H2 & _).
  { vm_compute. reflexivity. }
  split; [exact H1 | exact H2].
Defined.

Lemma cancelled_insert_not_reported_witness :
  applyMutationBatch false tagIgnore insertedAndRemoved synced
  = Returns emptySummary
      (finalState (applyMutationBatch false tagIgnore insertedAndRemoved synced)) ∧
  5 ∈ ids (removedNodes (finalState (applyMutations false tagIgnore insertedAndRemoved
                                        (startBatch synced)))) ∧
  5 < nextIndex (finalState (applyMutationBatch false tagIgnore insertedAndRemoved synced)).
Proof.
  assert (applyMutationBatch false tagIgnore insertedAndRemoved synced
          = Returns emptySummary
              (finalState (applyMutationBatch false tagIgnore insertedAndRemoved synced)))
    as Hrun by (vm_compute; reflexivity).
  assert (5 ∈ ids (removedNodes (finalState
            (applyMutations false tagIgnore insertedAndRemoved (startBatch synced)))))
    as Hheld by (apply (bool_decide_unpack _); vm_compute; exact I).
  assert (nextIndex synced ≤ 5) as Hle by (vm_compute; lia).
  split; [exact Hrun|]. split; [exact Hheld|].
  destruct (cancelled_insert_not_reported false tagIgnore insertedAndRemoved synced _ _ 5
              WF_synced Registry_synced Hrun Hle Hheld) as (_ & _ & _ & Hlt & _).
  exact Hlt.
Defined.

Lemma known_node_is_moved_witness :
  ∃ s', applyInsert false tagIgnore (Live 4 []) 2 None (Some 3) false takenOut
        = Returns () s' ∧
        parentNode 4 s' = Some (Elem 2) ∧ nextSiblingOf 4 s' = Some 3.
Proof.
  destruct (known_node_is_moved false tagIgnore takenOut (Live 4 []) 2 None
              (Some 3) false 4 (plain 4) (plain 2) Nil (Cons (plain 3) Nil Nil))
    as (s' & e' & Hrun & _ & _ & _ & _ & _ & _ & _ & Hpar & Hsib & _).
  - apply (bool_decide_unpack _). vm_compute. exact I.
  - vm_compute. reflexivity.
  - vm_compute. reflexivity.
  - vm_compute. reflexivity.
  - vm_compute. reflexivity.
  - vm_compute. reflexivity.
  - right. vm_compute. reflexivity.
  - apply (bool_decide_unpack _). vm_compute. exact I.
  - vm_compute. lia.
  - apply not_elem_of_nil.
  - intros re rk H. vm_compute in H. injection H as <- <-.
    split; [vm_compute; lia | vm_compute; reflexivity].
  - exists s'. split; [exact Hrun|]. split; [exact Hpar|].
    rewrite Hsib. vm_compute. reflexivity.
Defined.

Lemma Indexed_synced : Indexed synced.
Proof. apply Indexed_runAll, Indexed_new. Qed.

Lemma cleared_synced : cleared synced.
Proof.
  intros e c He Hc. revert e He. apply Forall_forall.
  destruct c; try done; apply (bool_decide_unpack _); vm_compute; exact I.
Qed.

Lemma WF_newShadowDom : WF newShadowDom.
Proof.
  split.
  - apply (bool_decide_unpack _). vm_compute. exact I.
  - apply Forall_forall. apply (bool_decide_unpack _). vm_compute. exact I.
Qed.

Lemma CanInsert_subtree :
  CanInsert (startBatch synced) subtree 2 None false (plain 2) bodyKids.
Proof.
  split.
  - reflexivity.
  - apply (bool_decide_unpack _). vm_compute. exact I.
  - apply Forall_forall. apply (bool_decide_unpack _). vm_compute. exact I.
  - apply (bool_decide_unpack _). vm_compute. exact I.
  - apply Forall_forall. apply (bool_decide_unpack _). vm_compute. exact I.
  - vm_compute. reflexivity.
  - vm_compute. reflexivity.
  - apply (bool_decide_unpack _). vm_compute. exact I.
  - right. vm_compute. reflexivity.
  - intros re rk H. vm_compute in H. discriminate H.
Qed.

Lemma class_list_round_trip_witness :
  is_Some (deref 3 synced) ∧
  hasClass (Some (Elem 3)) MovedNodeClassName
    (finalState (setClass (Some (Elem 3)) MovedNodeClassName synced)) = true ∧
  hasClass (Some (Elem 3)) MovedNodeClassName
    (finalState (removeClass (Some (Elem 3)) MovedNodeClassName synced)) = false.
Proof.
  assert (is_Some (deref 3 synced)) as H by (vm_compute; eexists; reflexivity).
  split; [exact H|].
  destruct (class_list_round_trip synced 3 MovedNodeClassName H) as (H1 & H2 & _).
  split; [exact H1 | exact H2].
Defined.

Lemma summary_is_consumed_witness :
  NoDup (allIds (beforeSummary false movedThenRemoved)) ∧
  ∃ sum s',
    getMutationSummary (beforeSummary false movedThenRemoved) = Returns sum s' ∧
    getMutationSummary s'
    = Returns {| newNodes := []; movedNodes := []; updatedNodes := [];
                 removedSummary := removedSummary sum |} s'.
Proof.
  assert (NoDup (allIds (beforeSummary false movedThenRemoved))) as H.
  { apply (bool_decide_unpack _). vm_compute. exact I. }
  split; [exact H|].
  destruct (summary_is_consumed (beforeSummary false movedThenRemoved) H eq_refl)
    as (sum & s' & H1 & _ & H2).
  exists sum, s'. split; [exact H1 | exact H2].
Defined.

Lemma unknown_targets_are_ignored_witness :
  Forall (unknownTarget (startBatch synced)) unknownRecords ∧
  applyMutations false tagIgnore unknownRecords (startBatch synced)
  = Returns () (startBatch synced).
Proof.
  assert (Forall (unknownTarget (startBatch synced)) unknownRecords) as H.
  { unfold unknownRecords.
    constructor; [vm_compute; reflexivity|].
    constructor; [vm_compute; reflexivity|].
    constructor; [|constructor].
    split; [reflexivity|]. constructor; [vm_compute; reflexivity | constructor]. }
  split; [exact H|].
  exact (proj1 (unknown_targets_are_ignored false tagIgnore (startBatch synced)
                  unknownRecords H)).
Defined.

Lemma mirror_ids_are_registry_indices_witness :
  Indexed synced ∧ ∀ e, e ∈ allElements synced → elId e < nextIndex synced.
Proof.
  destruct (mirror_ids_are_registry_indices false tagIgnore pageCalls)
    as (_ & H1 & H2 & _).
  split; [exact H1 | exact H2].
Defined.


Lemma updateShadowNode_changes_payload_only_witness :
  NoDup (allIds synced) ∧
  ∃ s', updateShadowNode false tagIgnore (Some 3) None synced = Returns () s' ∧
        s' = synced.
Proof.
  destruct (updateShadowNode_changes_payload_only false tagIgnore synced 3 None
              (proj1 WF_synced)) as [H _].
  destruct (H (plain 3) Nil) as (s' & Hrun & _ & _ & _ & _ & _ & _ & _ & _ & Hsame).
  { vm_compute. reflexivity. }
  split; [exact (proj1 WF_synced)|]. exists s'. split; [exact Hrun|]. apply Hsame; reflexivity.
Defined.

Lemma moveShadowNode_refuses_witness :
  NoDup (allIds synced) ∧
  moveShadowNode false (Some 2) (Some 3) None synced
  = Throws HierarchyRequestError (taggedForMove 2 3 synced) ∧
  moveShadowNode false (Some 3) (Some 1) (Some 4) synced
  = Throws NotFoundError (taggedForMove 3 1 synced).
Proof.
  split; [exact (proj1 WF_synced)|]. split.
  - destruct (moveShadowNode_refuses false synced 2 (Some 3) None (plain 2) (plain 3)
                bodyKids Nil (proj1 WF_synced)) as (_ & _ & H & _);
      [vm_compute; reflexivity | vm_compute; reflexivity |].
    apply H. right. apply (bool_decide_unpack _). vm_compute. exact I.
  - destruct (moveShadowNode_refuses false synced 3 (Some 1) (Some 4) (plain 3) (plain 1)
                Nil (Cons (plain 2) bodyKids Nil) (proj1 WF_synced)) as (_ & _ & _ & H);
      [vm_compute; reflexivity | vm_compute; reflexivity |].
    apply (H ltac:(vm_compute; lia) (not_elem_of_nil _) (plain 4) Nil).
    + vm_compute. reflexivity.
    + vm_compute. discriminate.
Defined.

Lemma removeShadowNode_holds_the_subtree_witness :
  NoDup (allIds synced) ∧
  ∃ s', removeShadowNode false (Some 2) synced = Returns () s' ∧
        deref 2 s' = Some (plain 2, bodyKids) ∧
        parentNode 2 s' = Some RemovedDiv.
Proof.
  split; [exact (proj1 WF_synced)|].
  destruct (removeShadowNode_holds_the_subtree false synced 2 (plain 2) bodyKids
              (proj1 WF_synced))
    as (s' & Hrun & _ & _ & _ & _ & _ & Hd & Hp & _).
  { vm_compute. reflexivity. }
  exists s'. split; [exact Hrun|]. split; [exact Hd | exact Hp].
Defined.

Lemma insertShadowNode_round_trip_witness :
  WF synced ∧
  ∃ s', insertShadowNode false tagIgnore 7 (Some 2) (Some 3) None synced
        = Returns (Some (Elem (nextIndex synced))) s' ∧
        getNodeIndex (Some 7) s' = Some (nextIndex synced) ∧
        parentNode (nextIndex synced) s' = Some (Elem 2) ∧
        nextSiblingOf (nextIndex synced) s' = Some 3.
Proof.
  split; [exact WF_synced|].
  destruct (insertShadowNode_round_trip false tagIgnore synced 7 (Some 2) (Some 3) None
              (plain 2) bodyKids WF_synced (proj1 Registry_synced))
    as (s' & e' & Hrun & Hidx & _ & _ & _ & _ & _ & _ & _ & _ & Hpar & Hsib & _).
  - vm_compute. reflexivity.
  - vm_compute. lia.
  - vm_compute. reflexivity.
  - apply (bool_decide_unpack _). vm_compute. exact I.
  - intros re rk H. vm_compute in H. injection H as <- <-. vm_compute. reflexivity.
  - exists s'. split; [exact Hrun|]. split; [exact Hidx|]. split; [exact Hpar|].
    rewrite Hsib. vm_compute. reflexivity.
Defined.

Lemma insertShadowNode_document_witness :
  WF newShadowDom ∧
  ∃ s', insertShadowNode false tagIgnore document None None None newShadowDom
        = Returns (Some (Elem 0)) s' ∧
        shadowDocument s' = Some 0 ∧ parentNode 0 s' = Some RootDiv.
Proof.
  split; [exact WF_newShadowDom|].
  destruct (insertShadowNode_document false tagIgnore newShadowDom None None None
              WF_newShadowDom (proj1 Registry_new))
    as (s' & e' & Hrun & Hdoc & _ & _ & _ & _ & _ & _ & _ & _ & Hpar & _).
  - vm_compute. reflexivity.
  - intros re rk H. vm_compute in H. discriminate H.
  - exists s'. split; [exact Hrun|]. split; [exact Hdoc | exact Hpar].
Defined.

Lemma inserted_subtree_is_mirrored_witness :
  CanInsert (startBatch synced) subtree 2 None false (plain 2) bodyKids ∧
  ∃ s' r,
    applyInsert false tagIgnore subtree 2 (Some 4) None false (startBatch synced)
    = Returns () s' ∧
    getShadowNode (getNodeIndex (Some (handle subtree)) s') s' = Some r ∧
    liveTree r = subtree ∧ WF s'.
Proof.
  split; [exact CanInsert_subtree|].
  destruct (inserted_subtree_is_mirrored false tagIgnore (startBatch synced) subtree 2
              (Some 4) None false (plain 2) bodyKids CanInsert_subtree)
    as (s' & r & Hrun & Hget & Hlive & _ & _ & _ & _ & _ & _ & _ & _ & Hwf).
  exists s', r. split; [exact Hrun|]. split; [exact Hget|].
  split; [exact Hlive | exact Hwf].
Defined.

Lemma removal_is_reported_witness :
  cleared synced ∧
  ∃ s', applyMutationBatch false tagIgnore [ChildList 2 [] [3] None (Some 4)] synced
        = Returns {| newNodes := []; movedNodes := []; updatedNodes := [];
                     removedSummary := [3] |} s' ∧
        getShadowNode (Some 3) s' = None.
Proof.
  split; [exact cleared_synced|].
  destruct (removal_is_reported false tagIgnore synced 2 3 None (Some 4) 3 (plain 3) Nil
              (proj1 WF_synced) cleared_synced)
    as (s' & Hrun & _ & _ & _ & _ & _ & Hgone).
  - vm_compute. reflexivity.
  - vm_compute. reflexivity.
  - vm_compute. reflexivity.
  - exists s'. split; [exact Hrun|]. apply Hgone. left.
Defined.

Lemma updates_are_reported_witness :
  Forall (updateRecord synced) updateRecords ∧
  ∃ s', applyMutationBatch false tagIgnore updateRecords synced
        = Returns {| newNodes := []; movedNodes := []; updatedNodes := [3; 4];
                     removedSummary := [] |} s' ∧
        classifyNodes s' = false.
Proof.
  assert (Forall (updateRecord synced) updateRecords) as H.
  { unfold updateRecords.
    repeat (constructor;
            [intros i Hi; vm_compute in Hi; injection Hi as <-;
             apply (bool_decide_unpack _); vm_compute; exact I|]).
    constructor. }
  split; [exact H|].
  destruct (updates_are_reported false tagIgnore synced updateRecords (proj1 WF_synced)
              cleared_synced) as (s' & Hrun & _ & _ & Hcls & _).
  - vm_compute. reflexivity.
  - exact H.
  - exists s'. split; [|exact Hcls]. rewrite Hrun. vm_compute. reflexivity.
Defined.

Lemma insertion_is_reported_witness :
  CanInsert (startBatch synced) subtree 2 None false (plain 2) bodyKids ∧
  ∃ sum s' r,
    applyMutationBatch false tagIgnore subtreeInserted synced = Returns sum s' ∧
    newNodes sum ≡ₚ seq (nextIndex synced) (length (traverseNodeTree subtree)) ∧
    getShadowNode (getNodeIndex (Some (handle subtree)) s') s' = Some r ∧
    liveTree r = subtree.
Proof.
  split; [exact CanInsert_subtree|].
  destruct (insertion_is_reported false tagIgnore synced subtree 2 (Some 4) None
              (plain 2) bodyKids cleared_synced)
    as (sum & s' & r & Hrun & Hnew & _ & _ & _ & Hget & Hlive & _).
  - vm_compute. reflexivity.
  - exact CanInsert_subtree.
  - exists sum, s', r. split; [exact Hrun|]. split; [exact Hnew|].
    split; [exact Hget | exact Hlive].
Defined.

Lemma added_nodes_keep_their_order_witness :
  CanAdd (startBatch synced) addedSiblings 2 (Some 4) (plain 2) bodyKids ∧
  ∃ s' pk',
    applyMutations false tagIgnore [ChildList 2 addedSiblings [] (Some 3) (Some 4)]
      (startBatch synced)
    = Returns () s' ∧
    getShadowNode (Some 2) s' = Some (plain 2, pk') ∧
    liveForest pk' = [Live 3 []; Live 5 [Live 6 []]; Live 7 []; Live 4 []].
Proof.
  assert (CanAdd (startBatch synced) addedSiblings 2 (Some 4) (plain 2) bodyKids) as H.
  { split.
    - reflexivity.
    - apply (bool_decide_unpack _). vm_compute. exact I.
    - apply Forall_forall. apply (bool_decide_unpack _). vm_compute. exact I.
    - apply (bool_decide_unpack _). vm_compute. exact I.
    - apply Forall_forall. apply (bool_decide_unpack _). vm_compute. exact I.
    - vm_compute. reflexivity.
    - vm_compute. reflexivity.
    - vm_compute. reflexivity.
    - intros re rk Hn. vm_compute in Hn. injection Hn as <- <-.
      vm_compute. reflexivity. }
  split; [exact H|].
  destruct (added_nodes_keep_their_order false tagIgnore (startBatch synced)
              addedSiblings 2 (Some 3) (Some 4) (plain 2) bodyKids H)
    as (s' & pk' & Hrun & Hget & _ & _ & Hlive & _).
  exists s', pk'. split; [exact Hrun|]. split; [exact Hget|].
  rewrite Hlive. vm_compute. reflexivity.
Defined.

Lemma registered_node_is_never_mirrored_witness :
  Orphan 6 orphaned ∧
  Orphan 6 (run false tagIgnore
              (CallApplyMutationBatch [ChildList 2 [Live 6 []] [] (Some 4) None])
              orphaned) ∧
  applyInsert false tagIgnore (Live 6 []) 2 (Some 4) None false orphaned
  = Returns () orphaned.
Proof.
  destruct (registered_node_is_never_mirrored false tagIgnore 6) as (H1 & H2 & H3).
  assert (Orphan 6 orphaned) as Horph.
  { destruct (H1 synced (Some 9) None None Indexed_synced) as (_ & Horph & _).
    - vm_compute. reflexivity.
    - vm_compute. lia.
    - vm_compute. reflexivity.
    - assert (orphaned
              = addReport ("insertShadowNode", "parent is missing")
                  (setRegistry (S (nextIndex synced))
                     (<[6 := nextIndex synced]> (nodeIndex synced)) synced)) as ->
        by (vm_compute; reflexivity).
      exact Horph. }
  assert (Indexed orphaned) as HI by apply Indexed_runAll, Indexed_new.
  assert (Registry orphaned) as HR by apply Registry_runAll, Registry_new.
  split; [exact Horph|]. split.
  - apply (H2 orphaned
             (CallApplyMutationBatch [ChildList 2 [Live 6 []] [] (Some 4) None]) Horph).
    intros p nx l. discriminate.
  - destruct (H3 orphaned Horph HI HR) as [_ H4].
    destruct (H4 [] 2 (Some 4) None) as [Hins _]. exact Hins.
Defined.

